(** * Sensei: a shallow embedding of the feature universe, the batch
    majorizer, the SGD regularisation pass, exploration and pruning.

    Conventions of the embedding.

    - [uint32] values (feature indices J, counters) are numbers in [N]; where
      the C++ code can wrap around, the reduction modulo 2^32 is written out.
      Vectors are lists, indexed through [N.to_nat]; reading or writing
      outside a vector is undefined behaviour in C++ and is [None] here, as
      is a failing [CHECK].
    - A [Double] is a rational ([Q]).  In the batch optimizer
      (sensei/optimizers.h) every operation on doubles is followed by a
      rounding [fl], a parameter of the definitions: the rounding to the
      nearest double in the program, the identity in arithmetic without
      rounding.  Elsewhere (the dot product of a row, the SGD pass, the
      scores) the arithmetic is exact.  Overflow and NaN are outside the
      model.  The two fields and the score vector that the code compares
      with, or sets to, [kInfinity] use [ExtDouble], rationals extended with
      plus infinity.
    - [std::priority_queue] is a library component; it is modelled by its
      contract (a record of operations and laws), together with one list
      based instance used to run examples. *)

From Stdlib Require Import ZArith NArith QArith Qabs Qminmax Qround Lia Lqa List Bool Permutation.
From stdpp Require Import base option list gmap strings sorting.

Local Open Scope N_scope.

(** ** sensei/common.h *)

Definition J := N.

Definition uint32_modulus : N := 4294967296.

(** [static_cast<uint32>(x)] *)
Definition to_uint32 (x : N) : N := x mod uint32_modulus.

(** [static const uint32 kInvalidJ = static_cast<uint32>(-1);] *)
Definition kInvalidJ : N := 4294967295.

(** [v[j]] for a [vector<T>] and a [uint32] index. *)
Definition vget {A : Type} (v : list A) (j : N) : option A := v !! N.to_nat j.

(** [v[j] = x]; out of range is undefined behaviour. *)
Definition vset {A : Type} (v : list A) (j : N) (x : A) : option (list A) :=
  if decide (N.to_nat j < length v)%nat then Some (<[N.to_nat j := x]> v) else None.

(** [CHECK(b)]: the process aborts when [b] is false. *)
Definition CHECK (b : bool) : option unit := if b then Some tt else None.

(** [typedef double Double;]: the value of a double. *)
Definition Double := Q.

Definition Qltb (x y : Q) : bool :=
  match (x ?= y)%Q with Lt => true | _ => false end.

Definition Qgtb (x y : Q) : bool := Qltb y x.

(** [x == y] and [x != y] on doubles *)
Definition Qeqb (x y : Q) : bool := Qeq_bool x y.

(** [inline Double Sign(Double x) { return (x > 0) - (x < 0); }] *)
Definition Sign (x : Q) : Q :=
  ((if Qgtb x 0 then 1 else 0) - (if Qltb x 0 then 1 else 0))%Q.

(** [fabs] *)
Definition fabs (x : Q) : Q := Qabs x.

(** [std::max<Double>(a, b)] is [(a < b) ? b : a]; [std::min<Double>(a, b)] is
    [(b < a) ? b : a]. *)
Definition std_max (a b : Q) : Q := if Qltb a b then b else a.
Definition std_min (a b : Q) : Q := if Qltb b a then b else a.

(** [kEpsilon = std::numeric_limits<double>::epsilon()], that is 2^-52. *)
Definition kEpsilon : Q := 1 # 4503599627370496.

(** A double that the code compares with [kInfinity] or sets to it. *)
Inductive ExtDouble := Finite (q : Q) | kInfinity.

(** [x > y], [x == y] on such doubles. *)
Definition ext_gtb (x y : ExtDouble) : bool :=
  match x, y with
  | Finite a, Finite b => Qgtb a b
  | kInfinity, Finite _ => true
  | _, kInfinity => false
  end.

Definition ext_eqb (x y : ExtDouble) : bool :=
  match x, y with
  | Finite a, Finite b => Qeqb a b
  | kInfinity, kInfinity => true
  | _, _ => false
  end.

Definition uint64_modulus : N := 18446744073709551616.
Definition to_uint64 (x : N) : N := x mod uint64_modulus.

(** A [uint32] or [uint64] converted to [double]. *)
Definition N_to_double (n : N) : Q := inject_Z (Z.of_N n).

(** [for (uint32 j : Range(n)) body], threading the state and stopping at
    the first failure. *)
Fixpoint for_each {A S : Type} (body : A -> S -> option S) (items : list A) (s : S)
  : option S :=
  match items with
  | [] => Some s
  | x :: rest => s' ← body x s; for_each body rest s'
  end.

Definition for_range {S : Type} (n : nat) (body : nat -> S -> option S) (s : S)
  : option S :=
  for_each body (seq 0 n) s.

(** ** sensei/j_renumbering.h *)

Module JRenumbering.

Record t := mk { j_to_new_j : list N; next_j : N }.

(** [SetInvalid(j)]: [CHECK_LT(j, j_to_new_j_.size()); j_to_new_j_[j] = kInvalidJ;] *)
Definition SetInvalid (j : N) (r : t) : option t :=
  _ ← CHECK (bool_decide (N.to_nat j < length (j_to_new_j r))%nat);
  v ← vset (j_to_new_j r) j kInvalidJ;
  Some (mk v (next_j r)).

(** The body of [FillJToNewJ]: the loop walks the entries by reference;
    [next_j_++] is a [uint32] increment. *)
Fixpoint FillJToNewJ_loop (v : list N) (next : N) : option (list N * N) :=
  match v with
  | [] => Some ([], next)
  | new_j :: rest =>
      _ ← CHECK ((new_j =? 0) || (new_j =? kInvalidJ));
      if new_j =? 0 then
        '(rest', next') ← FillJToNewJ_loop rest (to_uint32 (next + 1));
        Some (next :: rest', next')
      else
        '(rest', next') ← FillJToNewJ_loop rest next;
        Some (new_j :: rest', next')
  end.

Definition FillJToNewJ (r : t) : option t :=
  '(v, next) ← FillJToNewJ_loop (j_to_new_j r) (next_j r);
  Some (mk v next).

(** [for (const uint32 j : Range(js_to_remove.size())) if (js_to_remove[j]) SetInvalid(j);] *)
Fixpoint RemoveJs_loop (js_to_remove : list bool) (js : list nat) (r : t) : option t :=
  match js with
  | [] => Some r
  | j :: js' =>
      b ← js_to_remove !! j;
      r' ← (if b : bool then SetInvalid (N.of_nat j) r else Some r);
      RemoveJs_loop js_to_remove js' r'
  end.

(** The named constructor [RemoveJs]. *)
Definition RemoveJs (js_to_remove : list bool) : option t :=
  let size := length js_to_remove in
  r ← RemoveJs_loop js_to_remove
        (seq 0 (N.to_nat (to_uint32 (N.of_nat size))))
        (mk (replicate size 0) 0);
  FillJToNewJ r.

(** [IsNoOp] *)
Definition IsNoOp (r : t) : bool :=
  forallb (fun j => bool_decide (j_to_new_j r !! j = Some (N.of_nat j)))
          (seq 0 (length (j_to_new_j r))).

(** [RemoveAndRenumberJsTo] writes the renumbered row in place and returns
    the number of entries kept: an entry that maps to [kInvalidJ] is
    overwritten by the next one. *)
Fixpoint RemoveAndRenumberJsTo (r : t) (in_js : list N) : option (list N) :=
  match in_js with
  | [] => Some []
  | j :: rest =>
      new_j ← vget (j_to_new_j r) j;
      out ← RemoveAndRenumberJsTo r rest;
      Some (if new_j =? kInvalidJ then out else new_j :: out)
  end.

(** [NewJToOldJ] *)
Fixpoint NewJToOldJ_loop (r : t) (old_js : list nat) (ret : list N) : option (list N) :=
  match old_js with
  | [] => Some ret
  | old_j :: rest =>
      new_j ← j_to_new_j r !! old_j;
      ret' ← (if new_j =? kInvalidJ then Some ret
              else vset ret new_j (N.of_nat old_j));
      NewJToOldJ_loop r rest ret'
  end.

Definition NewJToOldJ (r : t) : option (list N) :=
  NewJToOldJ_loop r (seq 0 (length (j_to_new_j r)))
                  (replicate (N.to_nat (next_j r)) kInvalidJ).

(** [RenumberIndicies]: [new_v] is value-initialised ([dflt]), then every
    surviving entry is moved to its new index. *)
Fixpoint RenumberIndicies_loop {A : Type} (r : t) (v : list A) (j : nat)
    (new_v : list A) : option (list A) :=
  match v with
  | [] => Some new_v
  | x :: rest =>
      new_j ← j_to_new_j r !! j;
      new_v' ← (if new_j =? kInvalidJ then Some new_v else vset new_v new_j x);
      RenumberIndicies_loop r rest (S j) new_v'
  end.

Definition RenumberIndicies {A : Type} (dflt : A) (r : t) (v : list A) : option (list A) :=
  match j_to_new_j r with
  | [] => Some v
  | _ => RenumberIndicies_loop r v 0 (replicate (N.to_nat (next_j r)) dflt)
  end.

End JRenumbering.

(** The number of J's that a removal vector keeps. *)
Fixpoint count_kept (js_to_remove : list bool) : N :=
  match js_to_remove with
  | [] => 0
  | b :: rest => (if b : bool then 0 else 1) + count_kept rest
  end.

(** The entries after the marking loop of [RemoveJs]. *)
Definition marked (js_to_remove : list bool) : list N :=
  (fun b : bool => if b then kInvalidJ else 0) <$> js_to_remove.

(** What the specification asks of the renumbering built from a removal
    vector: removed J's map to [INVALID_J]; kept J's map into [0, next_j),
    onto it, and in increasing order. *)
Definition compacts (js_to_remove : list bool) (r : JRenumbering.t) : Prop :=
  length (JRenumbering.j_to_new_j r) = length js_to_remove /\
  (forall j, js_to_remove !! j = Some true ->
     JRenumbering.j_to_new_j r !! j = Some kInvalidJ) /\
  (forall j, js_to_remove !! j = Some false ->
     exists n, JRenumbering.j_to_new_j r !! j = Some n /\
               n < JRenumbering.next_j r /\ n <> kInvalidJ) /\
  (forall n, n < JRenumbering.next_j r ->
     exists j, js_to_remove !! j = Some false /\
               JRenumbering.j_to_new_j r !! j = Some n) /\
  (forall j1 j2 n1 n2, (j1 < j2)%nat ->
     js_to_remove !! j1 = Some false -> js_to_remove !! j2 = Some false ->
     JRenumbering.j_to_new_j r !! j1 = Some n1 ->
     JRenumbering.j_to_new_j r !! j2 = Some n2 ->
     n1 < n2).

(** ** sensei/containers/concurrent_hash_map.h and sensei/feature_map.h *)

(** The number of non-null pointers in a vector of pointers. *)
Fixpoint filled {A : Type} (v : list (option A)) : nat :=
  match v with
  | [] => 0
  | Some _ :: rest => S (filled rest)
  | None :: rest => filled rest
  end.

Module FeatureMapBase.
Section WithFeature.
Context {Feature : Type} `{EqDecision Feature}.

(** [class FeatureAndJ]: the key, its J (the link field is not modelled). *)
Record FeatureAndJ := mkFeatureAndJ { GetFeature : Feature; GetJ : N }.

(** [unordered_map<Key, Element*> contents_], listed in iteration order; a
    null element pointer is [None].  The C++ standard leaves the iteration
    order of an [unordered_map] open; here a new key is put last. *)
Definition Map : Type := list (Feature * option FeatureAndJ).

Fixpoint find (m : Map) (key : Feature) : option (option FeatureAndJ) :=
  match m with
  | [] => None
  | (k, e) :: rest => if decide (k = key) then Some e else find rest key
  end.

(** [Reservation(h, key)]: a key that is absent is inserted with a null
    element. *)
Definition reserve (m : Map) (key : Feature) : Map :=
  match find m key with
  | Some _ => m
  | None => m ++ [(key, None)]
  end.

(** [iter_->second = e] at the reserved key *)
Fixpoint set_element (m : Map) (key : Feature) (e : option FeatureAndJ) : Map :=
  match m with
  | [] => []
  | (k, e0) :: rest =>
      if decide (k = key) then (k, e) :: rest
      else (k, e0) :: set_element rest key e
  end.

(** [ConcurrentHashMap::Set(e)] *)
Definition Set_ (m : Map) (e : FeatureAndJ) : Map :=
  set_element (reserve m (GetFeature e)) (GetFeature e) (Some e).

(** [FeatureMapBase<Feature>]: [j_sequence_] is an [atomic<uint64>];
    [j_to_feature_] is a vector of pointers to the records of the map. *)
Record t := mk {
  j_sequence_ : N;
  feature_to_j_ : Map;
  j_to_feature_synced_ : bool;
  j_to_feature_ : list (option FeatureAndJ)
}.

(** The constructor: an empty map, [j_to_feature_synced_(true)]. *)
Definition empty : t := mk 0 [] true [].

(** [FeatureToJ]: [uint32 j = j_sequence_.GetNext(); CHECK_NE(kInvalidJ, j);] *)
Definition FeatureToJ (feature : Feature) (s : t) : option (N * t) :=
  let m := reserve (feature_to_j_ s) feature in
  match find m feature with
  | Some (Some r) =>
      Some (GetJ r, mk (j_sequence_ s) m (j_to_feature_synced_ s) (j_to_feature_ s))
  | _ =>
      let j := to_uint32 (j_sequence_ s) in
      _ ← CHECK (negb (kInvalidJ =? j));
      Some (j, mk (to_uint64 (j_sequence_ s + 1))
                  (set_element m feature (Some (mkFeatureAndJ feature j)))
                  false (j_to_feature_ s))
  end.

(** [FeatureToJConst]: the reservation still inserts a null element for an
    absent key. *)
Definition FeatureToJConst (feature : Feature) (s : t) : N * t :=
  let m := reserve (feature_to_j_ s) feature in
  let s' := mk (j_sequence_ s) m (j_to_feature_synced_ s) (j_to_feature_ s) in
  match find m feature with
  | Some (Some r) => (GetJ r, s')
  | _ => (kInvalidJ, s')
  end.

Definition HasFeature (feature : Feature) (s : t) : bool * t :=
  let m := reserve (feature_to_j_ s) feature in
  let s' := mk (j_sequence_ s) m (j_to_feature_synced_ s) (j_to_feature_ s) in
  match find m feature with
  | Some (Some r) => (true, s')
  | _ => (false, s')
  end.

Definition Size (s : t) : N := to_uint32 (j_sequence_ s).

(** The loop of [SyncJToFeatureMap]:
    [for (Reservation r(map); !r.empty(); ++r)] stops at the end of the map
    or at the first null element. *)
Fixpoint Sync_loop (m : Map) (j_to_feature : list (option FeatureAndJ))
    (valid_j_count : N) : option (list (option FeatureAndJ) * N) :=
  match m with
  | (_, Some r) :: rest =>
      if negb (GetJ r =? kInvalidJ) then
        old ← vget j_to_feature (GetJ r);
        _ ← CHECK (bool_decide (old = None));
        v ← vset j_to_feature (GetJ r) (Some r);
        Sync_loop rest v (to_uint32 (valid_j_count + 1))
      else Sync_loop rest j_to_feature valid_j_count
  | _ => Some (j_to_feature, valid_j_count)
  end.

Definition SyncJToFeatureMap (s : t) : option t :=
  if j_to_feature_synced_ s then Some s
  else
    let next_j := to_uint32 (j_sequence_ s) in
    _ ← CHECK (next_j <=? N.of_nat (length (feature_to_j_ s)));
    '(v, valid_j_count) ←
       Sync_loop (feature_to_j_ s) (replicate (N.to_nat next_j) None) 0;
    _ ← CHECK (valid_j_count =? next_j);
    Some (mk (j_sequence_ s) (feature_to_j_ s) true v).

(** [JToFeatureUnsafe]: [CHECK_LT(j, j_to_feature_.size())], then the pointer
    is dereferenced. *)
Definition JToFeatureUnsafe (j : N) (s : t) : option Feature :=
  e ← vget (j_to_feature_ s) j;
  r ← e;
  Some (GetFeature r).

Definition JToFeature (j : N) (s : t) : option Feature :=
  _ ← CHECK (j_to_feature_synced_ s);
  JToFeatureUnsafe j s.

Definition GetAll (s : t) : option (list (option FeatureAndJ)) :=
  _ ← CHECK (j_to_feature_synced_ s);
  Some (j_to_feature_ s).

(** [FeatureAndJ::RenumberJs] *)
Definition RenumberJs (r : JRenumbering.t) (f : FeatureAndJ) : option FeatureAndJ :=
  new_j ← vget (JRenumbering.j_to_new_j r) (GetJ f);
  Some (mkFeatureAndJ (GetFeature f) new_j).

(** The loop of [RemoveAndRenumberJs]: every record is released from the old
    map, renumbered when its J is valid, and set in the new map.  A removed
    record stays in the map with J [kInvalidJ]. *)
Fixpoint Renumber_loop (r : JRenumbering.t) (m : Map) (new_map : Map)
    (valid_j_count : N) : option (Map * N) :=
  match m with
  | (_, Some f) :: rest =>
      f1 ← (if negb (GetJ f =? kInvalidJ) then RenumberJs r f else Some f);
      Renumber_loop r rest (Set_ new_map f1)
        (if negb (GetJ f1 =? kInvalidJ) then to_uint32 (valid_j_count + 1)
         else valid_j_count)
  | _ => Some (new_map, valid_j_count)
  end.

Definition RemoveAndRenumberJs (r : JRenumbering.t) (s : t) : option t :=
  match JRenumbering.j_to_new_j r with
  | [] => Some s
  | _ =>
      let next_j := JRenumbering.next_j r in
      _ ← CHECK (negb (kInvalidJ =? next_j));
      '(new_map, valid_j_count) ← Renumber_loop r (feature_to_j_ s) [] 0;
      _ ← CHECK (valid_j_count =? next_j);
      SyncJToFeatureMap (mk next_j new_map false (j_to_feature_ s))
  end.

(** The states a map goes through: interning, constant lookups, syncs, and
    the compaction that pruning asks for (a renumbering built by
    [JRenumbering::RemoveJs] from one flag per J). *)
Inductive reachable : t -> Prop :=
| reach_empty : reachable empty
| reach_FeatureToJ s feature j s' :
    reachable s -> FeatureToJ feature s = Some (j, s') -> reachable s'
| reach_FeatureToJConst s feature :
    reachable s -> reachable (FeatureToJConst feature s).2
| reach_HasFeature s feature :
    reachable s -> reachable (HasFeature feature s).2
| reach_Sync s s' :
    reachable s -> SyncJToFeatureMap s = Some s' -> reachable s'
| reach_RemoveAndRenumberJs s js_to_remove r s' :
    reachable s ->
    length js_to_remove = N.to_nat (Size s) ->
    JRenumbering.RemoveJs js_to_remove = Some r ->
    RemoveAndRenumberJs r s = Some s' ->
    reachable s'.

(** A key is removed when its record is still in the map and holds
    [kInvalidJ]. *)
Definition removed (s : t) (feature : Feature) : Prop :=
  exists r, find (feature_to_j_ s) feature = Some (Some r) /\ GetJ r = kInvalidJ.

(** The representation invariant of the map: the counter fits 32 bits, the
    keys are distinct and every record carries its key, the valid J's are
    distinct and below the counter, and when the map is synced
    [j_to_feature_] lists exactly the records with a valid J, each at its
    J. *)
Definition Inv (s : t) : Prop :=
  j_sequence_ s <= kInvalidJ /\
  NoDup (feature_to_j_ s).*1 /\
  (forall k r, (k, Some r) ∈ feature_to_j_ s -> GetFeature r = k) /\
  (forall k r, (k, Some r) ∈ feature_to_j_ s -> GetJ r <> kInvalidJ ->
     GetJ r < j_sequence_ s) /\
  (forall k1 r1 k2 r2,
     (k1, Some r1) ∈ feature_to_j_ s -> (k2, Some r2) ∈ feature_to_j_ s ->
     GetJ r1 = GetJ r2 -> GetJ r1 <> kInvalidJ -> k1 = k2) /\
  (j_to_feature_synced_ s = true ->
     length (j_to_feature_ s) = N.to_nat (j_sequence_ s) /\
     (forall k r, (k, Some r) ∈ feature_to_j_ s -> GetJ r <> kInvalidJ ->
        j_to_feature_ s !! N.to_nat (GetJ r) = Some (Some r)) /\
     (forall j, (j < length (j_to_feature_ s))%nat ->
        exists r, j_to_feature_ s !! j = Some (Some r) /\
                  GetJ r = N.of_nat j /\
                  (GetFeature r, Some r) ∈ feature_to_j_ s)).

End WithFeature.
Arguments FeatureAndJ : clear implicits.
Arguments Map : clear implicits.
Arguments t : clear implicits.
End FeatureMapBase.

(** [FeatureMap] is [FeatureMapBase<FeatureName>], [ProductMap] is
    [FeatureMapBase<JProduct>]. *)
Definition FeatureName := string.
Definition FeatureMap := FeatureMapBase.t FeatureName.

(** [JProduct]: the sorted, duplicate free vector [and_js_]. *)
Definition JProduct := list N.
Definition ProductMap := FeatureMapBase.t JProduct.

(** [std::unique] *)
Fixpoint std_unique (l : list N) : list N :=
  match l with
  | [] => []
  | x :: rest =>
      match rest with
      | y :: _ => if x =? y then std_unique rest else x :: std_unique rest
      | [] => [x]
      end
  end.

(** The constructor [JProduct(and_js)]: sort, then drop the duplicates. *)
Definition JProduct_of (and_js : list N) : JProduct :=
  std_unique (merge_sort N.le and_js).

(** [JProduct::And]: [std::merge] of the two factor lists, then the
    constructor. *)
Definition JProduct_And (f1 f2 : JProduct) : JProduct :=
  JProduct_of (list_merge N.le f1 f2).

(** A two-key feature map in which both keys were interned and then pruned. *)
Definition two_removed_keys : option FeatureMap :=
  '(_, s1) ← FeatureMapBase.FeatureToJ "a"%string FeatureMapBase.empty;
  '(_, s2) ← FeatureMapBase.FeatureToJ "b"%string s1;
  s3 ← FeatureMapBase.SyncJToFeatureMap s2;
  r ← JRenumbering.RemoveJs [true; true];
  FeatureMapBase.RemoveAndRenumberJs r s3.

(** The feature map after "a" was interned. *)
Definition map_with_a : FeatureMap :=
  FeatureMapBase.mk 1
    [("a"%string, Some (FeatureMapBase.mkFeatureAndJ "a"%string 0))] false [].

(** ** sensei/csr_matrix.h *)

(** [a - b] on [uint32] *)
Definition uint32_sub (a b : N) : N := (a + uint32_modulus - b mod uint32_modulus) mod uint32_modulus.

(** [ArraySlice(v, pos, len)], read as a list: the slice must lie inside the
    vector. *)
Definition slice {A : Type} (v : list A) (pos len : N) : option (list A) :=
  if decide (N.to_nat pos + N.to_nat len <= length v)%nat
  then Some (take (N.to_nat len) (drop (N.to_nat pos) v))
  else None.

Module CsrMatrix.

Record t := mk { boundaries_ : list N; contents_ : list N }.

(** [CsrMatrix() : boundaries_(1, 0) {}] *)
Definition empty : t := mk [0] [].

Definition RowCount (m : t) : N :=
  to_uint32 (N.of_nat (length (boundaries_ m)) - 1).

Definition NonZerosCount (m : t) : N := N.of_nat (length (contents_ m)).

Definition GetRow (m : t) (i : N) : option (list N) :=
  b0 ← vget (boundaries_ m) i;
  b1 ← vget (boundaries_ m) (i + 1);
  slice (contents_ m) b0 (uint32_sub b1 b0).

(** [AddRow]: [CHECK_LE(contents_.size(), static_cast<uint32>(-1))] *)
Definition AddRow (js : list N) (m : t) : option t :=
  let contents := contents_ m ++ js in
  _ ← CHECK (N.of_nat (length contents) <=? kInvalidJ);
  Some (mk (boundaries_ m ++ [to_uint32 (N.of_nat (length contents))]) contents).

(** [SetRowCount]: [boundaries_.resize(size + 1, contents_.size())] *)
Definition SetRowCount (size : N) (m : t) : option t :=
  _ ← CHECK (RowCount m <=? size);
  Some (mk (boundaries_ m ++
            replicate (N.to_nat (size + 1) - length (boundaries_ m))
                      (to_uint32 (N.of_nat (length (contents_ m)))))
           (contents_ m)).

(** One row of [RemoveAndRenumberJs].  The C++ loop rewrites [contents_] in
    place: row [i] is read from [input_offset] (its old start) up to the old
    [boundaries_[i + 1]] and written from the new [boundaries_[i]]; the
    write position never passes the read position, so the rows read are the
    old rows.  [acc] holds the new boundaries (last one first is avoided:
    they are kept in order) and the new contents written so far. *)
Definition RemoveAndRenumberJs_row (r : JRenumbering.t) (old : t) (i : nat)
    (acc : N * list N * list N) : option (N * list N * list N) :=
  let '(input_offset, boundaries, contents) := acc in
  b1 ← old.(boundaries_) !! S i;
  js ← slice old.(contents_) input_offset (uint32_sub b1 input_offset);
  new_js ← JRenumbering.RemoveAndRenumberJsTo r js;
  b0 ← last boundaries;
  Some (b1, boundaries ++ [to_uint32 (b0 + N.of_nat (length new_js))],
        contents ++ new_js).

Definition RemoveAndRenumberJs (r : JRenumbering.t) (m : t) : option t :=
  match JRenumbering.j_to_new_j r with
  | [] => Some m
  | _ =>
      b0 ← boundaries_ m !! 0%nat;
      '(_, boundaries, contents) ←
         for_range (N.to_nat (RowCount m)) (RemoveAndRenumberJs_row r m)
                   (0, [b0], take (N.to_nat b0) (contents_ m));
      Some (mk boundaries contents)
  end.

(** [RemoveAndRenumberRows]: the rows are collected in the order of the new
    J's. *)
Definition RemoveAndRenumberRows (r : JRenumbering.t) (m : t) : option t :=
  match JRenumbering.j_to_new_j r with
  | [] => Some m
  | _ =>
      old_js ← JRenumbering.NewJToOldJ r;
      for_each (fun old_j temp =>
                  _ ← CHECK (negb (old_j =? kInvalidJ));
                  row ← GetRow m old_j;
                  AddRow row temp)
               old_js empty
  end.

End CsrMatrix.

(** ** sensei/data.h *)

Module Stats.

Record t := mk {
  positive_row_count_ : N;
  negative_row_count_ : N;
  positive_ : list N;
  negative_ : list N;
  hash_ : list N
}.

(** [Negative(j)], [Positive(j)]: [CHECK_LT(j, size)] *)
Definition Negative (s : t) (j : N) : option N := vget (negative_ s) j.
Definition Positive (s : t) (j : N) : option N := vget (positive_ s) j.

Definition GetRowCountWithJPresent (s : t) (j : N) : option N :=
  n ← Negative s j; p ← Positive s j; Some (to_uint64 (n + p)).

Definition XjBoolCountOfJ (s : t) (j : N) : option N :=
  n ← Negative s j; p ← Positive s j; Some (to_uint64 (n + p)).

Definition RowCount (s : t) : N :=
  to_uint64 (positive_row_count_ s + negative_row_count_ s).

Definition RemoveAndRenumberJs (r : JRenumbering.t) (s : t) : option t :=
  p ← JRenumbering.RenumberIndicies 0 r (positive_ s);
  n ← JRenumbering.RenumberIndicies 0 r (negative_ s);
  h ← JRenumbering.RenumberIndicies 0 r (hash_ s);
  Some (mk (positive_row_count_ s) (negative_row_count_ s) p n h).

End Stats.

Module Shard.

Record t := mk {
  rows_ : CsrMatrix.t;
  ys_ : list Q;
  ids_ : list N;
  user_ids_ : list N
}.

Definition RemoveAndRenumberJs (r : JRenumbering.t) (s : t) : option t :=
  rows ← CsrMatrix.RemoveAndRenumberJs r (rows_ s);
  Some (mk rows (ys_ s) (ids_ s) (user_ids_ s)).

Definition RowCount (s : t) : N := to_uint32 (N.of_nat (length (ys_ s))).

End Shard.

Module ShardSet.

Record t := mk { shards_ : list Shard.t; stats_ : Stats.t }.

(** [RemoveAndRenumberJs]: the shards are independent of each other, so the
    parallel loop is a map over them. *)
Definition RemoveAndRenumberJs (r : JRenumbering.t) (s : t) : option t :=
  shards ← mapM (Shard.RemoveAndRenumberJs r) (shards_ s);
  stats ← Stats.RemoveAndRenumberJs r (stats_ s);
  Some (mk shards stats).

End ShardSet.

Module Data.

Record t := mk {
  training_ : ShardSet.t;
  holdout_ : ShardSet.t;
  dependees_ : CsrMatrix.t
}.

Definition RemoveAndRenumberDependees (r : JRenumbering.t) (m : CsrMatrix.t)
  : option CsrMatrix.t :=
  match JRenumbering.j_to_new_j r with
  | [] => Some m
  | _ =>
      m1 ← CsrMatrix.RemoveAndRenumberJs r m;
      CsrMatrix.RemoveAndRenumberRows r m1
  end.

Definition RemoveAndRenumberJs (r : JRenumbering.t) (d : t) : option t :=
  training ← ShardSet.RemoveAndRenumberJs r (training_ d);
  holdout ← ShardSet.RemoveAndRenumberJs r (holdout_ d);
  dependees ← RemoveAndRenumberDependees r (dependees_ d);
  Some (mk training holdout dependees).

Definition XjBoolCountOfJ (d : t) (j : N) : option N :=
  a ← Stats.XjBoolCountOfJ (ShardSet.stats_ (training_ d)) j;
  b ← Stats.XjBoolCountOfJ (ShardSet.stats_ (holdout_ d)) j;
  Some (to_uint64 (a + b)).

End Data.

(** ** sensei/row_extender.h *)

Module RowExtender.

(** [dependees_] is a pointer to the dependees matrix of [Data] and is passed
    to the operations; [sparse_bool_] is a slice of the shard's row or of
    [rewritten_row_] and is kept by value. *)
Record t := mk {
  y_ : Q;
  id_ : N;
  rewritten_row_ : list N;
  cpu_operation_count_flat_materialization_ : N;
  dependencies_ : gmap N N;
  sparse_bool_ : list N
}.

(** The body of the inner loop, for one [child_j] of the current J:
    [uint32& d = dependencies_[child_j]; d += 1;
     if (d == 2) rewritten_row_.push_back(child_j);]
    ([kInvalidJ] is the empty key of the [dense_hash_map] and cannot be
    inserted; [DCHECK(d == 0 || d == 1)] is compiled out of optimized
    builds and is not part of the model). *)
Definition visit_child (child_j : N) (e : t) : option t :=
  _ ← CHECK (negb (child_j =? kInvalidJ));
  let d := to_uint32 (default 0 (dependencies_ e !! child_j) + 1) in
  Some (mk (y_ e) (id_ e)
           (if d =? 2 then rewritten_row_ e ++ [child_j] else rewritten_row_ e)
           (to_uint64 (cpu_operation_count_flat_materialization_ e + 1))
           (<[child_j := d]> (dependencies_ e))
           (sparse_bool_ e)).

(** [for (uint32 i = 0; i < rewritten_row_.size(); ++i)]: the row grows while
    it is walked.  [fuel] bounds the number of iterations. *)
Fixpoint ExtendSparseBool_loop (fuel : nat) (dependees : CsrMatrix.t) (i : nat)
    (e : t) : option t :=
  match fuel with
  | O => None
  | S fuel' =>
      match rewritten_row_ e !! i with
      | None => Some e
      | Some j =>
          children ← CsrMatrix.GetRow dependees j;
          e' ← for_each visit_child children e;
          ExtendSparseBool_loop fuel' dependees (S i) e'
      end
  end.

(** A counter reaches 2 once (short of 2^32 further visits), so every entry
    of the matrix pushes at most one J: the row never has more than
    [size + NonZerosCount] entries. *)
Definition ExtendSparseBool_fuel (dependees : CsrMatrix.t) (e : t) : nat :=
  S (length (rewritten_row_ e) + length (CsrMatrix.contents_ dependees)).

Definition ExtendSparseBool (dependees : CsrMatrix.t) (e : t) : option t :=
  e' ← ExtendSparseBool_loop (ExtendSparseBool_fuel dependees e) dependees 0 e;
  Some (mk (y_ e') (id_ e') (rewritten_row_ e')
           (cpu_operation_count_flat_materialization_ e') ∅ (sparse_bool_ e')).

(** [RowExtender(dependees)] *)
Definition new : t := mk 0 0 [] (to_uint64 (uint64_modulus - 1)) ∅ [].

(** [ResetRow]; [dependees] is [None] for a null pointer. *)
Definition ResetRow (dependees : option CsrMatrix.t) (sparse_bool : list N)
    (y : Q) (id : N) (e : t) : option t :=
  match dependees with
  | Some d =>
      if negb (CsrMatrix.NonZerosCount d =? 0) then
        e' ← ExtendSparseBool d (mk y id sparse_bool 0 (dependencies_ e) (sparse_bool_ e));
        Some (mk (y_ e') (id_ e') (rewritten_row_ e')
                 (cpu_operation_count_flat_materialization_ e')
                 (dependencies_ e') (rewritten_row_ e'))
      else Some (mk y id (rewritten_row_ e) 0 (dependencies_ e) sparse_bool)
  | None => Some (mk y id (rewritten_row_ e) 0 (dependencies_ e) sparse_bool)
  end.

Definition SparseBool (e : t) : list N := sparse_bool_ e.

(** [SparseDot] *)
Definition Dot (e : t) (w : list Q) : option Q :=
  for_each (fun j dot => wj ← vget w j; Some (dot + wj)%Q) (SparseBool e) 0%Q.

End RowExtender.

(** [Shard::ResetExtender] *)
Definition Shard_ResetExtender (dependees : option CsrMatrix.t) (s : Shard.t)
    (i : N) (e : RowExtender.t) : option RowExtender.t :=
  row ← CsrMatrix.GetRow (Shard.rows_ s) i;
  y ← vget (Shard.ys_ s) i;
  id ← vget (Shard.ids_ s) i;
  RowExtender.ResetRow dependees row y id e.

(** *** The dependees graph of the engine

    Exploration adds the edges of a new product [c] in a pair,
    [SetTrue(j1, c)] and [SetTrue(j2, c)] for its two generating factors
    [j1 < j2 < c], and no other edge: [parents c] names the two factors of a
    product and is [None] for an atomic J. *)
Definition dependees_in_pairs (dependees : CsrMatrix.t)
    (parents : N -> option (N * N)) : Prop :=
  (forall p, p < CsrMatrix.RowCount dependees ->
     exists children,
       CsrMatrix.GetRow dependees p = Some children /\
       NoDup children /\
       forall c, c ∈ children <->
                 exists p1 p2, parents c = Some (p1, p2) /\ (p = p1 \/ p = p2)) /\
  (forall c p1 p2, parents c = Some (p1, p2) ->
     p1 < p2 /\ p2 < c /\ c < CsrMatrix.RowCount dependees).

(** All the atomic factors of [j] are in the row: [j] is in the row, or it
    is a product and this holds of its two generating factors. *)
Inductive factors_present (parents : N -> option (N * N)) (row : list N)
  : N -> Prop :=
| present_in_row j : j ∈ row -> factors_present parents row j
| present_product c p1 p2 :
    parents c = Some (p1, p2) ->
    factors_present parents row p1 ->
    factors_present parents row p2 ->
    factors_present parents row c.

(** How many of the generating factors of [c] are among [visited]. *)
Definition count_in (parents : N -> option (N * N)) (visited : list N) (c : N) : N :=
  match parents c with
  | Some (p1, p2) =>
      (if bool_decide (p1 ∈ visited) then 1 else 0) +
      (if bool_decide (p2 ∈ visited) then 1 else 0)
  | None => 0
  end.

(** The invariant of [ExtendSparseBool], for the row [row] that it was given
    and the number [count c] of visits of every child [c] so far: the
    counters hold these numbers; the row has grown by the J's that were
    visited twice, each once. *)
Definition extension_invariant (dependees : CsrMatrix.t) (row : list N)
    (count : N -> N) (e : RowExtender.t) : Prop :=
  (exists added,
     RowExtender.rewritten_row_ e = row ++ added /\
     forall c, c ∈ added -> c ∈ CsrMatrix.contents_ dependees) /\
  NoDup (RowExtender.rewritten_row_ e) /\
  (forall j, j ∈ RowExtender.rewritten_row_ e -> j < CsrMatrix.RowCount dependees) /\
  (forall c, default 0 (RowExtender.dependencies_ e !! c) = count c) /\
  (forall c, c ∈ RowExtender.rewritten_row_ e <-> c ∈ row \/ count c = 2).

(** The parents of the product J 2 of scenario 5. *)
Definition parents_ab (c : N) : option (N * N) :=
  if c =? 2 then Some (0, 1) else None.

(** The dependees of scenario 5: atomic J's 0 and 1, and their product, J 2. *)
Definition dependees_ab : CsrMatrix.t := CsrMatrix.mk [0; 1; 2; 2] [2; 2].

(** A row in which J 0 occurs twice and J 1 is absent. *)
Definition row_with_duplicate : list N := [0; 0].

(** ** sensei/model.h *)

Module Model.

(** The per-row caches [training.wxs] and [holdout.wxs], which only the
    batch pass writes, are kept apart in [PerShards]. *)
Record t := mk {
  precision : list Q;
  w : list Q;
  delta_w : list Q;
  loss_derivative : list Q;
  creation_time : list N;
  current_creation_time : N;
  prev_total_loss : ExtDouble;
  total_loss : ExtDouble;
  synced_with_weights : bool;
  iteration_no : N
}.

Definition GetSize (m : t) : N := to_uint32 (N.of_nat (length (w m))).

Definition SetTotalLoss (new_total_loss : ExtDouble) (m : t) : t :=
  mk (precision m) (w m) (delta_w m) (loss_derivative m) (creation_time m)
     (current_creation_time m) (total_loss m) new_total_loss
     (synced_with_weights m) (iteration_no m).

Definition IsFeatureNew (m : t) (j : N) : option bool :=
  c ← vget (creation_time m) j; Some (c =? current_creation_time m).

Definition RemoveAndRenumberJs (r : JRenumbering.t) (m : t) : option t :=
  p ← JRenumbering.RenumberIndicies 0%Q r (precision m);
  w' ← JRenumbering.RenumberIndicies 0%Q r (w m);
  d ← JRenumbering.RenumberIndicies 0%Q r (delta_w m);
  l ← JRenumbering.RenumberIndicies 0%Q r (loss_derivative m);
  c ← JRenumbering.RenumberIndicies 0 r (creation_time m);
  Some (mk p w' d l c (current_creation_time m) (prev_total_loss m)
           (total_loss m) (synced_with_weights m) (iteration_no m)).

(** [v.resize(size)] of [MildResize] *)
Definition resize {A : Type} (dflt : A) (size : N) (v : list A) : list A :=
  take (N.to_nat size) v ++ replicate (N.to_nat size - length v) dflt.

(** [SetSize]: the new entries get the new creation time. *)
Definition SetSize (size : N) (m : t) : t :=
  let oldsize := length (w m) in
  let time := to_uint32 (current_creation_time m + 1) in
  mk (resize 0%Q size (precision m)) (resize 0%Q size (w m))
     (resize 0%Q size (delta_w m)) (resize 0%Q size (loss_derivative m))
     (let c := resize 0 size (creation_time m) in
      take oldsize c ++ replicate (length c - oldsize) time)
     time (prev_total_loss m) (total_loss m) (synced_with_weights m)
     (iteration_no m).

End Model.

(** [Model::PerShard] of the training set and of the holdout set: the
    vectors [training.wxs] and [holdout.wxs] of the model. *)
Record PerShards := mkPerShards { training_wxs : list Q; holdout_wxs : list Q }.

(** ** sensei/optimizers.h *)

(** [config::Set::Regularization]; an unset field reads as 0. *)
Record Regularization := mkRegularization {
  l1 : Q;
  l2 : Q;
  l1_at_weight_zero : Q
}.

Record Regularizations := mkRegularizations {
  regularization_ : Regularization;
  regularization_div_sqrt_n_ : Regularization;
  regularization_mul_sqrt_n_ : Regularization;
  regularization_confidence_ : Regularization
}.

Definition IsNonStandard (r : Regularizations) : bool :=
  negb (Qeqb (l1_at_weight_zero (regularization_ r)) 0) ||
  negb (Qeqb (l1 (regularization_div_sqrt_n_ r)) 0) ||
  negb (Qeqb (l2 (regularization_div_sqrt_n_ r)) 0) ||
  negb (Qeqb (l1_at_weight_zero (regularization_div_sqrt_n_ r)) 0) ||
  negb (Qeqb (l1 (regularization_mul_sqrt_n_ r)) 0) ||
  negb (Qeqb (l2 (regularization_mul_sqrt_n_ r)) 0) ||
  negb (Qeqb (l1_at_weight_zero (regularization_mul_sqrt_n_ r)) 0) ||
  negb (Qeqb (l1 (regularization_confidence_ r)) 0) ||
  negb (Qeqb (l2 (regularization_confidence_ r)) 0) ||
  negb (Qeqb (l1_at_weight_zero (regularization_confidence_ r)) 0).

(** [class Dim1Majorizer] *)
Record Dim1Majorizer := mkDim1Majorizer { a_ : Q; b_ : Q }.

Module Majorizer.
Record t := mk {
  of_j_ : list Dim1Majorizer;
  log_loss_ : Q;
  cpu_operation_count_flat_materialization_ : N
}.

Definition SetSize (size : N) (m : t) : t :=
  mk (Model.resize (mkDim1Majorizer 0 0) size (of_j_ m)) (log_loss_ m)
     (cpu_operation_count_flat_materialization_ m).

Definition RemoveAndRenumberJs (r : JRenumbering.t) (m : t) : option t :=
  v ← JRenumbering.RenumberIndicies (mkDim1Majorizer 0 0) r (of_j_ m);
  Some (mk v (log_loss_ m) (cpu_operation_count_flat_materialization_ m)).
End Majorizer.

(** [logs::GradBoostUpdateMinimum] *)
Record UpdateMinimumLog := mkUpdateMinimumLog {
  undo_iteration : bool;
  restart_iteration : bool;
  dot_loss_derivative_vs_delta_weight : option Q;
  cos_angle_loss_derivative_vs_delta_weight : option Q
}.

Local Open Scope Q_scope.

(** The arithmetic of doubles: the exact result, rounded by [fl] to a
    double. *)
Definition double_add (fl : Q -> Q) (x y : Q) : Q := fl (x + y).
Definition double_sub (fl : Q -> Q) (x y : Q) : Q := fl (x - y).
Definition double_mul (fl : Q -> Q) (x y : Q) : Q := fl (x * y).
Definition double_div (fl : Q -> Q) (x y : Q) : Q := fl (x / y).

Section Optimizers.

(** The rounding of a real to a double, and [sqrt] of [<cmath>]. *)
Variable fl : Q -> Q.
Variable sqrt : Q -> Q.

Local Infix "[+]" := (double_add fl) (at level 50, left associativity).
Local Infix "[-]" := (double_sub fl) (at level 50, left associativity).
Local Infix "[*]" := (double_mul fl) (at level 40, left associativity).
Local Infix "[/]" := (double_div fl) (at level 40, left associativity).

(** [Regularizations::L1] *)
Definition L1 (r : Regularizations) (rows_with_j : N) (weight majorizer_a : Q) : Q :=
  let ret_l1 := l1 (regularization_ r) in
  let sqrt_of_rows_with_j := sqrt (fl (N_to_double (to_uint64 (rows_with_j + 1)))) in
  let sqrt_of_majorizer_a_plus_epsilon := sqrt majorizer_a [+] kEpsilon in
  let ret_l1 := ret_l1 [+] l1 (regularization_div_sqrt_n_ r) [/] sqrt_of_rows_with_j in
  let ret_l1 := ret_l1 [+] l1 (regularization_mul_sqrt_n_ r) [*] sqrt_of_rows_with_j in
  let ret_l1 :=
    ret_l1 [+] l1 (regularization_confidence_ r) [/] sqrt_of_majorizer_a_plus_epsilon in
  if Qeqb weight 0 then
    let ret_l1 := ret_l1 [+] l1_at_weight_zero (regularization_ r) in
    let ret_l1 :=
      ret_l1 [+] l1_at_weight_zero (regularization_div_sqrt_n_ r) [/] sqrt_of_rows_with_j in
    let ret_l1 :=
      ret_l1 [+] l1_at_weight_zero (regularization_mul_sqrt_n_ r) [*] sqrt_of_rows_with_j in
    ret_l1 [+] l1_at_weight_zero (regularization_confidence_ r) [/]
               sqrt_of_majorizer_a_plus_epsilon
  else ret_l1.

(** [Regularizations::L2] *)
Definition L2 (r : Regularizations) (rows_with_j : N) (majorizer_a : Q) : Q :=
  let ret_l2 := l2 (regularization_ r) in
  let sqrt_of_rows_with_j := sqrt (fl (N_to_double (to_uint64 (rows_with_j + 1)))) in
  let ret_l2 := ret_l2 [+] l2 (regularization_div_sqrt_n_ r) [/] sqrt_of_rows_with_j in
  let ret_l2 := ret_l2 [+] l2 (regularization_mul_sqrt_n_ r) [*] sqrt_of_rows_with_j in
  ret_l2 [+] l2 (regularization_confidence_ r) [/] (sqrt majorizer_a [+] kEpsilon).

(** [Dim1Majorizer::GetMinimum]; the [CHECK] is
    [DCHECK_EQ(bj, 0.0)]. *)
Definition GetMinimum (m : Dim1Majorizer) (regularizations : Regularizations)
    (w0 inertia step_multiplier : Q) (rows_with_j : N) : option Q :=
  let aj := a_ m [+] L2 regularizations rows_with_j (a_ m) [*] 4 in
  let bj := a_ m [*] w0 [-] step_multiplier [*] b_ m [+] inertia [*] aj in
  let bj :=
    if Qgtb bj 0
    then std_max 0 (bj [-] L1 regularizations rows_with_j w0 (a_ m) [*] 2)
    else std_min 0 (bj [+] L1 regularizations rows_with_j w0 (a_ m) [*] 2) in
  if Qeqb aj 0 then _ ← CHECK (Qeqb bj 0); Some 0
  else Some (bj [/] aj).

(** [Dim1Majorizer::GetPrecision] *)
Definition GetPrecision (m : Dim1Majorizer) (regularizations : Regularizations)
    (rows_with_j : N) (weight : Q) : Q :=
  a_ m [/] 2 [+] L2 regularizations rows_with_j (a_ m) [*] 2.

(** [Majorizer::GetRegularizationLoss] *)
Definition GetRegularizationLoss (mz : Majorizer.t) (regularizations : Regularizations)
    (model : Model.t) (stats : Stats.t) : option Q :=
  for_range (length (Model.w model))
    (fun j loss =>
       w ← Model.w model !! j;
       rows_with_j ← Stats.GetRowCountWithJPresent stats (N.of_nat j);
       d ← Majorizer.of_j_ mz !! j;
       let loss := loss [+] L1 regularizations rows_with_j w (a_ d) [*] fabs w in
       Some (loss [+] L2 regularizations rows_with_j (a_ d) [*] w [*] w))
    0.

(** The undo loop of [UpdateMinimum]:
    [model->w[j] -= model->delta_w[j]; model->delta_w[j] = 0;] *)
Definition UpdateMinimum_undo_step (j : nat) (wd : list Q * list Q)
  : option (list Q * list Q) :=
  let '(w, delta_w) := wd in
  wj ← w !! j;
  dj ← delta_w !! j;
  w' ← vset w (N.of_nat j) (wj [-] dj);
  delta_w' ← vset delta_w (N.of_nat j) 0;
  Some (w', delta_w').

(** The state of the coordinate loop: the model vectors that it writes and
    the three running sums. *)
Record CoordinateState := mkCoordinateState {
  cs_precision : list Q;
  cs_w : list Q;
  cs_delta_w : list Q;
  cs_dot_loss_derivative_vs_delta_weight : Q;
  cs_log_loss_derivative_squared : Q;
  cs_delta_w_squared : Q
}.

(** The body of the coordinate loop of [UpdateMinimum]. *)
Definition UpdateMinimum_coordinate (mz : Majorizer.t) (regularizations : Regularizations)
    (inertia_factor step_multiplier : Q) (stats : Stats.t)
    (loss_derivative : list Q) (j : nat) (s : CoordinateState)
  : option CoordinateState :=
  rows_with_j ← Stats.GetRowCountWithJPresent stats (N.of_nat j);
  w0 ← cs_w s !! j;
  d ← Majorizer.of_j_ mz !! j;
  new_w_without_inertia ←
    GetMinimum d regularizations w0 0 step_multiplier rows_with_j;
  dw ← cs_delta_w s !! j;
  new_w ←
    GetMinimum d regularizations w0 (inertia_factor [*] dw) step_multiplier rows_with_j;
  precision ← vset (cs_precision s) (N.of_nat j)
                   (GetPrecision d regularizations rows_with_j w0);
  delta_w ← vset (cs_delta_w s) (N.of_nat j) (new_w [-] w0);
  w ← vset (cs_w s) (N.of_nat j) new_w;
  ld ← loss_derivative !! j;
  Some (mkCoordinateState precision w delta_w
          (cs_dot_loss_derivative_vs_delta_weight s [+] ld [*] (new_w [-] w0))
          (cs_log_loss_derivative_squared s [+] ld [*] ld)
          (cs_delta_w_squared s [+] (new_w [-] w0) [*] (new_w [-] w0))).

Definition UpdateMinimum_coordinates (mz : Majorizer.t) (regularizations : Regularizations)
    (inertia_factor step_multiplier : Q) (stats : Stats.t) (model : Model.t)
  : option CoordinateState :=
  for_range (length (Majorizer.of_j_ mz))
    (UpdateMinimum_coordinate mz regularizations inertia_factor step_multiplier
                              stats (Model.loss_derivative model))
    (mkCoordinateState (Model.precision model) (Model.w model)
                       (Model.delta_w model) 0 0 0).

(** The restart loop of [UpdateMinimum]:
    [Double w0 = model->w[j] - model->delta_w[j]; model->w[j] = w0;
     model->delta_w[j] = 0;] *)
Definition UpdateMinimum_restart_step (j : nat) (wd : list Q * list Q)
  : option (list Q * list Q) :=
  let '(w, delta_w) := wd in
  wj ← w !! j;
  dj ← delta_w !! j;
  w' ← vset w (N.of_nat j) (wj [-] dj);
  delta_w' ← vset delta_w (N.of_nat j) 0;
  Some (w', delta_w').

(** [Majorizer::UpdateMinimum] *)
Definition UpdateMinimum (mz : Majorizer.t) (regularizations : Regularizations)
    (inertia_factor step_multiplier : Q) (stats : Stats.t) (allow_undo : bool)
    (model : Model.t) : option (Model.t * UpdateMinimumLog) :=
  let size := length (Majorizer.of_j_ mz) in
  _ ← CHECK (to_uint32 (N.of_nat size) =? Model.GetSize model)%N;
  _ ← CHECK (Model.synced_with_weights model);
  let iteration_no := to_uint32 (Model.iteration_no model + 1) in
  reg_loss ← GetRegularizationLoss mz regularizations model stats;
  let total_loss := Majorizer.log_loss_ mz [+] reg_loss in
  if allow_undo && ext_gtb (Finite total_loss) (Model.prev_total_loss model) then
    '(w, delta_w) ←
       for_range size UpdateMinimum_undo_step (Model.w model, Model.delta_w model);
    Some (Model.mk (Model.precision model) w delta_w (Model.loss_derivative model)
                   (Model.creation_time model) (Model.current_creation_time model)
                   kInfinity (Model.total_loss model) false iteration_no,
          mkUpdateMinimumLog true false None None)
  else
    s ← UpdateMinimum_coordinates mz regularizations inertia_factor step_multiplier
                                  stats model;
    let dot := cs_dot_loss_derivative_vs_delta_weight s in
    let denominator :=
      sqrt (cs_log_loss_derivative_squared s [*] cs_delta_w_squared s) in
    let cos := if negb (Qeqb denominator 0) then Some (dot [/] denominator) else None in
    if Qgtb dot 0 then
      '(w, delta_w) ←
         for_range size UpdateMinimum_restart_step (cs_w s, cs_delta_w s);
      Some (Model.mk (cs_precision s) w delta_w (Model.loss_derivative model)
                     (Model.creation_time model) (Model.current_creation_time model)
                     (Model.prev_total_loss model) (Model.total_loss model) false
                     iteration_no,
            mkUpdateMinimumLog false true (Some dot) cos)
    else
      Some (Model.mk (cs_precision s) (cs_w s) (cs_delta_w s)
                     (Model.loss_derivative model) (Model.creation_time model)
                     (Model.current_creation_time model)
                     (Model.prev_total_loss model) (Model.total_loss model) false
                     iteration_no,
            mkUpdateMinimumLog false false (Some dot) cos).

End Optimizers.

(** Arithmetic without rounding. *)
Definition no_rounding (x : Q) : Q := x.

(** What the statements about the formulas ask of the rounding, and what
    rounding to the nearest double gives: equal rationals have equal
    roundings, the rounding of the opposite is the opposite, and the
    rounding of a number that is not negative is not negative. *)
Definition rounding (fl : Q -> Q) : Prop :=
  (forall x y, x == y -> fl x == fl y) /\
  (forall x, fl (- x) == - fl x) /\
  (forall x, 0 <= x -> 0 <= fl x).

(** The coordinate update in the words of the specification, from the
    majorizer scalars [a_j], [b_j], the weight [w0], the previous delta and
    the effective coefficients [L1_j], [L2_j]; every operation gives a
    double. *)
Definition soft_threshold (fl : Q -> Q) (B t : Q) : Q :=
  Sign B * Qmax 0 (double_sub fl (Qabs B) t).

Definition coordinate_update_spec (fl : Q -> Q) (a_j b_j w0 dW_prev L1_j L2_j
    inertia_factor step_multiplier : Q) : Q :=
  let A := double_add fl a_j (double_mul fl 4 L2_j) in
  let B :=
    double_add fl
      (double_sub fl (double_mul fl a_j w0) (double_mul fl step_multiplier b_j))
      (double_mul fl (double_mul fl inertia_factor dW_prev) A) in
  let B := soft_threshold fl B (double_mul fl 2 L1_j) in
  if Qeqb A 0 then 0 else double_div fl B A.

Local Close Scope Q_scope.

Module GradBoost.

(** [model_] points to the model of the world and is passed to the
    operations.  [majorizer_pool_] is created with no object, and
    [ParallelProcessColumns], which follows every [ProcessShardSet], retires
    every object that it takes: between the calls the pool holds nothing,
    and it is a local of [SyncModelWithWeights]. *)
Record t := mk {
  training_majorizer_ : Majorizer.t;
  holdout_majorizer_ : Majorizer.t;
  inertia_factor_ : Q;
  step_multiplier_ : Q;
  allow_undo_ : bool;
  deterministic_ : bool
}.

Definition SetSize (feature_count : N) (g : t) : t :=
  mk (Majorizer.SetSize feature_count (training_majorizer_ g))
     (Majorizer.SetSize feature_count (holdout_majorizer_ g))
     (inertia_factor_ g) (step_multiplier_ g) (allow_undo_ g) (deterministic_ g).

Definition RemoveAndRenumberJs (r : JRenumbering.t) (g : t) (model : Model.t)
  : option (t * Model.t) :=
  match JRenumbering.j_to_new_j r with
  | [] => Some (g, model)
  | _ =>
      tm ← Majorizer.RemoveAndRenumberJs r (training_majorizer_ g);
      hm ← Majorizer.RemoveAndRenumberJs r (holdout_majorizer_ g);
      model' ← Model.RemoveAndRenumberJs r model;
      Some (mk tm hm (inertia_factor_ g) (step_multiplier_ g) (allow_undo_ g)
               (deterministic_ g), model')
  end.

End GradBoost.

(** The vectors that [UpdateMinimum] indexes by J have the size of the
    model, and the statistics cover every J. *)
Definition sizes_agree (mz : Majorizer.t) (model : Model.t) (stats : Stats.t) : Prop :=
  length (Majorizer.of_j_ mz) = length (Model.w model) /\
  length (Model.delta_w model) = length (Model.w model) /\
  length (Model.precision model) = length (Model.w model) /\
  length (Model.loss_derivative model) = length (Model.w model) /\
  (length (Model.w model) <= length (Stats.positive_ stats))%nat /\
  (length (Model.w model) <= length (Stats.negative_ stats))%nat /\
  N.of_nat (length (Model.w model)) <= kInvalidJ.

(** The [DCHECK_EQ(bj, 0.0)] of [GetMinimum] holds at every coordinate, in
    the call without inertia and in the call with it. *)
Definition minimum_checked (fl sqrt : Q -> Q) (mz : Majorizer.t) (r : Regularizations)
    (inertia_factor step_multiplier : Q) (stats : Stats.t) (model : Model.t) : Prop :=
  forall j d w0 dW rows,
    Majorizer.of_j_ mz !! j = Some d ->
    Model.w model !! j = Some w0 ->
    Model.delta_w model !! j = Some dW ->
    Stats.GetRowCountWithJPresent stats (N.of_nat j) = Some rows ->
    is_Some (GetMinimum fl sqrt d r w0 0 step_multiplier rows) /\
    is_Some (GetMinimum fl sqrt d r w0 (double_mul fl inertia_factor dW)
                        step_multiplier rows).

(** The validation of [config::Set::Regularization]: no field is negative. *)
Definition valid_regularization (r : Regularization) : Prop :=
  (0 <= l1 r /\ 0 <= l2 r /\ 0 <= l1_at_weight_zero r)%Q.

Definition valid_regularizations (r : Regularizations) : Prop :=
  valid_regularization (regularization_ r) /\
  valid_regularization (regularization_div_sqrt_n_ r) /\
  valid_regularization (regularization_mul_sqrt_n_ r) /\
  valid_regularization (regularization_confidence_ r).

(** A rational stand-in for [sqrt], used to run examples: the integer square
    root of the numerator scaled to six decimals. *)
Definition sqrt_approx (x : Q) : Q :=
  Z.sqrt (Qfloor (x * 1000000000000)) # 1000000.

(** One coordinate with majorizer (a, b) = (2, 1), weight 1, previous delta
    1/2, one row, and regularization l1 = 1/4, l2 = 1/8. *)
Definition majorizer_one_coordinate : Majorizer.t :=
  Majorizer.mk [mkDim1Majorizer 2 1] (1 # 2) 0.

Definition model_one_coordinate : Model.t :=
  Model.mk [0%Q] [1%Q] [(1 # 2)%Q] [(1 # 3)%Q] [1] 1 (Finite (1 # 4)) (Finite 1) true 3.

Definition stats_one_coordinate : Stats.t := Stats.mk 1 0 [1] [0] [0].

Definition regularizations_l1_l2 : Regularizations :=
  mkRegularizations (mkRegularization (1 # 4) (1 # 8) 0) (mkRegularization 0 0 0)
                    (mkRegularization 0 0 0) (mkRegularization 0 0 0).

(** ** sensei/sgd.h *)

Module Sgd.

Inductive TrainingMode := ALL_FEATURES | NEW_FEATURES.

(** [weights_] is the array of atomic doubles; [learning_rate_] is the
    schedule message ([start_learning_rate] with its presence bit, and
    [decay_speed]); [learning_rate_counter_] is an [atomic<uint32>]. *)
Record t := mk {
  weights_ : list Q;
  prev_total_loss_ : ExtDouble;
  has_start_learning_rate : bool;
  start_learning_rate : Q;
  decay_speed : Q;
  learning_rate_counter_ : N;
  training_mode_ : TrainingMode;
  deterministic_ : bool
}.

Definition with_weights (weights : list Q) (s : t) : t :=
  mk weights (prev_total_loss_ s) (has_start_learning_rate s)
     (start_learning_rate s) (decay_speed s) (learning_rate_counter_ s)
     (training_mode_ s) (deterministic_ s).

(** [SetSize]: a fresh array of [size] atomics (written by [MakeOnePass]
    before it is read). *)
Definition SetSize (size : N) (s : t) : t :=
  with_weights (replicate (N.to_nat size) 0%Q) s.

Local Open Scope Q_scope.

(** [GetLearningRate]; [training_rows] is
    [data_->GetTraining().GetStats().RowCount()].  The quotients
    are the code's where [training_rows] is positive: with no training row
    the code divides a double by zero, which the rationals do not follow. *)
Definition GetLearningRate (s : t) (training_rows : N) : Q :=
  let current_count := N_to_double (learning_rate_counter_ s) in
  let iteration_progress := current_count / N_to_double training_rows in
  start_learning_rate s / (1 + decay_speed s * iteration_progress).

(** [training_mode_ == NEW_FEATURES && !model_->IsFeatureNew(j)] *)
Definition skipped (s : t) (model : Model.t) (j : N) : option bool :=
  match training_mode_ s with
  | NEW_FEATURES => b ← Model.IsFeatureNew model j; Some (negb b)
  | ALL_FEATURES => Some false
  end.

(** One turn of the compare-exchange loop of [ApplyRegularization], run
    without interference. *)
Definition regularize (l1 l2 learning_rate old_value : Q) : Q :=
  let delta := (l1 * Sign old_value + 2 * l2 * old_value) * learning_rate in
  let new_value := old_value - delta in
  if negb (Qeqb (Sign old_value) (Sign new_value)) then 0 else new_value.

Definition ApplyRegularization_step (s : t) (model : Model.t) (l1 l2 learning_rate : Q)
    (j : nat) (weights : list Q) : option (list Q) :=
  skip ← skipped s model (N.of_nat j);
  if skip : bool then Some weights
  else
    old_value ← weights !! j;
    vset weights (N.of_nat j) (regularize l1 l2 learning_rate old_value).

(** [ApplyRegularization]; [shard_count] is
    [data_->GetTraining().GetShards().size()]; the rate is the code's where
    it is positive, as it is in [ProcessShard], which runs once for each
    of these shards. *)
Definition ApplyRegularization (regularizations : Regularizations) (model : Model.t)
    (training_rows : N) (shard_count : nat) (s : t) : option t :=
  let learning_rate :=
    GetLearningRate s training_rows / N_to_double (N.of_nat shard_count) in
  let l1 := l1 (regularization_ regularizations) in
  let l2 := l2 (regularization_ regularizations) in
  weights ← for_range (length (Model.w model))
               (ApplyRegularization_step s model l1 l2 learning_rate) (weights_ s);
  Some (with_weights weights s).

Section WithExp.
Variable exp : Q -> Q.

(** [ProcessOneRow]; [AddToAtomic] run without interference adds [delta]. *)
Definition ProcessOneRow (model : Model.t) (training_rows : N)
    (row_extender : RowExtender.t) (s : t) : option t :=
  let learning_rate := GetLearningRate s training_rows in
  let y := RowExtender.y_ row_extender in
  dot ← RowExtender.Dot row_extender (weights_ s);
  let sigmoid := 1 / (1 + exp (dot * y)) in
  let delta := learning_rate * y * sigmoid in
  weights ← for_each
    (fun j weights =>
       skip ← skipped s model j;
       if skip : bool then Some weights
       else old_value ← vget weights j; vset weights j (old_value + delta))
    (RowExtender.SparseBool row_extender) (weights_ s);
  Some (with_weights weights s).

(** The row loop of [ProcessShard]. *)
Definition ProcessShard_rows (data : Data.t) (model : Model.t) (shard : Shard.t)
    (s : t) : option t :=
  let training_rows := Stats.RowCount (ShardSet.stats_ (Data.training_ data)) in
  '(_, s') ← for_range (N.to_nat (Shard.RowCount shard))
    (fun i '(row_extender, s) =>
       row_extender' ← Shard_ResetExtender (Some (Data.dependees_ data)) shard
                                           (N.of_nat i) row_extender;
       s' ← ProcessOneRow model training_rows row_extender' s;
       Some (row_extender',
             mk (weights_ s') (prev_total_loss_ s') (has_start_learning_rate s')
                (start_learning_rate s') (decay_speed s')
                (to_uint32 (learning_rate_counter_ s' + 1))
                (training_mode_ s') (deterministic_ s')))
    (RowExtender.new, s);
  Some s'.

(** [ProcessShard]: the rows of the shard, then [ApplyRegularization]. *)
Definition ProcessShard (regularizations : Regularizations) (data : Data.t)
    (model : Model.t) (shard : Shard.t) (s : t) : option t :=
  s' ← ProcessShard_rows data model shard s;
  ApplyRegularization regularizations model
    (Stats.RowCount (ShardSet.stats_ (Data.training_ data)))
    (length (ShardSet.shards_ (Data.training_ data))) s'.

(** [MakeOnePass] with the shards taken one after the other (the
    deterministic mode of [ParFor]). *)
Definition MakeOnePass (regularizations : Regularizations) (data : Data.t)
    (model : Model.t) (s : t) : option (t * Model.t) :=
  _ ← CHECK (negb (IsNonStandard regularizations));
  _ ← CHECK (bool_decide (length (Model.w model) = length (weights_ s)));
  let training_rows := Stats.RowCount (ShardSet.stats_ (Data.training_ data)) in
  s1 ← for_each (ProcessShard regularizations data model)
                (ShardSet.shards_ (Data.training_ data))
                (with_weights (Model.w model) s);
  _ ← CHECK (negb (training_rows =? 0)%N);
  _ ← CHECK ((learning_rate_counter_ s1 mod training_rows =? 0)%N);
  Some (s1, Model.mk (Model.precision model) (weights_ s1) (Model.delta_w model)
                     (Model.loss_derivative model) (Model.creation_time model)
                     (Model.current_creation_time model)
                     (Model.prev_total_loss model) (Model.total_loss model)
                     false (to_uint32 (Model.iteration_no model + 1))).

End WithExp.


Local Close Scope Q_scope.

End Sgd.

(** A run with two training shards: every J is eligible, the learning rate
    is 1 without decay, L1 = 0 and L2 = 1/4, and the only weight is 1. *)
Definition sgd_two_shards : Sgd.t :=
  Sgd.mk [1%Q] kInfinity true 1%Q 0%Q 0 Sgd.ALL_FEATURES true.

Definition regularizations_l2_quarter : Regularizations :=
  mkRegularizations (mkRegularization 0 (1 # 4) 0) (mkRegularization 0 0 0)
                    (mkRegularization 0 0 0) (mkRegularization 0 0 0).

Definition model_one_weight : Model.t :=
  Model.mk [0%Q] [1%Q] [0%Q] [0%Q] [1] 1 kInfinity kInfinity false 0.

(** ** sensei/world.h, sensei/world.cc *)

Module World.

Record t := mk {
  data_ : Data.t;
  feature_map_ : FeatureMap;
  product_map_ : ProductMap;
  optimizer_ : GradBoost.t;
  sgd_ : Sgd.t;
  model_ : Model.t;
  regularizations_ : Regularizations;
  j_size_ : N
}.

(** [SetJSize] *)
Definition SetJSize (size : N) (w : t) : t :=
  mk (data_ w) (feature_map_ w) (product_map_ w)
     (GradBoost.SetSize size (optimizer_ w)) (Sgd.SetSize size (sgd_ w))
     (Model.SetSize size (model_ w)) (regularizations_ w) size.

(** [RemoveAndRenumber]:
    [data_->RemoveAndRenumberJs; optimizer_->RemoveAndRenumberJs;
     product_map_->RemoveAndRenumberJs;] *)
Definition RemoveAndRenumber (r : JRenumbering.t) (w : t) : option t :=
  if JRenumbering.IsNoOp r then Some w
  else
    data ← Data.RemoveAndRenumberJs r (data_ w);
    '(optimizer, model) ← GradBoost.RemoveAndRenumberJs r (optimizer_ w) (model_ w);
    product_map ← FeatureMapBase.RemoveAndRenumberJs r (product_map_ w);
    Some (mk data (feature_map_ w) product_map optimizer (sgd_ w) model
             (regularizations_ w) (JRenumbering.next_j r)).

End World.

(** A world with the atomic feature "a" as product J 0 and the bias as
    product J 1, one training row, and every per-J component at size 2. *)
Definition world_two_features : World.t :=
  let stats := Stats.mk 1 0 [1; 1] [0; 0] [0; 0] in
  let no_stats := Stats.mk 0 0 [0; 0] [0; 0] [0; 0] in
  let shard := Shard.mk (CsrMatrix.mk [0; 2] [0; 1]) [1%Q] [0] [] in
  let fa := FeatureMapBase.mkFeatureAndJ ([0] : JProduct) 0 in
  let fb := FeatureMapBase.mkFeatureAndJ ([] : JProduct) 1 in
  let mz := Majorizer.mk [mkDim1Majorizer 0 0; mkDim1Majorizer 0 0] 0 0 in
  World.mk
    (Data.mk (ShardSet.mk [shard] stats) (ShardSet.mk [] no_stats)
             (CsrMatrix.mk [0; 0; 0] []))
    (FeatureMapBase.mk 1 [("a"%string, Some (FeatureMapBase.mkFeatureAndJ "a"%string 0))]
                       true [Some (FeatureMapBase.mkFeatureAndJ "a"%string 0)])
    (FeatureMapBase.mk 2 [([0], Some fa); ([], Some fb)] true [Some fa; Some fb])
    (GradBoost.mk mz mz 0 1 false true)
    (Sgd.mk [0%Q; 0%Q] kInfinity true 1 0 0 Sgd.ALL_FEATURES true)
    (Model.mk [0%Q; 0%Q] [0%Q; 0%Q] [0%Q; 0%Q] [0%Q; 0%Q] [1; 1] 1
              kInfinity kInfinity false 0)
    (mkRegularizations (mkRegularization 0 0 0) (mkRegularization 0 0 0)
                       (mkRegularization 0 0 0) (mkRegularization 0 0 0))
    2.

(** ** std::priority_queue

    The queue is a component of the C++ standard library.  Its contract:
    [top] is an element that is not less than any other under the
    comparator, [pop] removes it, [push] adds an element.  Which of several
    greatest elements comes first is left open by the standard, so the
    operations are a record and the contract is a predicate on it;
    [pq_elements] is the multiset of the elements held, as a list. *)

Record PriorityQueue (A : Type) := mkPriorityQueue {
  pq_t : Type;
  pq_new : pq_t;
  pq_push : A -> pq_t -> pq_t;
  pq_top : pq_t -> option A;
  pq_pop : pq_t -> pq_t;
  pq_size : pq_t -> nat;
  pq_elements : pq_t -> list A
}.

Arguments pq_t {A} _.
Arguments pq_new {A} _.
Arguments pq_push {A} _ _ _.
Arguments pq_top {A} _ _.
Arguments pq_pop {A} _ _.
Arguments pq_size {A} _ _.
Arguments pq_elements {A} _ _.

Record PriorityQueueLaws {A : Type} (less : A -> A -> bool) (P : PriorityQueue A)
  : Prop := mkPriorityQueueLaws {
  pq_new_elements : pq_elements P (pq_new P) = [];
  pq_push_elements x q : pq_elements P (pq_push P x q) ≡ₚ x :: pq_elements P q;
  pq_top_none q : pq_top P q = None <-> pq_elements P q = [];
  pq_top_greatest q x :
    pq_top P q = Some x ->
    x ∈ pq_elements P q /\ forall y, y ∈ pq_elements P q -> less x y = false;
  pq_pop_elements q x :
    pq_top P q = Some x -> x :: pq_elements P (pq_pop P q) ≡ₚ pq_elements P q;
  pq_size_elements q : pq_size P q = length (pq_elements P q)
}.

(** A queue kept as a plain list: [top] scans for a greatest element (the
    one nearest to the back among equals), [pop] takes that element out. *)
Fixpoint list_top {A : Type} (less : A -> A -> bool) (l : list A) : option A :=
  match l with
  | [] => None
  | x :: rest =>
      match list_top less rest with
      | None => Some x
      | Some m => if less m x then Some x else Some m
      end
  end.

Fixpoint list_pop {A : Type} (less : A -> A -> bool) (l : list A) : list A :=
  match l with
  | [] => []
  | x :: rest =>
      match list_top less rest with
      | None => []
      | Some m => if less m x then rest else x :: list_pop less rest
      end
  end.

Definition list_pq {A : Type} (less : A -> A -> bool) : PriorityQueue A :=
  mkPriorityQueue A (list A) [] cons (list_top less) (list_pop less) length id.

(** [std::lround]: to the nearest integer, halves away from zero. *)
Definition lround (x : Q) : Z :=
  if Qle_bool 0 x then Qfloor (x + (1 # 2)) else (- Qfloor (- x + (1 # 2)))%Z.

(** ** sensei/feature_pruning.cc *)

Module FeaturePruning.

(** [config::FeaturePruning]: the three stopping fields, each with its
    presence bit ([top_count] is validated to be non-negative). *)
Record Config := mkConfig {
  score_threshold : option Q;
  top_count : option N;
  top_fraction : option Q
}.

(** [struct ScoreComparator]: [lhs.first > rhs.first] *)
Definition ScoreComparator (lhs rhs : ExtDouble * N) : bool :=
  ext_gtb lhs.1 rhs.1.

(** The inner [while (true)] loop: starting at [num_removed_children_at_j],
    count the children that are already removed, up to the first one that
    is not. *)
Fixpoint count_removed (removed_js : list bool) (children : list N) : option N :=
  match children with
  | [] => Some 0
  | j_dependee :: rest =>
      b ← vget removed_js j_dependee;
      if b : bool then n ← count_removed removed_js rest; Some (n + 1)
      else Some 0
  end.

Section WithQueue.
Variable P : PriorityQueue (ExtDouble * N).

Record State := mkState {
  js_queue : pq_t P;
  triggered_by : gmap N (list N);
  num_removed_children : gmap N N;
  removed_js : list bool;
  features_removed : N;
  xjbools_removed : N
}.

Inductive Control := Break | Continue (s : State).

(** The tests at the head of the main loop, on the top score. *)
Definition stops (config : Config) (feature_count : nat) (queue_size : nat)
    (score : ExtDouble) : bool :=
  ext_eqb score kInfinity ||
  match score_threshold config with
  | Some threshold => ext_gtb score (Finite threshold)
  | None => false
  end ||
  match top_count config with
  | Some n => (N.of_nat queue_size <=? n)
  | None => false
  end ||
  match top_fraction config with
  | Some fraction =>
      let top_feature_count := (N_to_double (N.of_nat feature_count) * fraction)%Q in
      (Z.of_nat queue_size <=? lround top_feature_count mod Z.of_N uint64_modulus)%Z
  | None => false
  end.

(** [for (uint32 triggered : triggered_by[j])
      js_queue.push(std::make_pair(j_to_score[triggered], triggered));] *)
Definition push_triggered (j_to_score : list ExtDouble) (triggered : N) (q : pq_t P)
  : option (pq_t P) :=
  score ← vget j_to_score triggered;
  Some (pq_push P (score, triggered) q).

(** One turn of the main loop of [ComputePruning]. *)
Definition step (config : Config) (j_to_score : list ExtDouble) (data : Data.t)
    (feature_count : nat) (s : State) : option Control :=
  match pq_top P (js_queue s) with
  | None => Some Break
  | Some (score, j) =>
      if stops config feature_count (pq_size P (js_queue s)) score then Some Break
      else
        let queue := pq_pop P (js_queue s) in
        j_dependees ← CsrMatrix.GetRow (Data.dependees_ data) j;
        let n0 := default 0 (num_removed_children s !! j) in
        k ← count_removed (removed_js s) (drop (N.to_nat n0) j_dependees);
        let n := to_uint32 (n0 + k) in
        let num_removed := <[j := n]> (num_removed_children s) in
        if n <? N.of_nat (length j_dependees) then
          j_dependee ← vget j_dependees n;
          Some (Continue
                  (mkState queue
                     (<[j_dependee := default [] (triggered_by s !! j_dependee) ++ [j]]>
                        (triggered_by s))
                     num_removed (removed_js s) (features_removed s)
                     (xjbools_removed s)))
        else
          removed ← vset (removed_js s) j true;
          xjbools ← Data.XjBoolCountOfJ data j;
          queue' ← for_each (push_triggered j_to_score)
                            (default [] (triggered_by s !! j)) queue;
          Some (Continue
                  (mkState queue' (delete j (triggered_by s)) num_removed removed
                     (to_uint64 (features_removed s + 1))
                     (to_uint64 (xjbools_removed s + xjbools))))
  end.

(** [while (true)], with a bound on the number of turns. *)
Fixpoint loop (fuel : nat) (config : Config) (j_to_score : list ExtDouble)
    (data : Data.t) (feature_count : nat) (s : State) : option State :=
  match fuel with
  | O => None
  | S fuel' =>
      c ← step config j_to_score data feature_count s;
      match c with
      | Break => Some s
      | Continue s' => loop fuel' config j_to_score data feature_count s'
      end
  end.

(** The queue is filled from [product_map()->GetAll()]. *)
Definition initial_queue (product_map : ProductMap) (j_to_score : list ExtDouble)
  : option (pq_t P) :=
  all ← FeatureMapBase.GetAll product_map;
  for_each (fun f q =>
              r ← f;
              score ← vget j_to_score (FeatureMapBase.GetJ r);
              Some (pq_push P (score, FeatureMapBase.GetJ r) q))
           all (pq_new P).

Definition initial_state (product_map : ProductMap) (model : Model.t)
    (j_to_score : list ExtDouble) : option State :=
  queue ← initial_queue product_map j_to_score;
  Some (mkState queue ∅ ∅ (replicate (N.to_nat (Model.GetSize model)) false) 0 0).

(** Between two pops of a J one more of its children has been removed, and
    a J has no more children than the matrix has entries: every J of the
    queue is popped at most [NonZerosCount + 1] times, and deferred at most
    [NonZerosCount] times. *)
Definition ComputePruning_fuel (data : Data.t) (feature_count : nat) : nat :=
  S (feature_count * S (2 * length (CsrMatrix.contents_ (Data.dependees_ data)))).

(** [ComputePruning]: the vector [removed_js]. *)
Definition ComputePruning (world : World.t) (config : Config)
    (j_to_score : list ExtDouble) : option (list bool) :=
  s0 ← initial_state (World.product_map_ world) (World.model_ world) j_to_score;
  let feature_count := pq_size P (js_queue s0) in
  s ← loop (ComputePruning_fuel (World.data_ world) feature_count) config
           j_to_score (World.data_ world) feature_count s0;
  Some (removed_js s).

(** The states of the main loop after any number of turns. *)
Inductive run (config : Config) (j_to_score : list ExtDouble) (data : Data.t)
    (feature_count : nat) (s0 : State) : State -> Prop :=
| run_start : run config j_to_score data feature_count s0 s0
| run_step s s' :
    run config j_to_score data feature_count s0 s ->
    step config j_to_score data feature_count s = Some (Continue s') ->
    run config j_to_score data feature_count s0 s'.

End WithQueue.

(** [RemoveJs] *)
Definition RemoveJs (removed_js : list bool) (world : World.t) : option World.t :=
  r ← JRenumbering.RemoveJs removed_js;
  World.RemoveAndRenumber r world.

End FeaturePruning.

(** The policy of pruning: a removed J has no child left. *)
Definition closed_under_dependees (dependees : CsrMatrix.t) (removed_js : list bool)
  : Prop :=
  forall j children c,
    CsrMatrix.GetRow dependees j = Some children ->
    vget removed_js j = Some true ->
    c ∈ children ->
    vget removed_js c = Some true.

(** The invariant stated in [ComputePruning]: the first
    [num_removed_children[j]] children of [j] are known to have been
    removed. *)
Definition counted_children_removed (dependees : CsrMatrix.t)
    (removed_js : list bool) (num_removed_children : gmap N N) : Prop :=
  forall j n children,
    num_removed_children !! j = Some n ->
    CsrMatrix.GetRow dependees j = Some children ->
    forall i, (i < N.to_nat n)%nat ->
      exists c, children !! i = Some c /\ vget removed_js c = Some true.

(** Both, on a state of the main loop. *)
Definition pruning_invariant (P : PriorityQueue (ExtDouble * N)) (data : Data.t)
    (s : FeaturePruning.State P) : Prop :=
  closed_under_dependees (Data.dependees_ data) (FeaturePruning.removed_js P s) /\
  counted_children_removed (Data.dependees_ data) (FeaturePruning.removed_js P s)
    (FeaturePruning.num_removed_children P s).

(** *** Consistency of the world, and the measure of the main loop *)

(** What a turn of the loop reads for [j]: its row of dependees, with every
    child an index of [removed_js]; its statistics; and its score. *)
Definition pruning_ready (data : Data.t) (j_to_score : list ExtDouble)
    (size : nat) (j : N) : bool :=
  (N.to_nat j <? size)%nat &&
  match CsrMatrix.GetRow (Data.dependees_ data) j,
        Data.XjBoolCountOfJ data j, vget j_to_score j with
  | Some children, Some _, Some _ =>
      forallb (fun c => (N.to_nat c <? size)%nat) children
  | _, _, _ => false
  end.

(** The rows, the dependees, the statistics, the scores and the product map
    agree on the number of J's. *)
Definition world_consistent (world : World.t) (j_to_score : list ExtDouble) : bool :=
  let data := World.data_ world in
  let size := N.to_nat (Model.GetSize (World.model_ world)) in
  (N.of_nat (length (CsrMatrix.contents_ (Data.dependees_ data))) <=? kInvalidJ) &&
  FeatureMapBase.j_to_feature_synced_ (World.product_map_ world) &&
  forallb (fun f : option (FeatureMapBase.FeatureAndJ JProduct) =>
             match f with
             | Some r => (N.to_nat (FeatureMapBase.GetJ r) <? size)%nat
             | None => false
             end)
          (FeatureMapBase.j_to_feature_ (World.product_map_ world)) &&
  forallb (fun j => pruning_ready data j_to_score size (N.of_nat j)) (seq 0 size).

Definition children_of (data : Data.t) (j : N) : list N :=
  default [] (CsrMatrix.GetRow (Data.dependees_ data) j).

(** The count that the inner loop reaches for [j]. *)
Definition scan_end (data : Data.t) (removed_js : list bool)
    (num_removed_children : gmap N N) (j : N) : nat :=
  let n0 := N.to_nat (default 0 (num_removed_children !! j)) in
  let k := default 0 (FeaturePruning.count_removed removed_js
                        (drop n0 (children_of data j))) in
  (n0 + N.to_nat k)%nat.

(** The weight of a J in the queue: the turns it can still take, twice for
    every child that the inner loop has yet to pass, and once more. *)
Definition queue_weight (data : Data.t) (removed_js : list bool)
    (num_removed_children : gmap N N) (j : N) : nat :=
  S (2 * (length (children_of data j) - scan_end data removed_js num_removed_children j)).

(** The weight of a J that is blocked. *)
Definition blocked_weight (data : Data.t) (num_removed_children : gmap N N)
    (t : N) : nat :=
  2 * (length (children_of data t) - N.to_nat (default 0 (num_removed_children !! t))).

Definition blocked_total (w : N -> nat) (triggered_by : gmap N (list N)) : nat :=
  sum_list_with (fun cl : N * list N => sum_list_with w cl.2) (map_to_list triggered_by).

(** The measure: it falls with every turn of the main loop. *)
Definition potential (P : PriorityQueue (ExtDouble * N)) (data : Data.t)
    (s : FeaturePruning.State P) : nat :=
  (sum_list_with
     (fun e : ExtDouble * N =>
        queue_weight data (FeaturePruning.removed_js P s)
                     (FeaturePruning.num_removed_children P s) e.2)
     (pq_elements P (FeaturePruning.js_queue P s)) +
   blocked_total (blocked_weight data (FeaturePruning.num_removed_children P s))
                 (FeaturePruning.triggered_by P s))%nat.

(** What holds of the queue and of [triggered_by] in every turn: the J's
    they hold can be read, and a J recorded under [c] waits at the child
    [c], which is still present. *)
Definition blocked_invariant (P : PriorityQueue (ExtDouble * N)) (data : Data.t)
    (j_to_score : list ExtDouble) (size : nat) (s : FeaturePruning.State P) : Prop :=
  length (FeaturePruning.removed_js P s) = size /\
  (forall e, e ∈ pq_elements P (FeaturePruning.js_queue P s) ->
     pruning_ready data j_to_score size e.2 = true) /\
  (forall c l t,
     FeaturePruning.triggered_by P s !! c = Some l -> t ∈ l ->
     pruning_ready data j_to_score size t = true /\
     vget (FeaturePruning.removed_js P s) c = Some false /\
     exists m, FeaturePruning.num_removed_children P s !! t = Some m /\
               children_of data t !! N.to_nat m = Some c).

(** One feature, the bias as product J 0, with no dependees. *)
Definition world_one_feature : World.t :=
  let stats := Stats.mk 1 0 [1] [0] [0] in
  let no_stats := Stats.mk 0 0 [0] [0] [0] in
  let shard := Shard.mk (CsrMatrix.mk [0; 1] [0]) [1%Q] [0] [] in
  let f := FeatureMapBase.mkFeatureAndJ ([] : JProduct) 0 in
  let mz := Majorizer.mk [mkDim1Majorizer 0 0] 0 0 in
  World.mk
    (Data.mk (ShardSet.mk [shard] stats) (ShardSet.mk [] no_stats)
             (CsrMatrix.mk [0; 0] []))
    FeatureMapBase.empty
    (FeatureMapBase.mk 1 [([], Some f)] true [Some f])
    (GradBoost.mk mz mz 0 1 false true)
    (Sgd.mk [0%Q] kInfinity true 1 0 0 Sgd.ALL_FEATURES true)
    (Model.mk [0%Q] [1%Q] [0%Q] [0%Q] [1] 1 kInfinity kInfinity false 0)
    (mkRegularizations (mkRegularization 0 0 0) (mkRegularization 0 0 0)
                       (mkRegularization 0 0 0) (mkRegularization 0 0 0))
    1.

(** Pruning by score only, with threshold 1. *)
Definition config_threshold_one : FeaturePruning.Config :=
  FeaturePruning.mkConfig (Some 1%Q) None None.


(** The atomic features "a" and "b" as product J's 0 and 1 and their product
    as J 2, which is the one child of both; every per-J component at
    size 3. *)
Definition world_ab : World.t :=
  let stats := Stats.mk 1 0 [1; 1; 1] [0; 0; 0] [0; 0; 0] in
  let no_stats := Stats.mk 0 0 [0; 0; 0] [0; 0; 0] [0; 0; 0] in
  let shard := Shard.mk (CsrMatrix.mk [0; 2] [0; 1]) [1%Q] [0] [] in
  let fa := FeatureMapBase.mkFeatureAndJ ([0] : JProduct) 0 in
  let fb := FeatureMapBase.mkFeatureAndJ ([1] : JProduct) 1 in
  let fab := FeatureMapBase.mkFeatureAndJ ([0; 1] : JProduct) 2 in
  let d := mkDim1Majorizer 0 0 in
  let mz := Majorizer.mk [d; d; d] 0 0 in
  World.mk
    (Data.mk (ShardSet.mk [shard] stats) (ShardSet.mk [] no_stats)
             (CsrMatrix.mk [0; 1; 2; 2] [2; 2]))
    (FeatureMapBase.mk 2
       [("a"%string, Some (FeatureMapBase.mkFeatureAndJ "a"%string 0));
        ("b"%string, Some (FeatureMapBase.mkFeatureAndJ "b"%string 1))]
       true
       [Some (FeatureMapBase.mkFeatureAndJ "a"%string 0);
        Some (FeatureMapBase.mkFeatureAndJ "b"%string 1)])
    (FeatureMapBase.mk 3 [([0], Some fa); ([1], Some fb); ([0; 1], Some fab)] true
                       [Some fa; Some fb; Some fab])
    (GradBoost.mk mz mz 0 1 false true)
    (Sgd.mk [0%Q; 0%Q; 0%Q] kInfinity true 1 0 0 Sgd.ALL_FEATURES true)
    (Model.mk [0%Q; 0%Q; 0%Q] [0%Q; 0%Q; 0%Q] [0%Q; 0%Q; 0%Q] [0%Q; 0%Q; 0%Q]
              [1; 1; 1] 1 kInfinity kInfinity false 0)
    (mkRegularizations (mkRegularization 0 0 0) (mkRegularization 0 0 0)
                       (mkRegularization 0 0 0) (mkRegularization 0 0 0))
    3.

(** Scores that rise with J: the parents score below the product. *)
Definition scores_ab : list ExtDouble := [Finite 1; Finite 2; Finite 3].


(** ** sensei/range.h: PrioritySumIterator *)

Module PrioritySumIterator.

(** [operator<] of [std::pair], on [(row, column)] and on
    [(sum, (row, column))]: the comparator of the max-heap [pq_]. *)
Definition index_pair_less (a b : N * N) : bool :=
  (a.1 <? b.1) || (negb (b.1 <? a.1) && (a.2 <? b.2)).

Definition entry_less (a b : Q * (N * N)) : bool :=
  Qltb a.1 b.1 || (negb (Qltb b.1 a.1) && index_pair_less a.2 b.2).

Section WithQueue.
Context {T : Type}.
Variable P : PriorityQueue (Q * (N * N)).

Record t := mk { v_ : list (Q * T); pq_ : pq_t P }.

(** [InsertNext] *)
Definition InsertNext (p : N * N) (it : t) : option t :=
  let np := (p.1, to_uint32 (p.2 + 1)) in
  if N.of_nat (length (v_ it)) <=? np.2 then Some it
  else
    a ← vget (v_ it) np.1;
    b ← vget (v_ it) np.2;
    Some (mk (v_ it) (pq_push P ((a.1 + b.1)%Q, np) (pq_ it))).

(** The constructor. *)
Definition new (v : list (Q * T)) : option t :=
  _ ← CHECK (negb (Nat.eqb (length v) 0));
  for_range (N.to_nat (to_uint32 (N.of_nat (length v))))
            (fun j it => InsertNext (N.of_nat j, N.of_nat j) it)
            (mk v (pq_new P)).

Definition HasNext (it : t) : bool := negb (Nat.eqb (pq_size P (pq_ it)) 0).

(** [Next]; [top] of an empty queue is undefined. *)
Definition Next (it : t) : option ((T * T) * t) :=
  e ← pq_top P (pq_ it);
  it' ← InsertNext e.2 (mk (v_ it) (pq_pop P (pq_ it)));
  a ← vget (v_ it) e.2.1;
  b ← vget (v_ it) e.2.2;
  Some ((a.2, b.2), it').

End WithQueue.
Arguments t : clear implicits.
End PrioritySumIterator.

(** ** sensei/csr_matrix.h: CooMatrix *)

Module CooMatrix.

Record t := mk { contents_ : list (N * N); row_count_ : N }.

Definition SetTrue (row column : N) (m : t) : t :=
  mk (contents_ m ++ [(row, column)]) (row_count_ m).

(** [std::sort] with [operator<] of [pair<uint32, uint32>] *)
Definition coord_le (a b : N * N) : Prop :=
  PrioritySumIterator.index_pair_less b a = false.

#[global] Instance coord_le_dec : RelDecision coord_le :=
  fun a b => decide (PrioritySumIterator.index_pair_less b a = false).

Definition Sort (m : t) : t := mk (merge_sort coord_le (contents_ m)) (row_count_ m).

(** [std::is_sorted]: no element is less than the one before it. *)
Fixpoint is_sorted (l : list (N * N)) : bool :=
  match l with
  | a :: (b :: _) as l' => negb (PrioritySumIterator.index_pair_less b a) && is_sorted l'
  | _ => true
  end.

Definition IsSorted (m : t) : bool := is_sorted (contents_ m).

End CooMatrix.

(** [CsrMatrix::ToCooMatrix] *)
Definition ToCooMatrix (m : CsrMatrix.t) : option CooMatrix.t :=
  for_range (N.to_nat (CsrMatrix.RowCount m))
    (fun i coo =>
       row ← CsrMatrix.GetRow m (N.of_nat i);
       Some (fold_left (fun coo j => CooMatrix.SetTrue (N.of_nat i) j coo) row coo))
    (CooMatrix.mk [] (CsrMatrix.RowCount m)).

(** [while (i >= boundaries_.size()) boundaries_.push_back(contents_.size());] *)
Definition pad_boundaries (i : N) (m : CsrMatrix.t) : CsrMatrix.t :=
  CsrMatrix.mk
    (CsrMatrix.boundaries_ m ++
       replicate (S (N.to_nat i) - length (CsrMatrix.boundaries_ m))
                 (to_uint32 (N.of_nat (length (CsrMatrix.contents_ m)))))
    (CsrMatrix.contents_ m).

(** [CsrMatrix::FromCooMatrix], with its [DCHECK(coo_matrix.IsSorted())] *)
Definition FromCooMatrix (coo : CooMatrix.t) : option CsrMatrix.t :=
  _ ← CHECK (CooMatrix.IsSorted coo);
  Some (pad_boundaries (CooMatrix.row_count_ coo)
          (fold_left (fun m ij =>
                        let m' := pad_boundaries ij.1 m in
                        CsrMatrix.mk (CsrMatrix.boundaries_ m')
                                     (CsrMatrix.contents_ m' ++ [ij.2]))
                     (CooMatrix.contents_ coo) (CsrMatrix.mk [] []))).

(** ** sensei/feature_exploration.cc *)

Module FeatureExploration.

(** [config::FeatureExploration], the fields read by the selection loop. *)
Record Config := mkConfig {
  expected_xjbools_added : option Q;
  maximum_features_added : option N;
  max_product_size : option N
}.

(** [operator<] of [pair<Double, uint32>] *)
Definition score_j_less (a b : Q * N) : bool :=
  Qltb a.1 b.1 || (negb (Qltb b.1 a.1) && (a.2 <? b.2)).

(** [std::sort(best_js.rbegin(), best_js.rend())]: afterwards the vector is
    in descending order. *)
Definition descending (a b : Q * N) : Prop := score_j_less a b = false.

#[global] Instance descending_dec : RelDecision descending :=
  fun a b => decide (score_j_less a b = false).

Definition sort_best_js (best_js : list (Q * N)) : list (Q * N) :=
  merge_sort descending best_js.

(** [best_js], from [product_map_->GetAll()] *)
Definition best_js (product_map : ProductMap) (j_to_score : list Q)
  : option (list (Q * N)) :=
  all ← FeatureMapBase.GetAll product_map;
  mapM (fun f : option (FeatureMapBase.FeatureAndJ JProduct) =>
          r ← f;
          score ← vget j_to_score (FeatureMapBase.GetJ r);
          Some (score, FeatureMapBase.GetJ r))
       all.

Section WithQueue.
Variable P : PriorityQueue (Q * (N * N)).

(** [j_pair = psi.Next();
     if (j_pair.first > j_pair.second) std::swap(j_pair.first, j_pair.second);] *)
Definition next_pair (psi : PrioritySumIterator.t N P)
  : option ((N * N) * PrioritySumIterator.t N P) :=
  '(j_pair, psi') ← PrioritySumIterator.Next P psi;
  Some (if j_pair.2 <? j_pair.1 then (j_pair.2, j_pair.1) else j_pair, psi').


(** The iterator that [AddNewProductFeatures] builds. *)
Definition pair_iterator (product_map : ProductMap) (j_to_score : list Q)
  : option (PrioritySumIterator.t N P) :=
  v ← best_js product_map j_to_score;
  PrioritySumIterator.new P (sort_best_js v).

Record LoopState := mkLoopState {
  psi : PrioritySumIterator.t N P;
  product_map : ProductMap;
  coo_dependees : CooMatrix.t;
  new_feature_count : N;
  present_features_skipped : N
}.

(** One turn of the selection loop; [None] in the control position is
    [break]. *)
Definition select (config : Config) (estimate : Q) (s : LoopState)
  : option (option LoopState) :=
  if match expected_xjbools_added config with
     | Some expected =>
         Qle_bool expected (N_to_double (new_feature_count s) * estimate)
     | None => false
     end then Some None
  else if match maximum_features_added config with
          | Some m => m <=? new_feature_count s
          | None => false
          end then Some None
  else if negb (PrioritySumIterator.HasNext P (psi s)) then Some None
  else
    '(j_pair, psi') ← next_pair (psi s);
    f1 ← FeatureMapBase.JToFeatureUnsafe j_pair.1 (product_map s);
    f2 ← FeatureMapBase.JToFeatureUnsafe j_pair.2 (product_map s);
    let new_f := JProduct_And f1 f2 in
    let '(present, pm) := FeatureMapBase.HasFeature new_f (product_map s) in
    if present : bool then
      Some (Some (mkLoopState psi' pm (coo_dependees s) (new_feature_count s)
                              (to_uint64 (present_features_skipped s + 1))))
    else if match max_product_size config with
            | Some m => m <? N.of_nat (length new_f)
            | None => false
            end then
      Some (Some (mkLoopState psi' pm (coo_dependees s) (new_feature_count s)
                              (present_features_skipped s)))
    else
      '(new_f_j, pm') ← FeatureMapBase.FeatureToJ new_f pm;
      Some (Some (mkLoopState psi' pm'
                    (CooMatrix.SetTrue j_pair.2 new_f_j
                       (CooMatrix.SetTrue j_pair.1 new_f_j (coo_dependees s)))
                    (to_uint32 (new_feature_count s + 1))
                    (present_features_skipped s))).

Fixpoint select_loop (fuel : nat) (config : Config) (estimate : Q) (s : LoopState)
  : option LoopState :=
  match fuel with
  | O => None
  | S fuel' =>
      c ← select config estimate s;
      match c with
      | None => Some s
      | Some s' => select_loop fuel' config estimate s'
      end
  end.

(** The selection part of [AddNewProductFeatures]: the new product map and
    the new dependees matrix.  Every turn but the last draws one of the
    [n (n - 1) / 2] pairs of the iterator. *)
Definition select_products (config : Config) (estimate : Q)
    (products : ProductMap) (dependees : CsrMatrix.t) (j_to_score : list Q)
  : option (ProductMap * CsrMatrix.t) :=
  it ← pair_iterator products j_to_score;
  coo ← ToCooMatrix dependees;
  let n := length j_to_score in
  s ← select_loop (S (n * n)) config estimate
                  (mkLoopState it products coo 0 0);
  dependees' ← FromCooMatrix (CooMatrix.Sort (coo_dependees s));
  Some (product_map s, dependees').

End WithQueue.
End FeatureExploration.





(** The product map of scenario 4 and 5: the atomic features as products
    [{0}] (J 0) and [{1}] (J 1), synced, with no dependees yet. *)
Definition product_map_ab : ProductMap :=
  let fa := FeatureMapBase.mkFeatureAndJ ([0] : JProduct) 0 in
  let fb := FeatureMapBase.mkFeatureAndJ ([1] : JProduct) 1 in
  FeatureMapBase.mk 2 [([0], Some fa); ([1], Some fb)] true [Some fa; Some fb].

(** Three features with the same score. *)
Definition product_map_abc : ProductMap :=
  let fa := FeatureMapBase.mkFeatureAndJ ([0] : JProduct) 0 in
  let fb := FeatureMapBase.mkFeatureAndJ ([1] : JProduct) 1 in
  let fc := FeatureMapBase.mkFeatureAndJ ([2] : JProduct) 2 in
  FeatureMapBase.mk 3 [([0], Some fa); ([1], Some fb); ([2], Some fc)] true
                    [Some fa; Some fb; Some fc].



(** Exploration that stops after one new product. *)
Definition config_one_feature : FeatureExploration.Config :=
  FeatureExploration.mkConfig None (Some 1) None.

(** ** Renumbering in closed form *)

(** The entries of [v] whose J a removal vector keeps, in their order. *)
Fixpoint kept_entries {A : Type} (js_to_remove : list bool) (v : list A) : list A :=
  match js_to_remove, v with
  | b :: bs, x :: xs =>
      if b : bool then kept_entries bs xs else x :: kept_entries bs xs
  | _, _ => []
  end.

(** ** The matrix of a list of rows *)

(** The end offsets of the rows, the first row starting at [start]. *)
Fixpoint row_boundaries (start : N) (rows : list (list N)) : list N :=
  match rows with
  | [] => []
  | row :: rest =>
      let e := start + N.of_nat (length row) in
      e :: row_boundaries e rest
  end.

(** The representation of [rows]: [boundaries_] holds the start of the first
    row and the end of each row, [contents_] the rows one after the
    other. *)
Definition CsrMatrix_of_rows (rows : list (list N)) : CsrMatrix.t :=
  CsrMatrix.mk (0 :: row_boundaries 0 rows) (concat rows).

(** The coordinates of the rows, the first row being row [i]. *)
Fixpoint row_coords (i : N) (rows : list (list N)) : list (N * N) :=
  match rows with
  | [] => []
  | row :: rest => ((fun j => (i, j)) <$> row) ++ row_coords (i + 1) rest
  end.

(** One turn of the loop of [FromCooMatrix]. *)
Definition FromCooMatrix_step (m : CsrMatrix.t) (ij : N * N) : CsrMatrix.t :=
  let m' := pad_boundaries ij.1 m in
  CsrMatrix.mk (CsrMatrix.boundaries_ m') (CsrMatrix.contents_ m' ++ [ij.2]).

(** What the loop of [FromCooMatrix] keeps, after the coordinates of the
    rows [rows]: the contents are the rows, and the boundaries are a prefix
    of those of the rows, the ones not yet written being equal to the size
    of the contents. *)
Definition FromCooMatrix_invariant (rows : list (list N)) (m : CsrMatrix.t) : Prop :=
  CsrMatrix.contents_ m = concat rows /\
  exists n,
    (n <= S (length rows))%nat /\
    CsrMatrix.boundaries_ m = take n (0 :: row_boundaries 0 rows) /\
    drop n (0 :: row_boundaries 0 rows) =
      replicate (S (length rows) - n) (N.of_nat (length (concat rows))).

(** What [RemoveAndRenumberJs] leaves of a row: the new J's of the entries
    that have one, in their order. *)
Definition renumbered_row (r : JRenumbering.t) (row : list N) : list N :=
  omap (fun j =>
          match JRenumbering.j_to_new_j r !! N.to_nat j with
          | Some n => if n =? kInvalidJ then None else Some n
          | None => None
          end) row.

(** ** sensei/range.h *)

Module Range.

Record t := mk { from_ : N; to_ : N }.

(** [explicit Range(const uint32 to) : from_(0), to_(to) {}] *)
Definition upto (to : N) : t := mk 0 to.

(** [Range(from, to) : from_(from), to_(std::max(from, to)) {}] *)
Definition new (from to : N) : t := mk from (N.max from to).

(** [size()]: [to_ - from_] on [uint32] *)
Definition size (r : t) : N := uint32_sub (to_ r) (from_ r).

(** The values a [for] over the range visits: the iterator starts at
    [from_], is incremented on [uint32] and stops when it equals [to_]. *)
Definition values (r : t) : list N :=
  (fun i => to_uint32 (from_ r + N.of_nat i)) <$> seq 0 (N.to_nat (size r)).

(** [SplitEvenly(count)]: the products are computed on [uint64], the bounds
    are converted back to [uint32] by the constructor. *)
Definition SplitEvenly (count : N) (r : t) : option (list t) :=
  _ ← CHECK (0 =? from_ r);
  Some ((fun i32 =>
           let i := i32 in
           new (to_uint32 (to_uint64 (i * to_ r) / count))
               (to_uint32 (to_uint64 (to_uint64 (i + 1) * to_ r) / count)))
          <$> values (upto count)).

End Range.

Module ProductIterator.
Section WithT.
Context {T : Type}.

Record t := mk {
  factors_ : list (list T);
  cursor_ : list N;
  product_ : list T;
  empty_ : bool
}.

(** The loop of the constructor, over the indices [Range(factors_.size())]:
    it returns at the first empty factor, with [empty_] set. *)
Fixpoint new_loop (factors : list (list T)) (indices : list nat) (product : list T)
  : option (list T * bool) :=
  match indices with
  | [] => Some (product, false)
  | i :: rest =>
      f ← vget factors (N.of_nat i);
      if N.of_nat (length f) =? 0 then Some (product, true)
      else x ← vget f 0; new_loop factors rest (product ++ [x])
  end.

Definition new (factors : list (list T)) : option t :=
  '(product, empty) ←
     new_loop factors (seq 0 (N.to_nat (to_uint32 (N.of_nat (length factors))))) [];
  Some (mk factors (replicate (length factors) 0) product empty).

Definition IsEmpty (it : t) : bool := empty_ it.

Definition Get (it : t) : list T := product_ it.

Definition SetCursor (i value : N) (it : t) : option t :=
  cursor ← vset (cursor_ it) i value;
  f ← vget (factors_ it) i;
  x ← vget f value;
  product ← vset (product_ it) i x;
  Some (mk (factors_ it) cursor product (empty_ it)).

(** The loop of [Next]: the first cursor that can advance advances and the
    loop returns; the cursors before it go back to 0.  [cursor_[i] + 1] is
    computed on [uint32]. *)
Fixpoint Next_loop (indices : list nat) (it : t) : option t :=
  match indices with
  | [] => Some (mk (factors_ it) (cursor_ it) (product_ it) true)
  | i :: rest =>
      c ← vget (cursor_ it) (N.of_nat i);
      f ← vget (factors_ it) (N.of_nat i);
      if to_uint32 (c + 1) <? N.of_nat (length f)
      then SetCursor (N.of_nat i) (to_uint32 (c + 1)) it
      else it' ← SetCursor (N.of_nat i) 0 it; Next_loop rest it'
  end.

Definition Next (it : t) : option t :=
  Next_loop (seq 0 (N.to_nat (to_uint32 (N.of_nat (length (factors_ it)))))) it.

(** [for (PI pi(product_factors); !pi.IsEmpty(); pi.Next()) ... pi.Get()]
    (FeatureSpec::AddFeatures): the products the loop sees, in order. *)
Fixpoint visited (fuel : nat) (it : t) : option (list (list T)) :=
  if IsEmpty it then Some []
  else
    match fuel with
    | O => None
    | S fuel =>
        it' ← Next it;
        rest ← visited fuel it';
        Some (Get it :: rest)
    end.

End WithT.
Arguments t : clear implicits.
End ProductIterator.

(** The Cartesian product of the factors, the entry of the first factor
    changing fastest. *)
Fixpoint products {T : Type} (factors : list (list T)) : list (list T) :=
  match factors with
  | [] => [[]]
  | f :: rest => p ← products rest; (fun x => x :: p) <$> f
  end.

(** The cursors that select the entries of [products], in the same order. *)
Fixpoint all_cursors {T : Type} (factors : list (list T)) : list (list N) :=
  match factors with
  | [] => [[]]
  | f :: rest =>
      cs ← all_cursors rest; (fun c => c :: cs) <$> (N.of_nat <$> seq 0 (length f))
  end.

(** The cursor after [cursor] in odometer order; [None] after the last. *)
Fixpoint next_cursor {T : Type} (factors : list (list T)) (cursor : list N)
  : option (list N) :=
  match factors, cursor with
  | f :: fs, c :: cs =>
      if to_uint32 (c + 1) <? N.of_nat (length f) then Some (to_uint32 (c + 1) :: cs)
      else (fun cs' => 0 :: cs') <$> next_cursor fs cs
  | _, _ => None
  end.

(** [l] continues [x] along [next] and ends where [next] gives [e]. *)
Fixpoint path {A : Type} (next : A -> option A) (x : A) (l : list A) (e : option A)
  : Prop :=
  match l with
  | [] => next x = e
  | y :: l' => next x = Some y /\ path next y l' e
  end.

(** The entries of the factors at the cursor positions. *)
Definition selects {T : Type} (factors : list (list T)) (cursor : list N)
    (product : list T) : Prop :=
  Forall3 (fun f c x => f !! N.to_nat c = Some x) factors cursor product.

(** Every factor has an entry and a size that fits [uint32]. *)
Definition sized {T : Type} (factors : list (list T)) : Prop :=
  Forall (fun f => (0 < length f)%nat /\ N.of_nat (length f) <= kInvalidJ) factors.

(** The feature map after "a" was interned and the map synced. *)
Definition map_with_a_synced : FeatureMap :=
  FeatureMapBase.mk 1
    [("a"%string, Some (FeatureMapBase.mkFeatureAndJ "a"%string 0))] true
    [Some (FeatureMapBase.mkFeatureAndJ "a"%string 0)].

(** The per-J vectors of a model have one size, and no creation time is
    later than the current one. *)
Definition model_consistent (m : Model.t) : Prop :=
  length (Model.precision m) = length (Model.w m) /\
  length (Model.delta_w m) = length (Model.w m) /\
  length (Model.loss_derivative m) = length (Model.w m) /\
  length (Model.creation_time m) = length (Model.w m) /\
  N.of_nat (length (Model.w m)) <= kInvalidJ /\
  Forall (fun c => c <= Model.current_creation_time m) (Model.creation_time m).

(** A model of two J's, the second created later. *)
Definition model_two_weights : Model.t :=
  Model.mk [0%Q; 0%Q] [(1 # 2)%Q; 3%Q] [0%Q; 0%Q] [0%Q; 0%Q] [1; 2] 2
           kInfinity kInfinity false 0.

(** A batch optimizer for two J's. *)
Definition optimizer_two_weights : GradBoost.t :=
  GradBoost.mk
    (Majorizer.mk [mkDim1Majorizer 1 2; mkDim1Majorizer 3 4] 0 0)
    (Majorizer.mk [mkDim1Majorizer 5 6; mkDim1Majorizer 7 8] 0 0)
    0 1 false true.

(** The function that a [Dim1Majorizer] represents, by its class comment:
    [f(w) = (a_/4 + L2) * w^2 + (b_ - a_*w0)/2 * w + L1*|w| + c], without
    the constant [c]. *)
Definition Dim1Majorizer_value (m : Dim1Majorizer) (L1_j L2_j w0 w : Q) : Q :=
  ((a_ m / 4 + L2_j) * (w * w) + (b_ m - a_ m * w0) / 2 * w + L1_j * Qabs w)%Q.

(** An SGD run over new features only: J 0 is old, J 1 is new, the one
    training row holds both. *)
Definition model_old_and_new : Model.t :=
  Model.mk [0%Q; 0%Q] [(1 # 2)%Q; 0%Q] [0%Q; 0%Q] [0%Q; 0%Q] [1; 2] 2
           kInfinity kInfinity false 0.

Definition sgd_new_features : Sgd.t :=
  Sgd.mk [0%Q; 0%Q] kInfinity true 1 0 0 Sgd.NEW_FEATURES true.

Definition data_one_row : Data.t :=
  Data.mk
    (ShardSet.mk [Shard.mk (CsrMatrix.mk [0; 2] [0; 1]) [1%Q] [0] []]
                 (Stats.mk 1 0 [1; 1] [0; 0] [0; 0]))
    (ShardSet.mk [] (Stats.mk 0 0 [0; 0] [0; 0] [0; 0]))
    (CsrMatrix.mk [0; 0; 0] []).

Definition regularizations_none : Regularizations :=
  mkRegularizations (mkRegularization 0 0 0) (mkRegularization 0 0 0)
                    (mkRegularization 0 0 0) (mkRegularization 0 0 0).

(** The number of J's marked in [removed_js]. *)
Definition removed_count (removed_js : list bool) : nat :=
  sum_list_with (fun b : bool => if b then 1%nat else 0%nat) removed_js.

(** The number of J's that wait in [triggered_by]. *)
Definition blocked_count (triggered_by : gmap N (list N)) : nat :=
  blocked_total (fun _ => 1%nat) triggered_by.

(** Pruning down to the two best features. *)
Definition config_top_two : FeaturePruning.Config :=
  FeaturePruning.mkConfig None (Some 2) None.

(** ** sensei/data.h: Stats *)

(** [Stats::Reset] *)
Definition Stats_Reset (new_size : N) : Stats.t :=
  Stats.mk 0 0 (replicate (N.to_nat new_size) 0) (replicate (N.to_nat new_size) 0)
           (replicate (N.to_nat new_size) 0).

(** [Stats::Size]: the two [CHECK_EQ], then [hash_.size()] as [uint32]. *)
Definition Stats_Size (s : Stats.t) : option N :=
  _ ← CHECK (bool_decide (length (Stats.positive_ s) = length (Stats.hash_ s)));
  _ ← CHECK (bool_decide (length (Stats.negative_ s) = length (Stats.hash_ s)));
  Some (to_uint32 (N.of_nat (length (Stats.hash_ s)))).

(** [Stats::MaterializedXjBoolCount] *)
Definition Stats_MaterializedXjBoolCount (s : Stats.t) : N :=
  fold_left (fun ret count => to_uint64 (ret + count)) (Stats.negative_ s)
    (fold_left (fun ret count => to_uint64 (ret + count)) (Stats.positive_ s) 0).

Section StatsOps.
(** [Hash64NumWithSeed] of sensei/util/hash.h *)
Variable Hash64NumWithSeed : N -> N -> N.

(** One turn of the loop of [Stats::AddRow], on the vector [stats] that the
    row counts for and on [hash_]. *)
Definition Stats_AddRow_step (id : N) (j : N) (acc : list N * list N)
  : option (list N * list N) :=
  let '(stats, hash) := acc in
  _ ← CHECK (j <? N.of_nat (length stats));
  old ← vget stats j;
  stats' ← vset stats j (to_uint64 (old + 1));
  old_hash ← vget hash j;
  hash' ← vset hash j (N.lxor old_hash (Hash64NumWithSeed id 0));
  Some (stats', hash').

(** [Stats::AddRow] *)
Definition Stats_AddRow (row : RowExtender.t) (s : Stats.t) : option Stats.t :=
  if Qeqb (RowExtender.y_ row) 1 then
    '(stats, hash) ←
       for_each (Stats_AddRow_step (RowExtender.id_ row)) (RowExtender.SparseBool row)
                (Stats.positive_ s, Stats.hash_ s);
    Some (Stats.mk (to_uint64 (Stats.positive_row_count_ s + 1))
                   (Stats.negative_row_count_ s) stats (Stats.negative_ s) hash)
  else
    '(stats, hash) ←
       for_each (Stats_AddRow_step (RowExtender.id_ row)) (RowExtender.SparseBool row)
                (Stats.negative_ s, Stats.hash_ s);
    Some (Stats.mk (Stats.positive_row_count_ s)
                   (to_uint64 (Stats.negative_row_count_ s + 1))
                   (Stats.positive_ s) stats hash).

(** The statistics of the rows [rows], as [RecalcStats] collects them in
    one [Stats] object of size [size]. *)
Definition Stats_of_rows (size : N) (rows : list RowExtender.t) : option Stats.t :=
  for_each Stats_AddRow rows (Stats_Reset size).

End StatsOps.

(** One turn of the loop of [Stats::Add] *)
Definition Stats_Add_step (src : Stats.t) (j : nat) (s : Stats.t) : option Stats.t :=
  p ← Stats.positive_ s !! j; sp ← Stats.positive_ src !! j;
  positive ← vset (Stats.positive_ s) (N.of_nat j) (to_uint64 (p + sp));
  n ← Stats.negative_ s !! j; sn ← Stats.negative_ src !! j;
  negative ← vset (Stats.negative_ s) (N.of_nat j) (to_uint64 (n + sn));
  h ← Stats.hash_ s !! j; sh ← Stats.hash_ src !! j;
  hash ← vset (Stats.hash_ s) (N.of_nat j) (N.lxor h sh);
  Some (Stats.mk (Stats.positive_row_count_ s) (Stats.negative_row_count_ s)
                 positive negative hash).

(** [Stats::Add] *)
Definition Stats_Add (src s : Stats.t) : option Stats.t :=
  src_size ← Stats_Size src;
  size ← Stats_Size s;
  _ ← CHECK (src_size =? size);
  for_range (N.to_nat src_size) (Stats_Add_step src)
    (Stats.mk (to_uint64 (Stats.positive_row_count_ s + Stats.positive_row_count_ src))
              (to_uint64 (Stats.negative_row_count_ s + Stats.negative_row_count_ src))
              (Stats.positive_ s) (Stats.negative_ s) (Stats.hash_ s)).

(** How often [j] occurs in a row. *)
Definition occurrences (j : N) (js : list N) : N :=
  N.of_nat (length (filter (fun x => x = j) js)).

(** How often [j] occurs in the rows whose label is, or is not, 1. *)
Definition labelled_occurrences (positive : bool) (j : N) (rows : list RowExtender.t)
  : N :=
  fold_right
    (fun row total =>
       if Bool.eqb (Qeqb (RowExtender.y_ row) 1) positive
       then occurrences j (RowExtender.SparseBool row) + total else total)
    0 rows.

(** The number of rows whose label is, or is not, 1. *)
Definition labelled_rows (positive : bool) (rows : list RowExtender.t) : N :=
  N.of_nat (length (filter (fun row => Qeqb (RowExtender.y_ row) 1 = positive) rows)).

(** The hash of [j]: the hash of the row id, xor-ed in once for every
    occurrence of [j] in a row. *)
Definition hash_of (Hash64NumWithSeed : N -> N -> N) (j : N)
    (rows : list RowExtender.t) : N :=
  fold_left
    (fun h row =>
       Nat.iter (N.to_nat (occurrences j (RowExtender.SparseBool row)))
                (fun x => N.lxor x (Hash64NumWithSeed (RowExtender.id_ row) 0)) h)
    rows 0.

(** The statistics of [rows] in closed form. *)
Definition Stats_closed (Hash64NumWithSeed : N -> N -> N) (size : nat)
    (rows : list RowExtender.t) : Stats.t :=
  Stats.mk (to_uint64 (labelled_rows true rows)) (to_uint64 (labelled_rows false rows))
    ((fun j => to_uint64 (labelled_occurrences true (N.of_nat j) rows)) <$> seq 0 size)
    ((fun j => to_uint64 (labelled_occurrences false (N.of_nat j) rows)) <$> seq 0 size)
    ((fun j => hash_of Hash64NumWithSeed (N.of_nat j) rows) <$> seq 0 size).

(** Two rows of scenario 5: a positive row with J's 0 and 1, a negative
    row with J 0. *)
Definition stats_rows : list RowExtender.t :=
  [RowExtender.mk 1 7 [] 0 ∅ [0; 1]; RowExtender.mk 0 8 [] 0 ∅ [0]].

(** ** PrioritySumIterator: the pairs it yields *)

Section Draws.
Context {T : Type}.
Variable P : PriorityQueue (Q * (N * N)).

(** The values of the first [k] calls of [Next], each made while [HasNext]
    holds. *)
Fixpoint draws (k : nat) (it : PrioritySumIterator.t T P) : option (list (T * T)) :=
  match k with
  | O => Some []
  | S k' =>
      if PrioritySumIterator.HasNext P it then
        '(p, it') ← PrioritySumIterator.Next P it;
        rest ← draws k' it';
        Some (p :: rest)
      else Some []
  end.

End Draws.

(** The pairs of an element of a list with an element after it. *)
Fixpoint pairs_of {T : Type} (l : list T) : list (T * T) :=
  match l with
  | [] => []
  | x :: rest => (pair x <$> rest) ++ pairs_of rest
  end.

(** The pairs that a heap entry at [(row, column)] stands for: the value of
    the row with the values from the column on. *)
Definition tail_pairs {T : Type} (vals : list T) (p : N * N) : list (T * T) :=
  match vals !! N.to_nat p.1 with
  | Some x => pair x <$> drop (N.to_nat p.2) vals
  | None => []
  end.

Fixpoint pending {T : Type} (vals : list T) (es : list (Q * (N * N))) : list (T * T) :=
  match es with
  | [] => []
  | e :: rest => tail_pairs vals e.2 ++ pending vals rest
  end.

(** Every entry of the heap has [row < column < v.size()]. *)
Definition psi_positions {T : Type} (P : PriorityQueue (Q * (N * N)))
    (v : list (Q * T)) (it : PrioritySumIterator.t T P) : Prop :=
  PrioritySumIterator.v_ P it = v /\
  forall e, e ∈ pq_elements P (PrioritySumIterator.pq_ P it) ->
    (N.to_nat e.2.1 < N.to_nat e.2.2 < length v)%nat.

(** Three values with priorities, in descending order. *)
Definition three_values : list (Q * N) := [(3%Q, 10); (2%Q, 11); (1%Q, 12)].

(** ** sensei/data.h: Shard and Shard::Builder *)

(** [Shard() = default] *)
Definition Shard_empty : Shard.t := Shard.mk CsrMatrix.empty [] [] [].

(** [Shard::XjBoolCount] *)
Definition Shard_XjBoolCount (s : Shard.t) : N :=
  CsrMatrix.NonZerosCount (Shard.rows_ s).

(** [Shard::AddRow] *)
Definition Shard_AddRow (js : list N) (y : Q) (id : N) (s : Shard.t)
  : option Shard.t :=
  rows ← CsrMatrix.AddRow js (Shard.rows_ s);
  Some (Shard.mk rows (Shard.ys_ s ++ [y]) (Shard.ids_ s ++ [id])
                 (Shard.user_ids_ s)).

Record Builder := mkBuilder { max_size_ : N; Builder_shards_ : list Shard.t }.

Section BuilderOps.
(** [kInvalidId] of common.h, the id that no row may carry. *)
Variable kInvalidId : N.

(** [Builder::AddRow]: a new shard is opened when there is none, or when
    the last one holds something and would grow past [max_size_]; the
    comparison is made in [uint64]. *)
Definition Builder_AddRow (js : list N) (y : Q) (id : N) (b : Builder)
  : option Builder :=
  _ ← CHECK (negb (id =? kInvalidId));
  let shards :=
    match last (Builder_shards_ b) with
    | None => Builder_shards_ b ++ [Shard_empty]
    | Some back =>
        if (0 <? Shard_XjBoolCount back) &&
           (max_size_ b <? to_uint64 (Shard_XjBoolCount back + N.of_nat (length js)))
        then Builder_shards_ b ++ [Shard_empty]
        else Builder_shards_ b
    end in
  back ← last shards;
  back' ← Shard_AddRow js y id back;
  Some (mkBuilder (max_size_ b) (removelast shards ++ [back'])).

(** The rows [(js, y, id)] of a data file, added one after the other. *)
Definition Builder_AddRows (rows : list (list N * Q * N)) (b : Builder)
  : option Builder :=
  for_each (fun row => Builder_AddRow row.1.1 row.1.2 row.2) rows b.

End BuilderOps.

(** The shard that holds the rows [(js, y, id)] of [chunk]. *)
Definition Shard_of_rows (chunk : list (list N * Q * N)) : Shard.t :=
  Shard.mk (CsrMatrix_of_rows ((fun row => row.1.1) <$> chunk))
           ((fun row => row.1.2) <$> chunk) (snd <$> chunk) [].

(** The number of J's that the rows of [chunk] hold. *)
Definition chunk_size (chunk : list (list N * Q * N)) : N :=
  N.of_nat (length (concat ((fun row => row.1.1) <$> chunk))).

(** A shard is well filled: it holds a row, and it is within [max_size]
    unless all its J's are those of one row. *)
Definition chunk_filled (max_size : N) (chunk : list (list N * Q * N)) : Prop :=
  chunk <> [] /\
  (chunk_size chunk <= max_size \/
   exists row, row ∈ chunk /\ chunk_size chunk = N.of_nat (length row.1.1)).

(** Three rows of two J's each. *)
Definition builder_rows : list (list N * Q * N) :=
  [([0; 1], 1%Q, 0); ([1; 2], 0%Q, 1); ([0; 2], 1%Q, 2)].

(** ** FeatureMapBase: the records after pruning *)

Section RenumberedRecords.
Context {Feature : Type}.

(** The J of an entry of the map; a null element has none. *)
Definition entry_J (e : Feature * option (FeatureMapBase.FeatureAndJ Feature)) : N :=
  match e.2 with
  | Some r => FeatureMapBase.GetJ r
  | None => kInvalidJ
  end.

(** The entries that hold a valid J. *)
Definition valid_entries
    (m : list (Feature * option (FeatureMapBase.FeatureAndJ Feature)))
  : list (Feature * option (FeatureMapBase.FeatureAndJ Feature)) :=
  filter (fun e => entry_J e <> kInvalidJ) m.

(** A record after the loop of [RemoveAndRenumberJs]: [RenumberJs] is
    applied to a valid J only. *)
Definition renumbered_record (rn : JRenumbering.t)
    (f : FeatureMapBase.FeatureAndJ Feature) : FeatureMapBase.FeatureAndJ Feature :=
  if FeatureMapBase.GetJ f =? kInvalidJ then f
  else FeatureMapBase.mkFeatureAndJ (FeatureMapBase.GetFeature f)
         (default kInvalidJ
            (JRenumbering.j_to_new_j rn !! N.to_nat (FeatureMapBase.GetJ f))).

Definition renumbered_entry (rn : JRenumbering.t)
    (e : Feature * option (FeatureMapBase.FeatureAndJ Feature))
  : Feature * option (FeatureMapBase.FeatureAndJ Feature) :=
  (e.1, renumbered_record rn <$> e.2).

End RenumberedRecords.

(** The feature map after "a" and "b" were interned and the map synced. *)
Definition map_with_a_b_synced : FeatureMap :=
  FeatureMapBase.mk 2
    [("a"%string, Some (FeatureMapBase.mkFeatureAndJ "a"%string 0));
     ("b"%string, Some (FeatureMapBase.mkFeatureAndJ "b"%string 1))] true
    [Some (FeatureMapBase.mkFeatureAndJ "a"%string 0);
     Some (FeatureMapBase.mkFeatureAndJ "b"%string 1)].

(** ** sensei/optimizers.h: the sum of the majorizers of the threads *)

Section Columns.

(** The rounding of a real to a double. *)
Variable fl : Q -> Q.

(** [Dim1Majorizer::Add] *)
Definition Dim1Majorizer_Add (d that : Dim1Majorizer) : Dim1Majorizer :=
  mkDim1Majorizer (double_add fl (a_ d) (a_ that)) (double_add fl (b_ d) (b_ that)).

(** The body of the loop of [Majorizer::SumAndAssign]:
    [of_j_[j].SetZero()], then [of_j_[j].Add(majorizer->of_j_[j])] for every
    majorizer. *)
Definition SumAndAssign_j (majorizers : list Majorizer.t) (j : N) (mz : Majorizer.t)
  : option Majorizer.t :=
  v0 ← vset (Majorizer.of_j_ mz) j (mkDim1Majorizer 0 0);
  v ← for_each (fun m v =>
                  cur ← vget v j;
                  that ← vget (Majorizer.of_j_ m) j;
                  vset v j (Dim1Majorizer_Add cur that))
               majorizers v0;
  Some (Majorizer.mk v (Majorizer.log_loss_ mz)
          (Majorizer.cpu_operation_count_flat_materialization_ mz)).

(** [Majorizer::SumAndAssign] *)
Definition SumAndAssign (range : Range.t) (majorizers : list Majorizer.t)
    (mz : Majorizer.t) : option Majorizer.t :=
  for_each (SumAndAssign_j majorizers) (Range.values range) mz.

(** [Majorizer::SumStatsAndAssign] *)
Definition SumStatsAndAssign (majorizers : list Majorizer.t) (mz : Majorizer.t)
  : Majorizer.t :=
  let stats :=
    foldl (fun (acc : Q * N) m =>
             (double_add fl acc.1 (Majorizer.log_loss_ m),
              to_uint64 (acc.2 + Majorizer.cpu_operation_count_flat_materialization_ m)))
          (0%Q, 0) majorizers in
  Majorizer.mk (Majorizer.of_j_ mz) stats.1 stats.2.

(** [concurrency::kThreadCount] *)
Definition kThreadCount : N := 4.

(** [GradBoost::ParallelProcessColumns]: [thread_majorizers] are the
    majorizers taken from the pool and [size] is [model_->w.size()].  The
    ranges of [SplitEvenly] are handed to [ParFor]; each call writes the
    coordinates of its range only, so the calls are made one after the
    other here. *)
Definition ParallelProcessColumns (thread_majorizers : list Majorizer.t) (size : N)
    (majorizer : Majorizer.t) : option Majorizer.t :=
  ranges ← Range.SplitEvenly kThreadCount (Range.upto (to_uint32 size));
  mz ← for_each (fun range mz => SumAndAssign range thread_majorizers mz)
                ranges majorizer;
  Some (SumStatsAndAssign thread_majorizers mz).

End Columns.

(** The sum of a list of doubles. *)
Definition Qsum (l : list Q) : Q := foldr Qplus 0%Q l.

(** The sum over the majorizers of one field of their coordinate [j]. *)
Definition column_sum (f : Dim1Majorizer -> Q) (majorizers : list Majorizer.t)
    (j : nat) : Q :=
  Qsum ((fun m => from_option f 0%Q (Majorizer.of_j_ m !! j)) <$> majorizers).

(** Two majorizers of five coordinates, as two threads leave them. *)
Definition thread_majorizers_two : list Majorizer.t :=
  [Majorizer.mk (replicate 5 (mkDim1Majorizer 1 2)) 3 0;
   Majorizer.mk (replicate 5 (mkDim1Majorizer 10 20)) 30 0].

(** ** sensei/util/fixed_size_object_pool.h *)

Module FixedSizeObjectPool.
Section WithT.
Context {T : Type}.

(** [factory_] is passed to [Get].  The pool is used by one thread at a
    time: [Get] with [max_size_] objects grabbed would wait for ever and is
    [None]. *)
Record t := mk { contents_ : list T; max_size_ : N; num_grabbed_ : N }.

(** [FixedSizeObjectPool(maximum_size, 0, factory)] *)
Definition new (maximum_size : N) : t := mk [] maximum_size 0.

Definition Get (factory : T) (p : t) : option (T * t) :=
  _ ← CHECK (num_grabbed_ p <? max_size_ p);
  let num_grabbed := to_uint64 (num_grabbed_ p + 1) in
  match last (contents_ p) with
  | Some result =>
      Some (result, mk (removelast (contents_ p)) (max_size_ p) num_grabbed)
  | None => Some (factory, mk (contents_ p) (max_size_ p) num_grabbed)
  end.

Definition Release (object : T) (p : t) : option t :=
  _ ← CHECK (0 <? num_grabbed_ p);
  _ ← CHECK (N.of_nat (length (contents_ p)) <? max_size_ p);
  Some (mk (contents_ p ++ [object]) (max_size_ p) (num_grabbed_ p - 1)).

Definition Retire (object : T) (p : t) : option t :=
  _ ← CHECK (0 <? num_grabbed_ p);
  Some (mk (contents_ p) (max_size_ p) (num_grabbed_ p - 1)).

Definition NumGrabbed (p : t) : N := num_grabbed_ p.

(** [max_size_ - num_grabbed_] on [size_t] *)
Definition NumAvailable (p : t) : N :=
  (max_size_ p + uint64_modulus - num_grabbed_ p) mod uint64_modulus.

End WithT.
Arguments t : clear implicits.
End FixedSizeObjectPool.

(** ** sensei/optimizers.h: GradBoost, a pass over the data *)

(** [RowExtender::L2SquaredNorm]: [Double norm = 0; return norm +
    SparseBool().size();] *)
Definition RowExtender_L2SquaredNorm (e : RowExtender.t) : Q :=
  (0 + N_to_double (N.of_nat (length (RowExtender.SparseBool e))))%Q.

(** [explicit Majorizer(uint32 feature_count)] *)
Definition Majorizer_new (feature_count : N) : Majorizer.t :=
  Majorizer.mk (replicate (N.to_nat feature_count) (mkDim1Majorizer 0 0)) 0 0.

(** [Majorizer::AddToCpuOperationCountFlatMaterialization] *)
Definition Majorizer_AddToCpuOperationCountFlatMaterialization (delta : N)
    (mz : Majorizer.t) : Majorizer.t :=
  Majorizer.mk (Majorizer.of_j_ mz) (Majorizer.log_loss_ mz)
    (to_uint64 (Majorizer.cpu_operation_count_flat_materialization_ mz + delta)).

(** [GradBoost::CpuOperationCountDeepMaterialization]: the first loop runs
    [j] from [GetSize() - 1] down to 0. *)
Definition CpuOperationCountDeepMaterialization (data : Data.t) (model : Model.t)
  : option N :=
  let size := N.to_nat (Model.GetSize model) in
  transitive_children ←
    for_each
      (fun j transitive_children =>
         children ← CsrMatrix.GetRow (Data.dependees_ data) j;
         for_each
           (fun j_child transitive_children =>
              _ ← CHECK (j <? j_child);
              of_child ← vget transitive_children j_child;
              of_j ← vget transitive_children j;
              vset transitive_children j
                   (to_uint64 (of_j + to_uint64 (1 + of_child))))
           children transitive_children)
      (reverse (N.of_nat <$> seq 0 size)) (replicate size 0);
  for_range size
    (fun j count =>
       of_j ← transitive_children !! j;
       xjbools ← Data.XjBoolCountOfJ data (N.of_nat j);
       Some (to_uint64 (count + to_uint64 (of_j * xjbools))))
    0.

Section GradBoostPass.

(** The rounding of a real to a double, and [sqrt], [exp] and [log] of
    [<cmath>]. *)
Variable fl : Q -> Q.
Variable sqrt : Q -> Q.
Variable exp : Q -> Q.
Variable log : Q -> Q.

Local Open Scope Q_scope.
Local Infix "[+]" := (double_add fl) (at level 50, left associativity).
Local Infix "[-]" := (double_sub fl) (at level 50, left associativity).
Local Infix "[*]" := (double_mul fl) (at level 40, left associativity).
Local Infix "[/]" := (double_div fl) (at level 40, left associativity).

(** [Majorizer::Add(j, dim_1_majorizer)] *)
Definition Majorizer_Add (j : N) (dim_1_majorizer : Dim1Majorizer) (mz : Majorizer.t)
  : option Majorizer.t :=
  _ ← CHECK (j <? N.of_nat (length (Majorizer.of_j_ mz)))%N;
  d ← vget (Majorizer.of_j_ mz) j;
  of_j ← vset (Majorizer.of_j_ mz) j (Dim1Majorizer_Add fl d dim_1_majorizer);
  Some (Majorizer.mk of_j (Majorizer.log_loss_ mz)
          (Majorizer.cpu_operation_count_flat_materialization_ mz)).

(** [Majorizer::AddLogLoss] *)
Definition Majorizer_AddLogLoss (delta_log_loss : Q) (mz : Majorizer.t) : Majorizer.t :=
  Majorizer.mk (Majorizer.of_j_ mz) (Majorizer.log_loss_ mz [+] delta_log_loss)
    (Majorizer.cpu_operation_count_flat_materialization_ mz).

(** [Majorizer::GetLogLossDerivativeAt] *)
Definition GetLogLossDerivativeAt (mz : Majorizer.t) (model : Model.t)
    (regularizations : Regularizations) (stats : Stats.t) : option (list Q) :=
  _ ← CHECK (Nat.eqb (length (Majorizer.of_j_ mz)) (length (Model.w model)));
  for_range (N.to_nat (to_uint32 (N.of_nat (length (Model.w model)))))
    (fun j log_loss_derivative =>
       d ← Majorizer.of_j_ mz !! j;
       let lld_j := b_ d [/] 2 in
       rows_with_j ← Stats.GetRowCountWithJPresent stats (N.of_nat j);
       w ← Model.w model !! j;
       let lld_j := lld_j [+] 2 [*] L2 fl sqrt regularizations rows_with_j (a_ d) [*] w in
       let l1_j := L1 fl sqrt regularizations rows_with_j w (a_ d) in
       let lld_j :=
         if Qeqb w 0 && Qle_bool (lld_j [-] l1_j) 0 && Qle_bool 0 (lld_j [+] l1_j)
         then 0
         else lld_j [+] l1_j [*] Sign w in
       vset log_loss_derivative (N.of_nat j) lld_j)
    (replicate (length (Majorizer.of_j_ mz)) 0).

(** [GradBoost::ProcessOneRow]: the majorizer of the thread after the row,
    and the value written to [*wx]. *)
Definition GradBoost_ProcessOneRow (model : Model.t) (row_extender : RowExtender.t)
    (thread_majorizer : Majorizer.t) : option (Majorizer.t * Q) :=
  let row_l2_squared := RowExtender_L2SquaredNorm row_extender in
  wx ← RowExtender.Dot row_extender (Model.w model);
  let wxy := wx [*] RowExtender.y_ row_extender in
  let exp_wxy := exp wxy in
  let A :=
    if Qltb (fabs wxy) (fl (1 # 10000000000)) then 1 # 2
    else (exp_wxy [-] 1) [/] ((exp_wxy [+] 1) [*] wxy) in
  let A_wxy_1 := (A [*] wxy [-] 1) [*] RowExtender.y_ row_extender in
  let thread_majorizer :=
    Majorizer_AddLogLoss (log (1 [+] exp_wxy) [-] wxy) thread_majorizer in
  let a := A [*] row_l2_squared in
  thread_majorizer ←
    for_each (fun j mz => Majorizer_Add j (mkDim1Majorizer a A_wxy_1) mz)
             (RowExtender.SparseBool row_extender) thread_majorizer;
  Some (thread_majorizer, wx).

(** [GradBoost::ProcessRows]; [wxs] is the vector of the model and
    [row_offset] the position in it of the first row of the shard. *)
Definition GradBoost_ProcessRows (data : Data.t) (model : Model.t) (shard : Shard.t)
    (row_offset : N)
    (st : FixedSizeObjectPool.t Majorizer.t * list Q)
  : option (FixedSizeObjectPool.t Majorizer.t * list Q) :=
  let '(pool, wxs) := st in
  '(majorizer, pool) ←
     FixedSizeObjectPool.Get (Majorizer_new (Model.GetSize model)) pool;
  '(_, majorizer, wxs) ←
     for_range (N.to_nat (Shard.RowCount shard))
       (fun i '(row_extender, majorizer, wxs) =>
          row_extender ← Shard_ResetExtender (Some (Data.dependees_ data)) shard
                                             (N.of_nat i) row_extender;
          let majorizer :=
            Majorizer_AddToCpuOperationCountFlatMaterialization
              (RowExtender.cpu_operation_count_flat_materialization_ row_extender)
              majorizer in
          '(majorizer, wx) ← GradBoost_ProcessOneRow model row_extender majorizer;
          wxs ← vset wxs (row_offset + N.of_nat i)%N wx;
          Some (row_extender, majorizer, wxs))
       (RowExtender.new, majorizer, wxs);
  pool ← FixedSizeObjectPool.Release majorizer pool;
  Some (pool, wxs).

(** The vector [row_offsets] of [ProcessShardSet]: the number of rows before
    each shard, counted on [uint]. *)
Definition row_offsets (shards : list Shard.t) : list N :=
  (foldl (fun (acc : N * list N) s =>
            (to_uint32 (acc.1 + Shard.RowCount s), acc.2 ++ [acc.1]))
         (0%N, []) shards).2.

(** [GradBoost::ProcessShardSet], with the shards taken one after the other
    (the deterministic mode of [ParFor]). *)
Definition GradBoost_ProcessShardSet (data : Data.t) (model : Model.t)
    (shard_set : ShardSet.t)
    (st : FixedSizeObjectPool.t Majorizer.t * list Q)
  : option (FixedSizeObjectPool.t Majorizer.t * list Q) :=
  let row_offsets := row_offsets (ShardSet.shards_ shard_set) in
  for_range (N.to_nat (to_uint32 (N.of_nat (length row_offsets))))
    (fun i st =>
       shard ← ShardSet.shards_ shard_set !! i;
       row_offset ← row_offsets !! i;
       GradBoost_ProcessRows data model shard row_offset st)
    st.

(** [GradBoost::ParallelProcessColumns]: every object that the pool can give
    is taken, summed into [majorizer] and retired. *)
Definition GradBoost_ParallelProcessColumns (model : Model.t)
    (pool : FixedSizeObjectPool.t Majorizer.t) (majorizer : Majorizer.t)
  : option (Majorizer.t * FixedSizeObjectPool.t Majorizer.t) :=
  '(thread_majorizers, pool) ←
     for_range (N.to_nat (FixedSizeObjectPool.NumAvailable pool))
       (fun _ '(thread_majorizers, pool) =>
          '(m, pool) ←
             FixedSizeObjectPool.Get (Majorizer_new (Model.GetSize model)) pool;
          Some (thread_majorizers ++ [m], pool))
       ([], pool);
  majorizer ← ParallelProcessColumns fl thread_majorizers
                 (N.of_nat (length (Model.w model))) majorizer;
  pool ← for_each FixedSizeObjectPool.Retire thread_majorizers pool;
  Some (majorizer, pool).

(** [GradBoost::AddIterationLog]: what it leaves in the model, the loss
    derivative of the training set that [FillDataSetStats] returns through
    [ret_dloss]; the numbers that go to [iteration_log_] only are computed
    for their checks. *)
Definition GradBoost_AddIterationLog (regularizations : Regularizations)
    (data : Data.t) (g : GradBoost.t) (model : Model.t) : option Model.t :=
  _ ← CHECK (Model.synced_with_weights model);
  dloss ← GetLogLossDerivativeAt (GradBoost.training_majorizer_ g) model
             regularizations (ShardSet.stats_ (Data.training_ data));
  let model :=
    Model.mk (Model.precision model) (Model.w model) (Model.delta_w model) dloss
             (Model.creation_time model) (Model.current_creation_time model)
             (Model.prev_total_loss model) (Model.total_loss model)
             (Model.synced_with_weights model) (Model.iteration_no model) in
  _ ← (if (0 <? Stats.RowCount (ShardSet.stats_ (Data.holdout_ data)))%N then
         GetLogLossDerivativeAt (GradBoost.holdout_majorizer_ g) model
           regularizations (ShardSet.stats_ (Data.holdout_ data))
       else Some []);
  _ ← GetRegularizationLoss fl sqrt (GradBoost.training_majorizer_ g)
         regularizations model (ShardSet.stats_ (Data.training_ data));
  _ ← CpuOperationCountDeepMaterialization data model;
  Some model.

(** [GradBoost::SyncModelWithWeights] *)
Definition GradBoost_SyncModelWithWeights (regularizations : Regularizations)
    (data : Data.t) (st : GradBoost.t * Model.t * PerShards)
  : option (GradBoost.t * Model.t * PerShards) :=
  let '(g, model, per_shards) := st in
  let pool := FixedSizeObjectPool.new kThreadCount in
  _ ← CHECK (FixedSizeObjectPool.NumGrabbed pool =? 0)%N;
  if Model.synced_with_weights model then Some st
  else
    '(pool, training_wxs) ←
       GradBoost_ProcessShardSet data model (Data.training_ data)
                                 (pool, training_wxs per_shards);
    '(training_majorizer, pool) ←
       GradBoost_ParallelProcessColumns model pool (GradBoost.training_majorizer_ g);
    '(pool, holdout_wxs) ←
       GradBoost_ProcessShardSet data model (Data.holdout_ data)
                                 (pool, holdout_wxs per_shards);
    '(holdout_majorizer, pool) ←
       GradBoost_ParallelProcessColumns model pool (GradBoost.holdout_majorizer_ g);
    let g :=
      GradBoost.mk training_majorizer holdout_majorizer (GradBoost.inertia_factor_ g)
                   (GradBoost.step_multiplier_ g) (GradBoost.allow_undo_ g)
                   (GradBoost.deterministic_ g) in
    regularization_loss ←
      GetRegularizationLoss fl sqrt training_majorizer regularizations model
                            (ShardSet.stats_ (Data.training_ data));
    let total_loss := Majorizer.log_loss_ training_majorizer [+] regularization_loss in
    let model := Model.SetTotalLoss (Finite total_loss) model in
    let model :=
      Model.mk (Model.precision model) (Model.w model) (Model.delta_w model)
               (Model.loss_derivative model) (Model.creation_time model)
               (Model.current_creation_time model) (Model.prev_total_loss model)
               (Model.total_loss model) true (Model.iteration_no model) in
    model ← GradBoost_AddIterationLog regularizations data g model;
    _ ← CHECK (FixedSizeObjectPool.NumGrabbed pool =? 0)%N;
    Some (g, model, mkPerShards training_wxs holdout_wxs).


End GradBoostPass.




(** * Properties *)

(** ** Vectors and loops *)

Lemma vget_lookup {A} (v : list A) (j : nat) : vget v (N.of_nat j) = v !! j.
Proof. unfold vget. by rewrite Nat2N.id. Qed.

Lemma vset_Some {A} (v : list A) (j : N) (x : A) :
  (N.to_nat j < length v)%nat -> vset v j x = Some (<[N.to_nat j := x]> v).
Proof. intros H. unfold vset. by rewrite decide_True. Qed.

Lemma vset_inv {A} (v v' : list A) (j : N) (x : A) :
  vset v j x = Some v' -> (N.to_nat j < length v)%nat /\ v' = <[N.to_nat j := x]> v.
Proof. unfold vset. case_decide; naive_solver. Qed.

Lemma vset_length {A} (v v' : list A) (j : N) (x : A) :
  vset v j x = Some v' -> length v' = length v.
Proof. intros [_ ->]%vset_inv. apply length_insert. Qed.

Lemma CHECK_inv (b : bool) (u : unit) : CHECK b = Some u -> b = true.
Proof. by destruct b. Qed.

Lemma to_uint32_small (x : N) : x < uint32_modulus -> to_uint32 x = x.
Proof. intros. unfold to_uint32. by apply N.mod_small. Qed.

Lemma to_uint32_bound (x : N) : to_uint32 x <= kInvalidJ.
Proof.
  unfold to_uint32, kInvalidJ.
  pose proof (N.mod_upper_bound x uint32_modulus) as H.
  unfold uint32_modulus in *. lia.
Qed.

Lemma for_each_app {A S} (body : A -> S -> option S) (l1 l2 : list A) (s : S) :
  for_each body (l1 ++ l2) s = s' ← for_each body l1 s; for_each body l2 s'.
Proof.
  revert s. induction l1 as [|x l1 IH]; intros s; simpl.
  - done.
  - destruct (body x s) as [s1|]; simpl; [apply IH|done].
Qed.

Lemma for_range_S {S} (n : nat) (body : nat -> S -> option S) (s : S) :
  for_range (Datatypes.S n) body s = s' ← for_range n body s; body n s'.
Proof.
  unfold for_range. rewrite seq_S, for_each_app. simpl.
  destruct (for_each body (seq 0 n) s) as [s'|]; simpl; [|done].
  by destruct (body n s').
Qed.

(** The invariant rule of [for_range]: a property that holds at the start
    and is carried, with progress, by every turn, holds at the end. *)
Lemma for_range_total {S} (I : nat -> S -> Prop) (n : nat)
    (body : nat -> S -> option S) (s : S) :
  I 0%nat s ->
  (forall j s, (j < n)%nat -> I j s -> exists s', body j s = Some s' /\ I (Datatypes.S j) s') ->
  exists s', for_range n body s = Some s' /\ I n s'.
Proof.
  intros H0 Hstep. induction n as [|n IH].
  - exists s. split; [done|done].
  - destruct IH as (s1 & E1 & I1); [intros; apply Hstep; [lia|done]|].
    destruct (Hstep n s1) as (s2 & E2 & I2); [lia|done|].
    exists s2. split; [|done]. rewrite for_range_S, E1. simpl. done.
Qed.

Lemma for_range_partial {S} (I : nat -> S -> Prop) (n : nat)
    (body : nat -> S -> option S) (s s' : S) :
  I 0%nat s ->
  (forall j s s', (j < n)%nat -> I j s -> body j s = Some s' -> I (Datatypes.S j) s') ->
  for_range n body s = Some s' -> I n s'.
Proof.
  intros H0 Hstep. revert s'. induction n as [|n IH]; intros s' E.
  - unfold for_range in E. simpl in E. by inversion E; subst.
  - rewrite for_range_S in E.
    destruct (for_range n body s) as [s1|] eqn:E1; simpl in E; [|done].
    eapply (Hstep n s1); [lia| |done].
    apply IH; [|done]. intros. eapply Hstep; [lia|done|done].
Qed.

(** ** JRenumbering *)

Lemma count_kept_app (l1 l2 : list bool) :
  count_kept (l1 ++ l2) = count_kept l1 + count_kept l2.
Proof. induction l1 as [|b l1 IH]; simpl; [done|]. rewrite IH. lia. Qed.

Lemma count_kept_le_length (l : list bool) : count_kept l <= N.of_nat (length l).
Proof. induction l as [|[] l IH]; simpl; lia. Qed.

Lemma count_kept_take_le (l : list bool) (j : nat) :
  count_kept (take j l) <= count_kept l.
Proof.
  rewrite <- (take_drop j l) at 2. rewrite count_kept_app. lia.
Qed.

Lemma count_kept_take_S (l : list bool) (j : nat) (b : bool) :
  l !! j = Some b ->
  count_kept (take (S j) l) = count_kept (take j l) + (if b then 0 else 1).
Proof.
  intros H. erewrite take_S_r by done. rewrite count_kept_app. simpl. lia.
Qed.

Lemma count_kept_take_mono (l : list bool) (j1 j2 : nat) :
  (j1 <= j2)%nat -> count_kept (take j1 l) <= count_kept (take j2 l).
Proof.
  intros H. replace (take j1 l) with (take j1 (take j2 l)).
  - apply count_kept_take_le.
  - rewrite take_take. f_equal. lia.
Qed.

(** Every new J below the number of kept J's is the image of a kept J. *)
Lemma count_kept_onto (l : list bool) (n : N) :
  n < count_kept l ->
  exists j, l !! j = Some false /\ count_kept (take j l) = n.
Proof.
  induction l as [|b l IH] using rev_ind; simpl; intros H; [lia|].
  rewrite count_kept_app in H. simpl in H.
  destruct (decide (n < count_kept l)) as [Hlt|Hge].
  - destruct (IH Hlt) as (j & Hj & Hc).
    pose proof (lookup_lt_Some _ _ _ Hj).
    exists j. split.
    + by rewrite lookup_app_l.
    + rewrite take_app_le by lia. done.
  - destruct b; [lia|].
    exists (length l). split.
    + by rewrite list_lookup_middle.
    + rewrite take_app_le by lia. rewrite firstn_all. lia.
Qed.

Lemma RemoveJs_loop_marked (js_to_remove : list bool) (k : nat) (r : JRenumbering.t) :
  (k <= length js_to_remove)%nat ->
  JRenumbering.j_to_new_j r =
    marked (take (length js_to_remove - k) js_to_remove) ++ replicate k 0 ->
  exists r',
    JRenumbering.RemoveJs_loop js_to_remove
      (seq (length js_to_remove - k) k) r = Some r' /\
    JRenumbering.j_to_new_j r' = marked js_to_remove /\
    JRenumbering.next_j r' = JRenumbering.next_j r.
Proof.
  revert r. induction k as [|k IH]; intros r Hk Hr; simpl.
  - exists r. rewrite Hr. rewrite Nat.sub_0_r, firstn_all, app_nil_r. done.
  - set (i := (length js_to_remove - S k)%nat) in *.
    assert (Hi : (i < length js_to_remove)%nat) by (unfold i; lia).
    destruct (lookup_lt_is_Some_2 _ _ Hi) as [b Hb]. rewrite Hb. simpl.
    assert (Hlen : length (JRenumbering.j_to_new_j r) = length js_to_remove).
    { rewrite Hr. unfold marked.
      rewrite length_app, length_fmap, length_take, length_replicate. lia. }
    assert (Hnext : S i = (length js_to_remove - k)%nat) by (unfold i; lia).
    assert (Hmi : length (marked (take i js_to_remove)) = i).
    { unfold marked. rewrite length_fmap, length_take. lia. }
    destruct b.
    + unfold JRenumbering.SetInvalid. rewrite bool_decide_true by (rewrite Nat2N.id; lia).
      simpl. rewrite vset_Some by (rewrite Nat2N.id; lia). simpl.
      rewrite Nat2N.id. rewrite Hnext.
      destruct (IH (JRenumbering.mk (<[i:=kInvalidJ]> (JRenumbering.j_to_new_j r))
                                    (JRenumbering.next_j r))) as (r' & E & ? & ?);
        [lia| |by exists r'].
      simpl. rewrite Hr. rewrite <- Hnext.
      erewrite take_S_r by done. unfold marked. rewrite fmap_app. simpl.
      rewrite <- app_assoc. simpl.
      replace i with (length (marked (take i js_to_remove)) + 0)%nat at 1 by lia.
      unfold marked. rewrite insert_app_r. done.
    + rewrite Hnext.
      destruct (IH r) as (r' & E & ? & ?); [lia| |by exists r'].
      rewrite Hr. rewrite <- Hnext.
      erewrite take_S_r by done. unfold marked. rewrite fmap_app. simpl.
      rewrite <- app_assoc. done.
Qed.

Lemma FillJToNewJ_loop_spec (js_to_remove : list bool) (k : N) :
  k + count_kept js_to_remove <= kInvalidJ ->
  exists v,
    JRenumbering.FillJToNewJ_loop (marked js_to_remove) k =
      Some (v, k + count_kept js_to_remove) /\
    length v = length js_to_remove /\
    forall j b, js_to_remove !! j = Some b ->
      v !! j = Some (if b : bool then kInvalidJ else k + count_kept (take j js_to_remove)).
Proof.
  revert k. induction js_to_remove as [|b l IH]; intros k Hk; simpl.
  - exists []. rewrite N.add_0_r. split; [done|]. split; [done|]. intros j b H. done.
  - simpl in Hk. destruct b; simpl.
    + destruct (IH k) as (v & E & Hlen & Hv); [lia|].
      rewrite E. simpl. exists (kInvalidJ :: v).
      split; [do 2 f_equal; lia|]. split; [simpl; lia|].
      intros [|j] b H; simpl in *; [by inversion H|].
      rewrite (Hv j b H). destruct b; f_equal; lia.
    + assert (Hs : to_uint32 (k + 1) = k + 1).
      { apply to_uint32_small. unfold kInvalidJ, uint32_modulus in *. lia. }
      rewrite Hs.
      destruct (IH (k + 1)) as (v & E & Hlen & Hv); [lia|].
      rewrite E. simpl. exists (k :: v).
      split; [do 2 f_equal; lia|]. split; [simpl; lia|].
      intros [|j] b H; simpl in *; [inversion H; subst; f_equal; lia|].
      rewrite (Hv j b H). destruct b; f_equal; lia.
Qed.

(** The closed form of [RemoveJs]: a removed J maps to [kInvalidJ], a kept J
    to the number of kept J's before it. *)
Lemma RemoveJs_spec (js_to_remove : list bool) :
  N.of_nat (length js_to_remove) <= kInvalidJ ->
  exists r,
    JRenumbering.RemoveJs js_to_remove = Some r /\
    JRenumbering.next_j r = count_kept js_to_remove /\
    length (JRenumbering.j_to_new_j r) = length js_to_remove /\
    forall j b, js_to_remove !! j = Some b ->
      JRenumbering.j_to_new_j r !! j =
        Some (if b : bool then kInvalidJ else count_kept (take j js_to_remove)).
Proof.
  intros Hlen. unfold JRenumbering.RemoveJs.
  rewrite to_uint32_small by (unfold kInvalidJ, uint32_modulus in *; lia).
  rewrite Nat2N.id.
  destruct (RemoveJs_loop_marked js_to_remove (length js_to_remove)
              (JRenumbering.mk (replicate (length js_to_remove) 0) 0))
    as (r' & E & Hm & Hn); [lia|simpl; by rewrite Nat.sub_diag|].
  rewrite Nat.sub_diag in E. rewrite E. simpl.
  pose proof (count_kept_le_length js_to_remove).
  destruct (FillJToNewJ_loop_spec js_to_remove 0) as (v & E' & Hl & Hv); [lia|].
  unfold JRenumbering.FillJToNewJ. rewrite Hm, Hn. simpl. rewrite E'. simpl.
  eexists. split; [done|]. simpl. split; [done|]. split; [done|].
  intros j b Hb. rewrite (Hv j b Hb). done.
Qed.

Lemma count_kept_take_lt (l : list bool) (j : nat) :
  l !! j = Some false -> count_kept (take j l) < count_kept l.
Proof.
  intros H. pose proof (count_kept_take_S l j false H) as HS.
  change (count_kept (take (S j) l) = count_kept (take j l) + 1) in HS.
  pose proof (count_kept_take_le l (S j)). lia.
Qed.

Lemma RemoveJs_compacts (js_to_remove : list bool) (r : JRenumbering.t) :
  N.of_nat (length js_to_remove) <= kInvalidJ ->
  JRenumbering.RemoveJs js_to_remove = Some r ->
  compacts js_to_remove r.
Proof.
  intros Hlen E.
  destruct (RemoveJs_spec js_to_remove Hlen) as (r' & E' & Hn & Hl & Hv).
  rewrite E in E'. inversion E'; subst r'. clear E'.
  pose proof (count_kept_le_length js_to_remove) as Hc.
  unfold compacts. rewrite Hn. repeat split.
  - done.
  - intros j Hj. by rewrite (Hv j true Hj).
  - intros j Hj. rewrite (Hv j false Hj). eexists. split; [done|].
    pose proof (count_kept_take_lt _ _ Hj). split; [done|lia].
  - intros n Hlt. destruct (count_kept_onto _ _ Hlt) as (j & Hj & Hc').
    exists j. split; [done|]. rewrite (Hv j false Hj). by rewrite Hc'.
  - intros j1 j2 n1 n2 Hlt H1 H2 E1 E2.
    rewrite (Hv j1 false H1) in E1. rewrite (Hv j2 false H2) in E2.
    inversion E1; inversion E2; subst.
    pose proof (count_kept_take_S _ _ _ H1) as HS.
    change (count_kept (take (S j1) js_to_remove) =
            count_kept (take j1 js_to_remove) + 1) in HS.
    pose proof (count_kept_take_mono js_to_remove (S j1) j2). lia.
Qed.

(** C4.  For every removal bitset the renumbering that [RemoveJs] builds maps
    each removed J to [kInvalidJ] and maps the kept J's onto the interval
    [0, next_j) without gaps and in strictly increasing order (hence one to
    one).  The bitset has at most 2^32 - 1 entries, as every vector indexed
    by J has. *)
Theorem RemoveJs_renumbering (js_to_remove : list bool) :
  N.of_nat (length js_to_remove) <= kInvalidJ ->
  exists r, JRenumbering.RemoveJs js_to_remove = Some r /\ compacts js_to_remove r.
Proof.
  intros Hlen.
  destruct (RemoveJs_spec js_to_remove Hlen) as (r & E & _).
  exists r. split; [done|]. by apply RemoveJs_compacts.
Qed.

Lemma RemoveJs_renumbering_witness :
  N.of_nat (length [false; true; false; false; true]) <= kInvalidJ /\
  exists r, JRenumbering.RemoveJs [false; true; false; false; true] = Some r /\
            compacts [false; true; false; false; true] r.
Proof.
  split; [vm_compute; discriminate|].
  apply (RemoveJs_renumbering [false; true; false; false; true]).
  vm_compute; discriminate.
Defined.

(** ** FeatureMapBase *)

Lemma filled_le {A} (v : list (option A)) : (filled v <= length v)%nat.
Proof. induction v as [|[x|] v IH]; simpl; lia. Qed.

Lemma filled_replicate_None {A} (n : nat) : filled (replicate n (@None A)) = 0%nat.
Proof. induction n; simpl; done. Qed.

Lemma filled_insert {A} (v : list (option A)) (i : nat) (x : A) :
  v !! i = Some None -> filled (<[i := Some x]> v) = S (filled v).
Proof.
  revert i. induction v as [|[y|] v IH]; intros [|i] H; simpl in *; try done.
  - by rewrite IH.
  - by rewrite IH.
Qed.

Lemma filled_full {A} (v : list (option A)) (j : nat) :
  filled v = length v -> (j < length v)%nat -> exists x, v !! j = Some (Some x).
Proof.
  revert j. induction v as [|[y|] v IH]; intros j Hf Hj; simpl in *.
  - lia.
  - destruct j as [|j]; simpl; [by eexists|]. apply IH; lia.
  - pose proof (filled_le v). lia.
Qed.

Section FeatureMapFacts.
Context {Feature : Type} `{EqDecision Feature}.

Implicit Types (m : FeatureMapBase.Map Feature) (s : FeatureMapBase.t Feature).
Implicit Types (k : Feature) (r : FeatureMapBase.FeatureAndJ Feature).

Lemma find_elem_of m k e : FeatureMapBase.find m k = Some e -> (k, e) ∈ m.
Proof.
  induction m as [|[k0 e0] m IH]; simpl; [done|].
  case_decide as Hk.
  - intros [= <-]. subst. apply elem_of_cons. by left.
  - intros H. apply elem_of_cons. right. by apply IH.
Qed.

Lemma find_None m k : FeatureMapBase.find m k = None <-> k ∉ m.*1.
Proof.
  induction m as [|[k0 e0] m IH]; simpl.
  - split; [intros _; apply not_elem_of_nil|done].
  - case_decide as Hk.
    + subst. split; [done|]. intros H. exfalso. apply H. apply elem_of_cons. by left.
    + rewrite IH. rewrite not_elem_of_cons. naive_solver.
Qed.

Lemma elem_of_find m k e :
  NoDup m.*1 -> (k, e) ∈ m -> FeatureMapBase.find m k = Some e.
Proof.
  induction m as [|[k0 e0] m IH]; simpl; intros Hnd Hin.
  - by apply elem_of_nil in Hin.
  - apply NoDup_cons in Hnd as [Hk0 Hnd].
    apply elem_of_cons in Hin as [[= -> ->]|Hin].
    + by rewrite decide_True.
    + rewrite decide_False; [by apply IH|].
      intros ->. apply Hk0. apply list_elem_of_fmap. by exists (k, e).
Qed.

Lemma elem_of_fst m k e : (k, e) ∈ m -> k ∈ m.*1.
Proof. intros H. apply list_elem_of_fmap. by exists (k, e). Qed.

Lemma set_element_fst m k e : (FeatureMapBase.set_element m k e).*1 = m.*1.
Proof.
  induction m as [|[k0 e0] m IH]; simpl; [done|].
  case_decide; csimpl; [done|by rewrite IH].
Qed.

Lemma elem_of_set_element m k e k' e' :
  NoDup m.*1 -> k ∈ m.*1 ->
  (k', e') ∈ FeatureMapBase.set_element m k e <->
  (k' = k /\ e' = e) \/ (k' <> k /\ (k', e') ∈ m).
Proof.
  induction m as [|[k0 e0] m IH]; simpl; intros Hnd Hin.
  - by apply elem_of_nil in Hin.
  - apply NoDup_cons in Hnd as [Hk0 Hnd].
    case_decide as Hk.
    + subst k0. rewrite !elem_of_cons. split.
      * intros [[= -> ->]|H]; [by left|].
        right. split; [|by right]. intros ->. apply Hk0. by eapply elem_of_fst.
      * intros [[-> ->]|[Hne [[= ? ?]|H]]]; [by left|done|by right].
    + apply elem_of_cons in Hin as [->|Hin]; [done|].
      rewrite !elem_of_cons. rewrite (IH Hnd Hin). split.
      * intros [[= -> ->]|[?|[? ?]]]; [right; split; [done|by left]|by left|].
        right. split; [done|by right].
      * intros [?|[Hne [[= -> ->]|H]]]; [right; by left|by left|right; right; done].
Qed.

Lemma reserve_NoDup m k : NoDup m.*1 -> NoDup (FeatureMapBase.reserve m k).*1.
Proof.
  intros Hnd. unfold FeatureMapBase.reserve.
  destruct (FeatureMapBase.find m k) eqn:E; [done|].
  rewrite fmap_app. simpl. apply NoDup_app. split; [done|]. split.
  - intros x Hx ->%list_elem_of_singleton. by apply find_None in E.
  - apply NoDup_singleton.
Qed.

Lemma reserve_fst_elem m k : k ∈ (FeatureMapBase.reserve m k).*1.
Proof.
  unfold FeatureMapBase.reserve.
  destruct (FeatureMapBase.find m k) eqn:E.
  - apply find_elem_of in E. by eapply elem_of_fst.
  - rewrite fmap_app. apply elem_of_app. right. simpl. apply list_elem_of_singleton. done.
Qed.

Lemma elem_of_reserve_Some m k k' r :
  (k', Some r) ∈ FeatureMapBase.reserve m k <-> (k', Some r) ∈ m.
Proof.
  unfold FeatureMapBase.reserve.
  destruct (FeatureMapBase.find m k) eqn:E; [done|].
  rewrite elem_of_app, list_elem_of_singleton. naive_solver.
Qed.

Lemma find_reserve m k :
  FeatureMapBase.find (FeatureMapBase.reserve m k) k =
  Some (default None (FeatureMapBase.find m k)).
Proof.
  unfold FeatureMapBase.reserve.
  destruct (FeatureMapBase.find m k) eqn:E; simpl; [done|].
  induction m as [|[k0 e0] m IH]; simpl in *.
  - by rewrite decide_True.
  - case_decide; [done|]. by apply IH.
Qed.

(** The elements of a map after [Set]. *)
Lemma elem_of_Set_ m (f : FeatureMapBase.FeatureAndJ Feature) k' r' :
  NoDup m.*1 ->
  (k', Some r') ∈ FeatureMapBase.Set_ m f <->
  (k' = FeatureMapBase.GetFeature f /\ r' = f) \/
  (k' <> FeatureMapBase.GetFeature f /\ (k', Some r') ∈ m).
Proof.
  intros Hnd. unfold FeatureMapBase.Set_.
  rewrite elem_of_set_element; [|by apply reserve_NoDup|by apply reserve_fst_elem].
  rewrite elem_of_reserve_Some. naive_solver.
Qed.

Lemma Set__NoDup m (f : FeatureMapBase.FeatureAndJ Feature) :
  NoDup m.*1 -> NoDup (FeatureMapBase.Set_ m f).*1.
Proof.
  intros. unfold FeatureMapBase.Set_. rewrite set_element_fst. by apply reserve_NoDup.
Qed.

Lemma elem_of_same_key m k e1 e2 :
  NoDup m.*1 -> (k, e1) ∈ m -> (k, e2) ∈ m -> e1 = e2.
Proof.
  intros Hnd H1 H2.
  apply (elem_of_find _ _ _ Hnd) in H1. apply (elem_of_find _ _ _ Hnd) in H2.
  congruence.
Qed.

Lemma Inv_empty : FeatureMapBase.Inv (@FeatureMapBase.empty Feature).
Proof.
  unfold FeatureMapBase.Inv. simpl. repeat split.
  - unfold kInvalidJ. lia.
  - apply NoDup_nil_2.
  - intros k r Hin. by apply elem_of_nil in Hin.
  - intros k r Hin. by apply elem_of_nil in Hin.
  - intros k1 r1 k2 r2 Hin. by apply elem_of_nil in Hin.
  - intros k r Hin. by apply elem_of_nil in Hin.
  - simpl. intros j Hj. lia.
Qed.

(** [FeatureToJ] either finds the record of the key or makes a new one with
    the next J. *)
Lemma FeatureToJ_cases s k j s' :
  FeatureMapBase.Inv s ->
  FeatureMapBase.FeatureToJ k s = Some (j, s') ->
  (exists r, (k, Some r) ∈ FeatureMapBase.feature_to_j_ s /\
             j = FeatureMapBase.GetJ r /\
             s' = FeatureMapBase.mk (FeatureMapBase.j_sequence_ s)
                    (FeatureMapBase.feature_to_j_ s)
                    (FeatureMapBase.j_to_feature_synced_ s)
                    (FeatureMapBase.j_to_feature_ s)) \/
  ((forall r, (k, Some r) ∉ FeatureMapBase.feature_to_j_ s) /\
   j = FeatureMapBase.j_sequence_ s /\ j < kInvalidJ /\
   s' = FeatureMapBase.mk (FeatureMapBase.j_sequence_ s + 1)
          (FeatureMapBase.Set_ (FeatureMapBase.feature_to_j_ s)
                               (FeatureMapBase.mkFeatureAndJ k j))
          false (FeatureMapBase.j_to_feature_ s)).
Proof.
  intros (Hseq & Hnd & Hkey & Hlt & Hinj & Hsync) E.
  unfold FeatureMapBase.FeatureToJ in E. rewrite find_reserve in E.
  assert (Hnew : forall r,
             FeatureMapBase.find (FeatureMapBase.feature_to_j_ s) k <> Some (Some r) ->
             (k, Some r) ∉ FeatureMapBase.feature_to_j_ s).
  { intros r Hne Hin. apply Hne. by apply elem_of_find. }
  destruct (FeatureMapBase.find (FeatureMapBase.feature_to_j_ s) k) as [[r|]|] eqn:Ef;
    cbn [default] in E.
  - left. exists r. inversion E; subst. split; [by apply find_elem_of|].
    split; [done|]. unfold FeatureMapBase.reserve. by rewrite Ef.
  - right.
    apply bind_Some in E as (u & EC & E).
    apply CHECK_inv in EC. inversion E; subst. clear E.
    rewrite to_uint32_small in * by (unfold kInvalidJ, uint32_modulus in *; lia).
    apply negb_true_iff, N.eqb_neq in EC.
    split; [intros r; apply Hnew; done|]. split; [done|]. split; [lia|].
    f_equal. unfold to_uint64. apply N.mod_small.
    unfold kInvalidJ, uint64_modulus in *. lia.
  - right.
    apply bind_Some in E as (u & EC & E).
    apply CHECK_inv in EC. inversion E; subst. clear E.
    rewrite to_uint32_small in * by (unfold kInvalidJ, uint32_modulus in *; lia).
    apply negb_true_iff, N.eqb_neq in EC.
    split; [intros r; apply Hnew; done|]. split; [done|]. split; [lia|].
    f_equal. unfold to_uint64. apply N.mod_small.
    unfold kInvalidJ, uint64_modulus in *. lia.
Qed.

Lemma Inv_FeatureToJ s k j s' :
  FeatureMapBase.Inv s ->
  FeatureMapBase.FeatureToJ k s = Some (j, s') ->
  FeatureMapBase.Inv s'.
Proof.
  intros HI E. destruct (FeatureToJ_cases _ _ _ _ HI E) as
    [(r & Hin & -> & ->)|(Hnew & -> & Hj & ->)].
  - done.
  - destruct HI as (Hseq & Hnd & Hkey & Hlt & Hinj & Hsync).
    unfold FeatureMapBase.Inv. simpl. repeat split.
    + lia.
    + by apply Set__NoDup.
    + intros k' r' [[-> ->]|[_ Hin]]%elem_of_Set_; [done| |done]. by eapply Hkey.
    + intros k' r' [[-> ->]|[_ Hin]]%elem_of_Set_ Hv; [simpl; lia| |done].
      pose proof (Hlt _ _ Hin Hv). lia.
    + intros k1 r1 k2 r2 [[-> ->]|[? H1]]%elem_of_Set_ [[-> ->]|[? H2]]%elem_of_Set_ HJ Hv;
        simpl in *; try done.
      * assert (FeatureMapBase.GetJ r2 < FeatureMapBase.j_sequence_ s)
          by (apply (Hlt k2); [done|congruence]). lia.
      * pose proof (Hlt _ _ H1 Hv). lia.
      * by eapply Hinj.
    + done.
    + done.
    + done.
Qed.

Lemma Inv_reserve s k :
  FeatureMapBase.Inv s ->
  FeatureMapBase.Inv
    (FeatureMapBase.mk (FeatureMapBase.j_sequence_ s)
       (FeatureMapBase.reserve (FeatureMapBase.feature_to_j_ s) k)
       (FeatureMapBase.j_to_feature_synced_ s) (FeatureMapBase.j_to_feature_ s)).
Proof.
  intros (Hseq & Hnd & Hkey & Hlt & Hinj & Hsync).
  unfold FeatureMapBase.Inv. simpl. split; [done|]. split; [by apply reserve_NoDup|].
  split; [intros k' r' Hin%elem_of_reserve_Some; by eapply Hkey|].
  split; [intros k' r' Hin%elem_of_reserve_Some; by eapply Hlt|].
  split; [intros k1 r1 k2 r2 H1%elem_of_reserve_Some H2%elem_of_reserve_Some;
          by eapply Hinj|].
  intros Hs. destruct (Hsync Hs) as (Hlen & Hfwd & Hbwd).
  split; [done|]. split.
  - intros k' r' Hin%elem_of_reserve_Some. by eapply Hfwd.
  - intros j Hj. destruct (Hbwd j Hj) as (r & ? & ? & ?).
    exists r. split; [done|]. split; [done|]. by apply elem_of_reserve_Some.
Qed.

Lemma Inv_FeatureToJConst s k :
  FeatureMapBase.Inv s -> FeatureMapBase.Inv (FeatureMapBase.FeatureToJConst k s).2.
Proof.
  intros HI. unfold FeatureMapBase.FeatureToJConst.
  destruct (FeatureMapBase.find _ _) as [[?|]|]; simpl; by apply Inv_reserve.
Qed.

Lemma Inv_HasFeature s k :
  FeatureMapBase.Inv s -> FeatureMapBase.Inv (FeatureMapBase.HasFeature k s).2.
Proof.
  intros HI. unfold FeatureMapBase.HasFeature.
  destruct (FeatureMapBase.find _ _) as [[?|]|]; simpl; by apply Inv_reserve.
Qed.

Lemma Sync_loop_spec m (v v' : list (option (FeatureMapBase.FeatureAndJ Feature))) c c' :
  FeatureMapBase.Sync_loop m v c = Some (v', c') ->
  N.of_nat (filled v) = c ->
  N.of_nat (length v) <= kInvalidJ ->
  length v' = length v /\
  N.of_nat (filled v') = c' /\
  forall i r, v' !! i = Some (Some r) ->
    v !! i = Some (Some r) \/
    exists k, (k, Some r) ∈ m /\ FeatureMapBase.GetJ r <> kInvalidJ /\
              N.to_nat (FeatureMapBase.GetJ r) = i.
Proof.
  revert v c. induction m as [|[k0 [r0|]] m IH]; intros v c E Hc Hlen; simpl in E.
  - inversion E; subst. split; [done|]. split; [done|]. intros i r Hi. by left.
  - destruct (negb (FeatureMapBase.GetJ r0 =? kInvalidJ)) eqn:Hvalid.
    + apply bind_Some in E as (old & Eold & E).
      apply bind_Some in E as (u & EC & E).
      apply bind_Some in E as (v1 & Ev1 & E).
      apply CHECK_inv, bool_decide_eq_true in EC. subst old.
      apply vset_inv in Ev1 as [Hj ->].
      assert (Hf1 : filled (<[N.to_nat (FeatureMapBase.GetJ r0) := Some r0]> v) = S (filled v))
        by (by apply filled_insert).
      pose proof (filled_le (<[N.to_nat (FeatureMapBase.GetJ r0) := Some r0]> v)) as Hle.
      rewrite length_insert in Hle.
      apply IH in E as (Hl & Hf & Hslots).
      * rewrite length_insert in Hl. split; [done|]. split; [done|].
        intros i r Hi. destruct (Hslots i r Hi) as [Hv1|(k & Hin & Hv & Hidx)].
        -- destruct (decide (i = N.to_nat (FeatureMapBase.GetJ r0))) as [->|Hne].
           ++ rewrite list_lookup_insert_eq in Hv1 by done. inversion Hv1; subst.
              right. exists k0. split; [apply elem_of_cons; by left|].
              split; [|done]. by apply negb_true_iff, N.eqb_neq in Hvalid.
           ++ rewrite list_lookup_insert_ne in Hv1 by done. by left.
        -- right. exists k. split; [apply elem_of_cons; by right|done].
      * rewrite Hf1. rewrite to_uint32_small; [lia|].
        unfold kInvalidJ, uint32_modulus in *. lia.
      * by rewrite length_insert.
    + apply IH in E as (Hl & Hf & Hslots); [|done|done].
      split; [done|]. split; [done|].
      intros i r Hi. destruct (Hslots i r Hi) as [?|(k & Hin & Hv & Hidx)]; [by left|].
      right. exists k. split; [apply elem_of_cons; by right|done].
  - inversion E; subst. split; [done|]. split; [done|]. intros i r Hi. by left.
Qed.

Lemma Inv_Sync s s' :
  FeatureMapBase.Inv s ->
  FeatureMapBase.SyncJToFeatureMap s = Some s' ->
  FeatureMapBase.Inv s' /\
  FeatureMapBase.j_to_feature_synced_ s' = true /\
  FeatureMapBase.feature_to_j_ s' = FeatureMapBase.feature_to_j_ s /\
  FeatureMapBase.j_sequence_ s' = FeatureMapBase.j_sequence_ s.
Proof.
  intros HI E. unfold FeatureMapBase.SyncJToFeatureMap in E.
  destruct (FeatureMapBase.j_to_feature_synced_ s) eqn:Hs.
  { inversion E; subst. done. }
  destruct HI as (Hseq & Hnd & Hkey & Hlt & Hinj & _).
  rewrite to_uint32_small in E by (unfold kInvalidJ, uint32_modulus in *; lia).
  apply bind_Some in E as (u & _ & E).
  apply bind_Some in E as ([v c] & El & E).
  apply bind_Some in E as (u' & EC & E).
  apply CHECK_inv, N.eqb_eq in EC. subst c. inversion E; subst s'; clear E.
  simpl. split; [|done].
  apply Sync_loop_spec in El as (Hl & Hf & Hslots);
    [|by rewrite filled_replicate_None|rewrite length_replicate; lia].
  rewrite length_replicate in Hl.
  assert (Hfull : forall j, (j < length v)%nat ->
            exists r, v !! j = Some (Some r) /\ FeatureMapBase.GetJ r = N.of_nat j /\
                      (FeatureMapBase.GetFeature r, Some r) ∈ FeatureMapBase.feature_to_j_ s).
  { intros j Hj. destruct (filled_full v j) as [r Hr]; [lia|done|].
    exists r. split; [done|].
    destruct (Hslots j r Hr) as [Hrep|(k & Hin & Hv & Hidx)].
    - apply lookup_replicate in Hrep as [? _]. done.
    - split; [lia|]. by rewrite (Hkey _ _ Hin). }
  unfold FeatureMapBase.Inv. simpl.
  split; [done|]. split; [done|]. split; [done|]. split; [done|]. split; [done|].
  intros _. split; [done|]. split; [|done].
  intros k r Hin Hv.
  pose proof (Hlt _ _ Hin Hv) as HJ.
  destruct (Hfull (N.to_nat (FeatureMapBase.GetJ r))) as (r' & Hr' & HJ' & Hin'); [lia|].
  rewrite Hr'. do 2 f_equal.
  assert (FeatureMapBase.GetFeature r' = k).
  { eapply (Hinj _ r' _ r); [done|done|lia|lia]. }
  subst k. pose proof (elem_of_same_key _ _ _ _ Hnd Hin' Hin). congruence.
Qed.

(** How a record of the new map comes from a record of the old one. *)
Lemma Renumber_loop_spec (rn : JRenumbering.t) m acc acc' c c' :
  FeatureMapBase.Renumber_loop rn m acc c = Some (acc', c') ->
  NoDup acc.*1 ->
  NoDup acc'.*1 /\
  forall k r1, (k, Some r1) ∈ acc' ->
    (k, Some r1) ∈ acc \/
    exists k0 r0, (k0, Some r0) ∈ m /\
      k = FeatureMapBase.GetFeature r0 /\
      FeatureMapBase.GetFeature r1 = FeatureMapBase.GetFeature r0 /\
      ((FeatureMapBase.GetJ r0 = kInvalidJ /\ FeatureMapBase.GetJ r1 = kInvalidJ) \/
       (FeatureMapBase.GetJ r0 <> kInvalidJ /\
        vget (JRenumbering.j_to_new_j rn) (FeatureMapBase.GetJ r0) =
          Some (FeatureMapBase.GetJ r1))).
Proof.
  revert acc c. induction m as [|[k0 [r0|]] m IH]; intros acc c E Hnd; simpl in E.
  - inversion E; subst. split; [done|]. intros k r1 Hin. by left.
  - apply bind_Some in E as (f1 & Ef1 & E).
    apply IH in E as (Hnd' & Hfrom); [|by apply Set__NoDup].
    split; [done|]. intros k r1 Hin.
    destruct (Hfrom k r1 Hin) as [Hacc|(k1 & r & Hr & ?)].
    + apply elem_of_Set_ in Hacc as [[-> ->]|[_ Hacc]]; [|by left|done].
      right. exists k0, r0. split; [apply elem_of_cons; by left|].
      destruct (negb (FeatureMapBase.GetJ r0 =? kInvalidJ)) eqn:Hvalid.
      * unfold FeatureMapBase.RenumberJs in Ef1.
        apply bind_Some in Ef1 as (new_j & En & Ef1). inversion Ef1; subst; simpl.
        split; [done|]. split; [done|]. right.
        split; [by apply negb_true_iff, N.eqb_neq in Hvalid|done].
      * inversion Ef1; subst. split; [done|]. split; [done|]. left.
        apply negb_false_iff, N.eqb_eq in Hvalid. done.
    + right. exists k1, r. split; [apply elem_of_cons; by right|done].
  - inversion E; subst. split; [done|]. intros k r1 Hin. by left.
Qed.

Lemma Inv_RemoveAndRenumberJs s (js_to_remove : list bool) (rn : JRenumbering.t) s' :
  FeatureMapBase.Inv s ->
  length js_to_remove = N.to_nat (FeatureMapBase.Size s) ->
  JRenumbering.RemoveJs js_to_remove = Some rn ->
  FeatureMapBase.RemoveAndRenumberJs rn s = Some s' ->
  FeatureMapBase.Inv s'.
Proof.
  intros HI Hlen Ern E.
  pose proof HI as (Hseq & Hnd & Hkey & Hlt & Hinj & _).
  unfold FeatureMapBase.Size in Hlen.
  rewrite to_uint32_small in Hlen by (unfold kInvalidJ, uint32_modulus in *; lia).
  assert (Hbs : N.of_nat (length js_to_remove) <= kInvalidJ) by lia.
  pose proof (RemoveJs_compacts _ _ Hbs Ern) as (Hl & Hrem & Hkept & _ & Hmono).
  destruct (RemoveJs_spec _ Hbs) as (rn' & Ern' & Hnext & _).
  rewrite Ern in Ern'. inversion Ern'; subst rn'. clear Ern'.
  pose proof (count_kept_le_length js_to_remove) as Hck.
  unfold FeatureMapBase.RemoveAndRenumberJs in E.
  destruct (JRenumbering.j_to_new_j rn) as [|x0 l0] eqn:Ej; [by inversion E; subst|].
  rewrite <- Ej in *. clear Ej x0 l0.
  apply bind_Some in E as (u & _ & E).
  apply bind_Some in E as ([new_map c] & El & E).
  apply bind_Some in E as (u' & _ & E).
  apply Renumber_loop_spec in El as (Hnd' & Hfrom); [|apply NoDup_nil_2].
  (* a valid new J comes from a kept old J *)
  assert (Hsrc : forall k r1, (k, Some r1) ∈ new_map ->
            FeatureMapBase.GetJ r1 <> kInvalidJ ->
            exists r0, (k, Some r0) ∈ FeatureMapBase.feature_to_j_ s /\
              FeatureMapBase.GetFeature r1 = k /\
              js_to_remove !! N.to_nat (FeatureMapBase.GetJ r0) = Some false /\
              JRenumbering.j_to_new_j rn !! N.to_nat (FeatureMapBase.GetJ r0) =
                Some (FeatureMapBase.GetJ r1)).
  { intros k r1 Hin Hv.
    destruct (Hfrom k r1 Hin) as [Hnil|(k0 & r0 & Hin0 & -> & Hf & [[_ ?]|[Hv0 Hget]])];
      [by apply elem_of_nil in Hnil|done|].
    pose proof (Hkey _ _ Hin0) as Hk0.
    exists r0. rewrite Hk0. split; [done|]. split; [congruence|]. split; [|done].
    unfold vget in Hget. pose proof (lookup_lt_Some _ _ _ Hget) as Hlt0.
    rewrite Hl in Hlt0. destruct (lookup_lt_is_Some_2 _ _ Hlt0) as [[] Hb]; [|done].
    rewrite (Hrem _ Hb) in Hget. congruence. }
  eapply Inv_Sync in E; [by destruct E|].
  unfold FeatureMapBase.Inv. simpl.
  split; [lia|]. split; [done|]. split; [|split; [|split]].
  - intros k r1 Hin.
    destruct (Hfrom k r1 Hin) as [Hnil|(k0 & r0 & Hin0 & -> & Hf & _)];
      [by apply elem_of_nil in Hnil|done].
  - intros k r1 Hin Hv. destruct (Hsrc k r1 Hin Hv) as (r0 & _ & _ & Hb & Hget).
    destruct (Hkept _ Hb) as (n & Hn & Hlt' & _). congruence.
  - intros k1 r1 k2 r2 H1 H2 HJ Hv.
    destruct (Hsrc k1 r1 H1 Hv) as (a & Ha & _ & Hba & Hga).
    destruct (Hsrc k2 r2 H2) as (b & Hb & _ & Hbb & Hgb); [congruence|].
    assert (Hlta : FeatureMapBase.GetJ a <> kInvalidJ).
    { apply lookup_lt_Some in Hba. lia. }
    eapply (Hinj _ a _ b); [done|done| |done].
    destruct (decide (N.to_nat (FeatureMapBase.GetJ a) < N.to_nat (FeatureMapBase.GetJ b))%nat)
      as [Hab|Hab].
    { pose proof (Hmono _ _ _ _ Hab Hba Hbb Hga Hgb). lia. }
    destruct (decide (N.to_nat (FeatureMapBase.GetJ b) < N.to_nat (FeatureMapBase.GetJ a))%nat)
      as [Hab'|Hab'].
    { pose proof (Hmono _ _ _ _ Hab' Hbb Hba Hgb Hga). lia. }
    lia.
  - done.
Qed.

(** Every state of the map satisfies the invariant. *)
Lemma reachable_Inv s : FeatureMapBase.reachable s -> FeatureMapBase.Inv s.
Proof.
  induction 1.
  - apply Inv_empty.
  - by eapply Inv_FeatureToJ.
  - by apply Inv_FeatureToJConst.
  - by apply Inv_HasFeature.
  - by eapply Inv_Sync.
  - by eapply Inv_RemoveAndRenumberJs.
Qed.

(** After [FeatureToJ] the key has a record with the J returned, and the
    records that were in the map are still there. *)
Lemma FeatureToJ_record s k j s' :
  FeatureMapBase.Inv s ->
  FeatureMapBase.FeatureToJ k s = Some (j, s') ->
  (exists r, (k, Some r) ∈ FeatureMapBase.feature_to_j_ s' /\
             FeatureMapBase.GetJ r = j) /\
  (j = kInvalidJ -> FeatureMapBase.removed s k) /\
  (forall k' r', (k', Some r') ∈ FeatureMapBase.feature_to_j_ s ->
                 (k', Some r') ∈ FeatureMapBase.feature_to_j_ s') /\
  (forall k' r', k' <> k -> (k', Some r') ∈ FeatureMapBase.feature_to_j_ s' ->
                 (k', Some r') ∈ FeatureMapBase.feature_to_j_ s).
Proof.
  intros HI E. pose proof HI as (Hseq & Hnd & _).
  destruct (FeatureToJ_cases _ _ _ _ HI E) as
    [(r & Hin & -> & ->)|(Hnew & -> & Hj & ->)]; simpl.
  - split; [by exists r|]. split; [|done].
    intros HJ. exists r. split; [by apply elem_of_find|done].
  - split; [eexists; split; [apply elem_of_Set_; [done|by left]|done]|].
    split; [lia|]. split.
    + intros k' r' Hin. apply elem_of_Set_; [done|].
      right. split; [|done]. simpl. intros ->. by eapply Hnew.
    + intros k' r' Hne [[? ?]|[_ ?]]%elem_of_Set_; done.
Qed.

(** C10, as amended.  In every state of a FeatureMap or ProductMap: a key
    that is not removed has, after [FeatureToJ] and a sync, its own key at
    the J returned; and for two keys that are not both removed, [FeatureToJ]
    returns the same J exactly when the keys are equal. *)
Theorem FeatureMap_bimap s :
  FeatureMapBase.reachable s ->
  (forall k j s1 s2,
     ~ FeatureMapBase.removed s k ->
     FeatureMapBase.FeatureToJ k s = Some (j, s1) ->
     FeatureMapBase.SyncJToFeatureMap s1 = Some s2 ->
     FeatureMapBase.JToFeature j s2 = Some k) /\
  (forall k1 k2 j1 j2 s1 s2,
     ~ (FeatureMapBase.removed s k1 /\ FeatureMapBase.removed s k2) ->
     FeatureMapBase.FeatureToJ k1 s = Some (j1, s1) ->
     FeatureMapBase.FeatureToJ k2 s1 = Some (j2, s2) ->
     (j1 = j2 <-> k1 = k2)).
Proof.
  intros HI%reachable_Inv. split.
  - intros k j s1 s2 Hlive E1 E2.
    pose proof (Inv_FeatureToJ _ _ _ _ HI E1) as HI1.
    destruct (FeatureToJ_record _ _ _ _ HI E1) as ((r & Hin & HJ) & Hrem & _).
    destruct (Inv_Sync _ _ HI1 E2) as (HI2 & Hs2 & Hm2 & _).
    destruct HI2 as (_ & _ & Hkey & _ & _ & Hsync).
    destruct (Hsync Hs2) as (_ & Hfwd & _).
    rewrite <- Hm2 in Hin.
    assert (Hv : FeatureMapBase.GetJ r <> kInvalidJ) by (intros ?; apply Hlive, Hrem; congruence).
    pose proof (Hfwd _ _ Hin Hv) as Hslot. rewrite HJ in Hslot.
    unfold FeatureMapBase.JToFeature, FeatureMapBase.JToFeatureUnsafe, vget.
    rewrite Hs2, Hslot. simpl. f_equal. by eapply Hkey.
  - intros k1 k2 j1 j2 s1 s2 Hlive E1 E2.
    pose proof (Inv_FeatureToJ _ _ _ _ HI E1) as HI1.
    pose proof (Inv_FeatureToJ _ _ _ _ HI1 E2) as HI2.
    destruct (FeatureToJ_record _ _ _ _ HI E1) as ((r1 & Hin1 & HJ1) & Hrem1 & _ & Hback1).
    destruct (FeatureToJ_record _ _ _ _ HI1 E2) as ((r2 & Hin2 & HJ2) & Hrem2 & Hkeep2 & _).
    apply Hkeep2 in Hin1.
    pose proof HI2 as (_ & Hnd2 & _ & _ & Hinj2 & _).
    split.
    + intros <-. destruct (decide (j1 = kInvalidJ)) as [Hinv|Hv].
      * destruct (decide (k1 = k2)) as [|Hne]; [done|]. exfalso. apply Hlive.
        split; [by apply Hrem1|].
        destruct (Hrem2 Hinv) as (r & Hf & Hr).
        exists r. split; [|done]. pose proof HI as (_ & Hnd & _).
        apply elem_of_find; [done|]. apply Hback1; [done|]. by apply find_elem_of.
      * eapply (Hinj2 _ r1 _ r2); [done|done|congruence|congruence].
    + intros ->. pose proof (elem_of_same_key _ _ _ _ Hnd2 Hin1 Hin2). congruence.
Qed.

End FeatureMapFacts.

(** C10 as stated fails once two keys have been removed: both are still in
    the map with J [kInvalidJ], and [FeatureToJ] returns that J for each. *)
Lemma FeatureToJ_not_injective_on_removed_keys :
  ~ (forall (s : FeatureMap) k1 k2 j1 j2 s1 s2,
       FeatureMapBase.reachable s ->
       FeatureMapBase.FeatureToJ k1 s = Some (j1, s1) ->
       FeatureMapBase.FeatureToJ k2 s1 = Some (j2, s2) ->
       (j1 = j2 <-> k1 = k2)).
Proof.
  intros H.
  assert (Hr : exists s, two_removed_keys = Some s /\ FeatureMapBase.reachable s).
  { eexists. split; [vm_compute; reflexivity|].
    eapply FeatureMapBase.reach_RemoveAndRenumberJs with (js_to_remove := [true; true]).
    - eapply FeatureMapBase.reach_Sync.
      + eapply FeatureMapBase.reach_FeatureToJ.
        * eapply FeatureMapBase.reach_FeatureToJ; [apply FeatureMapBase.reach_empty|].
          instantiate (3 := "a"%string). reflexivity.
        * instantiate (3 := "b"%string). reflexivity.
      + reflexivity.
    - reflexivity.
    - reflexivity.
    - reflexivity. }
  destruct Hr as (s & Es & Hs). vm_compute in Es. inversion Es; subst s; clear Es.
  eapply (H _ "a"%string "b"%string) in Hs as [Hab _]; [|reflexivity|reflexivity].
  specialize (Hab eq_refl). discriminate.
Qed.

Lemma FeatureMap_bimap_witness :
  FeatureMapBase.reachable map_with_a /\
  ((forall k j s1 s2,
      ~ FeatureMapBase.removed map_with_a k ->
      FeatureMapBase.FeatureToJ k map_with_a = Some (j, s1) ->
      FeatureMapBase.SyncJToFeatureMap s1 = Some s2 ->
      FeatureMapBase.JToFeature j s2 = Some k) /\
   (forall k1 k2 j1 j2 s1 s2,
      ~ (FeatureMapBase.removed map_with_a k1 /\
         FeatureMapBase.removed map_with_a k2) ->
      FeatureMapBase.FeatureToJ k1 map_with_a = Some (j1, s1) ->
      FeatureMapBase.FeatureToJ k2 s1 = Some (j2, s2) ->
      (j1 = j2 <-> k1 = k2))).
Proof.
  assert (Hr : FeatureMapBase.reachable map_with_a).
  { eapply (FeatureMapBase.reach_FeatureToJ _ "a"%string);
      [apply FeatureMapBase.reach_empty|reflexivity]. }
  split; [exact Hr|].
  apply (FeatureMap_bimap map_with_a). exact Hr.
Defined.

(** ** RowExtender *)

Lemma slice_elem_of {A} (v l : list A) (pos len : N) (x : A) :
  slice v pos len = Some l -> x ∈ l -> x ∈ v.
Proof.
  unfold slice. case_decide; [|done]. intros [= <-] Hx.
  by apply subseteq_take, subseteq_drop in Hx.
Qed.

Lemma GetRow_elem_of (m : CsrMatrix.t) (j : N) (row : list N) (x : N) :
  CsrMatrix.GetRow m j = Some row -> x ∈ row -> x ∈ CsrMatrix.contents_ m.
Proof.
  unfold CsrMatrix.GetRow. intros E.
  apply bind_Some in E as (b0 & _ & E). apply bind_Some in E as (b1 & _ & E).
  by eapply slice_elem_of.
Qed.

Lemma RowCount_bound (m : CsrMatrix.t) : CsrMatrix.RowCount m <= kInvalidJ.
Proof. apply to_uint32_bound. Qed.

Section Extension.
Variable dependees : CsrMatrix.t.
Variable parents : N -> option (N * N).
Hypothesis in_pairs : dependees_in_pairs dependees parents.
Variable row : list N.
Hypothesis row_atomic : forall j, j ∈ row -> parents j = None.

Lemma extension_invariant_ext (count count' : N -> N) (e : RowExtender.t) :
  (forall c, count c = count' c) ->
  extension_invariant dependees row count e ->
  extension_invariant dependees row count' e.
Proof.
  intros Heq (Hadd & Hnd & Hlt & Hcnt & Hin).
  split; [done|]. split; [done|]. split; [done|]. split.
  - intros c. rewrite <- Heq. apply Hcnt.
  - intros c. rewrite <- Heq. apply Hin.
Qed.

(** The row never has more entries than the row given and the matrix
    together. *)
Lemma extension_invariant_length (count : N -> N) (e : RowExtender.t) :
  extension_invariant dependees row count e ->
  (length (RowExtender.rewritten_row_ e) <=
   length row + length (CsrMatrix.contents_ dependees))%nat.
Proof.
  intros ((added & Hrow & Hadded) & Hnd & _). rewrite Hrow in *.
  rewrite length_app. apply NoDup_app in Hnd as (_ & _ & Hnd).
  pose proof (submseteq_length _ _ (NoDup_submseteq _ _ Hnd Hadded)). lia.
Qed.

(** One visit of the child [x], visited at most once before. *)
Lemma visit_child_spec (count : N -> N) (e : RowExtender.t) (x : N) :
  extension_invariant dependees row count e ->
  count x <= 1 ->
  x ∉ row ->
  x < CsrMatrix.RowCount dependees ->
  x ∈ CsrMatrix.contents_ dependees ->
  exists e',
    RowExtender.visit_child x e = Some e' /\
    extension_invariant dependees row
      (fun c => if decide (c = x) then count x + 1 else count c) e' /\
    RowExtender.rewritten_row_ e `prefix_of` RowExtender.rewritten_row_ e'.
Proof.
  intros ((added & Hrow & Hadded) & Hnd & Hlt & Hcnt & Hin) Hx Hxrow Hxlt Hxc.
  unfold RowExtender.visit_child.
  pose proof (RowCount_bound dependees) as Hb.
  assert (Hne : (x =? kInvalidJ) = false) by (apply N.eqb_neq; lia).
  rewrite Hne. cbn [negb CHECK mbind option_bind].
  rewrite (Hcnt x).
  assert (Hsmall : to_uint32 (count x + 1) = count x + 1).
  { apply to_uint32_small. unfold uint32_modulus. lia. }
  rewrite Hsmall. eexists. split; [done|].
  assert (Hnot : x ∉ RowExtender.rewritten_row_ e).
  { intros [H|H]%Hin; [done|lia]. }
  destruct (count x + 1 =? 2) eqn:H2; simpl.
  - apply N.eqb_eq in H2. split; [|by apply prefix_app_r].
    split; [|split; [|split; [|split]]]; simpl.
    + exists (added ++ [x]). split; [by rewrite Hrow, app_assoc|].
      intros c [Hc| ->%list_elem_of_singleton]%elem_of_app; [by apply Hadded|done].
    + apply NoDup_app. split; [done|]. split; [|apply NoDup_singleton].
      intros c Hc ->%list_elem_of_singleton. done.
    + intros j [Hj| ->%list_elem_of_singleton]%elem_of_app; [by apply Hlt|done].
    + intros c. destruct (decide (c = x)) as [->|Hcx].
      * by rewrite lookup_insert_eq.
      * rewrite lookup_insert_ne by done. apply Hcnt.
    + intros c. rewrite elem_of_app, list_elem_of_singleton.
      destruct (decide (c = x)) as [->|Hcx]; [naive_solver|].
      rewrite Hin. naive_solver.
  - apply N.eqb_neq in H2. split; [|done].
    split; [|split; [|split; [|split]]]; simpl.
    + by exists added.
    + done.
    + done.
    + intros c. destruct (decide (c = x)) as [->|Hcx].
      * by rewrite lookup_insert_eq.
      * rewrite lookup_insert_ne by done. apply Hcnt.
    + intros c. destruct (decide (c = x)) as [->|Hcx]; [|apply Hin].
      split; [done|]. intros [H|H]; [done|lia].
Qed.

(** The visits of the children of one J. *)
Lemma for_each_visit_child_spec (children : list N) (count : N -> N)
    (e : RowExtender.t) :
  NoDup children ->
  (forall x, x ∈ children ->
     count x <= 1 /\ x ∉ row /\ x < CsrMatrix.RowCount dependees /\
     x ∈ CsrMatrix.contents_ dependees) ->
  extension_invariant dependees row count e ->
  exists e',
    for_each RowExtender.visit_child children e = Some e' /\
    extension_invariant dependees row
      (fun c => if decide (c ∈ children) then count c + 1 else count c) e' /\
    RowExtender.rewritten_row_ e `prefix_of` RowExtender.rewritten_row_ e'.
Proof.
  revert count e. induction children as [|x l IH]; intros count e Hnd Hch Hinv.
  - exists e. split; [done|]. split; [|done].
    eapply extension_invariant_ext; [|done]. intros c.
    destruct (decide (c ∈ [])) as [H|_]; [by apply elem_of_nil in H|done].
  - apply NoDup_cons in Hnd as [Hx Hnd].
    destruct (Hch x (list_elem_of_here _ _)) as (Hc1 & Hc2 & Hc3 & Hc4).
    destruct (visit_child_spec count e x Hinv Hc1 Hc2 Hc3 Hc4) as (e1 & E1 & Hinv1 & Hp1).
    destruct (IH (fun c => if decide (c = x) then count x + 1 else count c) e1 Hnd)
      as (e' & E' & Hinv' & Hp'); [|done|].
    { intros y Hy. destruct (Hch y (list_elem_of_further _ _ _ Hy)) as (? & ? & ? & ?).
      destruct (decide (y = x)) as [->|_]; done. }
    exists e'. simpl. rewrite E1. cbn [mbind option_bind]. split; [done|].
    split; [|by etrans].
    eapply extension_invariant_ext; [|done]. intros c. simpl.
    destruct (decide (c = x)) as [->|Hcx].
    + rewrite decide_False by done. rewrite decide_True; [done|apply list_elem_of_here].
    + destruct (decide (c ∈ l)) as [Hl|Hl].
      * rewrite decide_True; [done|by apply list_elem_of_further].
      * rewrite decide_False; [done|]. intros [?|?]%elem_of_cons; done.
Qed.

(** When [j] has been visited, the counts of its children are one up and the
    others are as before. *)
Lemma count_in_step (visited children : list N) (j c : N) :
  j < CsrMatrix.RowCount dependees ->
  CsrMatrix.GetRow dependees j = Some children ->
  j ∉ visited ->
  count_in parents (visited ++ [j]) c =
    (if decide (c ∈ children) then count_in parents visited c + 1
     else count_in parents visited c) /\
  (c ∈ children -> count_in parents visited c <= 1).
Proof.
  intros Hj Erow Hnot. destruct in_pairs as [Hrows Hparents].
  destruct (Hrows j Hj) as (children' & Erow' & _ & Hiff).
  assert (children' = children) by congruence. subst children'.
  unfold count_in. destruct (parents c) as [[p1 p2]|] eqn:Ep.
  - destruct (Hparents c p1 p2 Ep) as (Hlt & _).
    assert (Hc : c ∈ children <-> j = p1 \/ j = p2).
    { rewrite Hiff. split; [|intros H; by exists p1, p2].
      intros (q1 & q2 & Heq & H). rewrite Ep in Heq. by inversion Heq; subst. }
    assert (Hother : forall p, p <> j ->
              bool_decide (p ∈ visited ++ [j]) = bool_decide (p ∈ visited)).
    { intros p Hp. apply bool_decide_ext.
      rewrite elem_of_app, list_elem_of_singleton. naive_solver. }
    assert (Hnew : bool_decide (j ∈ visited ++ [j]) = true).
    { apply bool_decide_eq_true_2, elem_of_app. right. apply list_elem_of_here. }
    assert (Hold : bool_decide (j ∈ visited) = false)
      by (by apply bool_decide_eq_false_2).
    destruct (decide (j = p1)) as [<-|H1]; [|destruct (decide (j = p2)) as [<-|H2]].
    + rewrite decide_True by (apply Hc; by left).
      rewrite Hnew, Hold, (Hother p2) by lia.
      destruct (bool_decide (p2 ∈ visited)); split; intros; lia.
    + rewrite decide_True by (apply Hc; by right).
      rewrite Hnew, Hold, (Hother p1) by lia.
      destruct (bool_decide (p1 ∈ visited)); split; intros; lia.
    + rewrite decide_False by (rewrite Hc; naive_solver).
      rewrite (Hother p1), (Hother p2) by done.
      split; [done|]. intros Hin. apply Hc in Hin. naive_solver.
  - destruct (decide (c ∈ children)) as [Hin|Hin]; [|split; [done|lia]].
    apply Hiff in Hin as (p1 & p2 & Heq & _). by rewrite Ep in Heq.
Qed.

Lemma count_in_nil (c : N) : count_in parents [] c = 0.
Proof.
  unfold count_in. destruct (parents c) as [[p1 p2]|]; [|done].
  rewrite !bool_decide_eq_false_2; [done|apply not_elem_of_nil..].
Qed.

Lemma count_in_two (visited : list N) (c : N) :
  count_in parents visited c = 2 <->
  exists p1 p2, parents c = Some (p1, p2) /\ p1 ∈ visited /\ p2 ∈ visited.
Proof.
  unfold count_in. destruct (parents c) as [[p1 p2]|]; last first.
  { split; [done|]. by intros (? & ? & ? & _). }
  split.
  - intros H. exists p1, p2. split; [done|].
    repeat case_bool_decide; try done; lia.
  - intros (q1 & q2 & Heq & H1 & H2). inversion Heq; subst.
    by rewrite !bool_decide_eq_true_2.
Qed.

(** The loop of [ExtendSparseBool] from index [i] on: it returns, with every
    entry of the row visited. *)
Lemma ExtendSparseBool_loop_spec (fuel i : nat) (e : RowExtender.t) :
  extension_invariant dependees row
    (count_in parents (take i (RowExtender.rewritten_row_ e))) e ->
  (i <= length (RowExtender.rewritten_row_ e))%nat ->
  (length row + length (CsrMatrix.contents_ dependees) < fuel + i)%nat ->
  exists e',
    RowExtender.ExtendSparseBool_loop fuel dependees i e = Some e' /\
    extension_invariant dependees row
      (count_in parents (RowExtender.rewritten_row_ e')) e'.
Proof.
  revert i e. induction fuel as [|fuel IH]; intros i e Hinv Hi Hfuel.
  { apply extension_invariant_length in Hinv. lia. }
  simpl. destruct (RowExtender.rewritten_row_ e !! i) as [j|] eqn:Ej.
  - pose proof Hinv as (_ & Hnd & Hlt & _).
    pose proof (Hlt j (list_elem_of_lookup_2 _ _ _ Ej)) as Hj.
    destruct in_pairs as [Hrows Hparents].
    destruct (Hrows j Hj) as (children & Erow & Hndc & Hiff).
    assert (Hnot : j ∉ take i (RowExtender.rewritten_row_ e)).
    { rewrite <- (take_drop_middle _ _ _ Ej) in Hnd.
      apply NoDup_app in Hnd as (_ & Hnd & _). intros Hin.
      apply (Hnd j Hin). apply list_elem_of_here. }
    rewrite Erow. cbn [mbind option_bind].
    destruct (for_each_visit_child_spec children
                (count_in parents (take i (RowExtender.rewritten_row_ e))) e Hndc)
      as (e1 & E1 & Hinv1 & Hp); [|exact Hinv|].
    { intros x Hx. split; [by apply (count_in_step _ children j x Hj Erow Hnot)|].
      apply Hiff in Hx as Hx'. destruct Hx' as (p1 & p2 & Ep & _).
      split; [intros Hr; apply row_atomic in Hr; congruence|].
      split; [by destruct (Hparents x p1 p2 Ep) as (_ & _ & ?)|].
      by eapply GetRow_elem_of. }
    rewrite E1. cbn [mbind option_bind].
    destruct Hp as [k Hk]. pose proof (lookup_lt_Some _ _ _ Ej) as Hlen.
    apply IH.
    + eapply extension_invariant_ext; [|exact Hinv1]. intros c. cbn beta.
      rewrite Hk, take_app_le by lia. rewrite (take_S_r _ _ _ Ej).
      symmetry. by apply (count_in_step _ children j c Hj Erow Hnot).
    + rewrite Hk, length_app. lia.
    + lia.
  - apply lookup_ge_None in Ej. exists e. split; [done|].
    by rewrite take_ge in Hinv by lia.
Qed.

End Extension.

(** For a row without duplicates over the dependees graph of the engine,
    [ResetRow] returns, and the sparse bool set that it leaves holds exactly
    the J's all of whose atomic factors are in the row. *)
Lemma ResetRow_factors_present (dependees : CsrMatrix.t)
    (parents : N -> option (N * N)) (row : list N) (y : Q) (id : N)
    (e : RowExtender.t) :
  dependees_in_pairs dependees parents ->
  NoDup row ->
  (forall j, j ∈ row -> j < CsrMatrix.RowCount dependees /\ parents j = None) ->
  RowExtender.dependencies_ e = ∅ ->
  exists e',
    RowExtender.ResetRow (Some dependees) row y id e = Some e' /\
    RowExtender.dependencies_ e' = ∅ /\
    forall c, c ∈ RowExtender.SparseBool e' <-> factors_present parents row c.
Proof.
  intros Hpairs Hnd Hrow Hdeps. unfold RowExtender.ResetRow.
  destruct (CsrMatrix.NonZerosCount dependees =? 0) eqn:Hnz; simpl.
  - apply N.eqb_eq in Hnz. unfold CsrMatrix.NonZerosCount in Hnz.
    eexists. split; [done|]. split; [done|]. simpl. intros c. split.
    + by constructor.
    + induction 1 as [|c p1 p2 Ep _ _ _ _]; [done|]. exfalso.
      destruct Hpairs as [Hrows Hparents].
      destruct (Hparents c p1 p2 Ep) as (H12 & H2c & Hc).
      destruct (Hrows p1) as (children & Erow & _ & Hiff); [lia|].
      assert (Hin : c ∈ children) by (apply Hiff; by exists p1, p2; auto).
      apply (GetRow_elem_of _ _ _ _ Erow) in Hin.
      destruct (CsrMatrix.contents_ dependees); [by apply elem_of_nil in Hin|].
      simpl in Hnz. lia.
  - unfold RowExtender.ExtendSparseBool, RowExtender.ExtendSparseBool_fuel.
    cbn [RowExtender.rewritten_row_].
    destruct (ExtendSparseBool_loop_spec dependees parents Hpairs row
                (fun j Hj => proj2 (Hrow j Hj))
                (S (length row + length (CsrMatrix.contents_ dependees))) 0
                (RowExtender.mk y id row 0 (RowExtender.dependencies_ e)
                                (RowExtender.sparse_bool_ e)))
      as (e' & E' & (_ & _ & _ & _ & Hin)).
    + split; [exists []; split; [by rewrite app_nil_r|by intros c ?%elem_of_nil]|].
      split; [done|]. split; [intros j Hj; by apply Hrow|]. simpl. split.
      * intros c. by rewrite Hdeps, lookup_empty, count_in_nil.
      * intros c. rewrite count_in_nil. naive_solver.
    + simpl. lia.
    + simpl. lia.
    + rewrite E'. cbn [mbind option_bind]. eexists. split; [done|].
      split; [done|]. simpl. intros c. split.
      * induction (N.lt_wf_0 c) as [c _ IH]. intros [Hc|Hc]%Hin.
        -- by constructor.
        -- apply count_in_two in Hc as (p1 & p2 & Ep & H1 & H2).
           destruct Hpairs as [_ Hparents].
           destruct (Hparents c p1 p2 Ep) as (H12 & H2c & _).
           apply (present_product _ _ c p1 p2 Ep); apply IH; (lia || done).
      * induction 1 as [j Hj|c p1 p2 Ep _ IH1 _ IH2]; apply Hin; [by left|].
        right. apply count_in_two. by exists p1, p2.
Qed.

(** C2, at a row that names a parent twice.  Exploration over the atomic
    J's 0 and 1 adds their product as J 2 with the edges 0 -> 2 and 1 -> 2,
    and [SetRowCount] makes that the dependees matrix [dependees_ab].  In
    the row [0; 0] the factor J 1 is absent, yet the counter of J 2 reaches
    2 on the second visit of J 0 and the extended row holds the product. *)
Lemma ExtendSparseBool_counts_duplicate_parent :
  (exists products,
     FeatureExploration.select_products (list_pq PrioritySumIterator.entry_less)
       config_one_feature 1%Q product_map_ab (CsrMatrix.mk [0; 0; 0] [])
       [1%Q; 1%Q] = Some (products, CsrMatrix.mk [0; 1; 2] [2; 2]) /\
     FeatureMapBase.find (FeatureMapBase.feature_to_j_ products) [0; 1] =
       Some (Some (FeatureMapBase.mkFeatureAndJ [0; 1] 2))) /\
  CsrMatrix.SetRowCount 3 (CsrMatrix.mk [0; 1; 2] [2; 2]) = Some dependees_ab /\
  (exists e,
     RowExtender.ResetRow (Some dependees_ab) row_with_duplicate 1%Q 0
       RowExtender.new = Some e /\
     RowExtender.SparseBool e = [0; 0; 2]) /\
  1 ∉ row_with_duplicate.
Proof.
  split; [eexists; split; reflexivity|]. split; [reflexivity|].
  split; [eexists; split; reflexivity|].
  unfold row_with_duplicate. rewrite !elem_of_cons, elem_of_nil. intros [|[|]]; done.
Qed.

(** ** Rational arithmetic *)

Lemma Qltb_true (x y : Q) : Qltb x y = true <-> (x < y)%Q.
Proof.
  unfold Qltb. rewrite Qlt_alt. destruct (x ?= y)%Q; split; congruence.
Qed.

Lemma Qltb_false (x y : Q) : Qltb x y = false <-> (y <= x)%Q.
Proof.
  rewrite <- not_true_iff_false, Qltb_true. split.
  - apply Qnot_lt_le.
  - apply Qle_not_lt.
Qed.

Lemma Qeqb_true (x y : Q) : Qeqb x y = true <-> (x == y)%Q.
Proof. apply Qeq_bool_iff. Qed.

Lemma Qeqb_false (x y : Q) : Qeqb x y = false <-> ~ (x == y)%Q.
Proof. rewrite <- not_true_iff_false, Qeqb_true. done. Qed.

Lemma Qeqb_proper (x x' y y' : Q) :
  (x == x')%Q -> (y == y')%Q -> Qeqb x y = Qeqb x' y'.
Proof.
  intros Hx Hy. destruct (Qeqb x' y') eqn:E.
  - apply Qeqb_true. apply Qeqb_true in E. by rewrite Hx, Hy.
  - apply Qeqb_false. apply Qeqb_false in E. by rewrite Hx, Hy.
Qed.

Lemma Sign_cases (x : Q) :
  ((0 < x)%Q /\ Sign x = (1 - 0)%Q) \/
  ((x == 0)%Q /\ Sign x = (0 - 0)%Q) \/
  ((x < 0)%Q /\ Sign x = (0 - 1)%Q).
Proof.
  unfold Sign, Qgtb.
  destruct (Qltb 0 x) eqn:E1, (Qltb x 0) eqn:E2.
  - apply Qltb_true in E1, E2. exfalso. lra.
  - apply Qltb_true in E1. by left.
  - apply Qltb_true in E2. right. by right.
  - apply Qltb_false in E1, E2. right. left. split; [lra|done].
Qed.

(** ** Dim1Majorizer and Majorizer *)

Section RoundingFacts.
Variable fl : Q -> Q.
Hypothesis fl_rounding : rounding fl.

Local Open Scope Q_scope.

Lemma Qdiv_nonneg (x y : Q) : 0 <= x -> 0 <= y -> 0 <= x / y.
Proof.
  intros Hx Hy. unfold Qdiv. apply Qmult_le_0_compat; [done|].
  by apply Qinv_le_0_compat.
Qed.

Lemma double_add_nonneg (x y : Q) : 0 <= x -> 0 <= y -> 0 <= double_add fl x y.
Proof. intros Hx Hy. apply fl_rounding. lra. Qed.

Lemma double_mul_nonneg (x y : Q) : 0 <= x -> 0 <= y -> 0 <= double_mul fl x y.
Proof. intros Hx Hy. apply fl_rounding. by apply Qmult_le_0_compat. Qed.

Lemma double_div_nonneg (x y : Q) : 0 <= x -> 0 <= y -> 0 <= double_div fl x y.
Proof. intros Hx Hy. apply fl_rounding. by apply Qdiv_nonneg. Qed.

(** The two-branch clamp of [GetMinimum] is the soft threshold of the
    specification, for a threshold that is not negative. *)
Lemma soft_threshold_clamp (b b' t t' : Q) :
  b == b' -> t == t' -> 0 <= t ->
  (if Qgtb b 0 then std_max 0 (double_sub fl b t) else std_min 0 (double_add fl b t)) ==
  soft_threshold fl b' t'.
Proof.
  destruct fl_rounding as (Hproper & Hodd & Hpos).
  intros Hb Ht H0. unfold soft_threshold, double_sub, double_add, Qgtb, std_max, std_min.
  set (x := fl (Qabs b' - t')).
  destruct (Q.max_spec 0 x) as [[Hm ->]|[Hm ->]];
    destruct (Sign_cases b') as [[Hs ->]|[[Hs ->]|[Hs ->]]].
  all: first [ replace (Qltb 0 b) with true by (symmetry; apply Qltb_true; lra)
             | replace (Qltb 0 b) with false by (symmetry; apply Qltb_false; lra) ].
  all: try (assert (Hx : x == fl (b - t))
              by (apply Hproper; rewrite (Qabs_pos b') by lra; rewrite Hb, Ht;
                  reflexivity)).
  all: try (assert (Hx : x == - fl (b + t))
              by (unfold x; rewrite <- Hodd; apply Hproper;
                  rewrite (Qabs_neg b') by lra; rewrite Hb, Ht; ring)).
  all: try (assert (Hbt : 0 <= fl (b + t)) by (apply Hpos; lra)).
  all: match goal with
       | |- context [Qltb ?u ?v] =>
           let E := fresh "E" in
           destruct (Qltb u v) eqn:E;
           [apply Qltb_true in E|apply Qltb_false in E]
       end; lra.
Qed.

Section WithSqrt.
Variable sqrt : Q -> Q.
Hypothesis sqrt_nonneg : forall x, 0 <= sqrt x.

Lemma L1_nonneg (r : Regularizations) (rows_with_j : N) (weight majorizer_a : Q) :
  valid_regularizations r -> 0 <= L1 fl sqrt r rows_with_j weight majorizer_a.
Proof.
  intros ((A1 & A2 & A3) & (B1 & B2 & B3) & (C1 & C2 & C3) & (D1 & D2 & D3)).
  unfold L1.
  pose proof (sqrt_nonneg (fl (N_to_double (to_uint64 (rows_with_j + 1))))) as Hs.
  pose proof (sqrt_nonneg majorizer_a) as Ha.
  assert (He : 0 <= double_add fl (sqrt majorizer_a) kEpsilon)
    by (apply double_add_nonneg; [done|unfold kEpsilon; lra]).
  set (s := sqrt (fl (N_to_double (to_uint64 (rows_with_j + 1))))) in *.
  set (e := double_add fl (sqrt majorizer_a) kEpsilon) in *.
  cbv zeta.
  destruct (Qeqb weight 0);
    repeat first [ apply double_add_nonneg | apply double_div_nonneg
                 | apply double_mul_nonneg | done ].
Qed.

(** [GetMinimum] computes the coordinate update of the specification. *)
Lemma GetMinimum_spec (m : Dim1Majorizer) (r : Regularizations)
    (w0 inertia_factor dW_prev step_multiplier : Q) (rows_with_j : N) (w_new : Q) :
  valid_regularizations r ->
  GetMinimum fl sqrt m r w0 (double_mul fl inertia_factor dW_prev) step_multiplier
             rows_with_j = Some w_new ->
  w_new ==
  coordinate_update_spec fl (a_ m) (b_ m) w0 dW_prev
    (L1 fl sqrt r rows_with_j w0 (a_ m)) (L2 fl sqrt r rows_with_j (a_ m))
    inertia_factor step_multiplier.
Proof.
  intros Hr. unfold GetMinimum, coordinate_update_spec.
  pose proof (L1_nonneg r rows_with_j w0 (a_ m) Hr) as HL1.
  destruct fl_rounding as (Hproper & Hodd & Hpos).
  set (l1v := L1 fl sqrt r rows_with_j w0 (a_ m)) in *.
  set (l2v := L2 fl sqrt r rows_with_j (a_ m)) in *.
  cbv zeta.
  set (aj := double_add fl (a_ m) (double_mul fl l2v 4)).
  set (A := double_add fl (a_ m) (double_mul fl 4 l2v)).
  assert (HA : aj == A).
  { unfold aj, A, double_add, double_mul. apply Hproper.
    rewrite (Hproper (l2v * 4) (4 * l2v)) by ring. reflexivity. }
  set (bj := double_add fl
               (double_sub fl (double_mul fl (a_ m) w0)
                              (double_mul fl step_multiplier (b_ m)))
               (double_mul fl (double_mul fl inertia_factor dW_prev) aj)).
  set (B := double_add fl
              (double_sub fl (double_mul fl (a_ m) w0)
                             (double_mul fl step_multiplier (b_ m)))
              (double_mul fl (double_mul fl inertia_factor dW_prev) A)).
  assert (HB : bj == B).
  { unfold bj, B, double_add. apply Hproper.
    unfold double_mul at 3 6. rewrite (Hproper _ _ (Qmult_comp _ _ (Qeq_refl _) _ _ HA)).
    reflexivity. }
  assert (Ht : double_mul fl l1v 2 == double_mul fl 2 l1v)
    by (unfold double_mul; apply Hproper; ring).
  assert (H0 : 0 <= double_mul fl l1v 2) by (apply double_mul_nonneg; [done|lra]).
  pose proof (soft_threshold_clamp bj B _ _ HB Ht H0) as Hclamp.
  rewrite (Qeqb_proper aj A 0 0 HA (Qeq_refl 0)).
  destruct (Qeqb A 0).
  - intros E. apply bind_Some in E as (u & _ & E). inversion E. reflexivity.
  - intros E. inversion E. unfold double_div. apply Hproper.
    apply Qdiv_comp; [exact Hclamp|exact HA].
Qed.

End WithSqrt.
End RoundingFacts.

(** Where the curvature [aj] is not zero, [GetMinimum] has no check to
    pass. *)
Lemma GetMinimum_total (fl sqrt : Q -> Q) (m : Dim1Majorizer) (r : Regularizations)
    (w0 inertia step_multiplier : Q) (rows_with_j : N) :
  ~ (double_add fl (a_ m) (double_mul fl (L2 fl sqrt r rows_with_j (a_ m)) 4) == 0)%Q ->
  is_Some (GetMinimum fl sqrt m r w0 inertia step_multiplier rows_with_j).
Proof.
  intros Hne. unfold GetMinimum. cbv zeta.
  apply Qeqb_false in Hne. rewrite Hne. by eexists.
Qed.

Lemma GetRowCountWithJPresent_total (stats : Stats.t) (j : nat) :
  (j < length (Stats.positive_ stats))%nat ->
  (j < length (Stats.negative_ stats))%nat ->
  exists rows, Stats.GetRowCountWithJPresent stats (N.of_nat j) = Some rows.
Proof.
  intros Hp Hn. unfold Stats.GetRowCountWithJPresent, Stats.Negative, Stats.Positive.
  rewrite !vget_lookup.
  destruct (lookup_lt_is_Some_2 _ _ Hp) as [p ->].
  destruct (lookup_lt_is_Some_2 _ _ Hn) as [n ->]. simpl. by eexists.
Qed.

Lemma vset_nat {A} (v : list A) (j : nat) (x : A) :
  (j < length v)%nat -> vset v (N.of_nat j) x = Some (<[j := x]> v).
Proof. intros H. rewrite vset_Some; rewrite Nat2N.id; done. Qed.

Section MajorizerFacts.
Variable fl : Q -> Q.
Variable sqrt : Q -> Q.

Local Open Scope Q_scope.

Lemma GetRegularizationLoss_total (mz : Majorizer.t) (r : Regularizations)
    (model : Model.t) (stats : Stats.t) :
  sizes_agree mz model stats ->
  exists loss, GetRegularizationLoss fl sqrt mz r model stats = Some loss.
Proof.
  intros (H1 & H2 & H3 & H4 & H5 & H6 & H7). unfold GetRegularizationLoss.
  destruct (for_range_total (fun _ _ => True) (length (Model.w model))
    (fun (j : nat) (loss : Q) =>
       w ← Model.w model !! j;
       rows_with_j ← Stats.GetRowCountWithJPresent stats (N.of_nat j);
       d ← Majorizer.of_j_ mz !! j;
       Some (double_add fl
               (double_add fl loss
                  (double_mul fl (L1 fl sqrt r rows_with_j w (a_ d)) (fabs w)))
               (double_mul fl (double_mul fl (L2 fl sqrt r rows_with_j (a_ d)) w) w)))
    0) as (loss & E & _).
  - done.
  - intros j s Hj _.
    destruct (lookup_lt_is_Some_2 (Model.w model) j Hj) as [w ->].
    destruct (GetRowCountWithJPresent_total stats j) as [rows ->]; [lia|lia|].
    destruct (lookup_lt_is_Some_2 (Majorizer.of_j_ mz) j) as [d ->]; [lia|].
    simpl. by eexists.
  - by exists loss.
Qed.

(** The loop that reverts the weights (the undo loop and the restart loop
    have the same body). *)
Lemma revert_loop_spec (step : nat -> list Q * list Q -> option (list Q * list Q))
    (n : nat) (w delta_w : list Q) :
  (forall j wd, step j wd = UpdateMinimum_undo_step fl j wd) ->
  length w = n -> length delta_w = n ->
  exists w' delta_w',
    for_range n step (w, delta_w) = Some (w', delta_w') /\
    length w' = n /\ length delta_w' = n /\
    forall j wj dj, w !! j = Some wj -> delta_w !! j = Some dj ->
      w' !! j = Some (double_sub fl wj dj) /\ delta_w' !! j = Some 0.
Proof.
  intros Hstep Hw Hd.
  destruct (for_range_total
    (fun i (wd : list Q * list Q) =>
       length wd.1 = n /\ length wd.2 = n /\
       (forall j, (i <= j)%nat -> wd.1 !! j = w !! j /\ wd.2 !! j = delta_w !! j) /\
       (forall j wj dj, (j < i)%nat -> w !! j = Some wj -> delta_w !! j = Some dj ->
          wd.1 !! j = Some (double_sub fl wj dj) /\ wd.2 !! j = Some 0))
    n step (w, delta_w)) as ([w' d'] & E & (Hl1 & Hl2 & _ & Hdone)).
  - simpl. split; [done|]. split; [done|]. split; [done|]. intros; lia.
  - intros j [w1 d1] Hj (Hl1 & Hl2 & Hrest & Hdone). simpl in *.
    rewrite Hstep. unfold UpdateMinimum_undo_step.
    destruct (Hrest j) as [Ew Ed]; [lia|].
    destruct (lookup_lt_is_Some_2 w j) as [wj Hwj]; [lia|].
    destruct (lookup_lt_is_Some_2 delta_w j) as [dj Hdj]; [lia|].
    rewrite Ew, Ed, Hwj, Hdj. simpl.
    rewrite !vset_nat by lia. simpl. eexists. split; [done|]. simpl.
    rewrite !length_insert. split; [done|]. split; [done|]. split.
    + intros j' Hj'. rewrite !list_lookup_insert_ne by lia. apply Hrest. lia.
    + intros j' wj' dj' Hj' Hw' Hd'.
      destruct (decide (j' = j)) as [->|Hne].
      * rewrite !list_lookup_insert_eq by lia. split; congruence.
      * rewrite !list_lookup_insert_ne by lia. apply Hdone; [lia|done|done].
  - exists w', d'. split; [done|]. split; [done|]. split; [done|].
    intros j wj dj Hwj Hdj. apply Hdone; [|done|done].
    apply lookup_lt_Some in Hwj. lia.
Qed.

(** The coordinate loop of [UpdateMinimum]: every coordinate gets the
    minimum of its majorizer, computed from the weight and the delta of the
    previous iteration. *)
Lemma UpdateMinimum_coordinates_spec (mz : Majorizer.t) (r : Regularizations)
    (inertia_factor step_multiplier : Q) (stats : Stats.t) (model : Model.t) :
  sizes_agree mz model stats ->
  minimum_checked fl sqrt mz r inertia_factor step_multiplier stats model ->
  exists s,
    UpdateMinimum_coordinates fl sqrt mz r inertia_factor step_multiplier stats model
      = Some s /\
    forall j d w0 dW rows,
      Majorizer.of_j_ mz !! j = Some d ->
      Model.w model !! j = Some w0 ->
      Model.delta_w model !! j = Some dW ->
      Stats.GetRowCountWithJPresent stats (N.of_nat j) = Some rows ->
      exists w_new,
        GetMinimum fl sqrt d r w0 (double_mul fl inertia_factor dW) step_multiplier rows
          = Some w_new /\
        cs_w s !! j = Some w_new /\
        cs_delta_w s !! j = Some (double_sub fl w_new w0).
Proof.
  intros (H1 & H2 & H3 & H4 & H5 & H6 & H7) Hchecked.
  set (n := length (Majorizer.of_j_ mz)).
  unfold UpdateMinimum_coordinates. fold n.
  destruct (for_range_total
    (fun i (s : CoordinateState) =>
       length (cs_w s) = n /\ length (cs_delta_w s) = n /\
       length (cs_precision s) = n /\
       (forall j, (i <= j)%nat ->
          cs_w s !! j = Model.w model !! j /\
          cs_delta_w s !! j = Model.delta_w model !! j) /\
       (forall j d w0 dW rows, (j < i)%nat ->
          Majorizer.of_j_ mz !! j = Some d ->
          Model.w model !! j = Some w0 ->
          Model.delta_w model !! j = Some dW ->
          Stats.GetRowCountWithJPresent stats (N.of_nat j) = Some rows ->
          exists w_new,
            GetMinimum fl sqrt d r w0 (double_mul fl inertia_factor dW)
                       step_multiplier rows = Some w_new /\
            cs_w s !! j = Some w_new /\
            cs_delta_w s !! j = Some (double_sub fl w_new w0)))
    n
    (UpdateMinimum_coordinate fl sqrt mz r inertia_factor step_multiplier stats
                              (Model.loss_derivative model))
    (mkCoordinateState (Model.precision model) (Model.w model)
                       (Model.delta_w model) 0 0 0))
    as (s & E & (_ & _ & _ & _ & Hdone)).
  - simpl. unfold n. repeat split; try lia; try done.
  - intros j s Hj (Hl1 & Hl2 & Hl3 & Hrest & Hdone).
    unfold UpdateMinimum_coordinate.
    destruct (GetRowCountWithJPresent_total stats j) as [rows Hrows]; [lia|lia|].
    destruct (Hrest j) as [Ew Ed]; [lia|].
    destruct (lookup_lt_is_Some_2 (Model.w model) j) as [w0 Hw0]; [lia|].
    destruct (lookup_lt_is_Some_2 (Model.delta_w model) j) as [dW HdW]; [lia|].
    destruct (lookup_lt_is_Some_2 (Majorizer.of_j_ mz) j) as [d Hd]; [lia|].
    destruct (lookup_lt_is_Some_2 (Model.loss_derivative model) j) as [ld Hld]; [lia|].
    destruct (Hchecked j d w0 dW rows Hd Hw0 HdW Hrows) as [[w1 Hw1] [w_new Hnew]].
    rewrite Hrows, Ew, Ed, Hw0, HdW, Hd. cbn [mbind option_bind].
    rewrite Hw1, Hnew. cbn [mbind option_bind].
    rewrite !vset_nat by lia. cbn [mbind option_bind]. rewrite Hld.
    cbn [mbind option_bind].
    eexists. split; [done|]. simpl. rewrite !length_insert.
    split; [done|]. split; [done|]. split; [done|]. split.
    + intros j' Hj'. rewrite !list_lookup_insert_ne by lia. apply Hrest. lia.
    + intros j' d' w0' dW' rows' Hj' Hd' Hw' HdW' Hrows'.
      destruct (decide (j' = j)) as [->|Hne].
      * rewrite !list_lookup_insert_eq by lia.
        assert (d' = d) by congruence. assert (w0' = w0) by congruence.
        assert (dW' = dW) by congruence. assert (rows' = rows) by congruence.
        subst. by exists w_new.
      * rewrite !list_lookup_insert_ne by lia. apply Hdone; [lia|done..].
  - exists s. split; [done|].
    intros j d w0 dW rows Hd. apply Hdone; [by apply lookup_lt_Some in Hd|done].
Qed.

(** The coordinate loop leaves the lengths of the vectors as they are. *)
Lemma UpdateMinimum_coordinates_length (mz : Majorizer.t) (r : Regularizations)
    (inertia_factor step_multiplier : Q) (stats : Stats.t) (model : Model.t)
    (s : CoordinateState) :
  UpdateMinimum_coordinates fl sqrt mz r inertia_factor step_multiplier stats model
    = Some s ->
  length (cs_w s) = length (Model.w model) /\
  length (cs_delta_w s) = length (Model.delta_w model).
Proof.
  unfold UpdateMinimum_coordinates.
  apply (for_range_partial
           (fun _ (s : CoordinateState) =>
              length (cs_w s) = length (Model.w model) /\
              length (cs_delta_w s) = length (Model.delta_w model))).
  - done.
  - intros j s0 s1 _ [Hw Hd] E. unfold UpdateMinimum_coordinate in E.
    repeat (apply bind_Some in E as (? & ? & E)).
    inversion E; subst s1; clear E. cbn [cs_w cs_delta_w].
    repeat match goal with
           | H : vset _ _ _ = Some _ |- _ => apply vset_inv in H as [? ->]
           end.
    rewrite !length_insert. done.
Qed.

(** What [UpdateMinimum] decides: it undoes when undoing is allowed and the
    total loss, the rounded sum of the log loss and the regularization loss,
    exceeds [prev_total_loss]; otherwise it runs the coordinate loop and
    restarts when the scalar product of the loop is positive. *)
Lemma UpdateMinimum_decides (mz : Majorizer.t) (r : Regularizations)
    (inertia_factor step_multiplier : Q) (stats : Stats.t) (allow_undo : bool)
    (model model' : Model.t) (log : UpdateMinimumLog) :
  UpdateMinimum fl sqrt mz r inertia_factor step_multiplier stats allow_undo model
    = Some (model', log) ->
  exists reg_loss,
    GetRegularizationLoss fl sqrt mz r model stats = Some reg_loss /\
    undo_iteration log =
      allow_undo &&
      ext_gtb (Finite (double_add fl (Majorizer.log_loss_ mz) reg_loss))
              (Model.prev_total_loss model) /\
    (undo_iteration log = true ->
     restart_iteration log = false /\
     Model.prev_total_loss model' = kInfinity /\
     Model.total_loss model' = Model.total_loss model) /\
    (undo_iteration log = false ->
     Model.prev_total_loss model' = Model.prev_total_loss model /\
     Model.total_loss model' = Model.total_loss model /\
     exists s,
       UpdateMinimum_coordinates fl sqrt mz r inertia_factor step_multiplier stats
                                 model = Some s /\
       restart_iteration log = Qgtb (cs_dot_loss_derivative_vs_delta_weight s) 0 /\
       (restart_iteration log = false ->
        Model.w model' = cs_w s /\ Model.delta_w model' = cs_delta_w s /\
        Model.precision model' = cs_precision s)).
Proof.
  intros EU. unfold UpdateMinimum in EU.
  apply bind_Some in EU as (u1 & _ & EU).
  apply bind_Some in EU as (u2 & _ & EU).
  apply bind_Some in EU as (reg_loss & Ereg & EU).
  exists reg_loss. split; [done|].
  destruct (allow_undo && _).
  - apply bind_Some in EU as ([w' d'] & _ & EU). inversion EU; subst. cbn.
    split; [done|]. split; [done|]. intros [=].
  - apply bind_Some in EU as (s & Es & EU). cbv zeta in EU.
    destruct (Qgtb (cs_dot_loss_derivative_vs_delta_weight s) 0) eqn:Edot.
    + apply bind_Some in EU as ([w' d'] & _ & EU). inversion EU; subst. cbn.
      split; [done|]. split; [intros [=]|]. intros _.
      split; [done|]. split; [done|]. exists s. split; [done|].
      split; [done|]. intros [=].
    + inversion EU; subst. cbn.
      split; [done|]. split; [intros [=]|]. intros _.
      split; [done|]. split; [done|]. exists s. done.
Qed.

(** With the sizes in agreement, a synced model and the checks of
    [GetMinimum] passing, [UpdateMinimum] returns. *)
Lemma UpdateMinimum_total (mz : Majorizer.t) (r : Regularizations)
    (inertia_factor step_multiplier : Q) (stats : Stats.t) (allow_undo : bool)
    (model : Model.t) :
  sizes_agree mz model stats ->
  Model.synced_with_weights model = true ->
  minimum_checked fl sqrt mz r inertia_factor step_multiplier stats model ->
  exists model' log,
    UpdateMinimum fl sqrt mz r inertia_factor step_multiplier stats allow_undo model
      = Some (model', log).
Proof.
  intros Hsizes Hsynced Hchecked. pose proof Hsizes as (H1 & H2 & _).
  destruct (GetRegularizationLoss_total mz r model stats Hsizes) as [reg_loss Hreg].
  destruct (UpdateMinimum_coordinates_spec mz r inertia_factor step_multiplier
              stats model Hsizes Hchecked) as (s & Es & _).
  destruct (UpdateMinimum_coordinates_length _ _ _ _ _ _ _ Es) as [Hlw Hld].
  unfold UpdateMinimum. unfold Model.GetSize. rewrite H1, N.eqb_refl, Hsynced.
  cbn [CHECK mbind option_bind]. rewrite Hreg. cbn [mbind option_bind].
  destruct (allow_undo && _).
  - destruct (revert_loop_spec (UpdateMinimum_undo_step fl) (length (Model.w model))
                (Model.w model) (Model.delta_w model))
      as (w' & d' & E & _); [done|done|lia|].
    rewrite E. cbn [mbind option_bind]. by eexists _, _.
  - rewrite Es. cbn [mbind option_bind].
    destruct (Qgtb _ 0); [|by eexists _, _].
    destruct (revert_loop_spec (UpdateMinimum_restart_step fl)
                (length (Model.w model)) (cs_w s) (cs_delta_w s))
      as (w' & d' & E & _); [done|lia|lia|].
    rewrite E. cbn [mbind option_bind]. by eexists _, _.
Qed.


End MajorizerFacts.

Lemma sqrt_approx_nonneg (x : Q) : (0 <= sqrt_approx x)%Q.
Proof.
  unfold sqrt_approx, Qle. cbn [Qnum Qden].
  pose proof (Z.sqrt_nonneg (Qfloor (x * 1000000000000))). lia.
Qed.

Lemma no_rounding_rounding : rounding no_rounding.
Proof.
  unfold no_rounding. split; [done|]. split; [intros; reflexivity|done].
Qed.

(** C1.  The batch coordinate update gives every coordinate J the weight
    [w_new_j] of the specification: [A_j = a_j + 4 L2_j],
    [B_j = a_j w0 - step_multiplier b_j + inertia_factor dW_prev A_j], [B_j]
    soft-thresholded by [2 L1_j], [w_new_j = B_j / A_j] or 0 when [A_j = 0];
    and it sets the delta to [w_new_j - w0].  On a synced model
    [UpdateMinimum] returns, and wherever it does not undo (as when undoing
    is not allowed) it restarts exactly when the scalar product of the loss
    derivative and the new deltas is positive, and otherwise returns these
    weights and deltas.  Every operation is rounded to a double; the
    regularization fields are not negative, as the configuration is
    validated to be; and the check of [GetMinimum] at a zero [A_j] passes. *)
Theorem UpdateMinimum_coordinate_update (fl sqrt : Q -> Q) (mz : Majorizer.t)
    (r : Regularizations) (inertia_factor step_multiplier : Q) (stats : Stats.t)
    (model : Model.t) :
  rounding fl ->
  (forall x, 0 <= sqrt x)%Q ->
  valid_regularizations r ->
  sizes_agree mz model stats ->
  minimum_checked fl sqrt mz r inertia_factor step_multiplier stats model ->
  exists s reg_loss,
    UpdateMinimum_coordinates fl sqrt mz r inertia_factor step_multiplier stats model
      = Some s /\
    (forall j d w0 dW rows,
       Majorizer.of_j_ mz !! j = Some d ->
       Model.w model !! j = Some w0 ->
       Model.delta_w model !! j = Some dW ->
       Stats.GetRowCountWithJPresent stats (N.of_nat j) = Some rows ->
       exists w_new,
         cs_w s !! j = Some w_new /\
         cs_delta_w s !! j = Some (double_sub fl w_new w0) /\
         (w_new ==
          coordinate_update_spec fl (a_ d) (b_ d) w0 dW
            (L1 fl sqrt r rows w0 (a_ d)) (L2 fl sqrt r rows (a_ d))
            inertia_factor step_multiplier)%Q) /\
    (forall allow_undo model' log,
       UpdateMinimum fl sqrt mz r inertia_factor step_multiplier stats allow_undo model
         = Some (model', log) ->
       undo_iteration log = false -> restart_iteration log = false ->
       Model.w model' = cs_w s /\ Model.delta_w model' = cs_delta_w s) /\
    GetRegularizationLoss fl sqrt mz r model stats = Some reg_loss /\
    (Model.synced_with_weights model = true ->
     forall allow_undo,
       allow_undo &&
       ext_gtb (Finite (double_add fl (Majorizer.log_loss_ mz) reg_loss))
               (Model.prev_total_loss model) = false ->
       exists model' log,
         UpdateMinimum fl sqrt mz r inertia_factor step_multiplier stats allow_undo
                       model = Some (model', log) /\
         undo_iteration log = false /\
         restart_iteration log =
           Qgtb (cs_dot_loss_derivative_vs_delta_weight s) 0 /\
         (restart_iteration log = false ->
          Model.w model' = cs_w s /\ Model.delta_w model' = cs_delta_w s /\
          Model.precision model' = cs_precision s)).
Proof.
  intros Hfl Hsqrt Hr Hsizes Hchecked.
  destruct (UpdateMinimum_coordinates_spec fl sqrt mz r inertia_factor step_multiplier
              stats model Hsizes Hchecked) as (s & E & Hs).
  destruct (GetRegularizationLoss_total fl sqrt mz r model stats Hsizes)
    as [reg_loss Hreg].
  exists s, reg_loss. split; [done|]. split; [|split; [|split; [done|]]].
  - intros j d w0 dW rows Hd Hw HdW Hrows.
    destruct (Hs j d w0 dW rows Hd Hw HdW Hrows) as (w_new & Emin & Ew & Edw).
    exists w_new. split; [exact Ew|]. split; [exact Edw|].
    by apply (GetMinimum_spec fl Hfl sqrt Hsqrt d r w0 inertia_factor dW
                step_multiplier rows w_new Hr).
  - intros allow_undo model' log EU Hundo Hrestart.
    destruct (UpdateMinimum_decides fl sqrt _ _ _ _ _ _ _ _ _ EU)
      as (reg & _ & _ & _ & Hrun).
    destruct (Hrun Hundo) as (_ & _ & s' & Es' & _ & Hkeep).
    assert (s' = s) by congruence. subst s'.
    destruct (Hkeep Hrestart) as (Hw & Hd & _). done.
  - intros Hsynced allow_undo Hno.
    destruct (UpdateMinimum_total fl sqrt mz r inertia_factor step_multiplier stats
                allow_undo model Hsizes Hsynced Hchecked) as (model' & log & EU).
    exists model', log. split; [done|].
    destruct (UpdateMinimum_decides fl sqrt _ _ _ _ _ _ _ _ _ EU)
      as (reg & Ereg & Hundo & _ & Hrun).
    assert (reg = reg_loss) by congruence. subst reg.
    rewrite Hno in Hundo. split; [done|].
    destruct (Hrun Hundo) as (_ & _ & s' & Es' & Hrestart & Hkeep).
    assert (s' = s) by congruence. subst s'. done.
Qed.

Lemma UpdateMinimum_coordinate_update_witness :
  exists s model' log,
    UpdateMinimum_coordinates no_rounding sqrt_approx majorizer_one_coordinate
      regularizations_l1_l2 (1 # 2) 1 stats_one_coordinate model_one_coordinate
      = Some s /\
    (exists w_new,
       cs_w s !! 0%nat = Some w_new /\
       cs_delta_w s !! 0%nat = Some (double_sub no_rounding w_new 1) /\
       (w_new ==
        coordinate_update_spec no_rounding 2 1 1 (1 # 2)
          (L1 no_rounding sqrt_approx regularizations_l1_l2 1 1 2)
          (L2 no_rounding sqrt_approx regularizations_l1_l2 1 2)
          (1 # 2) 1)%Q) /\
    UpdateMinimum no_rounding sqrt_approx majorizer_one_coordinate regularizations_l1_l2
      (1 # 2) 1 stats_one_coordinate false model_one_coordinate
      = Some (model', log) /\
    undo_iteration log = false /\
    restart_iteration log = false /\
    Model.w model' = cs_w s /\ Model.delta_w model' = cs_delta_w s /\
    Model.precision model' = cs_precision s.
Proof.
  destruct (UpdateMinimum_coordinate_update no_rounding sqrt_approx majorizer_one_coordinate
              regularizations_l1_l2 (1 # 2) 1 stats_one_coordinate
              model_one_coordinate)
    as (s & reg_loss & Es & Hformula & _ & Hreg & Hrun).
  - exact no_rounding_rounding.
  - exact sqrt_approx_nonneg.
  - repeat split; vm_compute; discriminate.
  - repeat split; vm_compute; first [reflexivity | discriminate | lia].
  - intros [|j] d w0 dW rows Hd Hw HdW Hrows; [|discriminate].
    inversion Hd; inversion Hw; inversion HdW; inversion Hrows; subst.
    split; vm_compute; by eexists.
  - destruct (Hrun eq_refl false eq_refl) as (model' & log & EU & Hundo & Hrestart & Hkeep).
    exists s, model', log. split; [exact Es|]. split.
    { apply (Hformula 0%nat (mkDim1Majorizer 2 1) 1%Q (1 # 2)%Q 1); reflexivity. }
    split; [exact EU|]. split; [exact Hundo|].
    assert (Hdot : Qgtb (cs_dot_loss_derivative_vs_delta_weight s) 0 = false).
    { vm_compute in Es. inversion Es. reflexivity. }
    rewrite Hdot in Hrestart. split; [exact Hrestart|]. by apply Hkeep.
Defined.

(** ** Sgd *)




Lemma skipped_total (s : Sgd.t) (model : Model.t) (j : nat) :
  (j < length (Model.creation_time model))%nat ->
  exists b, Sgd.skipped s model (N.of_nat j) = Some b.
Proof.
  intros Hj. unfold Sgd.skipped, Model.IsFeatureNew.
  destruct (Sgd.training_mode_ s); [by eexists|].
  rewrite vget_lookup. destruct (lookup_lt_is_Some_2 _ _ Hj) as [c ->]. simpl.
  by eexists.
Qed.

Lemma ApplyRegularization_spec (regularizations : Regularizations) (model : Model.t)
    (training_rows : N) (shard_count : nat) (s : Sgd.t) :
  length (Sgd.weights_ s) = length (Model.w model) ->
  length (Model.creation_time model) = length (Model.w model) ->
  exists weights,
    Sgd.ApplyRegularization regularizations model training_rows shard_count s =
      Some (Sgd.with_weights weights s) /\
    length weights = length (Sgd.weights_ s) /\
    forall j old_value, Sgd.weights_ s !! j = Some old_value ->
      (Sgd.skipped s model (N.of_nat j) = Some false ->
       weights !! j =
         Some (Sgd.regularize (l1 (regularization_ regularizations))
                 (l2 (regularization_ regularizations))
                 (Sgd.GetLearningRate s training_rows /
                  N_to_double (N.of_nat shard_count)) old_value)) /\
      (Sgd.skipped s model (N.of_nat j) = Some true ->
       weights !! j = Some old_value).
Proof.
  intros Hw Hc. unfold Sgd.ApplyRegularization.
  set (lr := (Sgd.GetLearningRate s training_rows / N_to_double (N.of_nat shard_count))%Q).
  set (n := length (Model.w model)) in *.
  destruct (for_range_total
    (fun i (ws : list Q) =>
       length ws = n /\
       (forall j, (i <= j)%nat -> ws !! j = Sgd.weights_ s !! j) /\
       (forall j old_value, (j < i)%nat -> Sgd.weights_ s !! j = Some old_value ->
          (Sgd.skipped s model (N.of_nat j) = Some false ->
           ws !! j = Some (Sgd.regularize (l1 (regularization_ regularizations))
                             (l2 (regularization_ regularizations)) lr old_value)) /\
          (Sgd.skipped s model (N.of_nat j) = Some true -> ws !! j = Some old_value)))
    n
    (Sgd.ApplyRegularization_step s model (l1 (regularization_ regularizations))
                                  (l2 (regularization_ regularizations)) lr)
    (Sgd.weights_ s)) as (ws & E & Hl & _ & Hdone).
  - split; [done|]. split; [done|]. intros; lia.
  - intros j ws Hj (Hl & Hrest & Hdone). unfold Sgd.ApplyRegularization_step.
    destruct (skipped_total s model j) as [b Hb]; [lia|]. rewrite Hb. simpl.
    destruct (lookup_lt_is_Some_2 (Sgd.weights_ s) j) as [old Hold]; [lia|].
    destruct b.
    + exists ws. split; [done|]. split; [done|]. split; [intros; apply Hrest; lia|].
      intros j' old' Hj' Hold'. destruct (decide (j' = j)) as [->|Hne].
      * split; [congruence|]. intros _. rewrite Hrest by lia. done.
      * apply Hdone; [lia|done].
    + rewrite Hrest, Hold by lia. simpl. rewrite vset_nat by lia.
      eexists. split; [done|]. rewrite length_insert. split; [done|]. split.
      * intros j' Hj'. rewrite list_lookup_insert_ne by lia. apply Hrest. lia.
      * intros j' old' Hj' Hold'. destruct (decide (j' = j)) as [->|Hne].
        -- rewrite list_lookup_insert_eq by lia. split; [|congruence].
           intros _. congruence.
        -- rewrite list_lookup_insert_ne by lia. apply Hdone; [lia|done].
  - exists ws. rewrite E. simpl. split; [done|]. split; [lia|].
    intros j old Hold. apply Hdone; [|done]. apply lookup_lt_Some in Hold. lia.
Qed.




(** ** World *)

(** [RenumberIndicies] gives a vector of [next_j] entries. *)
Lemma RenumberIndicies_loop_length {A} (r : JRenumbering.t) (v new_v new_v' : list A)
    (j : nat) :
  JRenumbering.RenumberIndicies_loop r v j new_v = Some new_v' ->
  length new_v' = length new_v.
Proof.
  revert j new_v. induction v as [|x v IH]; intros j new_v E; simpl in E.
  - by inversion E.
  - apply bind_Some in E as (new_j & _ & E).
    apply bind_Some in E as (nv & Env & E).
    apply IH in E. rewrite E.
    destruct (new_j =? kInvalidJ); [by inversion Env|by eapply vset_length].
Qed.

Lemma RenumberIndicies_length {A} (dflt : A) (r : JRenumbering.t) (v v' : list A) :
  JRenumbering.j_to_new_j r <> [] ->
  JRenumbering.RenumberIndicies dflt r v = Some v' ->
  length v' = N.to_nat (JRenumbering.next_j r).
Proof.
  intros Hne E. unfold JRenumbering.RenumberIndicies in E.
  destruct (JRenumbering.j_to_new_j r) eqn:Ej; [done|].
  apply RenumberIndicies_loop_length in E. by rewrite length_replicate in E.
Qed.

(** C6 fails on the code: [World::RemoveAndRenumber] renumbers the data, the
    batch optimizer with the model, and the product map, and leaves the SGD
    optimizer as it was.  In a world with two J's, removing J 0 leaves one J
    and a model of size 1, while the weights of SGD still have size 2, and
    the next SGD pass stops at its [CHECK] that the two sizes agree. *)
Lemma RemoveAndRenumber_leaves_sgd_unrenumbered :
  exists r w',
    JRenumbering.RemoveJs [true; false] = Some r /\
    JRenumbering.IsNoOp r = false /\
    World.RemoveAndRenumber r world_two_features = Some w' /\
    World.j_size_ w' = 1 /\
    length (Model.w (World.model_ w')) = 1%nat /\
    length (Majorizer.of_j_ (GradBoost.training_majorizer_ (World.optimizer_ w'))) = 1%nat /\
    FeatureMapBase.Size (World.product_map_ w') = 1 /\
    CsrMatrix.RowCount (Data.dependees_ (World.data_ w')) = 1 /\
    length (Sgd.weights_ (World.sgd_ w')) = 2%nat /\
    forall exp,
      Sgd.MakeOnePass exp (World.regularizations_ w') (World.data_ w')
                      (World.model_ w') (World.sgd_ w') = None.
Proof.
  eexists _, _. split; [vm_compute; reflexivity|].
  split; [vm_compute; reflexivity|].
  split; [vm_compute; reflexivity|].
  repeat split.
Qed.

(** ** The list priority queue meets the contract *)

Section ListQueue.
Context {A : Type} (less : A -> A -> bool).
Hypothesis less_irrefl : forall x, less x x = false.
Hypothesis less_trans : forall x y z, less x y = true -> less y z = true -> less x z = true.

Lemma list_top_None (l : list A) : list_top less l = None <-> l = [].
Proof.
  destruct l as [|x l]; simpl; [done|].
  destruct (list_top less l) as [m|]; [destruct (less m x)|]; done.
Qed.

Lemma list_top_greatest (l : list A) (x : A) :
  list_top less l = Some x ->
  x ∈ l /\ forall y, y ∈ l -> less x y = false.
Proof.
  revert x. induction l as [|x0 l IH]; intros x E; simpl in E; [done|].
  destruct (list_top less l) as [m|] eqn:Em.
  - destruct (IH m eq_refl) as [Hin Hmax].
    destruct (less m x0) eqn:Hlt; inversion E; subst x.
    + split; [apply elem_of_cons; by left|].
      intros y [->|Hy]%elem_of_cons; [done|].
      destruct (less x0 y) eqn:Hxy; [|done].
      rewrite <- (Hmax y Hy). symmetry. by eapply less_trans.
    + split; [apply elem_of_cons; by right|].
      intros y [->|Hy]%elem_of_cons; [done|by apply Hmax].
  - inversion E; subst x. apply list_top_None in Em. subst l.
    split; [apply elem_of_cons; by left|].
    intros y [->|Hy]%elem_of_cons; [done|by apply elem_of_nil in Hy].
Qed.

Lemma list_pop_elements (l : list A) (x : A) :
  list_top less l = Some x -> x :: list_pop less l ≡ₚ l.
Proof.
  revert x. induction l as [|x0 l IH]; intros x E; simpl in *; [done|].
  destruct (list_top less l) as [m|] eqn:Em.
  - destruct (less m x0) eqn:Hlt; inversion E; subst x; [done|].
    rewrite Permutation_swap. by rewrite (IH m eq_refl).
  - inversion E; subst x. apply list_top_None in Em. by subst l.
Qed.

Lemma list_pq_laws : PriorityQueueLaws less (list_pq less).
Proof.
  split; simpl.
  - done.
  - done.
  - apply list_top_None.
  - apply list_top_greatest.
  - apply list_pop_elements.
  - done.
Qed.

End ListQueue.

Lemma ext_gtb_irrefl (x : ExtDouble) : ext_gtb x x = false.
Proof.
  destruct x as [q|]; simpl; [|done].
  unfold Qgtb. apply Qltb_false. apply Qle_refl.
Qed.

Lemma ext_gtb_trans (x y z : ExtDouble) :
  ext_gtb x y = true -> ext_gtb y z = true -> ext_gtb x z = true.
Proof.
  destruct x as [a|], y as [b|], z as [c|]; simpl; try done.
  unfold Qgtb. rewrite !Qltb_true. intros. by apply Qlt_trans with b.
Qed.

Lemma ScoreComparator_queue_laws :
  PriorityQueueLaws FeaturePruning.ScoreComparator
                    (list_pq FeaturePruning.ScoreComparator).
Proof.
  apply list_pq_laws.
  - intros x. apply ext_gtb_irrefl.
  - intros x y z. apply ext_gtb_trans.
Qed.

(** ** FeaturePruning *)

Lemma count_removed_spec (removed_js : list bool) (children : list N) (k : N) :
  FeaturePruning.count_removed removed_js children = Some k ->
  (N.to_nat k <= length children)%nat /\
  (forall i, (i < N.to_nat k)%nat ->
     exists c, children !! i = Some c /\ vget removed_js c = Some true) /\
  ((N.to_nat k < length children)%nat ->
     exists c, children !! N.to_nat k = Some c /\ vget removed_js c = Some false).
Proof.
  revert k. induction children as [|c l IH]; intros k E; simpl in E.
  - inversion E; subst. simpl. split; [lia|]. split; intros; lia.
  - apply bind_Some in E as (b & Eb & E). destruct b.
    + apply bind_Some in E as (n & En & E). inversion E; subst k. clear E.
      destruct (IH n En) as (Hle & Hpre & Hnext).
      replace (N.to_nat (n + 1)) with (S (N.to_nat n)) by lia. simpl.
      split; [lia|]. split.
      * intros [|i] Hi; simpl; [by exists c|]. apply Hpre. lia.
      * intros Hlt. apply Hnext. lia.
    + inversion E; subst k. simpl. split; [lia|]. split; [intros; lia|].
      intros _. by exists c.
Qed.

Lemma slice_length {A} (v l : list A) (pos len : N) :
  slice v pos len = Some l -> (length l <= length v)%nat.
Proof.
  unfold slice. case_decide; [|done]. intros [= <-].
  rewrite length_take, length_drop. lia.
Qed.

Lemma GetRow_length (m : CsrMatrix.t) (j : N) (row : list N) :
  CsrMatrix.GetRow m j = Some row ->
  (length row <= length (CsrMatrix.contents_ m))%nat.
Proof.
  unfold CsrMatrix.GetRow. intros E.
  apply bind_Some in E as (b0 & _ & E). apply bind_Some in E as (b1 & _ & E).
  by eapply slice_length.
Qed.

(** After the inner loop the first [n0 + k] children are known to be
    removed, [n0] being the count recorded before. *)
Lemma counted_prefix dependees removed_js (num_removed_children : gmap N N) j
    children k :
  counted_children_removed dependees removed_js num_removed_children ->
  CsrMatrix.GetRow dependees j = Some children ->
  FeaturePruning.count_removed removed_js
    (drop (N.to_nat (default 0 (num_removed_children !! j))) children) = Some k ->
  let n0 := default 0 (num_removed_children !! j) in
  (N.to_nat (n0 + k) <= length children)%nat /\
  forall i, (i < N.to_nat (n0 + k))%nat ->
    exists c, children !! i = Some c /\ vget removed_js c = Some true.
Proof.
  intros Hcount Erow Ek n0. fold n0 in Ek.
  destruct (count_removed_spec _ _ _ Ek) as (Hkle & Hkpre & _).
  rewrite length_drop in Hkle.
  assert (Hn0 : forall i, (i < N.to_nat n0)%nat ->
            exists c, children !! i = Some c /\ vget removed_js c = Some true).
  { intros i Hlt. unfold n0 in Hlt.
    destruct (num_removed_children !! j) as [m|] eqn:Em; simpl in Hlt; [|lia].
    by eapply (Hcount j m children). }
  assert (Hle0 : (N.to_nat n0 <= length children)%nat).
  { destruct (decide (N.to_nat n0 <= length children)%nat) as [|Hgt]; [done|].
    destruct (Hn0 (length children)) as (c & Hc & _); [lia|].
    apply lookup_lt_Some in Hc. lia. }
  split; [lia|].
  intros i Hi. destruct (decide (i < N.to_nat n0)%nat) as [Hlt|Hge].
  - by apply Hn0.
  - destruct (Hkpre (i - N.to_nat n0)%nat) as (c & Hc & Hr); [lia|].
    rewrite lookup_drop in Hc. exists c. split; [|done].
    replace (N.to_nat n0 + (i - N.to_nat n0))%nat with i in Hc by lia. done.
Qed.

Section PruningFacts.
Variable P : PriorityQueue (ExtDouble * N).
Variable config : FeaturePruning.Config.
Variable j_to_score : list ExtDouble.
Variable data : Data.t.
Variable feature_count : nat.

Notation step := (FeaturePruning.step P config j_to_score data feature_count).
Notation State := (FeaturePruning.State P).

(** What one turn of the loop does when it does not stop. *)
Lemma step_Continue (s s' : State) :
  step s = Some (FeaturePruning.Continue P s') ->
  exists score j children k,
    pq_top P (FeaturePruning.js_queue P s) = Some (score, j) /\
    FeaturePruning.stops config feature_count
      (pq_size P (FeaturePruning.js_queue P s)) score = false /\
    CsrMatrix.GetRow (Data.dependees_ data) j = Some children /\
    FeaturePruning.count_removed (FeaturePruning.removed_js P s)
      (drop (N.to_nat (default 0 (FeaturePruning.num_removed_children P s !! j)))
            children) = Some k /\
    let n := to_uint32 (default 0 (FeaturePruning.num_removed_children P s !! j) + k) in
    FeaturePruning.num_removed_children P s' =
      <[j := n]> (FeaturePruning.num_removed_children P s) /\
    ((n < N.of_nat (length children) /\
      exists j_dependee,
        vget children n = Some j_dependee /\
        FeaturePruning.removed_js P s' = FeaturePruning.removed_js P s /\
        FeaturePruning.js_queue P s' = pq_pop P (FeaturePruning.js_queue P s) /\
        FeaturePruning.triggered_by P s' =
          <[j_dependee :=
              default [] (FeaturePruning.triggered_by P s !! j_dependee) ++ [j]]>
            (FeaturePruning.triggered_by P s)) \/
     (N.of_nat (length children) <= n /\
      vset (FeaturePruning.removed_js P s) j true =
        Some (FeaturePruning.removed_js P s') /\
      for_each (FeaturePruning.push_triggered P j_to_score)
        (default [] (FeaturePruning.triggered_by P s !! j))
        (pq_pop P (FeaturePruning.js_queue P s)) =
        Some (FeaturePruning.js_queue P s') /\
      FeaturePruning.triggered_by P s' =
        delete j (FeaturePruning.triggered_by P s))).
Proof.
  intros E. unfold FeaturePruning.step in E.
  destruct (pq_top P (FeaturePruning.js_queue P s)) as [[score j]|] eqn:Etop; [|done].
  destruct (FeaturePruning.stops _ _ _ _) eqn:Estop; [done|].
  apply bind_Some in E as (children & Erow & E).
  apply bind_Some in E as (k & Ek & E).
  exists score, j, children, k. split; [done|]. split; [done|]. split; [done|].
  split; [done|]. cbv zeta.
  destruct (_ <? _) eqn:Elt.
  - apply N.ltb_lt in Elt.
    apply bind_Some in E as (j_dependee & Ed & E). inversion E; subst s'; clear E.
    simpl. split; [done|]. left. split; [done|]. by exists j_dependee.
  - apply N.ltb_ge in Elt.
    apply bind_Some in E as (removed & Er & E).
    apply bind_Some in E as (xjbools & _ & E).
    apply bind_Some in E as (queue' & Eq & E). inversion E; subst s'; clear E.
    simpl. split; [done|]. right. done.
Qed.

(** The two invariants of the loop are kept by every turn. *)
Lemma step_invariant (s s' : State) :
  closed_under_dependees (Data.dependees_ data) (FeaturePruning.removed_js P s) ->
  counted_children_removed (Data.dependees_ data) (FeaturePruning.removed_js P s)
    (FeaturePruning.num_removed_children P s) ->
  step s = Some (FeaturePruning.Continue P s') ->
  closed_under_dependees (Data.dependees_ data) (FeaturePruning.removed_js P s') /\
  counted_children_removed (Data.dependees_ data) (FeaturePruning.removed_js P s')
    (FeaturePruning.num_removed_children P s').
Proof.
  intros Hclosed Hcount E.
  destruct (step_Continue s s' E) as (score & j & children & k & Etop & Estop & Erow &
    Ek & Hn & Hcases). cbv zeta in *.
  set (n0 := default 0 (FeaturePruning.num_removed_children P s !! j)) in *.
  destruct (count_removed_spec _ _ _ Ek) as (Hkle & Hkpre & Hknext).
  rewrite length_drop in Hkle.
  destruct (counted_prefix _ _ _ _ _ _ Hcount Erow Ek) as [_ Hfirst].
  fold n0 in Hfirst.
  assert (Hwrap : to_uint32 (n0 + k) <= n0 + k).
  { unfold to_uint32. apply N.Div0.mod_le. }
  assert (Hcount_j : forall removed,
            (forall c, vget (FeaturePruning.removed_js P s) c = Some true ->
                       vget removed c = Some true) ->
            counted_children_removed (Data.dependees_ data) removed
              (<[j := to_uint32 (n0 + k)]> (FeaturePruning.num_removed_children P s))).
  { intros removed Hmono j' n' children' Hl Hrow' i Hi.
    destruct (decide (j' = j)) as [->|Hne].
    - rewrite lookup_insert_eq in Hl. inversion Hl; subst n'.
      assert (children' = children) by congruence. subst children'.
      destruct (Hfirst i) as (c & Hc & Hr); [lia|]. exists c. split; [done|by apply Hmono].
    - rewrite lookup_insert_ne in Hl by done.
      destruct (Hcount j' n' children' Hl Hrow' i Hi) as (c & Hc & Hr).
      exists c. split; [done|by apply Hmono]. }
  rewrite Hn.
  destruct Hcases as [(Hlt & c & Hc & Hr & Hq & Ht)|(Hge & Hr & Hq & Ht)].
  - rewrite Hr. split; [done|]. by apply Hcount_j.
  - apply vset_inv in Hr as [Hj Hr]. rewrite Hr.
    assert (Hmono : forall c, vget (FeaturePruning.removed_js P s) c = Some true ->
              vget (<[N.to_nat j := true]> (FeaturePruning.removed_js P s)) c = Some true).
    { intros c Hc. unfold vget in *.
      destruct (decide (N.to_nat c = N.to_nat j)) as [->|Hne].
      - by rewrite list_lookup_insert_eq.
      - by rewrite list_lookup_insert_ne. }
    split; [|by apply Hcount_j].
    intros j' children' c Hrow' Hrem Hin.
    destruct (decide (j' = j)) as [->|Hne].
    + assert (children' = children) by congruence. subst children'.
      apply list_elem_of_lookup in Hin as [i Hi].
      destruct (Hfirst i) as (c' & Hc' & Hr'); [apply lookup_lt_Some in Hi; lia|].
      apply Hmono. congruence.
    + apply Hmono. eapply Hclosed; [done| |done].
      unfold vget in *. rewrite list_lookup_insert_ne in Hrem; [done|]. lia.
Qed.


(** The loop returns a state that it reaches turn by turn, and at which it
    breaks. *)
Lemma loop_run (fuel : nat) (s0 s : State) :
  FeaturePruning.loop P fuel config j_to_score data feature_count s0 = Some s ->
  FeaturePruning.run P config j_to_score data feature_count s0 s /\
  step s = Some (FeaturePruning.Break P).
Proof.
  revert s0. induction fuel as [|fuel IH]; intros s0 E; simpl in E; [done|].
  apply bind_Some in E as (c & Ec & E). destruct c as [|s1].
  - inversion E; subst s. split; [constructor|done].
  - destruct (IH s1 E) as [Hrun Hbreak]. split; [|done].
    clear -Hrun Ec. induction Hrun as [|s s' _ IHr E'].
    + econstructor; [constructor|done].
    + econstructor; [apply IHr|done].
Qed.

End PruningFacts.

Lemma initial_state_invariant P product_map model j_to_score data s0 :
  FeaturePruning.initial_state P product_map model j_to_score = Some s0 ->
  pruning_invariant P data s0.
Proof.
  unfold FeaturePruning.initial_state. intros E.
  apply bind_Some in E as (q & _ & E). inversion E; subst s0; clear E.
  split; simpl.
  - intros j children c _ Hj _. unfold vget in Hj.
    apply lookup_replicate in Hj as [? _]. done.
  - intros j n children Hl. by rewrite lookup_empty in Hl.
Qed.


(** ** The main loop of pruning returns *)

Lemma sum_list_with_le {A} (f g : A -> nat) (l : list A) :
  (forall x, x ∈ l -> (f x <= g x)%nat) ->
  (sum_list_with f l <= sum_list_with g l)%nat.
Proof.
  induction l as [|x l IH]; intros H; simpl; [done|].
  pose proof (H x (list_elem_of_here _ _)).
  assert (sum_list_with f l <= sum_list_with g l)%nat; [|lia].
  apply IH. intros y Hy. apply H. by apply list_elem_of_further.
Qed.

Lemma blocked_total_empty (w : N -> nat) : blocked_total w ∅ = 0%nat.
Proof. unfold blocked_total. by rewrite map_to_list_empty. Qed.

Lemma blocked_total_delete (w : N -> nat) (tb : gmap N (list N)) (j : N) :
  blocked_total w tb =
    (blocked_total w (delete j tb) + sum_list_with w (default [] (tb !! j)))%nat.
Proof.
  unfold blocked_total. destruct (tb !! j) as [l|] eqn:E; simpl.
  - rewrite <- (map_to_list_delete tb j l E). simpl. lia.
  - rewrite delete_id by done. lia.
Qed.

Lemma blocked_total_append (w : N -> nat) (tb : gmap N (list N)) (c j : N) :
  blocked_total w (<[c := default [] (tb !! c) ++ [j]]> tb) =
    (blocked_total w tb + w j)%nat.
Proof.
  rewrite (blocked_total_delete w tb c).
  rewrite <- (insert_delete_eq tb). unfold blocked_total at 1.
  rewrite map_to_list_insert by apply lookup_delete_eq. simpl.
  rewrite sum_list_with_app. simpl. unfold blocked_total. lia.
Qed.

Lemma blocked_total_le (w w' : N -> nat) (tb : gmap N (list N)) :
  (forall c l t, tb !! c = Some l -> t ∈ l -> (w' t <= w t)%nat) ->
  (blocked_total w' tb <= blocked_total w tb)%nat.
Proof.
  intros H. unfold blocked_total. apply sum_list_with_le.
  intros [c l] Hcl%elem_of_map_to_list. simpl.
  apply sum_list_with_le. intros t Ht. by apply (H c l).
Qed.

Lemma count_removed_total (removed_js : list bool) (children : list N) :
  (forall c, c ∈ children -> (N.to_nat c < length removed_js)%nat) ->
  is_Some (FeaturePruning.count_removed removed_js children).
Proof.
  induction children as [|c l IH]; intros H; simpl; [done|].
  destruct (lookup_lt_is_Some_2 removed_js (N.to_nat c)) as [b Hb].
  { apply H, list_elem_of_here. }
  unfold vget. rewrite Hb. cbn [mbind option_bind]. destruct b; [|done].
  destruct IH as [n Hn]; [intros; by apply H, list_elem_of_further|].
  rewrite Hn. done.
Qed.

Lemma count_removed_mono (removed_js removed_js' : list bool) (children : list N)
    (k : N) :
  (forall c, vget removed_js c = Some true -> vget removed_js' c = Some true) ->
  (forall c, c ∈ children -> (N.to_nat c < length removed_js')%nat) ->
  FeaturePruning.count_removed removed_js children = Some k ->
  exists k', FeaturePruning.count_removed removed_js' children = Some k' /\ k <= k'.
Proof.
  intros Hmono. revert k. induction children as [|c l IH]; intros k Hin E; simpl in *.
  { exists 0. split; [done|]. inversion E. lia. }
  apply bind_Some in E as (b & Hb & E). destruct b.
  - rewrite (Hmono c Hb). cbn [mbind option_bind].
    apply bind_Some in E as (n & Hn & E). inversion E; subst k.
    destruct (IH n) as (n' & Hn' & Hle); [intros; by apply Hin, list_elem_of_further|done|].
    rewrite Hn'. cbn [mbind option_bind]. exists (n' + 1). split; [done|lia].
  - inversion E; subst k.
    destruct (count_removed_total removed_js' (c :: l) Hin) as [k' Hk'].
    simpl in Hk'. exists k'. split; [done|lia].
Qed.

Lemma pruning_ready_inv (data : Data.t) (j_to_score : list ExtDouble) (size : nat)
    (j : N) :
  pruning_ready data j_to_score size j = true ->
  (N.to_nat j < size)%nat /\
  exists children xjbools score,
    CsrMatrix.GetRow (Data.dependees_ data) j = Some children /\
    Data.XjBoolCountOfJ data j = Some xjbools /\
    vget j_to_score j = Some score /\
    forall c, c ∈ children -> (N.to_nat c < size)%nat.
Proof.
  unfold pruning_ready. intros [Hj H]%andb_true_iff.
  apply Nat.ltb_lt in Hj. split; [done|].
  destruct (CsrMatrix.GetRow _ _) as [children|]; [|done].
  destruct (Data.XjBoolCountOfJ _ _) as [xj|]; [|done].
  destruct (vget j_to_score j) as [score|]; [|done].
  exists children, xj, score. repeat (split; [done|]).
  intros c Hc. rewrite forallb_forall in H.
  apply Nat.ltb_lt, H. by apply list_elem_of_In.
Qed.

Section PushTriggered.
Variable P : PriorityQueue (ExtDouble * N).
Hypothesis P_laws : PriorityQueueLaws FeaturePruning.ScoreComparator P.
Variable j_to_score : list ExtDouble.

Lemma push_triggered_total (l : list N) (q : pq_t P) :
  (forall t, t ∈ l -> is_Some (vget j_to_score t)) ->
  is_Some (for_each (FeaturePruning.push_triggered P j_to_score) l q).
Proof.
  revert q. induction l as [|t l IH]; intros q H; cbn [for_each]; [done|].
  destruct (H t (list_elem_of_here _ _)) as [score Hscore].
  assert (E : FeaturePruning.push_triggered P j_to_score t q =
              Some (pq_push P (score, t) q)).
  { unfold FeaturePruning.push_triggered. by rewrite Hscore. }
  rewrite E. cbn [mbind option_bind]. apply IH. intros t' Ht'. by apply H, list_elem_of_further.
Qed.

Lemma push_triggered_sum (w : N -> nat) (l : list N) (q q' : pq_t P) :
  for_each (FeaturePruning.push_triggered P j_to_score) l q = Some q' ->
  sum_list_with (fun e : ExtDouble * N => w e.2) (pq_elements P q') =
    (sum_list_with w l +
     sum_list_with (fun e : ExtDouble * N => w e.2) (pq_elements P q))%nat.
Proof.
  revert q. induction l as [|t l IH]; intros q E; simpl in E.
  { inversion E; subst q'. done. }
  apply bind_Some in E as (q1 & E1 & E). rewrite (IH q1 E).
  unfold FeaturePruning.push_triggered in E1.
  apply bind_Some in E1 as (score & _ & E1). inversion E1; subst q1.
  rewrite (pq_push_elements _ _ P_laws). simpl. lia.
Qed.

Lemma push_triggered_elem_of (l : list N) (q q' : pq_t P) (e : ExtDouble * N) :
  for_each (FeaturePruning.push_triggered P j_to_score) l q = Some q' ->
  e ∈ pq_elements P q' -> e ∈ pq_elements P q \/ e.2 ∈ l.
Proof.
  revert q. induction l as [|t l IH]; intros q E He; simpl in E.
  { inversion E; subst q'. by left. }
  apply bind_Some in E as (q1 & E1 & E).
  destruct (IH q1 E He) as [H1|Hl]; [|right; by apply list_elem_of_further].
  unfold FeaturePruning.push_triggered in E1.
  apply bind_Some in E1 as (score & _ & E1). inversion E1; subst q1.
  rewrite (pq_push_elements _ _ P_laws) in H1.
  apply elem_of_cons in H1 as [->|H1]; [right; apply list_elem_of_here|by left].
Qed.

End PushTriggered.

(** *** How the weights change in a turn *)

Section Weights.
Variable data : Data.t.

Lemma scan_end_eq removed_js (num_removed_children : gmap N N) j children k :
  CsrMatrix.GetRow (Data.dependees_ data) j = Some children ->
  FeaturePruning.count_removed removed_js
    (drop (N.to_nat (default 0 (num_removed_children !! j))) children) = Some k ->
  scan_end data removed_js num_removed_children j =
    (N.to_nat (default 0%N (num_removed_children !! j)) + N.to_nat k)%nat.
Proof.
  intros Erow Ek. unfold scan_end, children_of. rewrite Erow. simpl.
  by rewrite Ek.
Qed.

(** Deferring [j] at the child [c] leaves every weight in the queue as it
    was. *)
Lemma queue_weight_deferred removed_js (num_removed_children : gmap N N) j n c j' :
  children_of data j !! N.to_nat n = Some c ->
  vget removed_js c = Some false ->
  scan_end data removed_js num_removed_children j = N.to_nat n ->
  queue_weight data removed_js (<[j := n]> num_removed_children) j' =
    queue_weight data removed_js num_removed_children j'.
Proof.
  intros Hc Hr Hn. unfold queue_weight. f_equal. f_equal. f_equal.
  destruct (decide (j' = j)) as [->|Hne].
  - rewrite Hn. unfold scan_end. rewrite lookup_insert_eq. simpl.
    rewrite (drop_S _ _ _ Hc). simpl. rewrite Hr. simpl. lia.
  - unfold scan_end. by rewrite lookup_insert_ne.
Qed.

Lemma blocked_weight_insert_le (num_removed_children : gmap N N) j n t :
  default 0 (num_removed_children !! j) <= n ->
  (blocked_weight data (<[j := n]> num_removed_children) t <=
   blocked_weight data num_removed_children t)%nat.
Proof.
  intros Hn. unfold blocked_weight. destruct (decide (t = j)) as [->|Hne].
  - rewrite lookup_insert_eq. simpl. lia.
  - by rewrite lookup_insert_ne.
Qed.

Lemma queue_weight_pos removed_js num_removed_children j :
  (1 <= queue_weight data removed_js num_removed_children j)%nat.
Proof. unfold queue_weight. lia. Qed.

(** Removing [j], all of whose children have been counted, lowers the
    weights or leaves them. *)
Lemma queue_weight_removed removed_js (num_removed_children : gmap N N) j n j' :
  (length (children_of data j) <= N.to_nat n)%nat ->
  (N.to_nat j < length removed_js)%nat ->
  (forall c, c ∈ children_of data j' -> (N.to_nat c < length removed_js)%nat) ->
  (queue_weight data (<[N.to_nat j := true]> removed_js)
                (<[j := n]> num_removed_children) j' <=
   queue_weight data removed_js num_removed_children j')%nat.
Proof.
  intros Hn Hj Hin. unfold queue_weight.
  destruct (decide (j' = j)) as [->|Hne].
  - assert (length (children_of data j) <=
            scan_end data (<[N.to_nat j := true]> removed_js)
                     (<[j := n]> num_removed_children) j)%nat; [|lia].
    unfold scan_end. rewrite lookup_insert_eq. simpl. lia.
  - assert (scan_end data removed_js num_removed_children j' <=
            scan_end data (<[N.to_nat j := true]> removed_js)
                     (<[j := n]> num_removed_children) j')%nat; [|lia].
    unfold scan_end. rewrite lookup_insert_ne by done.
    set (n0 := N.to_nat (default 0 (num_removed_children !! j'))).
    destruct (count_removed_total removed_js (drop n0 (children_of data j')))
      as [k Hk].
    { intros c Hc. apply Hin. by eapply subseteq_drop. }
    destruct (count_removed_mono removed_js (<[N.to_nat j := true]> removed_js)
                (drop n0 (children_of data j')) k) as (k' & Hk' & Hle); [| |done|].
    + intros c Hc. unfold vget in *.
      destruct (decide (N.to_nat c = N.to_nat j)) as [->|Hcj].
      * by rewrite list_lookup_insert_eq.
      * by rewrite list_lookup_insert_ne.
    + intros c Hc. rewrite length_insert. apply Hin. by eapply subseteq_drop.
    + rewrite Hk, Hk'. simpl. lia.
Qed.

(** A J that waited at the child [j] passes it once [j] is removed. *)
Lemma queue_weight_unblocked removed_js (num_removed_children : gmap N N) j n t m :
  t <> j ->
  num_removed_children !! t = Some m ->
  children_of data t !! N.to_nat m = Some j ->
  (N.to_nat j < length removed_js)%nat ->
  (forall c, c ∈ children_of data t -> (N.to_nat c < length removed_js)%nat) ->
  (queue_weight data (<[N.to_nat j := true]> removed_js)
                (<[j := n]> num_removed_children) t <=
   blocked_weight data num_removed_children t)%nat.
Proof.
  intros Hne Hm Hc Hj Hin. unfold queue_weight, blocked_weight.
  pose proof (lookup_lt_Some _ _ _ Hc) as Hlt.
  assert (S (N.to_nat (default 0%N (num_removed_children !! t))) <=
          scan_end data (<[N.to_nat j := true]> removed_js)
                   (<[j := n]> num_removed_children) t)%nat as Hs;
    [|rewrite Hm in *; simpl in *; lia].
  unfold scan_end. rewrite lookup_insert_ne by done. rewrite Hm. simpl.
  rewrite (drop_S _ _ _ Hc). simpl.
  unfold vget at 1. rewrite list_lookup_insert_eq by done. cbn [mbind option_bind].
  destruct (count_removed_total (<[N.to_nat j := true]> removed_js)
              (drop (S (N.to_nat m)) (children_of data t))) as [r Hr].
  { intros c Hc'. rewrite length_insert. apply Hin. by eapply subseteq_drop. }
  rewrite Hr. simpl. lia.
Qed.

End Weights.

Section StepProgress.
Variable P : PriorityQueue (ExtDouble * N).
Hypothesis P_laws : PriorityQueueLaws FeaturePruning.ScoreComparator P.
Variable config : FeaturePruning.Config.
Variable j_to_score : list ExtDouble.
Variable data : Data.t.
Variable feature_count size : nat.
Hypothesis dependees_fit :
  N.of_nat (length (CsrMatrix.contents_ (Data.dependees_ data))) <= kInvalidJ.

Lemma pop_sum (w : ExtDouble * N -> nat) (q : pq_t P) (e : ExtDouble * N) :
  pq_top P q = Some e ->
  sum_list_with w (pq_elements P q) =
    (w e + sum_list_with w (pq_elements P (pq_pop P q)))%nat.
Proof. intros Etop. by rewrite <- (pq_pop_elements _ _ P_laws _ _ Etop). Qed.

Lemma pop_elem_of (q : pq_t P) (e x : ExtDouble * N) :
  pq_top P q = Some e -> x ∈ pq_elements P (pq_pop P q) -> x ∈ pq_elements P q.
Proof.
  intros Etop Hx. rewrite <- (pq_pop_elements _ _ P_laws _ _ Etop).
  by apply list_elem_of_further.
Qed.

(** A turn of the loop that defers [j]. *)
Lemma deferred_progress (s : FeaturePruning.State P) score j children k c :
  blocked_invariant P data j_to_score size s ->
  pq_top P (FeaturePruning.js_queue P s) = Some (score, j) ->
  CsrMatrix.GetRow (Data.dependees_ data) j = Some children ->
  FeaturePruning.count_removed (FeaturePruning.removed_js P s)
    (drop (N.to_nat (default 0 (FeaturePruning.num_removed_children P s !! j)))
          children) = Some k ->
  let n := default 0 (FeaturePruning.num_removed_children P s !! j) + k in
  children !! N.to_nat n = Some c ->
  vget (FeaturePruning.removed_js P s) c = Some false ->
  let s' := FeaturePruning.mkState P
              (pq_pop P (FeaturePruning.js_queue P s))
              (<[c := default [] (FeaturePruning.triggered_by P s !! c) ++ [j]]>
                 (FeaturePruning.triggered_by P s))
              (<[j := n]> (FeaturePruning.num_removed_children P s))
              (FeaturePruning.removed_js P s)
              (FeaturePruning.features_removed P s)
              (FeaturePruning.xjbools_removed P s) in
  blocked_invariant P data j_to_score size s' /\
  (potential P data s' < potential P data s)%nat.
Proof.
  intros (Hlen & Hq & Htb) Etop Erow Ek n Hc Hrc s'.
  destruct (pq_top_greatest _ _ P_laws _ _ Etop) as [Hin _].
  assert (Hchildren : children_of data j = children).
  { unfold children_of. by rewrite Erow. }
  assert (Hscan : scan_end data (FeaturePruning.removed_js P s)
                    (FeaturePruning.num_removed_children P s) j = N.to_nat n).
  { rewrite (scan_end_eq _ _ _ _ _ _ Erow Ek). unfold n. lia. }
  (* a J recorded in [triggered_by] is not moved by the scan *)
  assert (Hold : forall c' l t,
            FeaturePruning.triggered_by P s !! c' = Some l -> t ∈ l ->
            pruning_ready data j_to_score size t = true /\
            vget (FeaturePruning.removed_js P s) c' = Some false /\
            exists m, <[j := n]> (FeaturePruning.num_removed_children P s) !! t
                        = Some m /\
                      children_of data t !! N.to_nat m = Some c').
  { intros c' l t Hl Ht. destruct (Htb c' l t Hl Ht) as (Hr & Hrc' & m & Hm & Hcm).
    split; [done|]. split; [done|].
    destruct (decide (t = j)) as [->|Hne]; [|rewrite lookup_insert_ne by done; by exists m].
    rewrite lookup_insert_eq. exists n. split; [done|].
    rewrite Hchildren in Hcm. revert Ek. rewrite Hm. simpl.
    rewrite (drop_S _ _ _ Hcm). simpl. rewrite Hrc'. simpl. intros [= <-].
    unfold n. rewrite Hm. simpl. rewrite N.add_0_r. by rewrite Hchildren. }
  split.
  - split; [done|]. split.
    + simpl. intros e He. apply Hq. by eapply pop_elem_of.
    + simpl. intros c' l t Hl Ht.
      destruct (decide (c' = c)) as [->|Hne].
      * rewrite lookup_insert_eq in Hl. inversion Hl; subst l.
        apply elem_of_app in Ht as [Ht|Ht].
        -- destruct (FeaturePruning.triggered_by P s !! c) as [l0|] eqn:El0;
             simpl in Ht; [|by apply elem_of_nil in Ht].
           by apply (Hold c l0).
        -- apply list_elem_of_singleton in Ht. subst t.
           split; [by apply (Hq _ Hin)|]. split; [done|].
           exists n. rewrite lookup_insert_eq. split; [done|]. by rewrite Hchildren.
      * rewrite lookup_insert_ne in Hl by done. by apply (Hold c' l).
  - unfold potential, s'.
    cbn [FeaturePruning.js_queue FeaturePruning.triggered_by
         FeaturePruning.num_removed_children FeaturePruning.removed_js].
    rewrite blocked_total_append, (pop_sum _ _ _ Etop). cbn beta. cbn [snd].
    assert (Hqw : forall j',
              queue_weight data (FeaturePruning.removed_js P s)
                (<[j := n]> (FeaturePruning.num_removed_children P s)) j' =
              queue_weight data (FeaturePruning.removed_js P s)
                (FeaturePruning.num_removed_children P s) j').
    { intros j'. apply (queue_weight_deferred data _ _ j n c); [by rewrite Hchildren|done..]. }
    pose proof (sum_list_with_le
                  (fun e : ExtDouble * N =>
                     queue_weight data (FeaturePruning.removed_js P s)
                       (<[j := n]> (FeaturePruning.num_removed_children P s)) e.2)
                  (fun e : ExtDouble * N =>
                     queue_weight data (FeaturePruning.removed_js P s)
                       (FeaturePruning.num_removed_children P s) e.2)
                  (pq_elements P (pq_pop P (FeaturePruning.js_queue P s)))
                  (fun e _ => eq_ind_r (fun x => (x <= _)%nat) (le_n _) (Hqw e.2)))
      as Hsum.
    pose proof (blocked_total_le
                  (blocked_weight data (FeaturePruning.num_removed_children P s))
                  (blocked_weight data
                     (<[j := n]> (FeaturePruning.num_removed_children P s)))
                  (FeaturePruning.triggered_by P s)) as Hb.
    assert (Hn0 : default 0 (FeaturePruning.num_removed_children P s !! j) <= n)
      by (unfold n; lia).
    specialize (Hb (fun _ _ t _ _ => blocked_weight_insert_le data _ j n t Hn0)).
    assert (Hj : (blocked_weight data
                    (<[j := n]> (FeaturePruning.num_removed_children P s)) j <
                  queue_weight data (FeaturePruning.removed_js P s)
                    (FeaturePruning.num_removed_children P s) j)%nat).
    { unfold blocked_weight, queue_weight. rewrite lookup_insert_eq, Hscan. simpl. lia. }
    lia.
Qed.

(** A turn of the loop that removes [j]. *)
Lemma removed_progress (s : FeaturePruning.State P) score j children k queue'
    features xjbools :
  blocked_invariant P data j_to_score size s ->
  pq_top P (FeaturePruning.js_queue P s) = Some (score, j) ->
  CsrMatrix.GetRow (Data.dependees_ data) j = Some children ->
  FeaturePruning.count_removed (FeaturePruning.removed_js P s)
    (drop (N.to_nat (default 0 (FeaturePruning.num_removed_children P s !! j)))
          children) = Some k ->
  let n := default 0 (FeaturePruning.num_removed_children P s !! j) + k in
  (length children <= N.to_nat n)%nat ->
  for_each (FeaturePruning.push_triggered P j_to_score)
    (default [] (FeaturePruning.triggered_by P s !! j))
    (pq_pop P (FeaturePruning.js_queue P s)) = Some queue' ->
  let s' := FeaturePruning.mkState P queue'
              (delete j (FeaturePruning.triggered_by P s))
              (<[j := n]> (FeaturePruning.num_removed_children P s))
              (<[N.to_nat j := true]> (FeaturePruning.removed_js P s))
              features xjbools in
  blocked_invariant P data j_to_score size s' /\
  (potential P data s' < potential P data s)%nat.
Proof.
  intros (Hlen & Hq & Htb) Etop Erow Ek n Hn Epush s'.
  destruct (pq_top_greatest _ _ P_laws _ _ Etop) as [Hin _].
  destruct (pruning_ready_inv _ _ _ _ (Hq _ Hin)) as (Hj & _). simpl in Hj.
  assert (Hchildren : children_of data j = children).
  { unfold children_of. by rewrite Erow. }
  assert (Hrange : forall t, pruning_ready data j_to_score size t = true ->
            forall c, c ∈ children_of data t ->
              (N.to_nat c < length (FeaturePruning.removed_js P s))%nat).
  { intros t Ht c Hc.
    destruct (pruning_ready_inv _ _ _ _ Ht) as (_ & ch & _ & _ & Er & _ & _ & Hch).
    unfold children_of in Hc. rewrite Er in Hc. rewrite Hlen. by apply Hch. }
  (* [j] itself does not wait at any child *)
  assert (Hnot : forall c l, FeaturePruning.triggered_by P s !! c = Some l ->
            j ∈ l -> False).
  { intros c l Hl Ht. destruct (Htb c l j Hl Ht) as (_ & Hrc & m & Hm & Hcm).
    rewrite Hchildren in Hcm. pose proof (lookup_lt_Some _ _ _ Hcm) as Hlt.
    revert Ek. rewrite Hm. simpl. rewrite (drop_S _ _ _ Hcm). simpl.
    rewrite Hrc. simpl. intros [= <-]. unfold n in Hn. rewrite Hm in Hn.
    simpl in Hn. lia. }
  split.
  - split; [simpl; by rewrite length_insert|]. split.
    + simpl. intros e He.
      destruct (push_triggered_elem_of P P_laws j_to_score _ _ _ e Epush He)
        as [He'|He'].
      * apply Hq. by eapply pop_elem_of.
      * destruct (FeaturePruning.triggered_by P s !! j) as [l|] eqn:El;
          simpl in He'; [|by apply elem_of_nil in He'].
        by destruct (Htb j l e.2 El He').
    + simpl. intros c l t [Hcj Hl]%lookup_delete_Some Ht.
      destruct (Htb c l t Hl Ht) as (Hr & Hrc & m & Hm & Hcm).
      split; [done|]. split.
      * unfold vget in *. rewrite list_lookup_insert_ne; [done|]. lia.
      * exists m. split; [|done]. rewrite lookup_insert_ne; [done|].
        intros <-. by apply (Hnot c l).
  - unfold potential, s'.
    cbn [FeaturePruning.js_queue FeaturePruning.triggered_by
         FeaturePruning.num_removed_children FeaturePruning.removed_js].
    rewrite (push_triggered_sum P P_laws j_to_score
               (queue_weight data (<[N.to_nat j := true]> (FeaturePruning.removed_js P s))
                  (<[j := n]> (FeaturePruning.num_removed_children P s)))
               _ _ _ Epush).
    rewrite (pop_sum _ _ _ Etop). cbn beta. cbn [snd].
    rewrite (blocked_total_delete
               (blocked_weight data (FeaturePruning.num_removed_children P s))
               (FeaturePruning.triggered_by P s) j).
    pose proof (sum_list_with_le
                  (fun e : ExtDouble * N =>
                     queue_weight data
                       (<[N.to_nat j := true]> (FeaturePruning.removed_js P s))
                       (<[j := n]> (FeaturePruning.num_removed_children P s)) e.2)
                  (fun e : ExtDouble * N =>
                     queue_weight data (FeaturePruning.removed_js P s)
                       (FeaturePruning.num_removed_children P s) e.2)
                  (pq_elements P (pq_pop P (FeaturePruning.js_queue P s)))) as Ha.
    pose proof (blocked_total_le
                  (blocked_weight data (FeaturePruning.num_removed_children P s))
                  (blocked_weight data
                     (<[j := n]> (FeaturePruning.num_removed_children P s)))
                  (delete j (FeaturePruning.triggered_by P s))) as Hb.
    pose proof (sum_list_with_le
                  (queue_weight data
                     (<[N.to_nat j := true]> (FeaturePruning.removed_js P s))
                     (<[j := n]> (FeaturePruning.num_removed_children P s)))
                  (blocked_weight data (FeaturePruning.num_removed_children P s))
                  (default [] (FeaturePruning.triggered_by P s !! j))) as Hc.
    pose proof (queue_weight_pos data (FeaturePruning.removed_js P s)
                  (FeaturePruning.num_removed_children P s) j) as Hd.
    assert (Hn0 : default 0 (FeaturePruning.num_removed_children P s !! j) <= n)
      by (unfold n; lia).
    assert (Hjlen : (N.to_nat j < length (FeaturePruning.removed_js P s))%nat)
      by (by rewrite Hlen).
    lapply Ha; [clear Ha; intros Ha|].
    2: { intros e He. apply queue_weight_removed; [by rewrite Hchildren|done|].
         apply Hrange, Hq. by eapply pop_elem_of. }
    lapply Hb; [clear Hb; intros Hb|].
    2: { intros c l t _ _. by apply blocked_weight_insert_le. }
    lapply Hc; [clear Hc; intros Hc|].
    2: { intros t Ht.
         destruct (FeaturePruning.triggered_by P s !! j) as [l|] eqn:El;
           simpl in Ht; [|by apply elem_of_nil in Ht].
         destruct (Htb j l t El Ht) as (Hr & _ & m & Hm & Hcm).
         apply (queue_weight_unblocked data _ _ j n t m); [|done..|by apply Hrange].
         intros ->. by apply (Hnot j l). }
    lia.
Qed.

(** Every turn succeeds, and one that does not break keeps the invariant and
    lowers the measure. *)
Lemma step_progress (s : FeaturePruning.State P) :
  pruning_invariant P data s ->
  blocked_invariant P data j_to_score size s ->
  exists c,
    FeaturePruning.step P config j_to_score data feature_count s = Some c /\
    forall s', c = FeaturePruning.Continue P s' ->
      blocked_invariant P data j_to_score size s' /\
      (potential P data s' < potential P data s)%nat.
Proof.
  intros [_ Hcount] Hinv. pose proof Hinv as (Hlen & Hq & Htb).
  unfold FeaturePruning.step.
  destruct (pq_top P (FeaturePruning.js_queue P s)) as [[score j]|] eqn:Etop;
    [|eexists; split; [done|]; by intros s' [=]].
  destruct (FeaturePruning.stops _ _ _ _);
    [eexists; split; [done|]; by intros s' [=]|].
  destruct (pq_top_greatest _ _ P_laws _ _ Etop) as [Hin _].
  destruct (pruning_ready_inv _ _ _ _ (Hq _ Hin))
    as (Hj & children & xjbools & sc & Erow & Exj & Esc & Hch). simpl in *.
  rewrite Erow. cbn [mbind option_bind].
  destruct (count_removed_total (FeaturePruning.removed_js P s)
              (drop (N.to_nat (default 0
                       (FeaturePruning.num_removed_children P s !! j))) children))
    as [k Ek].
  { intros c Hc. rewrite Hlen. apply Hch. by eapply subseteq_drop. }
  rewrite Ek. cbn [mbind option_bind].
  destruct (counted_prefix _ _ _ _ _ _ Hcount Erow Ek) as [Hle _].
  destruct (count_removed_spec _ _ _ Ek) as (_ & _ & Hnext).
  rewrite length_drop in Hnext.
  set (n0 := default 0 (FeaturePruning.num_removed_children P s !! j)) in *.
  assert (Hsmall : to_uint32 (n0 + k) = n0 + k).
  { apply to_uint32_small. apply GetRow_length in Erow.
    unfold kInvalidJ, uint32_modulus in *. lia. }
  rewrite Hsmall.
  destruct (n0 + k <? N.of_nat (length children)) eqn:Hlt.
  - apply N.ltb_lt in Hlt. destruct Hnext as (c & Hc & Hrc); [lia|].
    rewrite lookup_drop in Hc.
    replace (N.to_nat n0 + N.to_nat k)%nat with (N.to_nat (n0 + k)) in Hc by lia.
    unfold vget at 1. rewrite Hc. cbn [mbind option_bind].
    eexists. split; [done|]. intros s' [= <-].
    by apply (deferred_progress s score j children k c).
  - apply N.ltb_ge in Hlt.
    rewrite vset_Some by (by rewrite Hlen). cbn [mbind option_bind].
    rewrite Exj. cbn [mbind option_bind].
    destruct (push_triggered_total P j_to_score
                (default [] (FeaturePruning.triggered_by P s !! j))
                (pq_pop P (FeaturePruning.js_queue P s))) as [queue' Epush].
    { intros t Ht.
      destruct (FeaturePruning.triggered_by P s !! j) as [l|] eqn:El;
        simpl in Ht; [|by apply elem_of_nil in Ht].
      destruct (Htb j l t El Ht) as (Hr & _).
      destruct (pruning_ready_inv _ _ _ _ Hr) as (_ & ? & ? & ? & _ & _ & -> & _).
      done. }
    rewrite Epush. cbn [mbind option_bind].
    eexists. split; [done|]. intros s' [= <-].
    apply (removed_progress s score j children k queue'); try done. fold n0. lia.
Qed.

(** With fuel above the measure the loop returns. *)
Lemma loop_total (fuel : nat) (s : FeaturePruning.State P) :
  pruning_invariant P data s ->
  blocked_invariant P data j_to_score size s ->
  (potential P data s < fuel)%nat ->
  is_Some (FeaturePruning.loop P fuel config j_to_score data feature_count s).
Proof.
  revert s. induction fuel as [|fuel IH]; intros s Hp Hb Hfuel; [lia|].
  simpl. destruct (step_progress s Hp Hb) as (c & Ec & Hc). rewrite Ec.
  cbn [mbind option_bind]. destruct c as [|s']; [done|].
  destruct (Hc s' eq_refl) as [Hb' Hlt].
  apply IH; [|done|lia].
  destruct Hp. by eapply step_invariant.
Qed.

End StepProgress.

Lemma sum_list_with_bound {A} (f : A -> nat) (l : list A) (b : nat) :
  (forall x, x ∈ l -> (f x <= b)%nat) -> (sum_list_with f l <= length l * b)%nat.
Proof.
  induction l as [|x l IH]; intros H; simpl; [done|].
  pose proof (H x (list_elem_of_here _ _)).
  assert (sum_list_with f l <= length l * b)%nat; [|lia].
  apply IH. intros y Hy. by apply H, list_elem_of_further.
Qed.

Lemma queue_weight_bound (data : Data.t) removed_js num_removed_children j :
  (queue_weight data removed_js num_removed_children j <=
   S (2 * length (CsrMatrix.contents_ (Data.dependees_ data))))%nat.
Proof.
  unfold queue_weight, children_of.
  destruct (CsrMatrix.GetRow (Data.dependees_ data) j) as [children|] eqn:E; simpl.
  - apply GetRow_length in E. lia.
  - lia.
Qed.

Lemma world_consistent_inv (world : World.t) (j_to_score : list ExtDouble) :
  world_consistent world j_to_score = true ->
  let size := N.to_nat (Model.GetSize (World.model_ world)) in
  N.of_nat (length (CsrMatrix.contents_ (Data.dependees_ (World.data_ world))))
    <= kInvalidJ /\
  FeatureMapBase.j_to_feature_synced_ (World.product_map_ world) = true /\
  (forall f, f ∈ FeatureMapBase.j_to_feature_ (World.product_map_ world) ->
     exists r, f = Some r /\
       pruning_ready (World.data_ world) j_to_score size (FeatureMapBase.GetJ r) = true).
Proof.
  unfold world_consistent. rewrite !andb_true_iff, !forallb_forall.
  intros [[[Hfit Hsync] Hall] Hready]. split; [by apply N.leb_le|].
  split; [done|]. intros f Hf. apply list_elem_of_In, Hall in Hf.
  destruct f as [r|]; [|done]. exists r. split; [done|].
  apply Nat.ltb_lt in Hf.
  rewrite <- (N2Nat.id (FeatureMapBase.GetJ r)). apply Hready.
  apply in_seq. lia.
Qed.

Lemma for_each_total {A S} (I : S -> Prop) (body : A -> S -> option S)
    (l : list A) (s : S) :
  I s ->
  (forall x s, x ∈ l -> I s -> exists s', body x s = Some s' /\ I s') ->
  exists s', for_each body l s = Some s' /\ I s'.
Proof.
  revert s. induction l as [|x l IH]; intros s Hs Hbody; simpl.
  - by exists s.
  - destruct (Hbody x s (list_elem_of_here _ _) Hs) as (s1 & E1 & H1).
    rewrite E1. cbn [mbind option_bind]. apply IH; [done|].
    intros y s2 Hy. apply Hbody. by apply list_elem_of_further.
Qed.

(** In a consistent world the loop starts from a state that satisfies the
    invariant, with a measure within the fuel. *)
Lemma initial_state_ready (P : PriorityQueue (ExtDouble * N)) (world : World.t)
    (j_to_score : list ExtDouble) :
  PriorityQueueLaws FeaturePruning.ScoreComparator P ->
  world_consistent world j_to_score = true ->
  exists s0,
    FeaturePruning.initial_state P (World.product_map_ world) (World.model_ world)
      j_to_score = Some s0 /\
    blocked_invariant P (World.data_ world) j_to_score
      (N.to_nat (Model.GetSize (World.model_ world))) s0 /\
    (potential P (World.data_ world) s0 <=
     pq_size P (FeaturePruning.js_queue P s0) *
     S (2 * length (CsrMatrix.contents_ (Data.dependees_ (World.data_ world)))))%nat.
Proof.
  intros HP Hw. destruct (world_consistent_inv _ _ Hw) as (_ & Hsync & Hall).
  set (size := N.to_nat (Model.GetSize (World.model_ world))) in *.
  set (data := World.data_ world) in *.
  unfold FeaturePruning.initial_state, FeaturePruning.initial_queue,
    FeatureMapBase.GetAll.
  rewrite Hsync. cbn [CHECK mbind option_bind].
  destruct (for_each_total
              (fun q : pq_t P => forall e, e ∈ pq_elements P q ->
                 pruning_ready data j_to_score size e.2 = true)
              (fun (f : option (FeatureMapBase.FeatureAndJ JProduct)) (q : pq_t P) =>
                 r ← f;
                 score ← vget j_to_score (FeatureMapBase.GetJ r);
                 Some (pq_push P (score, FeatureMapBase.GetJ r) q))
              (FeatureMapBase.j_to_feature_ (World.product_map_ world))
              (pq_new P))
    as (q & Eq & Hq); [| |rewrite Eq].
  - intros e He. rewrite (pq_new_elements _ _ HP) in He. by apply elem_of_nil in He.
  - intros f q Hf Hq. destruct (Hall f Hf) as (r & -> & Hr).
    destruct (pruning_ready_inv _ _ _ _ Hr) as (_ & ? & ? & score & _ & _ & Escore & _).
    cbn [mbind option_bind]. rewrite Escore. cbn [mbind option_bind].
    eexists. split; [done|]. intros e He.
    rewrite (pq_push_elements _ _ HP) in He.
    apply elem_of_cons in He as [->|He]; [done|by apply Hq].
  - cbn [mbind option_bind]. eexists. split; [done|]. split.
    + split; [simpl; by rewrite length_replicate|]. split; [done|].
      simpl. intros c l t Hl. by rewrite lookup_empty in Hl.
    + unfold potential. simpl. rewrite blocked_total_empty, Nat.add_0_r.
      rewrite (pq_size_elements _ _ HP). apply sum_list_with_bound.
      intros e _. apply queue_weight_bound.
Qed.

(** [ComputePruning] returns in every consistent world. *)
Lemma ComputePruning_returns (P : PriorityQueue (ExtDouble * N)) (world : World.t)
    (config : FeaturePruning.Config) (j_to_score : list ExtDouble) :
  PriorityQueueLaws FeaturePruning.ScoreComparator P ->
  world_consistent world j_to_score = true ->
  is_Some (FeaturePruning.ComputePruning P world config j_to_score).
Proof.
  intros HP Hw. destruct (initial_state_ready P world j_to_score HP Hw)
    as (s0 & E0 & Hb & Hpot).
  destruct (world_consistent_inv _ _ Hw) as (Hfit & _).
  unfold FeaturePruning.ComputePruning. rewrite E0. cbn [mbind option_bind].
  destruct (loop_total P HP config j_to_score (World.data_ world)
              (pq_size P (FeaturePruning.js_queue P s0))
              (N.to_nat (Model.GetSize (World.model_ world))) Hfit
              (FeaturePruning.ComputePruning_fuel (World.data_ world)
                 (pq_size P (FeaturePruning.js_queue P s0))) s0) as [s Es].
  - by eapply initial_state_invariant.
  - done.
  - unfold FeaturePruning.ComputePruning_fuel. lia.
  - rewrite Es. done.
Qed.



Lemma for_each_invariant {A S} (I : S -> Prop) (body : A -> S -> option S)
    (l : list A) (s s' : S) :
  I s ->
  (forall x s s', x ∈ l -> I s -> body x s = Some s' -> I s') ->
  for_each body l s = Some s' -> I s'.
Proof.
  revert s. induction l as [|x l IH]; intros s Hs Hbody E; simpl in E.
  - by inversion E; subst.
  - apply bind_Some in E as (s1 & E1 & E). apply (IH s1); [|intros; eapply Hbody|done].
    + eapply Hbody; [|done..]. apply elem_of_cons; by left.
    + apply elem_of_cons; by right.
    + done.
    + done.
Qed.

Lemma stops_false config feature_count queue_size score thr :
  FeaturePruning.score_threshold config = Some thr ->
  FeaturePruning.stops config feature_count queue_size score = false ->
  exists sc, score = Finite sc /\ (sc <= thr)%Q.
Proof.
  unfold FeaturePruning.stops. intros ->. rewrite !orb_false_iff.
  intros [[[Hinf Hthr] _] _]. destruct score as [sc|]; [|done].
  exists sc. split; [done|]. simpl in Hthr. unfold Qgtb in Hthr.
  by apply Qltb_false in Hthr.
Qed.

Section ThresholdFacts.
Variable P : PriorityQueue (ExtDouble * N).
Hypothesis P_laws : PriorityQueueLaws FeaturePruning.ScoreComparator P.
Variable config : FeaturePruning.Config.
Variable j_to_score : list ExtDouble.
Variable data : Data.t.
Variable feature_count : nat.
Variable thr : Q.
Hypothesis config_thr : FeaturePruning.score_threshold config = Some thr.

(** Every entry of the queue carries the score of its J. *)
Local Notation scored q :=
  (forall score j, (score, j) ∈ pq_elements P q -> vget j_to_score j = Some score).

(** Every removed J has a finite score that is at most the threshold. *)
Local Notation below removed :=
  (forall j, vget removed j = Some true ->
     exists sc, vget j_to_score j = Some (Finite sc) /\ (sc <= thr)%Q).

Lemma pop_scored q x : pq_top P q = Some x -> scored q -> scored (pq_pop P q).
Proof.
  intros Etop Hq score j Hin. apply Hq.
  rewrite <- (pq_pop_elements _ _ P_laws q x Etop). apply elem_of_cons. by right.
Qed.

Lemma push_triggered_scored l q q' :
  scored q ->
  for_each (FeaturePruning.push_triggered P j_to_score) l q = Some q' ->
  scored q'.
Proof.
  intros Hq. apply (for_each_invariant (fun q => scored q)); [done|].
  intros t q1 q2 _ Hq1 E score j Hin.
  unfold FeaturePruning.push_triggered in E.
  apply bind_Some in E as (sc & Esc & E). inversion E; subst q2; clear E.
  rewrite (pq_push_elements _ _ P_laws) in Hin.
  apply elem_of_cons in Hin as [[= -> ->]|Hin]; [done|by apply Hq1].
Qed.

Lemma step_threshold_invariant (s s' : FeaturePruning.State P) :
  scored (FeaturePruning.js_queue P s) ->
  below (FeaturePruning.removed_js P s) ->
  FeaturePruning.step P config j_to_score data feature_count s =
    Some (FeaturePruning.Continue P s') ->
  scored (FeaturePruning.js_queue P s') /\ below (FeaturePruning.removed_js P s').
Proof.
  intros Hq Hr E.
  destruct (step_Continue _ _ _ _ _ _ _ E) as (score & j & children & k & Etop &
    Estop & _ & _ & _ & Hcases). cbv zeta in Hcases.
  destruct Hcases as [(_ & c & _ & Er & Eq & _)|(_ & Er & Eq & _)].
  - rewrite Er, Eq. split; [by eapply pop_scored|done].
  - split.
    + eapply push_triggered_scored; [|done]. by eapply pop_scored.
    + apply vset_inv in Er as [_ Er]. rewrite Er. intros j' Hj'.
      destruct (decide (N.to_nat j' = N.to_nat j)) as [Heq|Hne].
      * assert (j' = j) by lia. subst j'.
        destruct (stops_false _ _ _ _ _ config_thr Estop) as (sc & -> & Hle).
        exists sc. split; [|done]. apply Hq.
        by apply (pq_top_greatest _ _ P_laws).
      * apply Hr. unfold vget in *. by rewrite list_lookup_insert_ne in Hj'.
Qed.

Lemma run_threshold_invariant (s0 s : FeaturePruning.State P) :
  scored (FeaturePruning.js_queue P s0) ->
  below (FeaturePruning.removed_js P s0) ->
  FeaturePruning.run P config j_to_score data feature_count s0 s ->
  scored (FeaturePruning.js_queue P s) /\ below (FeaturePruning.removed_js P s).
Proof.
  intros Hq Hr Hrun. induction Hrun as [|s s' _ [IHq IHr] E]; [done|].
  by eapply step_threshold_invariant.
Qed.

Lemma initial_state_threshold product_map model (s0 : FeaturePruning.State P) :
  FeaturePruning.initial_state P product_map model j_to_score = Some s0 ->
  scored (FeaturePruning.js_queue P s0) /\ below (FeaturePruning.removed_js P s0).
Proof.
  unfold FeaturePruning.initial_state. intros E.
  apply bind_Some in E as (q & Eq & E). inversion E; subst s0; clear E. simpl.
  split.
  - unfold FeaturePruning.initial_queue in Eq.
    apply bind_Some in Eq as (all & _ & Eq). revert Eq.
    apply (for_each_invariant (fun q => scored q)).
    + intros score j Hin. rewrite (pq_new_elements _ _ P_laws) in Hin.
      by apply elem_of_nil in Hin.
    + intros f q1 q2 _ Hq E score j Hin.
      apply bind_Some in E as (r & -> & E). apply bind_Some in E as (sc & Esc & E).
      inversion E; subst q2; clear E.
      rewrite (pq_push_elements _ _ P_laws) in Hin.
      apply elem_of_cons in Hin as [[= -> ->]|Hin]; [done|by apply Hq].
  - intros j Hj. unfold vget in Hj. apply lookup_replicate in Hj as [? _]. done.
Qed.

End ThresholdFacts.

(** C7, as the code has it.  With a [score_threshold] configured and a queue
    that meets the contract of [std::priority_queue]:
    - the top of the queue carries the lowest remaining score;
    - the loop breaks as soon as that score is greater than the threshold;
    - a top score equal to the threshold, or below it, does not make the
      threshold test fire: with no other stopping condition configured the
      loop does not break;
    - every removed J has a finite score that is at most the threshold, and
      so a J whose score equals the threshold can be removed;
    - in a consistent world [ComputePruning] does return. *)
Theorem ComputePruning_score_threshold (P : PriorityQueue (ExtDouble * N))
    (world : World.t) (config : FeaturePruning.Config)
    (j_to_score : list ExtDouble) (thr : Q) :
  PriorityQueueLaws FeaturePruning.ScoreComparator P ->
  FeaturePruning.score_threshold config = Some thr ->
  let data := World.data_ world in
  (forall (s : FeaturePruning.State P) score j,
     pq_top P (FeaturePruning.js_queue P s) = Some (score, j) ->
     forall score' j',
       (score', j') ∈ pq_elements P (FeaturePruning.js_queue P s) ->
       ext_gtb score score' = false) /\
  (forall feature_count (s : FeaturePruning.State P) score j,
     pq_top P (FeaturePruning.js_queue P s) = Some (score, j) ->
     ext_gtb score (Finite thr) = true ->
     FeaturePruning.step P config j_to_score data feature_count s =
       Some (FeaturePruning.Break P)) /\
  (forall feature_count (s : FeaturePruning.State P) sc j,
     pq_top P (FeaturePruning.js_queue P s) = Some (Finite sc, j) ->
     (sc <= thr)%Q ->
     FeaturePruning.top_count config = None ->
     FeaturePruning.top_fraction config = None ->
     FeaturePruning.step P config j_to_score data feature_count s <>
       Some (FeaturePruning.Break P)) /\
  (forall removed_js,
     FeaturePruning.ComputePruning P world config j_to_score = Some removed_js ->
     forall j, vget removed_js j = Some true ->
       exists sc, vget j_to_score j = Some (Finite sc) /\ (sc <= thr)%Q) /\
  (world_consistent world j_to_score = true ->
   is_Some (FeaturePruning.ComputePruning P world config j_to_score)).
Proof.
  intros HP Hthr data. split; [|split; [|split; [|split]]];
    [| | | |by apply ComputePruning_returns].
  - intros s score j Etop score' j' Hin.
    destruct (pq_top_greatest _ _ HP _ _ Etop) as [_ Hmin].
    by apply (Hmin (score', j')).
  - intros feature_count s score j Etop Hgt.
    unfold FeaturePruning.step. rewrite Etop.
    unfold FeaturePruning.stops. rewrite Hthr, Hgt.
    by rewrite orb_true_r.
  - intros feature_count s sc j Etop Hle Hcount Hfraction E.
    unfold FeaturePruning.step in E. rewrite Etop in E.
    unfold FeaturePruning.stops in E. rewrite Hthr, Hcount, Hfraction in E.
    simpl in E. unfold Qgtb in E.
    apply Qltb_false in Hle. rewrite Hle in E. simpl in E.
    apply bind_Some in E as (children & _ & E).
    apply bind_Some in E as (k & _ & E).
    destruct (_ <? _).
    + by apply bind_Some in E as (? & _ & E).
    + apply bind_Some in E as (? & _ & E). apply bind_Some in E as (? & _ & E).
      by apply bind_Some in E as (? & _ & E).
  - intros removed_js E. unfold FeaturePruning.ComputePruning in E.
    apply bind_Some in E as (s0 & E0 & E). apply bind_Some in E as (s & El & E).
    inversion E; subst removed_js; clear E.
    apply loop_run in El as [Hrun _].
    destruct (initial_state_threshold P HP j_to_score thr _ _ _ E0) as [Hq Hr].
    by destruct (run_threshold_invariant P HP _ _ _ _ _ Hthr _ _ Hq Hr Hrun).
Qed.

Lemma ComputePruning_score_threshold_witness :
  FeaturePruning.score_threshold config_threshold_one = Some 1%Q /\
  FeaturePruning.ComputePruning (list_pq FeaturePruning.ScoreComparator)
    world_one_feature config_threshold_one [Finite 1] = Some [true] /\
  exists sc, vget [Finite 1] 0 = Some (Finite sc) /\ (sc <= 1)%Q.
Proof.
  split; [reflexivity|]. split; [reflexivity|].
  destruct (ComputePruning_score_threshold (list_pq FeaturePruning.ScoreComparator)
              world_one_feature config_threshold_one [Finite 1] 1%Q
              ScoreComparator_queue_laws eq_refl) as (_ & _ & _ & H & _).
  apply (H [true]); reflexivity.
Defined.

(** C7 as stated does not hold: with threshold 1 and no other stopping
    condition, the only J, whose score is exactly 1, is removed. *)
Lemma ComputePruning_removes_score_equal_to_threshold :
  ~ (forall (P : PriorityQueue (ExtDouble * N)) world config j_to_score thr
            removed_js j,
       PriorityQueueLaws FeaturePruning.ScoreComparator P ->
       FeaturePruning.score_threshold config = Some thr ->
       FeaturePruning.ComputePruning P world config j_to_score = Some removed_js ->
       vget j_to_score j = Some (Finite thr) ->
       vget removed_js j <> Some true).
Proof.
  intros H.
  apply (H (list_pq FeaturePruning.ScoreComparator) world_one_feature
           config_threshold_one [Finite 1] 1%Q [true] 0
           ScoreComparator_queue_laws); reflexivity.
Qed.

(** ** PrioritySumIterator *)




Section PsiFacts.
Context {T : Type}.
Variable P : PriorityQueue (Q * (N * N)).
Hypothesis P_laws : PriorityQueueLaws PrioritySumIterator.entry_less P.
Variable v : list (Q * T).
Hypothesis v_sorted : forall r c a b,
  (r < c)%nat -> v !! r = Some a -> v !! c = Some b -> (b.1 <= a.1)%Q.
Hypothesis v_fits : N.of_nat (length v) <= kInvalidJ.




End PsiFacts.

(** ** FeatureExploration *)







Section ExplorationFacts.
Variable P : PriorityQueue (Q * (N * N)).
Hypothesis P_laws : PriorityQueueLaws PrioritySumIterator.entry_less P.
Variable j_to_score : list Q.
Variable v : list (Q * N).
Hypothesis v_sorted : forall r c a b,
  (r < c)%nat -> v !! r = Some a -> v !! c = Some b -> (b.1 <= a.1)%Q.
Hypothesis v_fits : N.of_nat (length v) <= kInvalidJ.
Hypothesis v_scores : forall x, x ∈ v -> vget j_to_score x.2 = Some x.1.
Hypothesis v_distinct : NoDup v.*2.


End ExplorationFacts.

Lemma index_pair_less_irrefl (a : N * N) : PrioritySumIterator.index_pair_less a a = false.
Proof.
  unfold PrioritySumIterator.index_pair_less.
  rewrite !N.ltb_irrefl. done.
Qed.

Lemma index_pair_less_trans (a b c : N * N) :
  PrioritySumIterator.index_pair_less a b = true ->
  PrioritySumIterator.index_pair_less b c = true ->
  PrioritySumIterator.index_pair_less a c = true.
Proof.
  unfold PrioritySumIterator.index_pair_less.
  rewrite !orb_true_iff, !andb_true_iff, !negb_true_iff, !N.ltb_lt, !N.ltb_ge. lia.
Qed.

Lemma entry_less_irrefl (a : Q * (N * N)) : PrioritySumIterator.entry_less a a = false.
Proof.
  unfold PrioritySumIterator.entry_less.
  rewrite index_pair_less_irrefl, andb_false_r, orb_false_r.
  apply Qltb_false, Qle_refl.
Qed.

Lemma entry_less_trans (a b c : Q * (N * N)) :
  PrioritySumIterator.entry_less a b = true ->
  PrioritySumIterator.entry_less b c = true ->
  PrioritySumIterator.entry_less a c = true.
Proof.
  unfold PrioritySumIterator.entry_less.
  rewrite !orb_true_iff, !andb_true_iff, !negb_true_iff, !Qltb_true, !Qltb_false.
  intros [Hab|[Hab Iab]] [Hbc|[Hbc Ibc]].
  - left. by apply Qlt_trans with b.1.
  - left. by apply Qlt_le_trans with b.1.
  - left. by apply Qle_lt_trans with b.1.
  - destruct (Qlt_le_dec a.1 c.1) as [Hlt|Hle]; [by left|]. right.
    split; [by apply Qle_trans with b.1|by eapply index_pair_less_trans].
Qed.

Lemma entry_less_queue_laws :
  PriorityQueueLaws PrioritySumIterator.entry_less
                    (list_pq PrioritySumIterator.entry_less).
Proof. apply list_pq_laws; [apply entry_less_irrefl|apply entry_less_trans]. Qed.




(** ** JRenumbering: what the renumbering does to a vector *)

Lemma kept_entries_app {A} (bs1 bs2 : list bool) (v1 v2 : list A) :
  length v1 = length bs1 ->
  kept_entries (bs1 ++ bs2) (v1 ++ v2) = kept_entries bs1 v1 ++ kept_entries bs2 v2.
Proof.
  revert v1. induction bs1 as [|b bs1 IH]; intros [|x v1] H; simpl in *; try done.
  destruct b; simpl; [|f_equal]; apply IH; lia.
Qed.

Lemma kept_entries_length {A} (bs : list bool) (v : list A) :
  length v = length bs -> N.of_nat (length (kept_entries bs v)) = count_kept bs.
Proof.
  revert v. induction bs as [|b bs IH]; intros [|x v] H; simpl in *; try done.
  destruct b; simpl; [rewrite IH by lia; lia|].
  rewrite <- IH with (v := v) by lia. lia.
Qed.

(** The entry at [n] of the kept entries is the entry of the J that has [n]
    kept J's before it. *)
Lemma kept_entries_lookup {A} (bs : list bool) (v : list A) (n : nat) (x : A) :
  length v = length bs ->
  kept_entries bs v !! n = Some x <->
  exists j, bs !! j = Some false /\ v !! j = Some x /\
            count_kept (take j bs) = N.of_nat n.
Proof.
  revert v n. induction bs as [|b bs IH]; intros [|y v] n H; simpl in *; try done.
  - split; [done|]. by intros (j & ? & _).
  - assert (Hl : length v = length bs) by lia. destruct b.
    + rewrite (IH v n Hl). split.
      * intros (j & Hb & Hv & Hc). exists (S j). simpl. done.
      * intros ([|j] & Hb & Hv & Hc); simpl in *; [done|]. by exists j.
    + destruct n as [|n]; simpl.
      * split.
        -- intros [= <-]. exists 0%nat. done.
        -- intros ([|j] & Hb & Hv & Hc); simpl in *; [done|lia].
      * rewrite (IH v n Hl). split.
        -- intros (j & Hb & Hv & Hc). exists (S j). simpl.
           split; [done|]. split; [done|]. lia.
        -- intros ([|j] & Hb & Hv & Hc); simpl in *; [lia|].
           exists j. split; [done|]. split; [done|]. lia.
Qed.

Section Renumbered.
Variable js_to_remove : list bool.
Variable r : JRenumbering.t.
Hypothesis fits : N.of_nat (length js_to_remove) <= kInvalidJ.
Hypothesis built : JRenumbering.RemoveJs js_to_remove = Some r.

Lemma built_spec :
  JRenumbering.next_j r = count_kept js_to_remove /\
  length (JRenumbering.j_to_new_j r) = length js_to_remove /\
  forall j b, js_to_remove !! j = Some b ->
    JRenumbering.j_to_new_j r !! j =
      Some (if b : bool then kInvalidJ else count_kept (take j js_to_remove)).
Proof.
  destruct (RemoveJs_spec js_to_remove fits) as (r' & E & H).
  rewrite built in E. by inversion E; subst.
Qed.

(** The loop of [RenumberIndicies] from index [length bs1] on. *)
Lemma RenumberIndicies_loop_kept {A} (dflt : A) (bs1 bs2 : list bool)
    (v1 v2 : list A) :
  js_to_remove = bs1 ++ bs2 ->
  length v1 = length bs1 ->
  length v2 = length bs2 ->
  JRenumbering.RenumberIndicies_loop r v2 (length bs1)
    (kept_entries bs1 v1 ++ replicate (N.to_nat (count_kept bs2)) dflt) =
  Some (kept_entries bs1 v1 ++ kept_entries bs2 v2).
Proof.
  destruct built_spec as (_ & _ & Hv).
  revert bs1 v1 v2. induction bs2 as [|b bs2 IH]; intros bs1 v1 [|x v2] Hbs H1 H2;
    simpl in H2; try done.
  assert (Hb : js_to_remove !! length bs1 = Some b).
  { rewrite Hbs. by rewrite list_lookup_middle. }
  assert (Htake : take (length bs1) js_to_remove = bs1).
  { rewrite Hbs. by rewrite take_app_length. }
  cbn [JRenumbering.RenumberIndicies_loop]. rewrite (Hv _ _ Hb).
  cbn [mbind option_bind].
  assert (E2 : length (bs1 ++ [b]) = S (length bs1))
    by (rewrite length_app; simpl; lia).
  assert (Hbs' : js_to_remove = (bs1 ++ [b]) ++ bs2) by (by rewrite Hbs, <- app_assoc).
  assert (H1' : length (v1 ++ [x]) = length (bs1 ++ [b]))
    by (rewrite !length_app; simpl; lia).
  assert (H2' : length v2 = length bs2) by lia.
  pose proof (IH (bs1 ++ [b]) (v1 ++ [x]) v2 Hbs' H1' H2') as IH'.
  rewrite E2, kept_entries_app in IH' by done.
  destruct b; cbn [kept_entries count_kept] in *.
  - rewrite app_nil_r in IH'. rewrite N.eqb_refl. cbn [mbind option_bind].
    rewrite N.add_0_l. exact IH'.
  - rewrite Htake.
    pose proof (count_kept_le_length js_to_remove) as Hle.
    assert (Hlt : count_kept bs1 < count_kept js_to_remove).
    { rewrite Hbs, count_kept_app. simpl. lia. }
    assert (Hne : (count_kept bs1 =? kInvalidJ) = false) by (apply N.eqb_neq; lia).
    rewrite Hne. pose proof (kept_entries_length bs1 v1 H1) as Hk.
    rewrite vset_Some; last first.
    { rewrite length_app, length_replicate. lia. }
    cbn [mbind option_bind].
    replace (N.to_nat (count_kept bs1)) with (length (kept_entries bs1 v1) + 0)%nat
      by lia.
    rewrite insert_app_r.
    replace (N.to_nat (1 + count_kept bs2)) with (S (N.to_nat (count_kept bs2)))
      by lia.
    cbn [replicate list_insert insert].
    rewrite <- !app_assoc in IH'. simpl in IH'.
    rewrite cons_middle, app_assoc in IH'.
    rewrite cons_middle, app_assoc. exact IH'.
Qed.

End Renumbered.
Lemma RenumberIndicies_kept {A : Type} (dflt : A)
    (js_to_remove : list bool) (r : JRenumbering.t) (v : list A) :
  N.of_nat (length js_to_remove) <= kInvalidJ ->
  JRenumbering.RemoveJs js_to_remove = Some r ->
  length v = length js_to_remove ->
  JRenumbering.RenumberIndicies dflt r v = Some (kept_entries js_to_remove v).
Proof.
  intros Hfit Hr Hlen.
  destruct (built_spec js_to_remove r Hfit Hr) as (Hn & Hl & _).
  unfold JRenumbering.RenumberIndicies.
  destruct (JRenumbering.j_to_new_j r) as [|n0 rest] eqn:E.
  - simpl in Hl. destruct js_to_remove; [|done]. by destruct v.
  - rewrite Hn.
    apply (RenumberIndicies_loop_kept js_to_remove r Hfit Hr dflt [] js_to_remove [] v);
      done.
Qed.

(** [RenumberIndicies] with the renumbering that [RemoveJs] builds returns
    the entries of the kept J's, in their order: the entry of a kept J is at
    its new index, and no other entry is left. *)
Theorem RenumberIndicies_kept_entries {A : Type} (dflt : A)
    (js_to_remove : list bool) (r : JRenumbering.t) (v : list A) :
  N.of_nat (length js_to_remove) <= kInvalidJ ->
  JRenumbering.RemoveJs js_to_remove = Some r ->
  length v = length js_to_remove ->
  JRenumbering.RenumberIndicies dflt r v = Some (kept_entries js_to_remove v) /\
  N.of_nat (length (kept_entries js_to_remove v)) = JRenumbering.next_j r /\
  (forall j n,
     js_to_remove !! j = Some false ->
     JRenumbering.j_to_new_j r !! j = Some n ->
     kept_entries js_to_remove v !! N.to_nat n = v !! j).
Proof.
  intros Hfit Hr Hlen.
  destruct (built_spec js_to_remove r Hfit Hr) as (Hn & Hl & Hv).
  split; [by apply RenumberIndicies_kept|].
  split; [by rewrite kept_entries_length, Hn|].
  intros j n Hb Hj. rewrite (Hv j false Hb) in Hj. inversion Hj; subst n.
  destruct (lookup_lt_is_Some_2 v j) as [x Hx].
  { rewrite Hlen. by eapply lookup_lt_Some. }
  rewrite Hx. apply kept_entries_lookup; [done|].
  exists j. split; [done|]. split; [done|]. lia.
Qed.

Lemma RenumberIndicies_kept_entries_witness :
  JRenumbering.RenumberIndicies 0%Q
    (JRenumbering.mk [0; kInvalidJ; 1; kInvalidJ] 2)
    [(1 # 2)%Q; 3%Q; (-2)%Q; 7%Q] = Some [(1 # 2)%Q; (-2)%Q].
Proof.
  apply (RenumberIndicies_kept_entries 0%Q [false; true; false; true]
           (JRenumbering.mk [0; kInvalidJ; 1; kInvalidJ] 2)
           [(1 # 2)%Q; 3%Q; (-2)%Q; 7%Q]).
  - vm_compute. discriminate.
  - reflexivity.
  - reflexivity.
Defined.

Lemma NewJToOldJ_loop_eq (r : JRenumbering.t) (j k : nat) (ret : list N) :
  JRenumbering.NewJToOldJ_loop r (seq j k) ret =
  JRenumbering.RenumberIndicies_loop r (N.of_nat <$> seq j k) j ret.
Proof.
  revert j ret. induction k as [|k IH]; intros j ret; simpl; [done|].
  destruct (JRenumbering.j_to_new_j r !! j) as [new_j|]; simpl; [|done].
  destruct (if new_j =? kInvalidJ then Some ret else vset ret new_j (N.of_nat j));
    simpl; [apply IH|done].
Qed.

Lemma NewJToOldJ_kept (js_to_remove : list bool) (r : JRenumbering.t) :
  N.of_nat (length js_to_remove) <= kInvalidJ ->
  JRenumbering.RemoveJs js_to_remove = Some r ->
  JRenumbering.NewJToOldJ r =
    Some (kept_entries js_to_remove (N.of_nat <$> seq 0 (length js_to_remove))).
Proof.
  intros Hfit Hr.
  destruct (built_spec js_to_remove r Hfit Hr) as (Hn & Hl & Hv).
  unfold JRenumbering.NewJToOldJ. rewrite Hl, NewJToOldJ_loop_eq, Hn.
  apply (RenumberIndicies_loop_kept js_to_remove r Hfit Hr kInvalidJ []
           js_to_remove [] (N.of_nat <$> seq 0 (length js_to_remove))); [done..|].
  by rewrite length_fmap, length_seq.
Qed.

Lemma kept_entries_fmap {A B} (f : A -> B) (bs : list bool) (v : list A) :
  kept_entries bs (f <$> v) = f <$> kept_entries bs v.
Proof.
  revert v. induction bs as [|b bs IH]; intros [|x v]; simpl; try done.
  destruct b; simpl; by rewrite IH.
Qed.

Lemma kept_entries_elem_of {A} (bs : list bool) (v : list A) (x : A) :
  x ∈ kept_entries bs v -> x ∈ v.
Proof.
  revert v. induction bs as [|b bs IH]; intros [|y v]; simpl;
    try (by intros ?%elem_of_nil).
  destruct b.
  - intros H. apply list_elem_of_further. by apply IH.
  - intros [->|H]%elem_of_cons; [apply list_elem_of_here|].
    apply list_elem_of_further. by apply IH.
Qed.

(** [NewJToOldJ] inverts the renumbering that [RemoveJs] builds: it has one
    entry for each new J, the entry at the new J of a kept J is that J, and
    every entry is a kept J that the renumbering sends back to its index. *)
Theorem NewJToOldJ_inverse (js_to_remove : list bool) (r : JRenumbering.t) :
  N.of_nat (length js_to_remove) <= kInvalidJ ->
  JRenumbering.RemoveJs js_to_remove = Some r ->
  exists old_js,
    JRenumbering.NewJToOldJ r = Some old_js /\
    length old_js = N.to_nat (JRenumbering.next_j r) /\
    (forall j n, js_to_remove !! j = Some false ->
       JRenumbering.j_to_new_j r !! j = Some n ->
       old_js !! N.to_nat n = Some (N.of_nat j)) /\
    (forall n old_j, old_js !! n = Some old_j ->
       old_j <> kInvalidJ /\
       js_to_remove !! N.to_nat old_j = Some false /\
       JRenumbering.j_to_new_j r !! N.to_nat old_j = Some (N.of_nat n)).
Proof.
  intros Hfit Hr.
  destruct (built_spec js_to_remove r Hfit Hr) as (Hn & Hl & Hv).
  set (ids := N.of_nat <$> seq 0 (length js_to_remove)).
  assert (Hids : length ids = length js_to_remove).
  { unfold ids. by rewrite length_fmap, length_seq. }
  assert (Hid : forall j x, ids !! j = Some x -> x = N.of_nat j).
  { intros j x. unfold ids. rewrite list_lookup_fmap.
    destruct (seq 0 (length js_to_remove) !! j) as [i|] eqn:Ei; [|done].
    apply lookup_seq in Ei as [-> _]. simpl. by intros [= <-]. }
  exists (kept_entries js_to_remove ids). split; [|split; [|split]].
  - unfold JRenumbering.NewJToOldJ. rewrite Hl, NewJToOldJ_loop_eq, Hn.
    apply (RenumberIndicies_loop_kept js_to_remove r Hfit Hr kInvalidJ []
             js_to_remove [] ids); done.
  - pose proof (kept_entries_length js_to_remove ids Hids). lia.
  - intros j n Hj Hjn. rewrite (Hv j false Hj) in Hjn. inversion Hjn; subst n.
    apply kept_entries_lookup; [done|]. exists j. split; [done|].
    split; [|lia]. unfold ids. rewrite list_lookup_fmap, lookup_seq_lt; [done|].
    by apply lookup_lt_Some in Hj.
  - intros n old_j Hold. apply kept_entries_lookup in Hold as (j & Hj & Hx & Hc);
      [|done].
    apply Hid in Hx. subst old_j. rewrite Nat2N.id.
    apply lookup_lt_Some in Hj as Hlt. split.
    + unfold kInvalidJ in *. lia.
    + split; [done|]. rewrite (Hv j false Hj). by rewrite Hc.
Qed.

Lemma NewJToOldJ_inverse_witness :
  exists old_js,
    JRenumbering.NewJToOldJ (JRenumbering.mk [0; kInvalidJ; 1; kInvalidJ] 2)
      = Some old_js /\
    length old_js = 2%nat /\
    old_js !! 1%nat = Some 2.
Proof.
  destruct (NewJToOldJ_inverse [false; true; false; true]
              (JRenumbering.mk [0; kInvalidJ; 1; kInvalidJ] 2))
    as (old_js & E & Hlen & Hold & _).
  - vm_compute. discriminate.
  - reflexivity.
  - exists old_js. split; [exact E|]. split; [exact Hlen|].
    apply (Hold 2%nat 1); reflexivity.
Defined.

Lemma count_kept_all_false (l : list bool) :
  (forall j b, l !! j = Some b -> b = false) -> count_kept l = N.of_nat (length l).
Proof.
  induction l as [|b l IH]; intros H; [done|].
  rewrite (H 0%nat b eq_refl). simpl count_kept. simpl length.
  rewrite IH; [lia|]. intros j b' Hj. by apply (H (S j)).
Qed.

(** The renumbering that [RemoveJs] builds is a no-op exactly when no J is
    to be removed. *)
Theorem RemoveJs_IsNoOp (js_to_remove : list bool) (r : JRenumbering.t) :
  N.of_nat (length js_to_remove) <= kInvalidJ ->
  JRenumbering.RemoveJs js_to_remove = Some r ->
  (JRenumbering.IsNoOp r = true <->
   forall j, js_to_remove !! j <> Some true).
Proof.
  intros Hfit Hr.
  destruct (built_spec js_to_remove r Hfit Hr) as (Hn & Hl & Hv).
  unfold JRenumbering.IsNoOp. rewrite forallb_forall, Hl. split.
  - intros H j Hj. apply lookup_lt_Some in Hj as Hlt.
    assert (Hin : In j (seq 0 (length js_to_remove))) by (apply in_seq; lia).
    apply H, bool_decide_eq_true in Hin. rewrite (Hv j true Hj) in Hin.
    inversion Hin. unfold kInvalidJ in *. lia.
  - intros H j Hj%in_seq. apply bool_decide_eq_true.
    destruct (lookup_lt_is_Some_2 js_to_remove j) as [b Hb]; [lia|].
    destruct b; [by apply H in Hb|]. rewrite (Hv j false Hb). f_equal.
    rewrite count_kept_all_false.
    + rewrite length_take. lia.
    + intros i b Hi. rewrite lookup_take_Some in Hi. destruct Hi as [Hi _].
      destruct b; [by apply H in Hi|done].
Qed.

Lemma RemoveJs_IsNoOp_witness :
  JRenumbering.IsNoOp (JRenumbering.mk [0; 1; 2] 3) = true /\
  JRenumbering.IsNoOp (JRenumbering.mk [0; kInvalidJ; 1] 2) = false.
Proof.
  split.
  - apply (RemoveJs_IsNoOp [false; false; false] (JRenumbering.mk [0; 1; 2] 3)).
    + vm_compute. discriminate.
    + reflexivity.
    + intros [|[|[|j]]]; discriminate.
  - destruct (RemoveJs_IsNoOp [false; true; false]
                (JRenumbering.mk [0; kInvalidJ; 1] 2)) as [Hf _].
    + vm_compute. discriminate.
    + reflexivity.
    + apply not_true_iff_false. intros H. exact (Hf H 1%nat eq_refl).
Defined.

(** ** CsrMatrix: rows in, rows out *)

Lemma uint32_sub_small (a b : N) :
  a <= b -> b < uint32_modulus -> uint32_sub b a = b - a.
Proof.
  intros Hab Hb. unfold uint32_sub.
  rewrite (N.mod_small a) by lia.
  replace (b + uint32_modulus - a) with ((b - a) + 1 * uint32_modulus) by lia.
  rewrite N.Div0.mod_add. apply N.mod_small. lia.
Qed.

Lemma row_boundaries_length (start : N) (rows : list (list N)) :
  length (row_boundaries start rows) = length rows.
Proof. revert start. induction rows as [|row rows IH]; intros start; simpl; [done|]. by rewrite IH. Qed.

Lemma row_boundaries_app (start : N) (rows1 rows2 : list (list N)) :
  row_boundaries start (rows1 ++ rows2) =
  row_boundaries start rows1 ++
  row_boundaries (start + N.of_nat (length (concat rows1))) rows2.
Proof.
  revert start. induction rows1 as [|row rows1 IH]; intros start; simpl.
  - by rewrite N.add_0_r.
  - rewrite IH. rewrite length_app. do 3 f_equal. lia.
Qed.

(** The end of row [i] is the start plus the length of the rows up to and
    including [i]. *)
Lemma row_boundaries_lookup (start : N) (rows : list (list N)) (i : nat) :
  (i < length rows)%nat ->
  row_boundaries start rows !! i =
    Some (start + N.of_nat (length (concat (take (S i) rows)))).
Proof.
  revert start i. induction rows as [|row rows IH]; intros start i Hi; simpl in *; [lia|].
  destruct i as [|i]; simpl.
  - rewrite app_nil_r. done.
  - rewrite IH by lia. rewrite length_app. simpl. f_equal. lia.
Qed.

Lemma boundaries_lookup (rows : list (list N)) (i : nat) :
  (i <= length rows)%nat ->
  CsrMatrix.boundaries_ (CsrMatrix_of_rows rows) !! i =
    Some (N.of_nat (length (concat (take i rows)))).
Proof.
  intros Hi. simpl. destruct i as [|i]; simpl; [done|].
  rewrite row_boundaries_lookup by lia. done.
Qed.

Lemma concat_take_length_le {A} (rows : list (list A)) (i : nat) :
  (length (concat (take i rows)) <= length (concat rows))%nat.
Proof.
  rewrite <- (take_drop i rows) at 2. rewrite concat_app, length_app. lia.
Qed.

Lemma RowCount_of_rows (rows : list (list N)) :
  N.of_nat (length rows) <= kInvalidJ ->
  CsrMatrix.RowCount (CsrMatrix_of_rows rows) = N.of_nat (length rows).
Proof.
  intros H. unfold CsrMatrix.RowCount. simpl. rewrite row_boundaries_length.
  rewrite to_uint32_small; [lia|]. unfold kInvalidJ, uint32_modulus in *. lia.
Qed.

(** [GetRow] reads back the rows. *)
Lemma GetRow_of_rows (rows : list (list N)) (i : nat) :
  N.of_nat (length (concat rows)) <= kInvalidJ ->
  CsrMatrix.GetRow (CsrMatrix_of_rows rows) (N.of_nat i) = rows !! i.
Proof.
  intros Hfit. unfold CsrMatrix.GetRow, vget. rewrite Nat2N.id.
  destruct (decide (i < length rows)%nat) as [Hi|Hi].
  - rewrite boundaries_lookup by lia. cbn [mbind option_bind].
    replace (N.to_nat (N.of_nat i + 1)) with (S i) by lia.
    rewrite boundaries_lookup by lia. cbn [mbind option_bind].
    destruct (lookup_lt_is_Some_2 rows i Hi) as [row Hrow].
    rewrite (take_S_r _ _ _ Hrow), concat_app, length_app. simpl.
    rewrite app_nil_r.
    pose proof (concat_take_length_le rows (S i)) as Hle.
    rewrite (take_S_r _ _ _ Hrow), concat_app, length_app in Hle. simpl in Hle.
    rewrite app_nil_r in Hle.
    rewrite uint32_sub_small by (unfold kInvalidJ, uint32_modulus in *; lia).
    unfold slice. rewrite decide_True by lia. rewrite Hrow. f_equal.
    rewrite Nat2N.id.
    replace (N.to_nat (N.of_nat (length (concat (take i rows)) + length row) -
                       N.of_nat (length (concat (take i rows)))))
      with (length row) by lia.
    assert (Hc : concat rows =
                 concat (take i rows) ++ row ++ concat (drop (S i) rows)).
    { rewrite <- (take_drop_middle rows i row Hrow) at 1. by rewrite concat_app. }
    rewrite Hc, drop_app_length. by rewrite take_app_length.
  - rewrite (lookup_ge_None_2 rows i) by lia.
    destruct (CsrMatrix.boundaries_ (CsrMatrix_of_rows rows) !! i) as [b0|];
      cbn [mbind option_bind]; [|done].
    rewrite (lookup_ge_None_2 _ (N.to_nat (N.of_nat i + 1))); [done|].
    simpl. rewrite row_boundaries_length. lia.
Qed.

(** [AddRow] appends one row to the representation. *)
Lemma AddRow_of_rows (rows : list (list N)) (js : list N) :
  N.of_nat (length (concat rows) + length js) <= kInvalidJ ->
  CsrMatrix.AddRow js (CsrMatrix_of_rows rows) =
    Some (CsrMatrix_of_rows (rows ++ [js])).
Proof.
  intros Hfit. unfold CsrMatrix.AddRow. simpl.
  rewrite length_app.
  assert (Hle : (N.of_nat (length (concat rows) + length js) <=? kInvalidJ) = true)
    by (by apply N.leb_le).
  rewrite Hle. cbn [CHECK mbind option_bind]. unfold CsrMatrix_of_rows.
  rewrite concat_app, row_boundaries_app. simpl. rewrite app_nil_r.
  rewrite to_uint32_small by (unfold kInvalidJ, uint32_modulus in *; lia).
  do 2 f_equal. f_equal. f_equal. f_equal. lia.
Qed.

(** The rows added to an empty matrix are its representation. *)
Lemma for_each_AddRow_of_rows (rows0 rows : list (list N)) :
  N.of_nat (length (concat (rows0 ++ rows))) <= kInvalidJ ->
  for_each CsrMatrix.AddRow rows (CsrMatrix_of_rows rows0) =
    Some (CsrMatrix_of_rows (rows0 ++ rows)).
Proof.
  revert rows0. induction rows as [|js rows IH]; intros rows0 Hfit; simpl.
  - by rewrite app_nil_r.
  - rewrite concat_app, length_app in Hfit. simpl in Hfit. rewrite length_app in Hfit.
    rewrite AddRow_of_rows by lia. cbn [mbind option_bind].
    rewrite IH; [by rewrite <- app_assoc|].
    rewrite <- app_assoc, concat_app, length_app. simpl. rewrite length_app. lia.
Qed.

(** A row is stored by [AddRow] and read by [GetRow]: when the rows [rows]
    are added to an empty matrix, and their entries together number at most
    2^32 - 1, the matrix has as many rows and [GetRow(i)] is the [i]-th row
    added; past the last row [GetRow] has nothing to read. *)
Theorem AddRow_GetRow (rows : list (list N)) :
  N.of_nat (length (concat rows)) <= kInvalidJ ->
  N.of_nat (length rows) <= kInvalidJ ->
  exists m,
    for_each CsrMatrix.AddRow rows CsrMatrix.empty = Some m /\
    CsrMatrix.RowCount m = N.of_nat (length rows) /\
    CsrMatrix.NonZerosCount m = N.of_nat (length (concat rows)) /\
    forall i, CsrMatrix.GetRow m (N.of_nat i) = rows !! i.
Proof.
  intros Hfit Hrows. exists (CsrMatrix_of_rows rows).
  split; [by apply (for_each_AddRow_of_rows [] rows)|].
  split; [by apply RowCount_of_rows|]. split; [done|].
  intros i. by apply GetRow_of_rows.
Qed.

Lemma AddRow_GetRow_witness :
  exists m,
    for_each CsrMatrix.AddRow [[3; 1]; []; [2]] CsrMatrix.empty = Some m /\
    CsrMatrix.RowCount m = 3 /\
    CsrMatrix.NonZerosCount m = 3 /\
    forall i, CsrMatrix.GetRow m (N.of_nat i) = [[3; 1]; []; [2]] !! i.
Proof.
  apply (AddRow_GetRow [[3; 1]; []; [2]]); vm_compute; discriminate.
Defined.

(** [AddRow] stops at its [CHECK] when the contents would pass
    2^32 - 1 entries. *)
Lemma AddRow_overflow (js : list N) (m : CsrMatrix.t) :
  kInvalidJ < N.of_nat (length (CsrMatrix.contents_ m) + length js) ->
  CsrMatrix.AddRow js m = None.
Proof.
  intros H. unfold CsrMatrix.AddRow. rewrite length_app.
  assert (Hle : (N.of_nat (length (CsrMatrix.contents_ m) + length js) <=? kInvalidJ)
                = false) by (by apply N.leb_gt).
  by rewrite Hle.
Qed.

(** *** To coordinates and back *)

Lemma row_coords_app (i : N) (rows1 rows2 : list (list N)) :
  row_coords i (rows1 ++ rows2) =
  row_coords i rows1 ++ row_coords (i + N.of_nat (length rows1)) rows2.
Proof.
  revert i. induction rows1 as [|row rows1 IH]; intros i; simpl.
  - by rewrite N.add_0_r.
  - rewrite IH, <- app_assoc. do 3 f_equal. lia.
Qed.

Lemma fold_left_SetTrue (i : N) (row : list N) (coo : CooMatrix.t) :
  fold_left (fun coo j => CooMatrix.SetTrue i j coo) row coo =
  CooMatrix.mk (CooMatrix.contents_ coo ++ ((fun j => (i, j)) <$> row))
               (CooMatrix.row_count_ coo).
Proof.
  revert coo. induction row as [|j row IH]; intros coo; simpl.
  - rewrite app_nil_r. by destruct coo.
  - rewrite IH. simpl. by rewrite <- app_assoc.
Qed.

Lemma ToCooMatrix_of_rows (rows : list (list N)) :
  N.of_nat (length (concat rows)) <= kInvalidJ ->
  N.of_nat (length rows) <= kInvalidJ ->
  ToCooMatrix (CsrMatrix_of_rows rows) =
    Some (CooMatrix.mk (row_coords 0 rows) (N.of_nat (length rows))).
Proof.
  intros Hfit Hrows. unfold ToCooMatrix. rewrite RowCount_of_rows by done.
  rewrite Nat2N.id.
  destruct (for_range_total
              (fun i coo => coo = CooMatrix.mk (row_coords 0 (take i rows))
                                               (N.of_nat (length rows)))
              (length rows)
              (fun i coo =>
                 row ← CsrMatrix.GetRow (CsrMatrix_of_rows rows) (N.of_nat i);
                 Some (fold_left (fun coo j => CooMatrix.SetTrue (N.of_nat i) j coo)
                                 row coo))
              (CooMatrix.mk [] (N.of_nat (length rows))))
    as (coo & E & Hcoo).
  - done.
  - intros i coo Hi ->. rewrite GetRow_of_rows by done.
    destruct (lookup_lt_is_Some_2 rows i Hi) as [row Hrow]. rewrite Hrow.
    cbn [mbind option_bind]. eexists. split; [done|].
    rewrite fold_left_SetTrue. simpl. f_equal.
    rewrite (take_S_r _ _ _ Hrow), row_coords_app. simpl.
    rewrite app_nil_r, length_take. do 3 f_equal. lia.
  - rewrite E. by rewrite Hcoo, firstn_all.
Qed.

Lemma FromCooMatrix_invariant_pad (rows : list (list N)) (m : CsrMatrix.t) :
  N.of_nat (length (concat rows)) <= kInvalidJ ->
  FromCooMatrix_invariant rows m ->
  pad_boundaries (N.of_nat (length rows)) m = CsrMatrix_of_rows rows.
Proof.
  intros Hfit (Hc & n & Hn & Hb & Hd). unfold pad_boundaries, CsrMatrix_of_rows.
  rewrite Hc, Hb. f_equal.
  rewrite to_uint32_small by (unfold kInvalidJ, uint32_modulus in *; lia).
  rewrite length_take. simpl length. rewrite row_boundaries_length, Nat2N.id.
  replace (S (length rows) - n `min` S (length rows))%nat
    with (S (length rows) - n)%nat by lia.
  rewrite <- Hd. apply take_drop.
Qed.

(** The coordinates of one row, once its boundaries are written. *)
Lemma fold_left_step_same_row (i : N) (js : list N) (boundaries contents : list N) :
  (N.to_nat i < length boundaries)%nat ->
  fold_left FromCooMatrix_step ((fun j => (i, j)) <$> js)
            (CsrMatrix.mk boundaries contents) =
  CsrMatrix.mk boundaries (contents ++ js).
Proof.
  intros Hi. revert contents. induction js as [|j js IH]; intros contents; simpl.
  - by rewrite app_nil_r.
  - unfold FromCooMatrix_step at 2. unfold pad_boundaries. simpl.
    replace (S (N.to_nat i) - length boundaries)%nat with 0%nat by lia.
    simpl. rewrite app_nil_r, IH. by rewrite <- app_assoc.
Qed.

Lemma fold_left_step_rows (rows1 rows2 : list (list N)) (m : CsrMatrix.t) :
  N.of_nat (length (concat (rows1 ++ rows2))) <= kInvalidJ ->
  FromCooMatrix_invariant rows1 m ->
  FromCooMatrix_invariant (rows1 ++ rows2)
    (fold_left FromCooMatrix_step (row_coords (N.of_nat (length rows1)) rows2) m).
Proof.
  revert rows1 m. induction rows2 as [|row rows2 IH]; intros rows1 m Hfit Hinv.
  { simpl. by rewrite app_nil_r. }
  simpl. rewrite fold_left_app.
  replace (N.of_nat (length rows1) + 1) with (N.of_nat (length (rows1 ++ [row])))
    by (rewrite length_app; simpl; lia).
  replace (rows1 ++ row :: rows2) with ((rows1 ++ [row]) ++ rows2)
    by (by rewrite <- app_assoc).
  apply IH; [by rewrite <- app_assoc|].
  assert (Hfit1 : N.of_nat (length (concat rows1) + length row) <= kInvalidJ).
  { rewrite !concat_app, !length_app in Hfit. simpl in Hfit.
    rewrite length_app in Hfit. lia. }
  pose proof Hinv as (Hc & n & Hn & Hb & Hd).
  assert (Hfull : 0 :: row_boundaries 0 (rows1 ++ [row]) =
                  (0 :: row_boundaries 0 rows1) ++
                  [N.of_nat (length (concat rows1) + length row)]).
  { rewrite row_boundaries_app. simpl. do 3 f_equal. lia. }
  assert (Hlen : length (0 :: row_boundaries 0 rows1) = S (length rows1))
    by (simpl; by rewrite row_boundaries_length).
  destruct row as [|j js].
  - simpl. split; [by rewrite Hc, concat_app; simpl; rewrite app_nil_r|].
    exists n. split; [rewrite length_app; simpl; lia|].
    rewrite Hfull. split.
    + by rewrite take_app_le by lia.
    + rewrite drop_app_le by lia. rewrite Hd, concat_app, length_app. simpl.
      rewrite !length_app. simpl. rewrite !Nat.add_0_r.
      replace (S (length rows1 + 1) - n)%nat with (S (S (length rows1) - n))%nat by lia.
      by rewrite replicate_S_end.
  - rewrite fmap_cons. cbn [fold_left].
    assert (E1 : FromCooMatrix_step m (N.of_nat (length rows1), j) =
                 CsrMatrix.mk (0 :: row_boundaries 0 rows1) (concat rows1 ++ [j])).
    { unfold FromCooMatrix_step. cbn [fst snd].
      rewrite (FromCooMatrix_invariant_pad rows1 m); [done| |done].
      lia. }
    rewrite E1, fold_left_step_same_row by (rewrite Hlen; lia).
    split; [simpl; by rewrite concat_app, <- app_assoc; simpl; rewrite app_nil_r|].
    exists (S (length rows1)). split; [rewrite length_app; simpl; lia|].
    rewrite Hfull. simpl CsrMatrix.boundaries_. split.
    + rewrite take_app_length'; [done|by rewrite Hlen].
    + rewrite drop_app_length'; [|by rewrite Hlen].
      rewrite concat_app, !length_app. cbn [concat length].
      rewrite app_nil_r.
      replace (S (length rows1 + 1) - S (length rows1))%nat with 1%nat by lia.
      done.
Qed.

(** [is_sorted], turn by turn. *)
Lemma is_sorted_app (l1 l2 : list (N * N)) :
  CooMatrix.is_sorted l1 = true -> CooMatrix.is_sorted l2 = true ->
  (forall a b, last l1 = Some a -> head l2 = Some b ->
     PrioritySumIterator.index_pair_less b a = false) ->
  CooMatrix.is_sorted (l1 ++ l2) = true.
Proof.
  induction l1 as [|a [|a' l1] IH]; intros H1 H2 Hb; [done| |].
  - destruct l2 as [|b l2]; [done|]. cbn [app CooMatrix.is_sorted].
    rewrite (Hb a b) by done. done.
  - cbn [app CooMatrix.is_sorted] in *.
    apply andb_true_iff in H1 as [-> H1]. cbn [andb]. by apply IH.
Qed.

Lemma is_sorted_row (i : N) (row : list N) :
  Sorted N.le row -> CooMatrix.is_sorted ((fun j => (i, j)) <$> row) = true.
Proof.
  induction 1 as [|j row _ IH Hhd]; [done|].
  destruct Hhd as [|j' row Hj]; [done|]. rewrite !fmap_cons in *.
  change (negb (PrioritySumIterator.index_pair_less (i, j') (i, j)) &&
          CooMatrix.is_sorted ((i, j') :: ((fun j => (i, j)) <$> row)) = true).
  rewrite IH, andb_true_r.
  unfold PrioritySumIterator.index_pair_less. cbn [fst snd].
  rewrite N.ltb_irrefl. cbn [orb negb andb]. apply negb_true_iff, N.ltb_ge. done.
Qed.

Lemma head_row_coords (i : N) (rows : list (list N)) (b : N * N) :
  head (row_coords i rows) = Some b -> i <= b.1.
Proof.
  revert i. induction rows as [|[|j row] rows IH]; intros i; simpl; [done| |].
  - intros Hb%IH. lia.
  - intros [= <-]. simpl. lia.
Qed.

Lemma is_sorted_row_coords (i : N) (rows : list (list N)) :
  Forall (Sorted N.le) rows -> CooMatrix.is_sorted (row_coords i rows) = true.
Proof.
  intros Hrows. revert i. induction Hrows as [|row rows Hrow _ IH]; intros i; [done|].
  cbn [row_coords]. apply is_sorted_app; [by apply is_sorted_row|done|].
  intros a b Ha Hb%head_row_coords.
  assert (a.1 = i) as Hi.
  { apply last_Some_elem_of, list_elem_of_fmap in Ha as (j & -> & _). done. }
  unfold PrioritySumIterator.index_pair_less.
  replace (b.1 <? a.1) with false by (symmetry; apply N.ltb_ge; lia).
  replace (a.1 <? b.1) with true by (symmetry; apply N.ltb_lt; lia). done.
Qed.

Lemma coord_le_total : Total CooMatrix.coord_le.
Proof.
  intros a b. unfold CooMatrix.coord_le, PrioritySumIterator.index_pair_less.
  destruct (N.ltb_spec a.1 b.1), (N.ltb_spec b.1 a.1), (N.ltb_spec a.2 b.2),
    (N.ltb_spec b.2 a.2); simpl; auto; lia.
Qed.

Lemma is_sorted_Sorted (l : list (N * N)) :
  Sorted CooMatrix.coord_le l -> CooMatrix.is_sorted l = true.
Proof.
  induction 1 as [|a l _ IH Hhd]; [done|].
  destruct Hhd as [|b l Hab]; [done|].
  change (negb (PrioritySumIterator.index_pair_less b a) &&
          CooMatrix.is_sorted (b :: l) = true).
  rewrite IH, andb_true_r. unfold CooMatrix.coord_le in Hab. by rewrite Hab.
Qed.

(** The coordinates that [Sort] leaves pass the check of [FromCooMatrix]. *)
Lemma IsSorted_Sort (coo : CooMatrix.t) : CooMatrix.IsSorted (CooMatrix.Sort coo) = true.
Proof.
  apply is_sorted_Sorted. simpl.
  apply (@Sorted_merge_sort _ _ _ coord_le_total).
Qed.

(** [FromCooMatrix] undoes [ToCooMatrix]: a matrix made of rows added to an
    empty matrix, each row with its J's in ascending order, is read into
    coordinates that are sorted, and rebuilt from them as it was. *)
Theorem FromCooMatrix_ToCooMatrix (rows : list (list N)) (m : CsrMatrix.t) :
  N.of_nat (length (concat rows)) <= kInvalidJ ->
  N.of_nat (length rows) <= kInvalidJ ->
  Forall (Sorted N.le) rows ->
  for_each CsrMatrix.AddRow rows CsrMatrix.empty = Some m ->
  exists coo,
    ToCooMatrix m = Some coo /\
    CooMatrix.row_count_ coo = CsrMatrix.RowCount m /\
    length (CooMatrix.contents_ coo) = length (CsrMatrix.contents_ m) /\
    CooMatrix.IsSorted coo = true /\
    FromCooMatrix coo = Some m.
Proof.
  intros Hfit Hrows Hsorted E.
  change CsrMatrix.empty with (CsrMatrix_of_rows []) in E.
  rewrite (for_each_AddRow_of_rows [] rows Hfit) in E. inversion E; subst m. clear E.
  simpl app. eexists. split; [by apply ToCooMatrix_of_rows|].
  split; [simpl; by rewrite RowCount_of_rows|]. split; [|split].
  - simpl. clear. generalize 0. induction rows as [|row rows IH]; intros i; simpl; [done|].
    rewrite !length_app, length_fmap, IH. done.
  - by apply is_sorted_row_coords.
  - unfold FromCooMatrix, CooMatrix.IsSorted. simpl.
    rewrite is_sorted_row_coords by done. cbn [CHECK mbind option_bind]. f_equal.
    apply FromCooMatrix_invariant_pad; [done|].
    apply (fold_left_step_rows [] rows); [done|].
    split; [done|]. exists 0%nat. split; [simpl; lia|]. done.
Qed.

Lemma FromCooMatrix_ToCooMatrix_witness :
  exists coo,
    ToCooMatrix (CsrMatrix.mk [0; 2; 2; 3] [1; 3; 2]) = Some coo /\
    CooMatrix.row_count_ coo = 3 /\
    length (CooMatrix.contents_ coo) = 3%nat /\
    CooMatrix.IsSorted coo = true /\
    FromCooMatrix coo = Some (CsrMatrix.mk [0; 2; 2; 3] [1; 3; 2]).
Proof.
  apply (FromCooMatrix_ToCooMatrix [[1; 3]; []; [2]]
           (CsrMatrix.mk [0; 2; 2; 3] [1; 3; 2])).
  - vm_compute. discriminate.
  - vm_compute. discriminate.
  - repeat constructor; vm_compute; discriminate.
  - reflexivity.
Defined.

(** *** SetRowCount *)

Lemma row_boundaries_empty_rows (start : N) (k : nat) :
  row_boundaries start (replicate k []) = replicate k start.
Proof.
  revert start. induction k as [|k IH]; intros start; simpl; [done|].
  rewrite N.add_0_r. by rewrite IH.
Qed.

Lemma concat_empty_rows {A} (k : nat) : concat (replicate k (@nil A)) = [].
Proof. induction k as [|k IH]; simpl; done. Qed.

(** [SetRowCount] appends empty rows and keeps the rows there are; a size
    below the number of rows stops at the [CHECK]. *)
Theorem SetRowCount_appends_empty_rows (rows : list (list N)) (m : CsrMatrix.t)
    (size : N) :
  N.of_nat (length (concat rows)) <= kInvalidJ ->
  N.of_nat (length rows) <= kInvalidJ ->
  size < kInvalidJ ->
  for_each CsrMatrix.AddRow rows CsrMatrix.empty = Some m ->
  (size < N.of_nat (length rows) -> CsrMatrix.SetRowCount size m = None) /\
  (N.of_nat (length rows) <= size ->
   exists m',
     CsrMatrix.SetRowCount size m = Some m' /\
     CsrMatrix.RowCount m' = size /\
     CsrMatrix.contents_ m' = CsrMatrix.contents_ m /\
     forall i,
       CsrMatrix.GetRow m' (N.of_nat i) =
         (rows ++ replicate (N.to_nat size - length rows) []) !! i).
Proof.
  intros Hfit Hrows Hsize E.
  change CsrMatrix.empty with (CsrMatrix_of_rows []) in E.
  rewrite (for_each_AddRow_of_rows [] rows Hfit) in E. inversion E; subst m. clear E.
  simpl app. unfold CsrMatrix.SetRowCount. split.
  - intros Hlt. rewrite RowCount_of_rows by (unfold kInvalidJ in *; lia).
    assert (H : (N.of_nat (length rows) <=? size) = false) by (by apply N.leb_gt).
    by rewrite H.
  - intros Hle. rewrite RowCount_of_rows by (unfold kInvalidJ in *; lia).
    assert (H : (N.of_nat (length rows) <=? size) = true) by (by apply N.leb_le).
    rewrite H. cbn [CHECK mbind option_bind].
    set (k := (N.to_nat size - length rows)%nat).
    assert (Hm : CsrMatrix.mk
                   (CsrMatrix.boundaries_ (CsrMatrix_of_rows rows) ++
                    replicate (N.to_nat (size + 1) -
                               length (CsrMatrix.boundaries_ (CsrMatrix_of_rows rows)))
                              (to_uint32 (N.of_nat
                                 (length (CsrMatrix.contents_ (CsrMatrix_of_rows rows))))))
                   (CsrMatrix.contents_ (CsrMatrix_of_rows rows)) =
                 CsrMatrix_of_rows (rows ++ replicate k [])).
    { unfold CsrMatrix_of_rows. simpl.
      rewrite row_boundaries_app, row_boundaries_empty_rows, row_boundaries_length.
      rewrite concat_app, concat_empty_rows, app_nil_r.
      rewrite to_uint32_small by (unfold kInvalidJ, uint32_modulus in *; lia).
      rewrite N.add_0_l. do 3 f_equal. f_equal. unfold k. lia. }
    rewrite Hm. eexists. split; [done|].
    assert (Hc : concat (rows ++ replicate k []) = concat rows).
    { by rewrite concat_app, concat_empty_rows, app_nil_r. }
    split; [|split].
    + rewrite RowCount_of_rows; rewrite length_app, length_replicate;
        unfold k, kInvalidJ in *; lia.
    + simpl. by rewrite Hc.
    + intros i. apply GetRow_of_rows. by rewrite Hc.
Qed.

Lemma SetRowCount_appends_empty_rows_witness :
  CsrMatrix.SetRowCount 1 (CsrMatrix.mk [0; 1; 2] [2; 2]) = None /\
  exists m',
    CsrMatrix.SetRowCount 3 (CsrMatrix.mk [0; 1; 2] [2; 2]) = Some m' /\
    CsrMatrix.RowCount m' = 3 /\
    CsrMatrix.GetRow m' 2 = Some [].
Proof.
  destruct (SetRowCount_appends_empty_rows [[2]; [2]] (CsrMatrix.mk [0; 1; 2] [2; 2]) 1)
    as [Hfail _]; [vm_compute; discriminate|vm_compute; discriminate|reflexivity|reflexivity|].
  split; [apply Hfail; reflexivity|].
  destruct (SetRowCount_appends_empty_rows [[2]; [2]] (CsrMatrix.mk [0; 1; 2] [2; 2]) 3)
    as [_ Hok]; [vm_compute; discriminate|vm_compute; discriminate|reflexivity|reflexivity|].
  destruct Hok as (m' & E & Hcount & _ & Hrow); [vm_compute; discriminate|].
  exists m'. split; [exact E|]. split; [exact Hcount|]. exact (Hrow 2%nat).
Defined.

(** *** RemoveAndRenumberRows *)

Lemma kept_entries_concat_length {A} (bs : list bool) (rows : list (list A)) :
  (length (concat (kept_entries bs rows)) <= length (concat rows))%nat.
Proof.
  revert rows. induction bs as [|b bs IH]; intros [|row rows]; simpl; try lia.
  specialize (IH rows). destruct b; simpl; rewrite ?length_app; lia.
Qed.

Lemma for_each_collect_rows (rows acc : list (list N)) (old_js : list N) :
  N.of_nat (length (concat rows)) <= kInvalidJ ->
  N.of_nat (length (concat
     (acc ++ ((fun o => default [] (rows !! N.to_nat o)) <$> old_js)))) <= kInvalidJ ->
  (forall o, o ∈ old_js -> o <> kInvalidJ /\ (N.to_nat o < length rows)%nat) ->
  for_each (fun old_j temp =>
              _ ← CHECK (negb (old_j =? kInvalidJ));
              row ← CsrMatrix.GetRow (CsrMatrix_of_rows rows) old_j;
              CsrMatrix.AddRow row temp)
           old_js (CsrMatrix_of_rows acc) =
  Some (CsrMatrix_of_rows
          (acc ++ ((fun o => default [] (rows !! N.to_nat o)) <$> old_js))).
Proof.
  intros Hfit. revert acc. induction old_js as [|o old_js IH]; intros acc Hacc Hold.
  - simpl. by rewrite app_nil_r.
  - destruct (Hold o (list_elem_of_here _ _)) as [Hne Hlt].
    cbn [for_each]. apply N.eqb_neq in Hne. rewrite Hne.
    cbn [negb CHECK mbind option_bind].
    rewrite <- (N2Nat.id o) at 1. rewrite GetRow_of_rows by done.
    destruct (lookup_lt_is_Some_2 rows (N.to_nat o) Hlt) as [row Hrow].
    rewrite Hrow. cbn [mbind option_bind].
    rewrite fmap_cons, Hrow in Hacc. simpl default in Hacc.
    rewrite fmap_cons, Hrow. simpl default.
    rewrite AddRow_of_rows; last first.
    { rewrite !concat_app, !length_app in Hacc. simpl in Hacc.
      rewrite length_app in Hacc. lia. }
    cbn [mbind option_bind].
    rewrite (IH (acc ++ [row])).
    + by rewrite <- app_assoc.
    + by rewrite <- app_assoc.
    + intros o' Ho'. apply Hold. by apply list_elem_of_further.
Qed.

Lemma RemoveAndRenumberRows_of_rows (js_to_remove : list bool)
    (r : JRenumbering.t) (rows : list (list N)) :
  N.of_nat (length (concat rows)) <= kInvalidJ ->
  N.of_nat (length js_to_remove) <= kInvalidJ ->
  JRenumbering.RemoveJs js_to_remove = Some r ->
  length rows = length js_to_remove ->
  CsrMatrix.RemoveAndRenumberRows r (CsrMatrix_of_rows rows) =
    Some (CsrMatrix_of_rows (kept_entries js_to_remove rows)).
Proof.
  intros Hfit Hbits Hr Hlen.
  destruct (built_spec js_to_remove r Hbits Hr) as (Hn & Hl & Hv).
  pose proof (kept_entries_concat_length js_to_remove rows) as Hkept.
  unfold CsrMatrix.RemoveAndRenumberRows.
  destruct (JRenumbering.j_to_new_j r) as [|n0 rest] eqn:Ej.
  - simpl in Hl. destruct js_to_remove; [|done]. by destruct rows.
  - rewrite (NewJToOldJ_kept js_to_remove r Hbits Hr). cbn [mbind option_bind].
    set (ids := N.of_nat <$> seq 0 (length js_to_remove)).
    assert (Hrows : (fun o => default [] (rows !! N.to_nat o)) <$> ids = rows).
    { apply list_eq. intros i. unfold ids.
      rewrite !list_lookup_fmap.
      destruct (decide (i < length rows)%nat) as [Hi|Hi].
      - rewrite lookup_seq_lt by lia. simpl. rewrite Nat2N.id.
        destruct (lookup_lt_is_Some_2 rows i Hi) as [row ->]. done.
      - rewrite lookup_seq_ge by lia. simpl. by rewrite lookup_ge_None_2 by lia. }
    change CsrMatrix.empty with (CsrMatrix_of_rows []).
    rewrite (for_each_collect_rows rows []); [| done | |].
    + simpl app. by rewrite <- kept_entries_fmap, Hrows.
    + simpl app. rewrite <- kept_entries_fmap, Hrows. lia.
    + intros o Ho. apply kept_entries_elem_of in Ho. unfold ids in Ho.
      apply list_elem_of_fmap in Ho as (i & -> & Hi).
      apply elem_of_seq in Hi. unfold kInvalidJ in *. split; lia.
Qed.

(** [RemoveAndRenumberRows] keeps the rows of the kept J's, in their order:
    the row at a new J is the row that its old J had. *)
Theorem RemoveAndRenumberRows_kept_rows (js_to_remove : list bool)
    (r : JRenumbering.t) (rows : list (list N)) (m : CsrMatrix.t) :
  N.of_nat (length (concat rows)) <= kInvalidJ ->
  N.of_nat (length js_to_remove) <= kInvalidJ ->
  JRenumbering.RemoveJs js_to_remove = Some r ->
  length rows = length js_to_remove ->
  for_each CsrMatrix.AddRow rows CsrMatrix.empty = Some m ->
  exists m',
    CsrMatrix.RemoveAndRenumberRows r m = Some m' /\
    CsrMatrix.RowCount m' = JRenumbering.next_j r /\
    forall n, CsrMatrix.GetRow m' (N.of_nat n) = kept_entries js_to_remove rows !! n.
Proof.
  intros Hfit Hbits Hr Hlen E.
  change CsrMatrix.empty with (CsrMatrix_of_rows []) in E.
  rewrite (for_each_AddRow_of_rows [] rows Hfit) in E. inversion E; subst m. clear E.
  simpl app.
  destruct (built_spec js_to_remove r Hbits Hr) as (Hn & Hl & Hv).
  pose proof (kept_entries_concat_length js_to_remove rows) as Hkept.
  pose proof (kept_entries_length js_to_remove rows Hlen) as Hcount.
  pose proof (count_kept_le_length js_to_remove) as Hcl.
  exists (CsrMatrix_of_rows (kept_entries js_to_remove rows)).
  split; [by apply RemoveAndRenumberRows_of_rows|]. split.
  - rewrite RowCount_of_rows; lia.
  - intros n. apply GetRow_of_rows. lia.
Qed.

Lemma RemoveAndRenumberRows_kept_rows_witness :
  exists m',
    CsrMatrix.RemoveAndRenumberRows (JRenumbering.mk [kInvalidJ; 0; 1] 2)
      (CsrMatrix.mk [0; 1; 1; 3] [5; 6; 7]) = Some m' /\
    CsrMatrix.RowCount m' = 2 /\
    CsrMatrix.GetRow m' 1 = Some [6; 7].
Proof.
  destruct (RemoveAndRenumberRows_kept_rows [true; false; false]
              (JRenumbering.mk [kInvalidJ; 0; 1] 2) [[5]; []; [6; 7]]
              (CsrMatrix.mk [0; 1; 1; 3] [5; 6; 7]))
    as (m' & E & Hcount & Hrow);
    [vm_compute; discriminate|vm_compute; discriminate|reflexivity..|].
  exists m'. split; [exact E|]. split; [exact Hcount|]. exact (Hrow 1%nat).
Defined.

(** *** RemoveAndRenumberJs *)

Lemma RemoveAndRenumberJsTo_row (r : JRenumbering.t) (row : list N) :
  Forall (fun j => (N.to_nat j < length (JRenumbering.j_to_new_j r))%nat) row ->
  JRenumbering.RemoveAndRenumberJsTo r row = Some (renumbered_row r row).
Proof.
  induction 1 as [|j row Hj _ IH]; [done|].
  cbn [JRenumbering.RemoveAndRenumberJsTo renumbered_row omap list_omap]. unfold vget.
  destruct (lookup_lt_is_Some_2 _ _ Hj) as [n Hn]. rewrite Hn.
  cbn [mbind option_bind]. rewrite IH. cbn [mbind option_bind].
  by destruct (n =? kInvalidJ).
Qed.

Lemma renumbered_row_length (r : JRenumbering.t) (row : list N) :
  (length (renumbered_row r row) <= length row)%nat.
Proof.
  induction row as [|j row IH]; [done|].
  cbn [renumbered_row omap list_omap].
  destruct (JRenumbering.j_to_new_j r !! N.to_nat j) as [n|]; simpl;
    [destruct (n =? kInvalidJ); simpl|]; unfold renumbered_row in IH; lia.
Qed.

Lemma renumbered_rows_length (r : JRenumbering.t) (rows : list (list N)) :
  (length (concat (renumbered_row r <$> rows)) <= length (concat rows))%nat.
Proof.
  induction rows as [|row rows IH]; [done|].
  rewrite fmap_cons. cbn [concat]. rewrite !length_app.
  pose proof (renumbered_row_length r row). lia.
Qed.

Lemma last_boundaries (rows : list (list N)) :
  last (0 :: row_boundaries 0 rows) = Some (N.of_nat (length (concat rows))).
Proof.
  induction rows as [|row rows _] using rev_ind; [done|].
  rewrite row_boundaries_app. simpl. rewrite app_comm_cons, last_snoc.
  rewrite concat_app, length_app. simpl. rewrite app_nil_r. f_equal. lia.
Qed.

Lemma slice_of_rows (rows : list (list N)) (i : nat) (row : list N) :
  N.of_nat (length (concat rows)) <= kInvalidJ ->
  rows !! i = Some row ->
  slice (concat rows) (N.of_nat (length (concat (take i rows))))
        (uint32_sub (N.of_nat (length (concat (take (S i) rows))))
                    (N.of_nat (length (concat (take i rows))))) = Some row.
Proof.
  intros Hfit Hrow. pose proof (GetRow_of_rows rows i Hfit) as H.
  pose proof (lookup_lt_Some _ _ _ Hrow) as Hi.
  unfold CsrMatrix.GetRow, vget in H. rewrite Nat2N.id in H.
  rewrite boundaries_lookup in H by lia. cbn [mbind option_bind] in H.
  replace (N.to_nat (N.of_nat i + 1)) with (S i) in H by lia.
  rewrite boundaries_lookup in H by lia. cbn [mbind option_bind] in H.
  by rewrite Hrow in H.
Qed.

Lemma RemoveAndRenumberJs_of_rows (r : JRenumbering.t) (rows : list (list N)) :
  N.of_nat (length (concat rows)) <= kInvalidJ ->
  N.of_nat (length rows) <= kInvalidJ ->
  Forall (Forall (fun j => (N.to_nat j < length (JRenumbering.j_to_new_j r))%nat)) rows ->
  CsrMatrix.RemoveAndRenumberJs r (CsrMatrix_of_rows rows) =
    Some (CsrMatrix_of_rows (renumbered_row r <$> rows)).
Proof.
  intros Hfit Hcount Hin. unfold CsrMatrix.RemoveAndRenumberJs.
  destruct (JRenumbering.j_to_new_j r) as [|n0 rest] eqn:Ej.
  - assert (Hrows : renumbered_row r <$> rows = rows); [|by rewrite Hrows].
    clear -Hin. induction Hin as [|row rows Hrow _ IH]; [done|].
    rewrite fmap_cons, IH. f_equal.
    destruct Hrow as [|j ? Hj _]; [done|]. simpl in Hj. lia.
  - rewrite <- Ej in *. clear Ej n0 rest.
    rewrite RowCount_of_rows, Nat2N.id by done.
    cbn [CsrMatrix_of_rows CsrMatrix.boundaries_ lookup list_lookup mbind option_bind].
    change (N.to_nat 0) with 0%nat. rewrite take_0.
    destruct (for_range_total
                (fun i (acc : N * list N * list N) =>
                   acc = (N.of_nat (length (concat (take i rows))),
                          0 :: row_boundaries 0 (renumbered_row r <$> take i rows),
                          concat (renumbered_row r <$> take i rows)))
                (length rows)
                (CsrMatrix.RemoveAndRenumberJs_row r (CsrMatrix_of_rows rows))
                (0, [0], [])) as (acc & E & ->).
    + done.
    + intros i acc Hi ->.
      destruct (lookup_lt_is_Some_2 rows i Hi) as [row Hrow].
      eexists. split; [|reflexivity].
      unfold CsrMatrix.RemoveAndRenumberJs_row.
      rewrite boundaries_lookup by lia. cbn [mbind option_bind].
      cbn [CsrMatrix_of_rows CsrMatrix.contents_].
      rewrite (slice_of_rows rows i row Hfit Hrow). cbn [mbind option_bind].
      rewrite RemoveAndRenumberJsTo_row
        by (rewrite Forall_forall in Hin; apply Hin; by eapply list_elem_of_lookup_2).
      cbn [mbind option_bind]. rewrite last_boundaries. cbn [mbind option_bind].
      rewrite (take_S_r _ _ _ Hrow), fmap_app, row_boundaries_app, concat_app.
      simpl. rewrite app_nil_r.
      pose proof (renumbered_rows_length r (take i rows)) as H1.
      pose proof (renumbered_row_length r row) as H2.
      pose proof (concat_take_length_le rows (S i)) as H3.
      rewrite (take_S_r _ _ _ Hrow), concat_app, length_app in H3. simpl in H3.
      rewrite app_nil_r in H3.
      rewrite to_uint32_small by (unfold kInvalidJ, uint32_modulus in *; lia).
      do 3 f_equal. rewrite concat_app. simpl. by rewrite app_nil_r.
    + rewrite E. cbn [mbind option_bind]. by rewrite firstn_all.
Qed.

(** [RemoveAndRenumberJs] rewrites every row to the new J's of its entries,
    in their order, and drops the entries whose J is removed; the number of
    rows does not change. *)
Theorem RemoveAndRenumberJs_rows (r : JRenumbering.t) (rows : list (list N))
    (m : CsrMatrix.t) :
  N.of_nat (length (concat rows)) <= kInvalidJ ->
  N.of_nat (length rows) <= kInvalidJ ->
  Forall (Forall (fun j => (N.to_nat j < length (JRenumbering.j_to_new_j r))%nat)) rows ->
  for_each CsrMatrix.AddRow rows CsrMatrix.empty = Some m ->
  exists m',
    CsrMatrix.RemoveAndRenumberJs r m = Some m' /\
    CsrMatrix.RowCount m' = CsrMatrix.RowCount m /\
    forall i, CsrMatrix.GetRow m' (N.of_nat i) = renumbered_row r <$> rows !! i.
Proof.
  intros Hfit Hcount Hin E.
  change CsrMatrix.empty with (CsrMatrix_of_rows []) in E.
  rewrite (for_each_AddRow_of_rows [] rows Hfit) in E. inversion E; subst m. clear E.
  simpl app. exists (CsrMatrix_of_rows (renumbered_row r <$> rows)).
  split; [by apply RemoveAndRenumberJs_of_rows|]. split.
  - rewrite !RowCount_of_rows by (rewrite ?length_fmap; done). by rewrite length_fmap.
  - intros i. rewrite <- list_lookup_fmap. apply GetRow_of_rows.
    pose proof (renumbered_rows_length r rows). lia.
Qed.

Lemma RemoveAndRenumberJs_rows_witness :
  exists m',
    CsrMatrix.RemoveAndRenumberJs (JRenumbering.mk [kInvalidJ; 0; 1] 2)
      (CsrMatrix.mk [0; 2; 2; 3] [0; 2; 1]) = Some m' /\
    CsrMatrix.RowCount m' = 3 /\
    CsrMatrix.GetRow m' 0 = Some [1] /\
    CsrMatrix.GetRow m' 2 = Some [0].
Proof.
  destruct (RemoveAndRenumberJs_rows (JRenumbering.mk [kInvalidJ; 0; 1] 2)
              [[0; 2]; []; [1]] (CsrMatrix.mk [0; 2; 2; 3] [0; 2; 1]))
    as (m' & E & Hcount & Hrow).
  - vm_compute. discriminate.
  - vm_compute. discriminate.
  - repeat constructor.
  - reflexivity.
  - exists m'. split; [exact E|]. split; [exact Hcount|].
    split; [exact (Hrow 0%nat)|exact (Hrow 2%nat)].
Defined.

(** [RemoveAndRenumberDependees]: of the dependees graph the edges between
    kept J's are left, each under the new J's of its ends: the row of a new
    J is the renumbered row of its old J. *)
Theorem RemoveAndRenumberDependees_graph (js_to_remove : list bool)
    (r : JRenumbering.t) (rows : list (list N)) (m : CsrMatrix.t) :
  N.of_nat (length (concat rows)) <= kInvalidJ ->
  N.of_nat (length js_to_remove) <= kInvalidJ ->
  JRenumbering.RemoveJs js_to_remove = Some r ->
  length rows = length js_to_remove ->
  Forall (Forall (fun j => (N.to_nat j < length js_to_remove)%nat)) rows ->
  for_each CsrMatrix.AddRow rows CsrMatrix.empty = Some m ->
  exists m',
    Data.RemoveAndRenumberDependees r m = Some m' /\
    CsrMatrix.RowCount m' = JRenumbering.next_j r /\
    (forall n, CsrMatrix.GetRow m' (N.of_nat n) =
               kept_entries js_to_remove (renumbered_row r <$> rows) !! n) /\
    (forall j n row,
       js_to_remove !! j = Some false ->
       JRenumbering.j_to_new_j r !! j = Some n ->
       rows !! j = Some row ->
       CsrMatrix.GetRow m' n = Some (renumbered_row r row)).
Proof.
  intros Hfit Hbits Hr Hlen Hin E.
  change CsrMatrix.empty with (CsrMatrix_of_rows []) in E.
  rewrite (for_each_AddRow_of_rows [] rows Hfit) in E. inversion E; subst m. clear E.
  simpl app.
  destruct (built_spec js_to_remove r Hbits Hr) as (Hn & Hl & Hv).
  pose proof (renumbered_rows_length r rows) as Hren.
  pose proof (kept_entries_concat_length js_to_remove (renumbered_row r <$> rows)) as Hkept.
  pose proof (kept_entries_length js_to_remove (renumbered_row r <$> rows)) as Hcount.
  rewrite length_fmap in Hcount. specialize (Hcount Hlen).
  pose proof (count_kept_le_length js_to_remove) as Hcl.
  assert (Hget : forall n,
            CsrMatrix.GetRow
              (CsrMatrix_of_rows (kept_entries js_to_remove (renumbered_row r <$> rows)))
              (N.of_nat n) =
            kept_entries js_to_remove (renumbered_row r <$> rows) !! n).
  { intros n. apply GetRow_of_rows. lia. }
  exists (CsrMatrix_of_rows (kept_entries js_to_remove (renumbered_row r <$> rows))).
  split; [|split; [|split]].
  - unfold Data.RemoveAndRenumberDependees.
    destruct (JRenumbering.j_to_new_j r) as [|n0 rest] eqn:Ej.
    + simpl in Hl. destruct js_to_remove; [|done]. by destruct rows.
    + rewrite <- Ej in *. clear Ej n0 rest.
      rewrite RemoveAndRenumberJs_of_rows; [|done|lia|by rewrite Hl].
      cbn [mbind option_bind].
      apply RemoveAndRenumberRows_of_rows; [lia|done|done|by rewrite length_fmap].
  - rewrite RowCount_of_rows; lia.
  - done.
  - intros j n row Hb Hj Hrow. rewrite (Hv j false Hb) in Hj. inversion Hj; subst n.
    rewrite <- (N2Nat.id (count_kept _)), Hget.
    apply kept_entries_lookup; [by rewrite length_fmap|].
    exists j. split; [done|]. rewrite list_lookup_fmap, Hrow. split; [done|]. lia.
Qed.

Lemma RemoveAndRenumberDependees_graph_witness :
  exists m',
    Data.RemoveAndRenumberDependees (JRenumbering.mk [0; 1; kInvalidJ; 2] 3)
      (CsrMatrix.mk [0; 2; 3; 3; 3] [2; 3; 2]) = Some m' /\
    CsrMatrix.RowCount m' = 3 /\
    CsrMatrix.GetRow m' 0 = Some [2] /\
    CsrMatrix.GetRow m' 1 = Some [].
Proof.
  destruct (RemoveAndRenumberDependees_graph [false; false; true; false]
              (JRenumbering.mk [0; 1; kInvalidJ; 2] 3)
              [[2; 3]; [2]; []; []] (CsrMatrix.mk [0; 2; 3; 3; 3] [2; 3; 2]))
    as (m' & E & Hcount & Hrow & _).
  - vm_compute. discriminate.
  - vm_compute. discriminate.
  - reflexivity.
  - reflexivity.
  - repeat constructor.
  - reflexivity.
  - exists m'. split; [exact E|]. split; [exact Hcount|].
    split; [exact (Hrow 0%nat)|exact (Hrow 1%nat)].
Defined.

(** ** Range *)

Lemma values_interval (a b : N) :
  a <= b -> b <= kInvalidJ ->
  Range.values (Range.mk a b) = (fun i => a + N.of_nat i) <$> seq 0 (N.to_nat (b - a)).
Proof.
  intros Hab Hb. unfold Range.values, Range.size. simpl.
  rewrite uint32_sub_small by (unfold kInvalidJ, uint32_modulus in *; lia).
  apply list_fmap_ext. intros i x Hx.
  apply lookup_seq in Hx as [-> Hi]. simpl.
  apply to_uint32_small. unfold kInvalidJ, uint32_modulus in *. lia.
Qed.

Lemma interval_app (a b c : N) :
  a <= b -> b <= c ->
  ((fun i => a + N.of_nat i) <$> seq 0 (N.to_nat (b - a))) ++
  ((fun i => b + N.of_nat i) <$> seq 0 (N.to_nat (c - b))) =
  (fun i => a + N.of_nat i) <$> seq 0 (N.to_nat (c - a)).
Proof.
  intros Hab Hbc.
  replace (N.to_nat (c - a)) with (N.to_nat (b - a) + N.to_nat (c - b))%nat by lia.
  rewrite seq_app, fmap_app. f_equal. simpl.
  apply list_eq. intros i. rewrite !list_lookup_fmap.
  destruct (decide (i < N.to_nat (c - b))%nat) as [Hi|Hi].
  - rewrite !lookup_seq_lt by done. simpl. f_equal. lia.
  - by rewrite !lookup_seq_ge by lia.
Qed.

(** The pieces cut at a nondecreasing sequence of bounds make up the whole
    interval. *)
Lemma concat_intervals (bound : nat -> N) (n : nat) :
  (forall i, (i < n)%nat -> bound i <= bound (S i)) ->
  concat ((fun i => (fun k => bound i + N.of_nat k) <$>
                      seq 0 (N.to_nat (bound (S i) - bound i))) <$> seq 0 n) =
  (fun k => bound 0%nat + N.of_nat k) <$> seq 0 (N.to_nat (bound n - bound 0%nat)).
Proof.
  intros Hmono. induction n as [|n IH].
  - simpl. by rewrite N.sub_diag.
  - rewrite seq_S, fmap_app, concat_app, IH by (intros; apply Hmono; lia).
    simpl. rewrite app_nil_r. apply interval_app.
    + clear IH. induction n as [|n IH]; [lia|].
      etrans; [apply IH; intros; apply Hmono; lia|]. apply Hmono. lia.
    + apply Hmono. lia.
Qed.

Lemma split_bound_le (i t count : N) :
  0 < count -> i * t / count <= (i + 1) * t / count.
Proof. intros Hc. apply N.Div0.div_le_mono. nia. Qed.

Lemma split_bound_top (i t count : N) :
  0 < count -> i <= count -> i * t / count <= t.
Proof.
  intros Hc Hi. etrans; [apply (N.Div0.div_le_mono _ (count * t)); nia|].
  rewrite N.mul_comm, N.div_mul by lia. done.
Qed.

Lemma split_bound_even (i t count : N) :
  0 < count ->
  t / count <= (i + 1) * t / count - i * t / count <= t / count + 1.
Proof.
  intros Hc.
  pose proof (N.div_mod (i * t) count ltac:(lia)) as H1.
  pose proof (N.mod_lt (i * t) count ltac:(lia)) as H1'.
  pose proof (N.div_mod ((i + 1) * t) count ltac:(lia)) as H2.
  pose proof (N.mod_lt ((i + 1) * t) count ltac:(lia)) as H2'.
  pose proof (N.div_mod t count ltac:(lia)) as H3.
  pose proof (N.mod_lt t count ltac:(lia)) as H3'.
  pose proof (split_bound_le i t count Hc) as Hle.
  assert (Hx : (i + 1) * t = i * t + t) by lia.
  rewrite Hx in *. clear Hx.
  generalize dependent (i * t). intros x. revert H3 H3'.
  generalize (x / count) (x mod count) ((x + t) / count) ((x + t) mod count)
             (t / count) (t mod count).
  intros a r1 a' r2 q r3 ? ? ? ? ? ? ?.
  assert (count * a' + r2 = count * a + r1 + (count * q + r3)) by lia.
  split.
  - assert (~ a' - a < q); [|lia]. intros Hlt.
    assert (a' + 1 <= a + q) by lia.
    assert (count * (a' + 1) <= count * (a + q)) by (apply N.mul_le_mono_l; lia).
    lia.
  - assert (~ q + 1 < a' - a); [|lia]. intros Hlt.
    assert (a + q + 2 <= a') by lia.
    assert (count * (a + q + 2) <= count * a') by (apply N.mul_le_mono_l; lia).
    lia.
Qed.

(** The ranges that [SplitEvenly] returns, with their bounds. *)
Lemma SplitEvenly_parts (to count : N) :
  to <= kInvalidJ -> count <= kInvalidJ ->
  exists parts,
    Range.SplitEvenly count (Range.upto to) = Some parts /\
    length parts = N.to_nat count /\
    (0 < count -> concat (Range.values <$> parts) = Range.values (Range.upto to)) /\
    (forall p, p ∈ parts ->
       to / count <= Range.size p /\ Range.size p <= to / count + 1).
Proof.
  intros Hto Hcount.
  assert (Hv : Range.values (Range.upto count) =
               (fun i => 0 + N.of_nat i) <$> seq 0 (N.to_nat count)).
  { unfold Range.upto. rewrite (values_interval 0 count) by (done || lia).
    by rewrite N.sub_0_r. }
  unfold Range.SplitEvenly. simpl. rewrite Hv, <- list_fmap_compose.
  eexists. split; [done|].
  assert (Hpart : forall i, (i < N.to_nat count)%nat ->
            Range.new
              (to_uint32 (to_uint64 ((0 + N.of_nat i) * to) / count))
              (to_uint32 (to_uint64 (to_uint64 (0 + N.of_nat i + 1) * to) / count)) =
            Range.mk (N.of_nat i * to / count) (N.of_nat (S i) * to / count)).
  { intros i Hi.
    assert (Hc : 0 < count) by lia.
    pose proof (split_bound_top (N.of_nat i) to count Hc ltac:(lia)) as H1.
    pose proof (split_bound_top (N.of_nat (S i)) to count Hc ltac:(lia)) as H2.
    pose proof (split_bound_le (N.of_nat i) to count Hc) as H3.
    replace (0 + N.of_nat i + 1) with (N.of_nat (S i)) by lia.
    rewrite N.add_0_l.
    unfold to_uint64 at 3.
    rewrite (N.mod_small (N.of_nat (S i)))
      by (unfold kInvalidJ, uint64_modulus in *; lia).
    unfold to_uint64.
    rewrite !N.mod_small by (unfold kInvalidJ, uint64_modulus in *; nia).
    rewrite !to_uint32_small by (unfold kInvalidJ, uint32_modulus in *; lia).
    unfold Range.new. f_equal.
    replace (N.of_nat i + 1) with (N.of_nat (S i)) in H3 by lia. lia. }
  split; [by rewrite length_fmap, length_seq|]. split.
  - intros Hc.
    rewrite <- list_fmap_compose.
    rewrite (list_fmap_ext _
      (fun i => (fun k => N.of_nat i * to / count + N.of_nat k) <$>
                  seq 0 (N.to_nat (N.of_nat (S i) * to / count - N.of_nat i * to / count)))
      (seq 0 (N.to_nat count))).
    + rewrite (concat_intervals (fun i => N.of_nat i * to / count)).
      * cbn beta. rewrite N2Nat.id. change (N.of_nat 0) with 0.
        rewrite N.mul_0_l, N.Div0.div_0_l, (N.mul_comm count), N.div_mul, N.sub_0_r by lia.
        unfold Range.upto. by rewrite (values_interval 0 to), N.sub_0_r by (done || lia).
      * intros i Hi. replace (N.of_nat (S i)) with (N.of_nat i + 1) by lia.
        by apply split_bound_le.
    + intros i x Hx. apply lookup_seq in Hx as [-> Hi]. simpl.
      rewrite Hpart by done.
      apply values_interval.
      * replace (N.of_nat (S i)) with (N.of_nat i + 1) by lia.
        by apply split_bound_le.
      * etrans; [apply split_bound_top; lia|done].
  - intros p Hp. apply list_elem_of_fmap in Hp as (i & -> & Hi).
    apply elem_of_seq in Hi. simpl. rewrite Hpart by lia.
    assert (Hc : 0 < count) by lia.
    pose proof (split_bound_top (N.of_nat (S i)) to count Hc ltac:(lia)) as H2.
    pose proof (split_bound_even (N.of_nat i) to count Hc) as H3.
    pose proof (split_bound_le (N.of_nat i) to count Hc) as H4.
    replace (N.of_nat i + 1) with (N.of_nat (S i)) in H3, H4 by lia.
    unfold Range.size. simpl.
    rewrite uint32_sub_small by (unfold kInvalidJ, uint32_modulus in *; lia). lia.
Qed.

(** [SplitEvenly] cuts [Range(to)] into [count] consecutive ranges that
    together visit exactly the values of the range, in order, and whose
    sizes differ by at most one. *)
Theorem SplitEvenly_partition (to count : N) :
  to <= kInvalidJ -> count <= kInvalidJ ->
  exists parts,
    Range.SplitEvenly count (Range.upto to) = Some parts /\
    length parts = N.to_nat count /\
    (0 < count -> concat (Range.values <$> parts) = Range.values (Range.upto to)) /\
    (forall p, p ∈ parts ->
       to / count <= Range.size p /\ Range.size p <= to / count + 1).
Proof. apply SplitEvenly_parts. Qed.

Lemma SplitEvenly_partition_witness :
  exists parts,
    Range.SplitEvenly 3 (Range.upto 10) = Some parts /\
    length parts = 3%nat /\
    concat (Range.values <$> parts) = Range.values (Range.upto 10).
Proof.
  destruct (SplitEvenly_partition 10 3) as (parts & E & Hlen & Hcat & _);
    [vm_compute; discriminate|vm_compute; discriminate|].
  exists parts. split; [exact E|]. split; [exact Hlen|]. apply Hcat. reflexivity.
Defined.

(** ** ProductIterator *)

Lemma path_app {A} (next : A -> option A) (x y : A) (l1 l2 : list A) (e : option A) :
  path next x l1 (Some y) -> path next y l2 e -> path next x (l1 ++ y :: l2) e.
Proof.
  revert x. induction l1 as [|z l1 IH]; intros x H1 H2; simpl in *.
  - done.
  - destruct H1 as [H1 H1']. split; [done|]. by apply IH.
Qed.

Section ProductIteratorFacts.
Context {T : Type}.
Implicit Types (f : list T) (fs : list (list T)) (cs : list N) (ps : list T).

Lemma selects_functional fs cs ps ps' :
  selects fs cs ps -> selects fs cs ps' -> ps = ps'.
Proof.
  intros H. revert ps'. induction H as [|f c x fs cs ps Hx H IH]; intros ps' H'.
  - by inversion H'.
  - inversion H' as [|? ? x' ? ? ps'' Hx' H'']; subst.
    rewrite Hx in Hx'. inversion Hx'; subst. f_equal. by apply IH.
Qed.

Lemma selects_length fs cs ps :
  selects fs cs ps -> length cs = length fs /\ length ps = length fs.
Proof. induction 1; simpl; lia. Qed.

(** *** The cursors in odometer order *)

Lemma block_path f fs cs (k : nat) :
  N.of_nat (length f) <= kInvalidJ ->
  (k < length f)%nat ->
  path (next_cursor (f :: fs)) (N.of_nat k :: cs)
       ((fun c => c :: cs) <$> (N.of_nat <$> seq (S k) (length f - S k)))
       ((fun cs' => 0 :: cs') <$> next_cursor fs cs).
Proof.
  intros Hf Hk. remember (length f - S k)%nat as d eqn:Hd.
  revert k Hk Hd. induction d as [|d IH]; intros k Hk Hd.
  - simpl.
    rewrite to_uint32_small by (unfold kInvalidJ, uint32_modulus in *; lia).
    assert (H : (N.of_nat k + 1 <? N.of_nat (length f)) = false)
      by (apply N.ltb_ge; lia).
    by rewrite H.
  - cbn [seq fmap list_fmap path].
    assert (Hs : to_uint32 (N.of_nat k + 1) = N.of_nat (S k)).
    { rewrite to_uint32_small by (unfold kInvalidJ, uint32_modulus in *; lia). lia. }
    split.
    + simpl. rewrite Hs.
      assert (H : (N.of_nat (S k) <? N.of_nat (length f)) = true)
        by (apply N.ltb_lt; lia).
      by rewrite H.
    + apply IH; lia.
Qed.

Lemma blocks_path f fs cs (l : list (list N)) :
  (0 < length f)%nat -> N.of_nat (length f) <= kInvalidJ ->
  path (next_cursor fs) cs l None ->
  path (next_cursor (f :: fs)) (0 :: cs)
       (((fun c => c :: cs) <$> (N.of_nat <$> seq 1 (length f - 1))) ++
        (l ≫= fun cs' => (fun c => c :: cs') <$> (N.of_nat <$> seq 0 (length f))))
       None.
Proof.
  intros Hpos Hf. revert cs. induction l as [|cs' l IH]; intros cs Hp.
  - simpl in Hp. simpl. rewrite app_nil_r.
    pose proof (block_path f fs cs 0 Hf Hpos) as H. rewrite Hp in H.
    by replace (length f - 1)%nat with (length f - 1)%nat in H by lia.
  - destruct Hp as [Hn Hp]. cbn [mbind list_bind].
    destruct f as [|x f]; [simpl in Hpos; lia|].
    cbn [length seq fmap list_fmap app].
    replace (S (length f) - 1)%nat with (length f) by lia.
    apply path_app.
    + pose proof (block_path (x :: f) fs cs 0 Hf Hpos) as H. rewrite Hn in H.
      simpl in H. by rewrite Nat.sub_0_r in H.
    + specialize (IH cs' Hp). cbn [length] in IH.
      by replace (S (length f) - 1)%nat with (length f) in IH by lia.
Qed.

Lemma all_cursors_path fs :
  sized fs ->
  exists l, all_cursors fs = replicate (length fs) 0 :: l /\
            path (next_cursor fs) (replicate (length fs) 0) l None.
Proof.
  induction 1 as [|f fs [Hpos Hf] Hs (l & El & Hp)].
  - exists []. done.
  - cbn [all_cursors]. rewrite El. cbn [mbind list_bind length replicate].
    destruct f as [|x f]; [simpl in Hpos; lia|].
    cbn [length seq fmap list_fmap app].
    eexists. split; [done|].
    pose proof (blocks_path (x :: f) fs _ l Hpos Hf Hp) as H.
    cbn [length] in H. by replace (S (length f) - 1)%nat with (length f) in H by lia.
Qed.

Lemma all_cursors_products fs :
  Forall2 (selects fs) (all_cursors fs) (products fs).
Proof.
  induction fs as [|f fs IH]; simpl.
  - repeat constructor.
  - induction IH as [|cs ps csl psl Hsel _ IH]; simpl; [constructor|].
    apply Forall2_app; [|done].
    apply Forall2_same_length_lookup_2.
    { by rewrite !length_fmap, length_seq. }
    intros i c x Hc Hx. rewrite !list_lookup_fmap in Hc. rewrite list_lookup_fmap in Hx.
    destruct (seq 0 (length f) !! i) as [k|] eqn:Ek; [|done].
    apply lookup_seq in Ek as [-> Hk]. simpl in Hc. inversion Hc; subst c.
    destruct (f !! i) as [y|] eqn:Ey; [|done]. simpl in Hx. inversion Hx; subst x.
    constructor; [|done]. by rewrite Nat2N.id.
Qed.

(** *** The iterator *)

Lemma new_loop_spec fs (pre : list (list T)) (acc : list T) :
  sized fs ->
  ProductIterator.new_loop (pre ++ fs) (seq (length pre) (length fs)) acc =
    Some (acc ++ omap head fs, false).
Proof.
  intros Hs. revert pre acc. induction Hs as [|f fs [Hpos Hf] Hs IH]; intros pre acc.
  - simpl. by rewrite app_nil_r.
  - cbn [length seq ProductIterator.new_loop].
    rewrite vget_lookup, lookup_app_r, Nat.sub_diag by lia.
    cbn [lookup list_lookup mbind option_bind].
    destruct f as [|x f]; [simpl in Hpos; lia|].
    assert (H : (N.of_nat (length (x :: f)) =? 0) = false)
      by (apply N.eqb_neq; simpl; lia).
    rewrite H. change (vget (x :: f) 0) with (Some x). cbn [mbind option_bind].
    specialize (IH (pre ++ [x :: f]) (acc ++ [x])).
    rewrite length_app, <- app_assoc in IH. simpl in IH.
    rewrite Nat.add_1_r in IH. rewrite IH.
    by rewrite <- app_assoc.
Qed.

Lemma new_loop_empty fs (pre : list (list T)) (acc : list T) :
  ~ Forall (fun f => (0 < length f)%nat) fs ->
  exists product,
    ProductIterator.new_loop (pre ++ fs) (seq (length pre) (length fs)) acc =
      Some (product, true).
Proof.
  revert pre acc. induction fs as [|f fs IH]; intros pre acc Hne.
  - destruct Hne. constructor.
  - cbn [length seq ProductIterator.new_loop].
    rewrite vget_lookup, lookup_app_r, Nat.sub_diag by lia.
    cbn [lookup list_lookup mbind option_bind].
    destruct f as [|x f].
    + eexists. done.
    + assert (H : (N.of_nat (length (x :: f)) =? 0) = false)
        by (apply N.eqb_neq; simpl; lia).
      rewrite H. change (vget (x :: f) 0) with (Some x). cbn [mbind option_bind].
      specialize (IH (pre ++ [x :: f]) (acc ++ [x])).
      rewrite length_app, <- app_assoc in IH. simpl in IH.
      rewrite Nat.add_1_r in IH. apply IH.
      intros HF. apply Hne. constructor; [simpl; lia|done].
Qed.

Lemma selects_heads fs :
  sized fs -> selects fs (replicate (length fs) 0) (omap head fs).
Proof.
  induction 1 as [|f fs [Hpos Hf] Hs IH]; simpl.
  - constructor.
  - destruct f as [|x f]; [simpl in Hpos; lia|]. simpl. by constructor.
Qed.

Lemma SetCursor_spec (pre : list (list T)) f fs (cpre : list N) c cs
    (ppre : list T) x ps (value : N) (y : T) (e : bool) :
  length cpre = length pre -> length ppre = length pre ->
  f !! N.to_nat value = Some y ->
  ProductIterator.SetCursor (N.of_nat (length pre)) value
    (ProductIterator.mk (pre ++ f :: fs) (cpre ++ c :: cs) (ppre ++ x :: ps) e) =
  Some (ProductIterator.mk (pre ++ f :: fs) (cpre ++ value :: cs) (ppre ++ y :: ps) e).
Proof.
  intros Hc Hp Hy. unfold ProductIterator.SetCursor. cbn [ProductIterator.cursor_
    ProductIterator.factors_ ProductIterator.product_ ProductIterator.empty_].
  unfold vset, vget. rewrite Nat2N.id.
  rewrite lookup_app_r, Nat.sub_diag by lia.
  destruct (decide (length pre < length (cpre ++ c :: cs))%nat) as [_|Hn];
    [|rewrite length_app in Hn; simpl in Hn; lia].
  cbn [mbind option_bind lookup list_lookup]. rewrite Hy. cbn [mbind option_bind].
  destruct (decide (length pre < length (ppre ++ x :: ps))%nat) as [_|Hn];
    [|rewrite length_app in Hn; simpl in Hn; lia].
  cbn [mbind option_bind]. do 2 f_equal.
  - rewrite <- Hc. by rewrite insert_app_r_alt, Nat.sub_diag by lia.
  - rewrite <- Hp. by rewrite insert_app_r_alt, Nat.sub_diag by lia.
Qed.

Lemma Next_loop_spec fs : forall (pre : list (list T)) (cpre : list N) cs
    (ppre : list T) ps,
  sized fs ->
  length cpre = length pre -> length ppre = length pre ->
  selects fs cs ps ->
  exists it',
    ProductIterator.Next_loop (seq (length pre) (length fs))
      (ProductIterator.mk (pre ++ fs) (cpre ++ cs) (ppre ++ ps) false) = Some it' /\
    ProductIterator.factors_ it' = pre ++ fs /\
    match next_cursor fs cs with
    | Some cs' =>
        exists ps',
          it' = ProductIterator.mk (pre ++ fs) (cpre ++ cs') (ppre ++ ps') false /\
          selects fs cs' ps'
    | None => ProductIterator.empty_ it' = true
    end.
Proof.
  induction fs as [|f fs IH]; intros pre cpre cs ppre ps Hs Hc Hp Hsel.
  - inversion Hsel; subst. simpl. eexists. split; [done|]. split; done.
  - inversion Hsel as [|? c x ? cs0 ps0 Hx Hsel']; subst.
    inversion Hs as [|? ? [Hpos Hf] Hs']; subst.
    cbn [length seq ProductIterator.Next_loop ProductIterator.cursor_
         ProductIterator.factors_].
    rewrite !vget_lookup.
    rewrite (lookup_app_r cpre), (lookup_app_r pre) by lia.
    rewrite Hc, !Nat.sub_diag. cbn [lookup list_lookup mbind option_bind next_cursor].
    destruct (to_uint32 (c + 1) <? N.of_nat (length f)) eqn:Hlt.
    + apply N.ltb_lt in Hlt.
      destruct (lookup_lt_is_Some_2 f (N.to_nat (to_uint32 (c + 1)))) as [y Hy]; [lia|].
      rewrite (SetCursor_spec pre f fs cpre c cs0 ppre x ps0 _ y false Hc Hp Hy).
      eexists. split; [done|]. split; [done|].
      exists (y :: ps0). split; [done|]. by constructor.
    + destruct f as [|x0 f]; [simpl in Hpos; lia|].
      rewrite (SetCursor_spec pre (x0 :: f) fs cpre c cs0 ppre x ps0 0 x0 false Hc Hp)
        by done.
      cbn [mbind option_bind].
      destruct (IH (pre ++ [x0 :: f]) (cpre ++ [0]) cs0 (ppre ++ [x0]) ps0)
        as (it' & E & Hfs & Hnext); [done|rewrite !length_app; simpl; lia..|done|].
      rewrite length_app, <- !app_assoc in E. simpl in E.
      rewrite Nat.add_1_r in E. rewrite E.
      exists it'. split; [done|]. rewrite <- app_assoc in Hfs. split; [done|].
      destruct (next_cursor fs cs0) as [cs'|]; simpl; [|done].
      destruct Hnext as (ps' & -> & Hsel'').
      exists (x0 :: ps'). rewrite <- !app_assoc. split; [done|]. by constructor.
Qed.

Lemma visited_path fs cs ps (l : list (list N)) (pl : list (list T)) :
  sized fs -> N.of_nat (length fs) <= kInvalidJ ->
  path (next_cursor fs) cs l None ->
  Forall2 (selects fs) (cs :: l) (ps :: pl) ->
  ProductIterator.visited (S (length l)) (ProductIterator.mk fs cs ps false) =
    Some (ps :: pl).
Proof.
  intros Hs Hn. revert cs ps pl. induction l as [|cs' l IH]; intros cs ps pl Hp HF.
  - inversion HF as [|? ? ? ? Hsel HF']; subst. inversion HF'; subst.
    simpl in Hp. cbn [ProductIterator.visited ProductIterator.IsEmpty
      ProductIterator.empty_ length].
    unfold ProductIterator.Next. cbn [ProductIterator.factors_].
    rewrite to_uint32_small, Nat2N.id
      by (unfold kInvalidJ, uint32_modulus in *; lia).
    destruct (Next_loop_spec fs [] [] cs [] ps Hs eq_refl eq_refl Hsel)
      as (it' & E & _ & Hnext).
    simpl in E. rewrite E. rewrite Hp in Hnext. cbn [mbind option_bind].
    destruct it' as [a b c d]. simpl in Hnext. subst d. done.
  - inversion HF as [|? ? ? ? Hsel HF']; subst.
    inversion HF' as [|? ps' ? pl' Hsel' HF'']; subst.
    destruct Hp as [Hnx Hp].
    cbn [ProductIterator.visited ProductIterator.IsEmpty ProductIterator.empty_ length].
    unfold ProductIterator.Next. cbn [ProductIterator.factors_].
    rewrite to_uint32_small, Nat2N.id
      by (unfold kInvalidJ, uint32_modulus in *; lia).
    destruct (Next_loop_spec fs [] [] cs [] ps Hs eq_refl eq_refl Hsel)
      as (it' & E & _ & Hnext).
    simpl in E. rewrite E. rewrite Hnx in Hnext. cbn [mbind option_bind].
    destruct Hnext as (ps'' & -> & Hsel''). simpl.
    rewrite (selects_functional _ _ _ _ Hsel'' Hsel').
    change (ProductIterator.visited (S (length l))
              (ProductIterator.mk fs cs' ps' false) ≫=
            (fun rest => Some (ps :: rest)) = Some (ps :: ps' :: pl')).
    by rewrite (IH cs' ps' pl' Hp HF').
Qed.

(** The loop over a [ProductIterator] sees every combination of one entry
    from each factor exactly once, the entry of the first factor changing
    fastest; with an empty factor it sees nothing. *)
Theorem ProductIterator_visits_products fs :
  N.of_nat (length fs) <= kInvalidJ ->
  Forall (fun f => N.of_nat (length f) <= kInvalidJ) fs ->
  exists it,
    ProductIterator.new fs = Some it /\
    ProductIterator.visited (length (products fs)) it = Some (products fs).
Proof.
  intros Hn Hsz.
  assert (Hlen : N.to_nat (to_uint32 (N.of_nat (length fs))) = length fs).
  { rewrite to_uint32_small by (unfold kInvalidJ, uint32_modulus in *; lia). lia. }
  destruct (decide (Forall (fun f => (0 < length f)%nat) fs)) as [Hpos|Hempty].
  - assert (Hs : sized fs).
    { unfold sized. rewrite Forall_forall in *. intros f Hf. split; auto. }
    unfold ProductIterator.new. rewrite Hlen.
    pose proof (new_loop_spec fs [] [] Hs) as E. simpl in E. rewrite E.
    cbn [mbind option_bind]. eexists. split; [done|].
    destruct (all_cursors_path fs Hs) as (l & El & Hp).
    pose proof (all_cursors_products fs) as HF. rewrite El in HF.
    destruct (products fs) as [|ps pl] eqn:Eps; [by inversion HF|].
    pose proof (selects_heads fs Hs) as Hh.
    assert (ps = omap head fs) as <-.
    { inversion HF; subst. by eapply selects_functional. }
    assert (Hl : length (ps :: pl) = S (length l)).
    { by rewrite <- (Forall2_length _ _ _ HF). }
    rewrite Hl. by apply visited_path.
  - unfold ProductIterator.new. rewrite Hlen.
    destruct (new_loop_empty fs [] [] Hempty) as (product & E). simpl in E.
    rewrite E. cbn [mbind option_bind]. eexists. split; [done|].
    assert (Hnil : products fs = []).
    { clear -Hempty. induction fs as [|f fs IH]; [destruct Hempty; constructor|].
      simpl. destruct f as [|x f].
      - clear. induction (products fs) as [|p l IH]; [done|]. simpl. done.
      - rewrite IH; [done|]. intros H. apply Hempty. constructor; [simpl; lia|done]. }
    rewrite Hnil. done.
Qed.
End ProductIteratorFacts.

Lemma ProductIterator_visits_products_witness :
  exists it,
    ProductIterator.new [[1; 2]; [3; 4]] = Some it /\
    ProductIterator.visited 4 it = Some [[1; 3]; [2; 3]; [1; 4]; [2; 4]].
Proof.
  apply (ProductIterator_visits_products [[1; 2]; [3; 4]]).
  - vm_compute. discriminate.
  - repeat constructor; vm_compute; discriminate.
Defined.

(** ** JProduct *)

Lemma std_unique_elem_of (l : list N) (j : N) : j ∈ std_unique l <-> j ∈ l.
Proof.
  induction l as [|x l IH]; [done|].
  cbn [std_unique]. destruct l as [|y l].
  - done.
  - destruct (x =? y) eqn:E.
    + apply N.eqb_eq in E. subst y. rewrite IH. rewrite !elem_of_cons. tauto.
    + rewrite elem_of_cons, IH. by rewrite (elem_of_cons (y :: l)).
Qed.

Lemma std_unique_sorted (l : list N) :
  StronglySorted N.le l -> StronglySorted N.lt (std_unique l).
Proof.
  induction 1 as [|x l Hs IH Hall]; [constructor|].
  cbn [std_unique]. destruct l as [|y l].
  - repeat constructor.
  - destruct (x =? y) eqn:E; [done|].
    apply N.eqb_neq in E. constructor; [done|].
    apply Forall_forall. intros z Hz. apply (proj1 (std_unique_elem_of _ _)) in Hz.
    rewrite Forall_forall in Hall.
    pose proof (Hall y (list_elem_of_here _ _)) as Hxy.
    apply elem_of_cons in Hz as [->|Hz]; [lia|].
    inversion Hs as [|? ? _ Hy]; subst. rewrite Forall_forall in Hy.
    specialize (Hy z Hz). lia.
Qed.

Lemma strictly_sorted_unique (l1 l2 : list N) :
  StronglySorted N.lt l1 -> StronglySorted N.lt l2 ->
  (forall j, j ∈ l1 <-> j ∈ l2) -> l1 = l2.
Proof.
  intros H1. revert l2. induction H1 as [|x l1 H1 IH Hx]; intros l2 H2 Heq.
  - destruct l2 as [|y l2]; [done|].
    destruct (Heq y) as [_ H]. by apply elem_of_nil in H; [|apply list_elem_of_here].
  - destruct H2 as [|y l2 H2 Hy].
    { destruct (Heq x) as [H _]. by apply elem_of_nil in H; [|apply list_elem_of_here]. }
    rewrite Forall_forall in Hx, Hy.
    assert (x = y) as <-.
    { destruct (Heq x) as [Hxy _]. specialize (Hxy (list_elem_of_here _ _)).
      destruct (Heq y) as [_ Hyx]. specialize (Hyx (list_elem_of_here _ _)).
      apply elem_of_cons in Hxy as [?|Hxy]; [done|].
      apply elem_of_cons in Hyx as [?|Hyx]; [done|].
      specialize (Hx _ Hyx). specialize (Hy _ Hxy). lia. }
    f_equal. apply IH; [done|]. intros j. split; intros Hj.
    + destruct (Heq j) as [H _]. specialize (H (list_elem_of_further _ _ _ Hj)).
      apply elem_of_cons in H as [->|H]; [|done]. specialize (Hx _ Hj). lia.
    + destruct (Heq j) as [_ H]. specialize (H (list_elem_of_further _ _ _ Hj)).
      apply elem_of_cons in H as [->|H]; [|done]. specialize (Hy _ Hj). lia.
Qed.

Lemma JProduct_of_sorted (and_js : list N) : StronglySorted N.lt (JProduct_of and_js).
Proof.
  apply std_unique_sorted, StronglySorted_merge_sort; [apply _|].
  intros x y. apply N.le_ge_cases.
Qed.

Lemma JProduct_of_elem_of (and_js : list N) (j : N) :
  j ∈ JProduct_of and_js <-> j ∈ and_js.
Proof.
  unfold JProduct_of. rewrite std_unique_elem_of.
  by rewrite (merge_sort_Permutation N.le and_js).
Qed.

(** The constructor of [JProduct] gives a canonical key: the factors in
    strictly ascending order, the same key for two factor lists exactly
    when they hold the same J's, whatever the order and the repetitions. *)
Theorem JProduct_of_canonical (and_js1 and_js2 : list N) :
  StronglySorted N.lt (JProduct_of and_js1) /\
  (forall j, j ∈ JProduct_of and_js1 <-> j ∈ and_js1) /\
  (JProduct_of and_js1 = JProduct_of and_js2 <->
   forall j, j ∈ and_js1 <-> j ∈ and_js2).
Proof.
  split; [apply JProduct_of_sorted|]. split; [apply JProduct_of_elem_of|]. split.
  - intros Heq j.
    by rewrite <- (JProduct_of_elem_of and_js1), <- (JProduct_of_elem_of and_js2), Heq.
  - intros Heq. apply strictly_sorted_unique; [apply JProduct_of_sorted..|].
    intros j. by rewrite !JProduct_of_elem_of.
Qed.

Lemma JProduct_And_elem_of (f1 f2 : JProduct) (j : N) :
  j ∈ JProduct_And f1 f2 <-> j ∈ f1 \/ j ∈ f2.
Proof.
  unfold JProduct_And. rewrite JProduct_of_elem_of.
  by rewrite (merge_Permutation N.le f1 f2), elem_of_app.
Qed.

(** [JProduct::And] is the union of the two factor sets as a canonical key:
    it does not depend on the order of the arguments, a product combined
    with itself is itself, and combining is associative. *)
Theorem JProduct_And_union (and_js1 and_js2 and_js3 : list N) :
  let f1 := JProduct_of and_js1 in
  let f2 := JProduct_of and_js2 in
  let f3 := JProduct_of and_js3 in
  JProduct_And f1 f2 = JProduct_of (and_js1 ++ and_js2) /\
  JProduct_And f1 f2 = JProduct_And f2 f1 /\
  JProduct_And f1 f1 = f1 /\
  JProduct_And (JProduct_And f1 f2) f3 = JProduct_And f1 (JProduct_And f2 f3).
Proof.
  intros f1 f2 f3.
  assert (Hs : forall a b, StronglySorted N.lt (JProduct_And a b)).
  { intros a b. apply JProduct_of_sorted. }
  repeat split.
  - apply strictly_sorted_unique; [apply Hs|apply JProduct_of_sorted|].
    intros j. rewrite JProduct_And_elem_of, JProduct_of_elem_of, elem_of_app.
    unfold f1, f2. by rewrite !JProduct_of_elem_of.
  - apply strictly_sorted_unique; [apply Hs..|].
    intros j. rewrite !JProduct_And_elem_of. tauto.
  - apply strictly_sorted_unique; [apply Hs|apply JProduct_of_sorted|].
    intros j. rewrite !JProduct_And_elem_of. tauto.
  - apply strictly_sorted_unique; [apply Hs..|].
    intros j. rewrite !JProduct_And_elem_of. tauto.
Qed.

(** ** FeatureMapBase: lookups *)

Section FeatureMapLookups.
Context {Feature : Type} `{EqDecision Feature}.

Implicit Types (m : FeatureMapBase.Map Feature) (s : FeatureMapBase.t Feature).
Implicit Types (k : Feature) (r : FeatureMapBase.FeatureAndJ Feature).

Lemma reserve_found m k e :
  FeatureMapBase.find m k = Some e -> FeatureMapBase.reserve m k = m.
Proof. intros E. unfold FeatureMapBase.reserve. by rewrite E. Qed.

(** The J that a constant lookup returns, read off the records. *)
Lemma FeatureToJConst_J s k :
  (FeatureMapBase.FeatureToJConst k s).1 =
  match FeatureMapBase.find (FeatureMapBase.feature_to_j_ s) k with
  | Some (Some r) => FeatureMapBase.GetJ r
  | _ => kInvalidJ
  end.
Proof.
  unfold FeatureMapBase.FeatureToJConst. rewrite find_reserve.
  by destruct (FeatureMapBase.find _ _) as [[?|]|].
Qed.

Lemma lookups_found s k r :
  FeatureMapBase.Inv s ->
  (k, Some r) ∈ FeatureMapBase.feature_to_j_ s ->
  FeatureMapBase.FeatureToJ k s = Some (FeatureMapBase.GetJ r, s) /\
  FeatureMapBase.FeatureToJConst k s = (FeatureMapBase.GetJ r, s) /\
  FeatureMapBase.HasFeature k s = (true, s).
Proof.
  intros (_ & Hnd & _) Hin.
  pose proof (elem_of_find _ _ _ Hnd Hin) as Ef.
  unfold FeatureMapBase.FeatureToJ, FeatureMapBase.FeatureToJConst,
    FeatureMapBase.HasFeature.
  rewrite (reserve_found _ _ _ Ef), Ef. by destruct s.
Qed.

Lemma same_records_same_J s s' k :
  FeatureMapBase.Inv s -> FeatureMapBase.Inv s' ->
  (forall r, (k, Some r) ∈ FeatureMapBase.feature_to_j_ s <->
             (k, Some r) ∈ FeatureMapBase.feature_to_j_ s') ->
  (FeatureMapBase.FeatureToJConst k s').1 = (FeatureMapBase.FeatureToJConst k s).1.
Proof.
  intros (_ & Hnd & _) (_ & Hnd' & _) Hsame. rewrite !FeatureToJConst_J.
  destruct (FeatureMapBase.find (FeatureMapBase.feature_to_j_ s') k) as [[r'|]|] eqn:E'.
  - apply find_elem_of, Hsame in E'. by rewrite (elem_of_find _ _ _ Hnd E').
  - destruct (FeatureMapBase.find (FeatureMapBase.feature_to_j_ s) k) as [[r|]|] eqn:E;
      [|done..].
    apply find_elem_of, Hsame in E. rewrite (elem_of_find _ _ _ Hnd' E) in E'. done.
  - destruct (FeatureMapBase.find (FeatureMapBase.feature_to_j_ s) k) as [[r|]|] eqn:E;
      [|done..].
    apply find_elem_of, Hsame in E. rewrite (elem_of_find _ _ _ Hnd' E) in E'. done.
Qed.

(** A key that [FeatureToJ] has interned keeps its J: looking it up again,
    by [FeatureToJ], [FeatureToJConst] or [HasFeature], finds that J and
    changes nothing; the J's of the other keys are as before; and the J
    handed to a new key is the old size of the map, which grows by one. *)
Theorem FeatureToJ_lookup s k j s1 :
  FeatureMapBase.reachable s ->
  FeatureMapBase.FeatureToJ k s = Some (j, s1) ->
  FeatureMapBase.FeatureToJ k s1 = Some (j, s1) /\
  FeatureMapBase.FeatureToJConst k s1 = (j, s1) /\
  FeatureMapBase.HasFeature k s1 = (true, s1) /\
  (forall k', k' <> k ->
     (FeatureMapBase.FeatureToJConst k' s1).1 = (FeatureMapBase.FeatureToJConst k' s).1) /\
  (FeatureMapBase.Size s1 = FeatureMapBase.Size s \/
   (j = FeatureMapBase.Size s /\ FeatureMapBase.Size s1 = FeatureMapBase.Size s + 1)).
Proof.
  intros HI%reachable_Inv E.
  pose proof (Inv_FeatureToJ _ _ _ _ HI E) as HI1.
  destruct (FeatureToJ_record _ _ _ _ HI E) as ((r & Hin & <-) & _ & Hkeep & Hback).
  destruct (lookups_found _ _ _ HI1 Hin) as (H1 & H2 & H3).
  split; [done|]. split; [done|]. split; [done|]. split.
  - intros k' Hne. apply same_records_same_J; [done..|].
    intros r'. split; [apply Hkeep|by apply Hback].
  - pose proof HI as (Hseq & _).
    destruct (FeatureToJ_cases _ _ _ _ HI E) as
      [(r0 & _ & _ & ->)|(_ & Hj & Hlt & ->)]; [by left|right].
    unfold FeatureMapBase.Size. simpl.
    rewrite !to_uint32_small by (unfold kInvalidJ, uint32_modulus in *; lia).
    done.
Qed.

(** A key that was never interned: the constant lookups answer [kInvalidJ]
    and [false], hand out no J and leave the J's of the other keys alone;
    [FeatureToJ] then gives the key the next J, the size of the map, unless
    the J's are used up, in which case its [CHECK] stops the program. *)
Theorem FeatureToJConst_missing_key s k :
  FeatureMapBase.reachable s ->
  (forall r, (k, Some r) ∉ FeatureMapBase.feature_to_j_ s) ->
  exists s',
    FeatureMapBase.FeatureToJConst k s = (kInvalidJ, s') /\
    FeatureMapBase.HasFeature k s = (false, s') /\
    FeatureMapBase.Size s' = FeatureMapBase.Size s /\
    (forall k',
       (FeatureMapBase.FeatureToJConst k' s').1 = (FeatureMapBase.FeatureToJConst k' s).1) /\
    (FeatureMapBase.Size s < kInvalidJ ->
     exists s'', FeatureMapBase.FeatureToJ k s' = Some (FeatureMapBase.Size s, s'') /\
                 FeatureMapBase.Size s'' = FeatureMapBase.Size s + 1) /\
    (FeatureMapBase.Size s = kInvalidJ -> FeatureMapBase.FeatureToJ k s' = None).
Proof.
  intros HI%reachable_Inv Hnew.
  pose proof (Inv_reserve s k HI) as HI'.
  set (s' := FeatureMapBase.mk (FeatureMapBase.j_sequence_ s)
               (FeatureMapBase.reserve (FeatureMapBase.feature_to_j_ s) k)
               (FeatureMapBase.j_to_feature_synced_ s)
               (FeatureMapBase.j_to_feature_ s)) in *.
  assert (Hfind : forall r,
            FeatureMapBase.find (FeatureMapBase.feature_to_j_ s) k <> Some (Some r)).
  { intros r Ef. apply (Hnew r). by apply find_elem_of. }
  assert (Hdef : default None (FeatureMapBase.find (FeatureMapBase.feature_to_j_ s) k)
                 = None).
  { destruct (FeatureMapBase.find _ k) as [[r|]|] eqn:Ef; [|done..].
    by destruct (Hfind r). }
  pose proof HI as (Hseq & _).
  exists s'. split; [|split; [|split; [|split; [|split]]]].
  - unfold FeatureMapBase.FeatureToJConst. by rewrite find_reserve, Hdef.
  - unfold FeatureMapBase.HasFeature. by rewrite find_reserve, Hdef.
  - done.
  - intros k'. apply same_records_same_J; [done..|].
    intros r. unfold s'. simpl. by rewrite elem_of_reserve_Some.
  - intros Hlt. unfold FeatureMapBase.Size in *.
    rewrite to_uint32_small in * by (unfold kInvalidJ, uint32_modulus in *; lia).
    assert (Hfind'' : FeatureMapBase.find
              (FeatureMapBase.reserve (FeatureMapBase.feature_to_j_ s') k) k = Some None).
    { rewrite find_reserve. unfold s'. simpl. by rewrite find_reserve, Hdef. }
    unfold FeatureMapBase.FeatureToJ. rewrite Hfind''.
    change (FeatureMapBase.j_sequence_ s') with (FeatureMapBase.j_sequence_ s).
    rewrite to_uint32_small by (unfold kInvalidJ, uint32_modulus in *; lia).
    assert (Hne : (kInvalidJ =? FeatureMapBase.j_sequence_ s) = false)
      by (apply N.eqb_neq; lia).
    rewrite Hne. cbn [negb CHECK mbind option_bind].
    eexists. split; [done|]. simpl.
    unfold to_uint64. rewrite N.mod_small by (unfold kInvalidJ, uint64_modulus in *; lia).
    apply to_uint32_small. unfold kInvalidJ, uint32_modulus in *. lia.
  - intros Heq. unfold FeatureMapBase.Size in *.
    rewrite to_uint32_small in * by (unfold kInvalidJ, uint32_modulus in *; lia).
    assert (Hfind'' : FeatureMapBase.find
              (FeatureMapBase.reserve (FeatureMapBase.feature_to_j_ s') k) k = Some None).
    { rewrite find_reserve. unfold s'. simpl. by rewrite find_reserve, Hdef. }
    unfold FeatureMapBase.FeatureToJ. rewrite Hfind''.
    change (FeatureMapBase.j_sequence_ s') with (FeatureMapBase.j_sequence_ s).
    rewrite to_uint32_small by (unfold kInvalidJ, uint32_modulus in *; lia).
    rewrite Heq. done.
Qed.

(** In a synced map every J below the size has a key, and looking that key
    up gives the J back; a J from the size on has none: [JToFeature] stops
    at its [CHECK]. *)
Theorem JToFeature_FeatureToJ s j :
  FeatureMapBase.reachable s ->
  FeatureMapBase.j_to_feature_synced_ s = true ->
  (j < FeatureMapBase.Size s ->
   exists k, FeatureMapBase.JToFeature j s = Some k /\
             FeatureMapBase.FeatureToJConst k s = (j, s) /\
             FeatureMapBase.FeatureToJ k s = Some (j, s)) /\
  (FeatureMapBase.Size s <= j -> FeatureMapBase.JToFeature j s = None).
Proof.
  intros HI%reachable_Inv Hs.
  pose proof HI as (Hseq & _ & _ & _ & _ & Hsync).
  destruct (Hsync Hs) as (Hlen & _ & Hbwd).
  unfold FeatureMapBase.Size.
  rewrite to_uint32_small by (unfold kInvalidJ, uint32_modulus in *; lia).
  unfold FeatureMapBase.JToFeature, FeatureMapBase.JToFeatureUnsafe, vget.
  rewrite Hs. cbn [CHECK mbind option_bind]. split.
  - intros Hj. destruct (Hbwd (N.to_nat j)) as (r & Hr & HJ & Hin); [lia|].
    rewrite Hr. cbn [mbind option_bind]. eexists. split; [done|].
    rewrite N2Nat.id in HJ. rewrite <- HJ.
    by destruct (lookups_found _ _ _ HI Hin) as (? & ? & _).
  - intros Hj. rewrite lookup_ge_None_2 by lia. done.
Qed.
End FeatureMapLookups.

Lemma FeatureToJ_lookup_witness :
  exists s1 : FeatureMap,
    FeatureMapBase.FeatureToJ "b"%string map_with_a = Some (1, s1) /\
    FeatureMapBase.FeatureToJ "b"%string s1 = Some (1, s1) /\
    FeatureMapBase.FeatureToJConst "b"%string s1 = (1, s1).
Proof.
  assert (Hr : FeatureMapBase.reachable map_with_a).
  { eapply (FeatureMapBase.reach_FeatureToJ _ "a"%string);
      [apply FeatureMapBase.reach_empty|reflexivity]. }
  eexists. split; [reflexivity|].
  pose proof (FeatureToJ_lookup map_with_a "b"%string 1 _ Hr eq_refl) as (H1 & H2 & _).
  split; [exact H1|exact H2].
Defined.

Lemma FeatureToJConst_missing_key_witness :
  exists s' : FeatureMap,
    FeatureMapBase.FeatureToJConst "b"%string map_with_a = (kInvalidJ, s') /\
    FeatureMapBase.HasFeature "b"%string map_with_a = (false, s') /\
    FeatureMapBase.Size s' = 1.
Proof.
  destruct (FeatureToJConst_missing_key map_with_a "b"%string)
    as (s' & H1 & H2 & H3 & _).
  - eapply (FeatureMapBase.reach_FeatureToJ _ "a"%string);
      [apply FeatureMapBase.reach_empty|reflexivity].
  - intros r Hin. apply list_elem_of_singleton in Hin. discriminate.
  - exists s'. split; [exact H1|]. split; [exact H2|]. exact H3.
Defined.

Lemma JToFeature_FeatureToJ_witness :
  (exists k, FeatureMapBase.JToFeature 0 map_with_a_synced = Some k /\
             FeatureMapBase.FeatureToJConst k map_with_a_synced =
               (0, map_with_a_synced) /\
             FeatureMapBase.FeatureToJ k map_with_a_synced =
               Some (0, map_with_a_synced)) /\
  FeatureMapBase.JToFeature 1 map_with_a_synced = None.
Proof.
  assert (Hr : FeatureMapBase.reachable map_with_a_synced).
  { eapply (FeatureMapBase.reach_Sync map_with_a); [|reflexivity].
    eapply (FeatureMapBase.reach_FeatureToJ _ "a"%string);
      [apply FeatureMapBase.reach_empty|reflexivity]. }
  destruct (JToFeature_FeatureToJ map_with_a_synced 0 Hr eq_refl) as [H0 _].
  destruct (JToFeature_FeatureToJ map_with_a_synced 1 Hr eq_refl) as [_ H1].
  split; [apply H0; reflexivity|apply H1; vm_compute; discriminate].
Defined.

(** ** Model and GradBoost: sizes and renumbering *)

Lemma resize_length {A} (dflt : A) (size : N) (v : list A) :
  length (Model.resize dflt size v) = N.to_nat size.
Proof. unfold Model.resize. rewrite length_app, length_take, length_replicate. lia. Qed.

Lemma resize_lookup_old {A} (dflt : A) (size : N) (v : list A) (j : nat) :
  (j < length v)%nat -> (j < N.to_nat size)%nat ->
  Model.resize dflt size v !! j = v !! j.
Proof.
  intros Hj Hs. unfold Model.resize.
  rewrite lookup_app_l by (rewrite length_take; lia). by rewrite lookup_take_lt.
Qed.

Lemma resize_lookup_new {A} (dflt : A) (size : N) (v : list A) (j : nat) :
  (length v <= j)%nat -> (j < N.to_nat size)%nat ->
  Model.resize dflt size v !! j = Some dflt.
Proof.
  intros Hj Hs. unfold Model.resize.
  rewrite lookup_app_r by (rewrite length_take; lia).
  apply lookup_replicate_2. rewrite length_take. lia.
Qed.

(** [Model::SetSize] gives every per-J vector the new size; the J's that
    were there keep their entries and are not new, the J's added have
    weight 0 and are new, and past the new size [IsFeatureNew] has nothing
    to read. *)
Theorem SetSize_new_features (size : N) (m : Model.t) :
  model_consistent m -> size <= kInvalidJ ->
  Model.current_creation_time m < kInvalidJ ->
  let m' := Model.SetSize size m in
  model_consistent m' /\
  Model.GetSize m' = size /\
  (forall j, (j < length (Model.w m))%nat -> (j < N.to_nat size)%nat ->
     Model.w m' !! j = Model.w m !! j /\
     Model.delta_w m' !! j = Model.delta_w m !! j /\
     Model.IsFeatureNew m' (N.of_nat j) = Some false) /\
  (forall j, (length (Model.w m) <= j)%nat -> (j < N.to_nat size)%nat ->
     Model.w m' !! j = Some 0%Q /\
     Model.delta_w m' !! j = Some 0%Q /\
     Model.IsFeatureNew m' (N.of_nat j) = Some true) /\
  (forall j, (N.to_nat size <= j)%nat -> Model.IsFeatureNew m' (N.of_nat j) = None).
Proof.
  intros (Hp & Hd & Hl & Hc & Hn & Hold) Hsize Ht m'.
  assert (Htime : to_uint32 (Model.current_creation_time m + 1) =
                  Model.current_creation_time m + 1).
  { apply to_uint32_small. unfold kInvalidJ, uint32_modulus in *. lia. }
  assert (Hct : Model.creation_time m' =
                take (N.to_nat size) (Model.creation_time m) ++
                replicate (N.to_nat size - length (Model.w m))
                          (Model.current_creation_time m + 1)).
  { unfold m', Model.SetSize. cbn [Model.creation_time]. rewrite Htime.
    rewrite resize_length. unfold Model.resize. rewrite <- Hc.
    destruct (decide (N.to_nat size <= length (Model.creation_time m))%nat) as [Hle|Hgt].
    - replace (N.to_nat size - length (Model.creation_time m))%nat with 0%nat by lia.
      cbn [replicate]. rewrite !app_nil_r.
      apply take_ge. rewrite length_take. lia.
    - rewrite (take_ge (Model.creation_time m) (N.to_nat size)) by lia.
      by rewrite take_app_length. }
  split; [|split; [|split; [|split]]].
  - unfold model_consistent. rewrite Hct.
    unfold m', Model.SetSize.
    cbn [Model.precision Model.w Model.delta_w Model.loss_derivative
         Model.current_creation_time].
    rewrite !resize_length, length_app, length_take, length_replicate, Htime.
    repeat split; try lia.
    apply Forall_app. split.
      * apply Forall_take. eapply Forall_impl; [exact Hold|]. simpl. intros; lia.
      * apply Forall_replicate. lia.
  - unfold Model.GetSize, m', Model.SetSize. cbn [Model.w].
    rewrite resize_length, N2Nat.id. apply to_uint32_small.
    unfold kInvalidJ, uint32_modulus in *. lia.
  - intros j Hj Hs. unfold Model.IsFeatureNew, vget. rewrite Nat2N.id, Hct.
    unfold m', Model.SetSize. cbn [Model.w Model.delta_w Model.current_creation_time].
    rewrite !resize_lookup_old by lia. split; [done|]. split; [done|].
    rewrite lookup_app_l by (rewrite length_take; lia).
    rewrite lookup_take_lt by lia.
    destruct (lookup_lt_is_Some_2 (Model.creation_time m) j) as [c Hcj]; [lia|].
    rewrite Hcj. cbn [mbind option_bind]. rewrite Htime. f_equal.
    rewrite Forall_forall in Hold.
    pose proof (Hold c (list_elem_of_lookup_2 _ _ _ Hcj)).
    apply N.eqb_neq. lia.
  - intros j Hj Hs. unfold Model.IsFeatureNew, vget. rewrite Nat2N.id, Hct.
    unfold m', Model.SetSize. cbn [Model.w Model.delta_w Model.current_creation_time].
    rewrite !resize_lookup_new by lia. split; [done|]. split; [done|].
    rewrite lookup_app_r by (rewrite length_take; lia).
    rewrite lookup_replicate_2 by (rewrite length_take; lia).
    cbn [mbind option_bind]. by rewrite Htime, N.eqb_refl.
  - intros j Hj. unfold Model.IsFeatureNew, vget. rewrite Nat2N.id, Hct.
    rewrite lookup_ge_None_2; [done|].
    rewrite length_app, length_take, length_replicate. lia.
Qed.

Lemma SetSize_new_features_witness :
  Model.GetSize (Model.SetSize 3 model_two_weights) = 3 /\
  Model.w (Model.SetSize 3 model_two_weights) !! 1%nat = Some 3%Q /\
  Model.IsFeatureNew (Model.SetSize 3 model_two_weights) 1 = Some false /\
  Model.IsFeatureNew (Model.SetSize 3 model_two_weights) 2 = Some true.
Proof.
  destruct (SetSize_new_features 3 model_two_weights)
    as (_ & Hsize & Hold & Hnew & _).
  - unfold model_consistent. simpl.
    repeat split; try done; try (vm_compute; discriminate);
      repeat constructor; vm_compute; discriminate.
  - vm_compute. discriminate.
  - reflexivity.
  - split; [exact Hsize|].
    destruct (Hold 1%nat) as (Hw & _ & Hf); [simpl; lia|simpl; lia|].
    destruct (Hnew 2%nat) as (_ & _ & Hn); [simpl; lia|simpl; lia|].
    split; [exact Hw|]. split; [exact Hf|exact Hn].
Defined.

(** [GradBoost::RemoveAndRenumberJs] leaves, of every per-J vector of the
    model and of both majorizers, the entries of the kept J's in their
    order, so that the weight of a kept J is found at its new J; the model
    has the new size. *)
Theorem GradBoost_RemoveAndRenumberJs_kept (js_to_remove : list bool)
    (r : JRenumbering.t) (g : GradBoost.t) (model : Model.t) :
  N.of_nat (length js_to_remove) <= kInvalidJ ->
  JRenumbering.RemoveJs js_to_remove = Some r ->
  model_consistent model ->
  length (Model.w model) = length js_to_remove ->
  length (Majorizer.of_j_ (GradBoost.training_majorizer_ g)) = length js_to_remove ->
  length (Majorizer.of_j_ (GradBoost.holdout_majorizer_ g)) = length js_to_remove ->
  exists g' model',
    GradBoost.RemoveAndRenumberJs r g model = Some (g', model') /\
    model_consistent model' /\
    Model.GetSize model' = JRenumbering.next_j r /\
    Model.w model' = kept_entries js_to_remove (Model.w model) /\
    Model.delta_w model' = kept_entries js_to_remove (Model.delta_w model) /\
    Model.creation_time model' = kept_entries js_to_remove (Model.creation_time model) /\
    Majorizer.of_j_ (GradBoost.training_majorizer_ g') =
      kept_entries js_to_remove (Majorizer.of_j_ (GradBoost.training_majorizer_ g)) /\
    Majorizer.of_j_ (GradBoost.holdout_majorizer_ g') =
      kept_entries js_to_remove (Majorizer.of_j_ (GradBoost.holdout_majorizer_ g)) /\
    (forall j n,
       js_to_remove !! j = Some false ->
       JRenumbering.j_to_new_j r !! j = Some n ->
       Model.w model' !! N.to_nat n = Model.w model !! j).
Proof.
  intros Hfit Hr (Hp & Hd & Hl & Hc & Hn & Hold) Hw Ht Hh.
  destruct (built_spec js_to_remove r Hfit Hr) as (Hnext & Hlen & Hv).
  assert (Hres : GradBoost.RemoveAndRenumberJs r g model =
            Some (GradBoost.mk
                    (Majorizer.mk
                       (kept_entries js_to_remove
                          (Majorizer.of_j_ (GradBoost.training_majorizer_ g)))
                       (Majorizer.log_loss_ (GradBoost.training_majorizer_ g))
                       (Majorizer.cpu_operation_count_flat_materialization_
                          (GradBoost.training_majorizer_ g)))
                    (Majorizer.mk
                       (kept_entries js_to_remove
                          (Majorizer.of_j_ (GradBoost.holdout_majorizer_ g)))
                       (Majorizer.log_loss_ (GradBoost.holdout_majorizer_ g))
                       (Majorizer.cpu_operation_count_flat_materialization_
                          (GradBoost.holdout_majorizer_ g)))
                    (GradBoost.inertia_factor_ g) (GradBoost.step_multiplier_ g)
                    (GradBoost.allow_undo_ g) (GradBoost.deterministic_ g),
                  Model.mk
                    (kept_entries js_to_remove (Model.precision model))
                    (kept_entries js_to_remove (Model.w model))
                    (kept_entries js_to_remove (Model.delta_w model))
                    (kept_entries js_to_remove (Model.loss_derivative model))
                    (kept_entries js_to_remove (Model.creation_time model))
                    (Model.current_creation_time model) (Model.prev_total_loss model)
                    (Model.total_loss model) (Model.synced_with_weights model)
                    (Model.iteration_no model))).
  { unfold GradBoost.RemoveAndRenumberJs.
    destruct (JRenumbering.j_to_new_j r) as [|n0 rest] eqn:Ej.
    - simpl in Hlen. destruct js_to_remove; [|done].
      destruct g as [[tv ? ?] [hv ? ?] ? ? ? ?], model as [p w d l c ? ? ? ? ?].
      simpl in *.
      destruct tv; [|done]. destruct hv; [|done]. destruct w; [|done].
      destruct p; [|done]. destruct d; [|done]. destruct l; [|done].
      destruct c; [|done]. done.
    - unfold Majorizer.RemoveAndRenumberJs, Model.RemoveAndRenumberJs.
      rewrite !(RenumberIndicies_kept _ js_to_remove r) by (done || congruence).
      done. }
  eexists _, _. split; [exact Hres|].
  cbn [Model.w Model.delta_w Model.creation_time Model.precision Model.loss_derivative
       GradBoost.training_majorizer_ GradBoost.holdout_majorizer_ Majorizer.of_j_].
  pose proof (fun A (v : list A) => kept_entries_length js_to_remove v) as Hk.
  split; [|split; [|split; [|split; [|split; [|split; [|split]]]]]]; try done.
  - unfold model_consistent.
    cbn [Model.w Model.delta_w Model.creation_time Model.precision Model.loss_derivative
         Model.current_creation_time].
    pose proof (Hk _ (Model.w model) Hw).
    pose proof (Hk _ (Model.precision model) ltac:(congruence)).
    pose proof (Hk _ (Model.delta_w model) ltac:(congruence)).
    pose proof (Hk _ (Model.loss_derivative model) ltac:(congruence)).
    pose proof (Hk _ (Model.creation_time model) ltac:(congruence)).
    pose proof (count_kept_le_length js_to_remove).
    repeat split; try lia.
    rewrite Forall_forall in *. intros c Hin. apply Hold.
    by eapply kept_entries_elem_of.
  - unfold Model.GetSize. cbn [Model.w]. rewrite (Hk _ _ Hw), Hnext.
    pose proof (count_kept_le_length js_to_remove).
    apply to_uint32_small. unfold kInvalidJ, uint32_modulus in *. lia.
  - intros j n Hb Hj. rewrite (Hv j false Hb) in Hj. inversion Hj; subst n.
    destruct (lookup_lt_is_Some_2 (Model.w model) j) as [x Hx].
    { rewrite Hw. by eapply lookup_lt_Some. }
    rewrite Hx. apply kept_entries_lookup; [done|].
    exists j. split; [done|]. split; [done|]. lia.
Qed.

Lemma GradBoost_RemoveAndRenumberJs_kept_witness :
  exists g' model',
    GradBoost.RemoveAndRenumberJs (JRenumbering.mk [kInvalidJ; 0] 1)
      optimizer_two_weights model_two_weights = Some (g', model') /\
    Model.GetSize model' = 1 /\
    Model.w model' = [3%Q].
Proof.
  destruct (GradBoost_RemoveAndRenumberJs_kept [true; false]
              (JRenumbering.mk [kInvalidJ; 0] 1)
              optimizer_two_weights model_two_weights)
    as (g' & model' & E & _ & Hsize & Hw & _).
  - vm_compute. discriminate.
  - reflexivity.
  - unfold model_consistent. simpl.
    repeat split; try done; try (vm_compute; discriminate);
      repeat constructor; vm_compute; discriminate.
  - reflexivity.
  - reflexivity.
  - reflexivity.
  - exists g', model'. split; [exact E|]. split; [exact Hsize|exact Hw].
Defined.

(** ** Dim1Majorizer: the minimum *)

Section MinimumFacts.
Variable sqrt : Q -> Q.
Hypothesis sqrt_nonneg : forall x, (0 <= sqrt x)%Q.

Local Open Scope Q_scope.

Lemma Qsquare_nonneg (x : Q) : 0 <= x * x.
Proof.
  destruct (Qlt_le_dec x 0) as [H|H].
  - assert (HE1 : (x * x) == ((- x) * (- x))) by ring.
      rewrite HE1. clear HE1.
    apply Qmult_le_0_compat; lra.
  - apply Qmult_le_0_compat; lra.
Qed.

Lemma quadratic_minimum (A B l x w : Q) :
  0 < A -> 0 <= l ->
  (0 < x /\ 2 * A * x == - B - l) \/
  (x < 0 /\ 2 * A * x == - B + l) \/
  (x == 0 /\ - l <= B /\ B <= l) ->
  A * (x * x) + B * x + l * Qabs x <= A * (w * w) + B * w + l * Qabs w.
Proof.
  intros HA Hl Hx.
  assert (Hsq : 0 <= A * ((w - x) * (w - x))).
  { apply Qmult_le_0_compat; [lra|]. apply Qsquare_nonneg. }
  assert (Hww : 0 <= A * (w * w)).
  { apply Qmult_le_0_compat; [lra|]. apply Qsquare_nonneg. }
  destruct (Qlt_le_dec w 0) as [Hw|Hw].
  - rewrite (Qabs_neg w) by lra.
    assert (Hlw : 0 <= l * - w) by (apply Qmult_le_0_compat; lra).
    destruct Hx as [[Hx E]|[[Hx E]|[Hx [H1 H2]]]].
    + rewrite (Qabs_pos x) by lra.
      assert (EB : B == - (2 * A * x) - l) by lra.
      assert (Hlx : 0 <= l * x) by (apply Qmult_le_0_compat; lra).
      assert (HE2 : (A * (x * x) + B * x + l * x) == (- (A * (x * x)))) by (rewrite EB; ring).
      rewrite HE2. clear HE2.
      assert (HE3 : (A * (w * w) + B * w + l * - w) == (A * ((w - x) * (w - x)) - A * (x * x) + 2 * (l * - w))) by (rewrite EB; ring).
      rewrite HE3. clear HE3.
      lra.
    + rewrite (Qabs_neg x) by lra.
      assert (EB : B == - (2 * A * x) + l) by lra.
      assert (HE4 : (A * (x * x) + B * x + l * - x) == (- (A * (x * x)))) by (rewrite EB; ring).
      rewrite HE4. clear HE4.
      assert (HE5 : (A * (w * w) + B * w + l * - w) == (A * ((w - x) * (w - x)) - A * (x * x))) by (rewrite EB; ring).
      rewrite HE5. clear HE5.
      lra.
    + rewrite Hx. rewrite (Qabs_pos 0) by lra.
      assert (Hbw : 0 <= (l - B) * - w) by (apply Qmult_le_0_compat; lra).
      assert (HE6 : (A * (w * w) + B * w + l * - w) == (A * (w * w) + (l - B) * - w)) by ring.
      rewrite HE6. clear HE6.
      lra.
  - rewrite (Qabs_pos w) by lra.
    assert (Hlw : 0 <= l * w) by (apply Qmult_le_0_compat; lra).
    destruct Hx as [[Hx E]|[[Hx E]|[Hx [H1 H2]]]].
    + rewrite (Qabs_pos x) by lra.
      assert (EB : B == - (2 * A * x) - l) by lra.
      assert (HE7 : (A * (x * x) + B * x + l * x) == (- (A * (x * x)))) by (rewrite EB; ring).
      rewrite HE7. clear HE7.
      assert (HE8 : (A * (w * w) + B * w + l * w) == (A * ((w - x) * (w - x)) - A * (x * x))) by (rewrite EB; ring).
      rewrite HE8. clear HE8.
      lra.
    + rewrite (Qabs_neg x) by lra.
      assert (EB : B == - (2 * A * x) + l) by lra.
      assert (HE9 : (A * (x * x) + B * x + l * - x) == (- (A * (x * x)))) by (rewrite EB; ring).
      rewrite HE9. clear HE9.
      assert (HE10 : (A * (w * w) + B * w + l * w) == (A * ((w - x) * (w - x)) - A * (x * x) + 2 * (l * w))) by (rewrite EB; ring).
      rewrite HE10. clear HE10.
      lra.
    + rewrite Hx. rewrite (Qabs_pos 0) by lra.
      assert (Hbw : 0 <= (l + B) * w) by (apply Qmult_le_0_compat; lra).
      assert (HE11 : (A * (w * w) + B * w + l * w) == (A * (w * w) + (l + B) * w)) by ring.
      rewrite HE11. clear HE11.
      lra.
Qed.

(** Without inertia and with step multiplier 1, in arithmetic without
    rounding, [GetMinimum] returns a minimum of the function that the
    majorizer represents: no weight gives a smaller value.  The curvature
    [a_ + 4 L2] is positive. *)
Theorem GetMinimum_minimizes (m : Dim1Majorizer) (r : Regularizations)
    (w0 : Q) (rows_with_j : N) (w : Q) :
  valid_regularizations r ->
  0 < a_ m + L2 no_rounding sqrt r rows_with_j (a_ m) * 4 ->
  exists w_min,
    GetMinimum no_rounding sqrt m r w0 0 1 rows_with_j = Some w_min /\
    Dim1Majorizer_value m (L1 no_rounding sqrt r rows_with_j w0 (a_ m))
      (L2 no_rounding sqrt r rows_with_j (a_ m)) w0 w_min <=
    Dim1Majorizer_value m (L1 no_rounding sqrt r rows_with_j w0 (a_ m))
      (L2 no_rounding sqrt r rows_with_j (a_ m)) w0 w.
Proof.
  intros Hr Hpos.
  pose proof (L1_nonneg no_rounding no_rounding_rounding sqrt sqrt_nonneg r rows_with_j w0 (a_ m) Hr)
    as HL1.
  unfold Dim1Majorizer_value, GetMinimum.
  set (l1v := L1 no_rounding sqrt r rows_with_j w0 (a_ m)) in *.
  set (l2v := L2 no_rounding sqrt r rows_with_j (a_ m)) in *.
  cbv zeta. unfold double_add, double_sub, double_mul, double_div, no_rounding.
  set (aj := a_ m + l2v * 4) in *.
  set (bj := a_ m * w0 - 1 * b_ m + 0 * aj).
  assert (Hne : Qeqb aj 0 = false) by (apply Qeqb_false; lra).
  rewrite Hne.
  set (bj' := if Qgtb bj 0 then std_max 0 (bj - l1v * 2)
              else std_min 0 (bj + l1v * 2)).
  eexists. split; [reflexivity|].
  assert (Hx : aj * (bj' / aj) == bj') by (field; lra).
  assert (HApos : 0 < a_ m / 4 + l2v).
  { assert (E : a_ m / 4 + l2v == aj * (1 # 4)) by (unfold aj; field).
    rewrite E. apply Qmult_lt_0_compat; [done|reflexivity]. }
  apply (quadratic_minimum (a_ m / 4 + l2v) ((b_ m - a_ m * w0) / 2) l1v);
    [done|done|].
  assert (HB : (b_ m - a_ m * w0) / 2 == - bj * (1 # 2)) by (unfold bj; field).
  assert (HA : 2 * (a_ m / 4 + l2v) * (bj' / aj) == bj' * (1 # 2)).
  { assert (E : 2 * (a_ m / 4 + l2v) == aj * (1 # 2)) by (unfold aj; field).
    rewrite E. field. lra. }
  rewrite HA, HB.
  assert (Hi : 0 < / aj) by (by apply Qinv_lt_0_compat).
  assert (Hcases : (0 < bj' /\ bj' == bj - l1v * 2) \/
                   (bj' < 0 /\ bj' == bj + l1v * 2) \/
                   (bj' == 0 /\ - (l1v * 2) <= bj /\ bj <= l1v * 2)).
  { unfold bj', Qgtb, std_max, std_min.
    repeat match goal with
           | |- context [Qltb ?x ?y] =>
               let E := fresh "E" in
               destruct (Qltb x y) eqn:E;
               [apply Qltb_true in E|apply Qltb_false in E]
           end;
      first [ left; split; lra
            | right; left; split; lra
            | right; right; split; [reflexivity|lra] ]. }
  clearbody bj'. unfold Qdiv.
  destruct Hcases as [[H1 H2]|[[H1 H2]|[H1 H2]]].
  - left. split; [apply Qmult_lt_0_compat; lra|lra].
  - right. left. split; [|lra].
    assert (E : bj' * / aj == - ((- bj') * / aj)) by ring. rewrite E.
    assert (0 < (- bj') * / aj) by (apply Qmult_lt_0_compat; lra). lra.
  - right. right. split; [rewrite H1; ring|lra].
Qed.
End MinimumFacts.

Lemma GetMinimum_minimizes_witness :
  exists w_min,
    GetMinimum no_rounding sqrt_approx (mkDim1Majorizer 2 1) regularizations_l1_l2 1 0 1 1
      = Some w_min /\
    (Dim1Majorizer_value (mkDim1Majorizer 2 1)
       (L1 no_rounding sqrt_approx regularizations_l1_l2 1 1 2)
       (L2 no_rounding sqrt_approx regularizations_l1_l2 1 2) 1 w_min <=
     Dim1Majorizer_value (mkDim1Majorizer 2 1)
       (L1 no_rounding sqrt_approx regularizations_l1_l2 1 1 2)
       (L2 no_rounding sqrt_approx regularizations_l1_l2 1 2) 1 0)%Q.
Proof.
  apply (GetMinimum_minimizes sqrt_approx sqrt_approx_nonneg (mkDim1Majorizer 2 1)
           regularizations_l1_l2 1 1 0).
  - repeat split; vm_compute; discriminate.
  - vm_compute. reflexivity.
Defined.

(** ** Sgd: what a pass leaves alone *)

Lemma N_to_double_nonneg (n : N) : (0 <= N_to_double n)%Q.
Proof. unfold N_to_double, Qle. simpl. lia. Qed.

Lemma GetLearningRate_nonneg (s : Sgd.t) (training_rows : N) :
  (0 <= Sgd.start_learning_rate s)%Q -> (0 <= Sgd.decay_speed s)%Q ->
  (0 <= Sgd.GetLearningRate s training_rows)%Q.
Proof.
  intros Hs Hd. unfold Sgd.GetLearningRate. cbv zeta.
  apply Qdiv_nonneg; [done|].
  pose proof (N_to_double_nonneg (Sgd.learning_rate_counter_ s)) as H1.
  pose proof (N_to_double_nonneg training_rows) as H2.
  pose proof (Qdiv_nonneg _ _ H1 H2) as H3.
  pose proof (Qmult_le_0_compat _ _ Hd H3). lra.
Qed.

(** The step of the regularization pass moves a weight towards zero and
    not past it. *)
Lemma regularize_between (l1 l2 learning_rate old_value : Q) :
  (0 <= l1)%Q -> (0 <= l2)%Q -> (0 <= learning_rate)%Q ->
  let new_value := Sgd.regularize l1 l2 learning_rate old_value in
  ((0 <= new_value /\ new_value <= old_value) \/
   (old_value <= new_value /\ new_value <= 0))%Q.
Proof.
  intros H1 H2 Hr. unfold Sgd.regularize. cbv zeta.
  set (new := (old_value - (l1 * Sign old_value + 2 * l2 * old_value) * learning_rate)%Q).
  assert (Hl : (0 <= l1 * learning_rate)%Q) by (by apply Qmult_le_0_compat).
  assert (Hq : (0 <= 2 * l2 * learning_rate)%Q)
    by (apply Qmult_le_0_compat; [lra|done]).
  assert (Hnew : (new == old_value - l1 * learning_rate * Sign old_value
                         - 2 * l2 * learning_rate * old_value)%Q)
    by (unfold new; ring).
  destruct (Qeqb (Sign old_value) (Sign new)) eqn:E;
    [apply Qeqb_true in E|apply Qeqb_false in E]; cbn [negb].
  - destruct (Sign_cases old_value) as [[Ho Eo]|[[Ho Eo]|[Ho Eo]]];
      destruct (Sign_cases new) as [[Hn En]|[[Hn En]|[Hn En]]];
      rewrite Eo, En in E; try (exfalso; lra); rewrite Eo in Hnew.
    + left. split; [lra|].
      assert (0 <= 2 * l2 * learning_rate * old_value)%Q
        by (apply Qmult_le_0_compat; lra).
      lra.
    + left. lra.
    + right. split; [|lra].
      assert (0 <= 2 * l2 * learning_rate * - old_value)%Q
        by (apply Qmult_le_0_compat; lra).
      lra.
  - destruct (Qlt_le_dec old_value 0); [right|left]; split; lra.
Qed.

(** The regularization pass of SGD shrinks: on a training set that has a
    row and a shard (the rate divides by both counts), with coefficients, a
    start rate and a decay speed that are not negative, it returns, and
    every weight ends between zero and its old value, never on the other
    side of zero. *)
Theorem ApplyRegularization_shrinks (regularizations : Regularizations)
    (model : Model.t) (training_rows : N) (shard_count : nat) (s : Sgd.t) :
  (0 < training_rows)%N -> (0 < shard_count)%nat ->
  length (Sgd.weights_ s) = length (Model.w model) ->
  length (Model.creation_time model) = length (Model.w model) ->
  valid_regularization (regularization_ regularizations) ->
  (0 <= Sgd.start_learning_rate s)%Q -> (0 <= Sgd.decay_speed s)%Q ->
  exists s',
    Sgd.ApplyRegularization regularizations model training_rows shard_count s
      = Some s' /\
    length (Sgd.weights_ s') = length (Sgd.weights_ s) /\
    forall j w_j, Sgd.weights_ s !! j = Some w_j ->
      exists w', Sgd.weights_ s' !! j = Some w' /\
        ((0 <= w' /\ w' <= w_j) \/ (w_j <= w' /\ w' <= 0))%Q.
Proof.
  intros _ _ Hw Hc (H1 & H2 & _) Hs Hd.
  destruct (ApplyRegularization_spec regularizations model training_rows
              shard_count s Hw Hc) as (ws & E & Hl & Hws).
  eexists. split; [exact E|]. simpl. split; [done|].
  intros j w_j Hj. destruct (Hws j w_j Hj) as [Hreg Hskip].
  destruct (skipped_total s model j) as [[] Hb].
  { apply lookup_lt_Some in Hj. lia. }
  - exists w_j. split; [by apply Hskip|].
    destruct (Qlt_le_dec w_j 0); [right|left]; split; lra.
  - eexists. split; [by apply Hreg|].
    apply regularize_between; [done|done|].
    apply Qdiv_nonneg; [by apply GetLearningRate_nonneg|apply N_to_double_nonneg].
Qed.

Lemma ApplyRegularization_shrinks_witness :
  exists s',
    Sgd.ApplyRegularization regularizations_l2_quarter model_one_weight 1 2
      sgd_two_shards = Some s' /\
    exists w', Sgd.weights_ s' !! 0%nat = Some w' /\
      ((0 <= w' /\ w' <= 1) \/ (1 <= w' /\ w' <= 0))%Q.
Proof.
  destruct (ApplyRegularization_shrinks regularizations_l2_quarter model_one_weight
              1 2 sgd_two_shards) as (s' & E & _ & H).
  - reflexivity.
  - lia.
  - reflexivity.
  - reflexivity.
  - repeat split; vm_compute; discriminate.
  - vm_compute. discriminate.
  - vm_compute. discriminate.
  - exists s'. split; [exact E|]. apply (H 0%nat 1%Q). reflexivity.
Defined.

(** *** New features only *)

Section NewFeatures.
Variable exp : Q -> Q.
Variable model : Model.t.
Variable mode : Sgd.TrainingMode.
Variable j : N.
Hypothesis j_skipped :
  forall s, Sgd.training_mode_ s = mode -> Sgd.skipped s model j = Some true.

Lemma ProcessOneRow_keeps (training_rows : N) (row_extender : RowExtender.t)
    (s s' : Sgd.t) :
  Sgd.training_mode_ s = mode ->
  Sgd.ProcessOneRow exp model training_rows row_extender s = Some s' ->
  Sgd.training_mode_ s' = mode /\
  Sgd.weights_ s' !! N.to_nat j = Sgd.weights_ s !! N.to_nat j.
Proof.
  intros Hm E. unfold Sgd.ProcessOneRow in E.
  apply bind_Some in E as (dot & _ & E).
  apply bind_Some in E as (weights & Ew & E). inversion E; subst s'; clear E.
  split; [done|]. simpl.
  apply (for_each_invariant
           (fun ws : list Q => ws !! N.to_nat j = Sgd.weights_ s !! N.to_nat j)
           _ _ _ _ eq_refl) in Ew; [done|].
  intros j' ws ws' _ Hws Eb.
  apply bind_Some in Eb as (skip & Es & Eb). destruct skip.
  - inversion Eb as [Hws']. by rewrite <- Hws'.
  - apply bind_Some in Eb as (old & _ & Eb). apply vset_inv in Eb as [_ ->].
    rewrite list_lookup_insert_ne; [done|].
    intros Heq. apply N2Nat.inj in Heq. subst j'.
    rewrite (j_skipped s Hm) in Es. done.
Qed.

Lemma ProcessShard_rows_keeps (data : Data.t) (shard : Shard.t) (s s' : Sgd.t) :
  Sgd.training_mode_ s = mode ->
  Sgd.ProcessShard_rows exp data model shard s = Some s' ->
  Sgd.training_mode_ s' = mode /\
  Sgd.weights_ s' !! N.to_nat j = Sgd.weights_ s !! N.to_nat j.
Proof.
  intros Hm E. unfold Sgd.ProcessShard_rows in E.
  apply bind_Some in E as ([re s1] & El & E). inversion E; subst s1; clear E.
  apply (for_range_partial
           (fun _ (st : RowExtender.t * Sgd.t) =>
              Sgd.training_mode_ st.2 = mode /\
              Sgd.weights_ st.2 !! N.to_nat j = Sgd.weights_ s !! N.to_nat j))
    in El; [done|done|].
  intros i [re0 s0] [re1 s1] _ [Hm0 Hw0] Eb. simpl in *.
  apply bind_Some in Eb as (re' & _ & Eb).
  apply bind_Some in Eb as (s2 & E2 & Eb). inversion Eb as [[Hre Hs1]]. clear Eb.
  subst re1 s1. simpl.
  destruct (ProcessOneRow_keeps _ _ _ _ Hm0 E2) as [Hm2 Hw2].
  split; [done|congruence].
Qed.

Lemma ApplyRegularization_keeps (regularizations : Regularizations)
    (training_rows : N) (shard_count : nat) (s s' : Sgd.t) :
  Sgd.training_mode_ s = mode ->
  Sgd.ApplyRegularization regularizations model training_rows shard_count s = Some s' ->
  Sgd.training_mode_ s' = mode /\
  Sgd.weights_ s' !! N.to_nat j = Sgd.weights_ s !! N.to_nat j.
Proof.
  intros Hm E. unfold Sgd.ApplyRegularization in E.
  apply bind_Some in E as (weights & Ew & E). inversion E; subst s'; clear E.
  split; [done|]. simpl.
  apply (for_range_partial
           (fun _ (ws : list Q) => ws !! N.to_nat j = Sgd.weights_ s !! N.to_nat j))
    in Ew; [done|done|].
  intros i ws ws' _ Hws Eb. unfold Sgd.ApplyRegularization_step in Eb.
  apply bind_Some in Eb as (skip & Es & Eb). destruct skip.
  - inversion Eb as [Hws']. by rewrite <- Hws'.
  - apply bind_Some in Eb as (old & _ & Eb). apply vset_inv in Eb as [_ ->].
    rewrite Nat2N.id. rewrite list_lookup_insert_ne; [done|].
    intros Heq. subst i. rewrite N2Nat.id, (j_skipped s Hm) in Es. done.
Qed.

Lemma MakeOnePass_keeps (regularizations : Regularizations) (data : Data.t)
    (s s' : Sgd.t) (model' : Model.t) :
  Sgd.training_mode_ s = mode ->
  Sgd.MakeOnePass exp regularizations data model s = Some (s', model') ->
  Model.w model' !! N.to_nat j = Model.w model !! N.to_nat j.
Proof.
  intros Hm E. unfold Sgd.MakeOnePass in E.
  apply bind_Some in E as (u1 & _ & E).
  apply bind_Some in E as (u2 & _ & E).
  apply bind_Some in E as (s1 & Es & E).
  apply bind_Some in E as (u3 & _ & E).
  apply bind_Some in E as (u4 & _ & E). inversion E as [[Hs' Hmodel']]. clear E.
  subst model'. simpl.
  apply (for_each_invariant
           (fun st : Sgd.t =>
              Sgd.training_mode_ st = mode /\
              Sgd.weights_ st !! N.to_nat j = Model.w model !! N.to_nat j))
    in Es; [rewrite <- Hs'; by destruct Es| |].
  - done.
  - intros shard st st' _ [Hm0 Hw0] Eb. unfold Sgd.ProcessShard in Eb.
    apply bind_Some in Eb as (st1 & E1 & E2).
    destruct (ProcessShard_rows_keeps _ _ _ _ Hm0 E1) as [Hm1 Hw1].
    destruct (ApplyRegularization_keeps _ _ _ _ _ Hm1 E2) as [Hm2 Hw2].
    split; [done|congruence].
Qed.
End NewFeatures.

(** In the mode NEW_FEATURES a pass of SGD trains the new features only:
    the weight of a J that is not new comes out of [MakeOnePass] as it went
    in, whatever the rows and the regularization. *)
Theorem MakeOnePass_new_features_only (exp : Q -> Q)
    (regularizations : Regularizations) (data : Data.t) (model model' : Model.t)
    (s s' : Sgd.t) (j : N) :
  Sgd.training_mode_ s = Sgd.NEW_FEATURES ->
  Model.IsFeatureNew model j = Some false ->
  Sgd.MakeOnePass exp regularizations data model s = Some (s', model') ->
  Model.w model' !! N.to_nat j = Model.w model !! N.to_nat j.
Proof.
  intros Hm Hold E.
  apply (MakeOnePass_keeps exp model Sgd.NEW_FEATURES j) with (3 := E); [|done].
  intros s0 Hs0. unfold Sgd.skipped. by rewrite Hs0, Hold.
Qed.

Lemma MakeOnePass_new_features_only_witness :
  exists s' model',
    Sgd.MakeOnePass (fun _ => 1%Q) regularizations_none data_one_row
      model_old_and_new sgd_new_features = Some (s', model') /\
    Model.w model' !! 0%nat = Some (1 # 2)%Q /\
    Model.w model' !! 1%nat = Some (2 # 4)%Q.
Proof.
  destruct (Sgd.MakeOnePass (fun _ => 1%Q) regularizations_none data_one_row
              model_old_and_new sgd_new_features) as [[s' model']|] eqn:E;
    [|vm_compute in E; discriminate].
  exists s', model'. split; [reflexivity|]. split.
  - apply (MakeOnePass_new_features_only (fun _ => 1%Q) regularizations_none
             data_one_row model_old_and_new model' sgd_new_features s' 0
             eq_refl eq_refl E).
  - vm_compute in E. inversion E. reflexivity.
Defined.

(** ** RowExtender: the engine's graph of scenario 5 *)

Lemma dependees_ab_in_pairs : dependees_in_pairs dependees_ab parents_ab.
Proof.
  split.
  - intros p Hp. change (CsrMatrix.RowCount dependees_ab) with 3 in Hp.
    assert (Hcases : p = 0 \/ p = 1 \/ p = 2) by lia.
    assert (Hpar : forall c p1 p2,
              parents_ab c = Some (p1, p2) <-> c = 2 /\ p1 = 0 /\ p2 = 1).
    { intros c p1 p2. unfold parents_ab. destruct (c =? 2) eqn:E.
      - apply N.eqb_eq in E. split; [intros Heq; by inversion Heq|].
        intros (_ & -> & ->). done.
      - apply N.eqb_neq in E. split; [done|]. intros (? & _). done. }
    destruct Hcases as [-> | [-> | ->]].
    + exists [2]. split; [reflexivity|]. split; [apply NoDup_singleton|].
      intros c. rewrite list_elem_of_singleton. split.
      * intros ->. exists 0, 1. split; [reflexivity|by left].
      * intros (p1 & p2 & Hc & _). by apply Hpar in Hc as (-> & _).
    + exists [2]. split; [reflexivity|]. split; [apply NoDup_singleton|].
      intros c. rewrite list_elem_of_singleton. split.
      * intros ->. exists 0, 1. split; [reflexivity|by right].
      * intros (p1 & p2 & Hc & _). by apply Hpar in Hc as (-> & _).
    + exists []. split; [reflexivity|]. split; [apply NoDup_nil_2|].
      intros c. split; [by intros ?%elem_of_nil|].
      intros (p1 & p2 & Hc & Hor). apply Hpar in Hc as (_ & -> & ->).
      destruct Hor; discriminate.
  - intros c p1 p2 Hc. unfold parents_ab in Hc. destruct (c =? 2) eqn:E; [|done].
    apply N.eqb_eq in E. inversion Hc; subst.
    change (CsrMatrix.RowCount dependees_ab) with 3. lia.
Qed.

Lemma ResetRow_factors_present_witness :
  exists e',
    RowExtender.ResetRow (Some dependees_ab) [0; 1] 1%Q 7 RowExtender.new = Some e' /\
    RowExtender.dependencies_ e' = ∅ /\
    (2 ∈ RowExtender.SparseBool e' <-> factors_present parents_ab [0; 1] 2).
Proof.
  destruct (ResetRow_factors_present dependees_ab parents_ab [0; 1] 1%Q 7
              RowExtender.new) as (e' & E & Hd & Hiff).
  - exact dependees_ab_in_pairs.
  - apply NoDup_cons. split; [|apply NoDup_singleton].
    intros H. apply list_elem_of_singleton in H. discriminate.
  - intros j Hj. change (CsrMatrix.RowCount dependees_ab) with 3.
    apply elem_of_cons in Hj as [->|Hj]; [split; [lia|reflexivity]|].
    apply list_elem_of_singleton in Hj as ->. split; [lia|reflexivity].
  - reflexivity.
  - exists e'. split; [exact E|]. split; [exact Hd|exact (Hiff 2)].
Defined.

(** ** Pruning keeps the top features *)

Lemma removed_count_replicate (n : nat) : removed_count (replicate n false) = 0%nat.
Proof. unfold removed_count. induction n as [|n IH]; [done|]. simpl. done. Qed.

Lemma removed_count_insert (removed_js : list bool) (j : nat) :
  (removed_count (<[j := true]> removed_js) <= S (removed_count removed_js))%nat.
Proof.
  unfold removed_count. revert j. induction removed_js as [|b l IH]; intros j; [simpl; lia|].
  destruct j as [|j]; simpl.
  - destruct b; lia.
  - specialize (IH j). lia.
Qed.

Lemma sum_list_with_one {A} (l : list A) : sum_list_with (fun _ => 1%nat) l = length l.
Proof. induction l as [|x l IH]; simpl; [done|]. by rewrite IH. Qed.

Lemma stops_top_count (config : FeaturePruning.Config) (feature_count queue_size : nat)
    (score : ExtDouble) (n : N) :
  FeaturePruning.top_count config = Some n ->
  FeaturePruning.stops config feature_count queue_size score = false ->
  n < N.of_nat queue_size.
Proof.
  unfold FeaturePruning.stops. intros ->. rewrite !orb_false_iff.
  intros [[_ Hn] _]. by apply N.leb_gt in Hn.
Qed.

Section TopCount.
Variable P : PriorityQueue (ExtDouble * N).
Hypothesis P_laws : PriorityQueueLaws FeaturePruning.ScoreComparator P.
Variable config : FeaturePruning.Config.
Variable j_to_score : list ExtDouble.
Variable data : Data.t.
Variable feature_count : nat.
Variable n : N.
Hypothesis config_top_count : FeaturePruning.top_count config = Some n.

Lemma step_top_count (s s' : FeaturePruning.State P) :
  FeaturePruning.step P config j_to_score data feature_count s =
    Some (FeaturePruning.Continue P s') ->
  (removed_count (FeaturePruning.removed_js P s) +
   pq_size P (FeaturePruning.js_queue P s) +
   blocked_count (FeaturePruning.triggered_by P s) <= feature_count)%nat ->
  (removed_count (FeaturePruning.removed_js P s) +
   N.to_nat n `min` feature_count <= feature_count)%nat ->
  (removed_count (FeaturePruning.removed_js P s') +
   pq_size P (FeaturePruning.js_queue P s') +
   blocked_count (FeaturePruning.triggered_by P s') <= feature_count)%nat /\
  (removed_count (FeaturePruning.removed_js P s') +
   N.to_nat n `min` feature_count <= feature_count)%nat.
Proof.
  intros E Hsum Hmin.
  destruct (step_Continue P config j_to_score data feature_count s s' E)
    as (score & j & children & k & Etop & Estop & _ & _ & _ & Hcases).
  pose proof (stops_top_count _ _ _ _ _ config_top_count Estop) as Hq.
  pose proof (pq_pop_elements _ _ P_laws _ _ Etop) as Hpop.
  apply Permutation_length in Hpop. simpl in Hpop.
  rewrite !(pq_size_elements _ _ P_laws) in *.
  destruct Hcases as [(_ & c & _ & -> & -> & ->)|(_ & Eset & Epush & ->)].
  - unfold blocked_count in *. rewrite blocked_total_append. split; [lia|done].
  - apply vset_inv in Eset as [_ Eset]. rewrite Eset.
    pose proof (removed_count_insert (FeaturePruning.removed_js P s) (N.to_nat j)) as Hr.
    pose proof (push_triggered_sum P P_laws j_to_score (fun _ => 1%nat) _ _ _ Epush)
      as Hpush.
    rewrite !sum_list_with_one in Hpush.
    unfold blocked_count in *.
    rewrite (blocked_total_delete _ (FeaturePruning.triggered_by P s) j) in Hsum.
    rewrite sum_list_with_one in Hsum.
    split; lia.
Qed.

Lemma run_top_count (s0 s : FeaturePruning.State P) :
  FeaturePruning.run P config j_to_score data feature_count s0 s ->
  (removed_count (FeaturePruning.removed_js P s0) +
   pq_size P (FeaturePruning.js_queue P s0) +
   blocked_count (FeaturePruning.triggered_by P s0) <= feature_count)%nat ->
  (removed_count (FeaturePruning.removed_js P s0) +
   N.to_nat n `min` feature_count <= feature_count)%nat ->
  (removed_count (FeaturePruning.removed_js P s) +
   N.to_nat n `min` feature_count <= feature_count)%nat.
Proof.
  intros Hrun H1 H2.
  assert (H : (removed_count (FeaturePruning.removed_js P s) +
               pq_size P (FeaturePruning.js_queue P s) +
               blocked_count (FeaturePruning.triggered_by P s) <= feature_count)%nat /\
              (removed_count (FeaturePruning.removed_js P s) +
               N.to_nat n `min` feature_count <= feature_count)%nat); [|by destruct H].
  induction Hrun as [|s s' _ IH E]; [done|].
  destruct IH as [IH1 IH2]. by apply (step_top_count s s').
Qed.
End TopCount.

Lemma initial_queue_size (P : PriorityQueue (ExtDouble * N))
    (product_map : ProductMap) (j_to_score : list ExtDouble) (q : pq_t P) :
  PriorityQueueLaws FeaturePruning.ScoreComparator P ->
  FeaturePruning.initial_queue P product_map j_to_score = Some q ->
  pq_size P q = length (FeatureMapBase.j_to_feature_ product_map).
Proof.
  intros HP E. unfold FeaturePruning.initial_queue, FeatureMapBase.GetAll in E.
  apply bind_Some in E as (all & Eall & E).
  apply bind_Some in Eall as (u & _ & Eall). inversion Eall; subst all; clear Eall.
  rewrite (pq_size_elements _ _ HP).
  assert (H : forall l q0 q1,
            for_each (fun (f : option (FeatureMapBase.FeatureAndJ JProduct)) q =>
                        r ← f;
                        score ← vget j_to_score (FeatureMapBase.GetJ r);
                        Some (pq_push P (score, FeatureMapBase.GetJ r) q))
                     l q0 = Some q1 ->
            length (pq_elements P q1) = (length l + length (pq_elements P q0))%nat).
  { induction l as [|f l IH]; intros q0 q1 El; simpl in El.
    - by inversion El; subst.
    - apply bind_Some in El as (q2 & E2 & El). rewrite (IH _ _ El).
      apply bind_Some in E2 as (r & _ & E2).
      apply bind_Some in E2 as (score & _ & E2). inversion E2; subst q2.
      pose proof (pq_push_elements _ _ HP (score, FeatureMapBase.GetJ r) q0) as Hp.
      apply Permutation_length in Hp. rewrite Hp. simpl. lia. }
  rewrite (H _ _ _ E), (pq_new_elements _ _ HP). simpl. lia.
Qed.

(** With a [top_count] configured, pruning leaves at least that many
    features, or all of them when there are fewer: the J's marked in
    [removed_js] number at most the features beyond [top_count].  In a
    consistent world [ComputePruning] returns such a vector. *)
Theorem ComputePruning_keeps_top_count (P : PriorityQueue (ExtDouble * N))
    (world : World.t) (config : FeaturePruning.Config)
    (j_to_score : list ExtDouble) (n : N) :
  PriorityQueueLaws FeaturePruning.ScoreComparator P ->
  FeaturePruning.top_count config = Some n ->
  world_consistent world j_to_score = true ->
  let features := length (FeatureMapBase.j_to_feature_ (World.product_map_ world)) in
  exists removed_js,
    FeaturePruning.ComputePruning P world config j_to_score = Some removed_js /\
    (removed_count removed_js + N.to_nat n `min` features <= features)%nat.
Proof.
  intros HP Hn Hw features.
  destruct (ComputePruning_returns P world config j_to_score HP Hw) as [removed_js E].
  exists removed_js. split; [done|].
  unfold FeaturePruning.ComputePruning in E.
  apply bind_Some in E as (s0 & E0 & E). apply bind_Some in E as (s & El & E).
  inversion E; subst removed_js; clear E.
  apply loop_run in El as [Hrun _].
  unfold FeaturePruning.initial_state in E0.
  apply bind_Some in E0 as (q & Eq & E0). inversion E0; subst s0; clear E0.
  pose proof (initial_queue_size P _ _ _ HP Eq) as Hsize.
  cbn [FeaturePruning.js_queue] in Hrun. rewrite Hsize in Hrun.
  apply (run_top_count P HP config j_to_score _ _ n Hn _ _ Hrun);
    cbn [FeaturePruning.removed_js FeaturePruning.js_queue FeaturePruning.triggered_by];
    rewrite removed_count_replicate.
  - unfold blocked_count. rewrite blocked_total_empty, Hsize. fold features. lia.
  - fold features. lia.
Qed.

Lemma ComputePruning_keeps_top_count_witness :
  exists removed_js,
    FeaturePruning.ComputePruning (list_pq FeaturePruning.ScoreComparator)
      world_ab config_top_two scores_ab = Some removed_js /\
    (removed_count removed_js + 2 <= 3)%nat.
Proof.
  apply (ComputePruning_keeps_top_count (list_pq FeaturePruning.ScoreComparator)
           world_ab config_top_two scores_ab 2).
  - exact ScoreComparator_queue_laws.
  - reflexivity.
  - vm_compute. reflexivity.
Defined.

(** ** Feature exploration: what the selection loop adds *)

Lemma HasFeature_spec {Feature : Type} `{EqDecision Feature}
    (s s' : FeatureMapBase.t Feature) (k : Feature) (b : bool) :
  FeatureMapBase.HasFeature k s = (b, s') ->
  s' = FeatureMapBase.mk (FeatureMapBase.j_sequence_ s)
         (FeatureMapBase.reserve (FeatureMapBase.feature_to_j_ s) k)
         (FeatureMapBase.j_to_feature_synced_ s) (FeatureMapBase.j_to_feature_ s) /\
  (b = false -> forall r,
     FeatureMapBase.find (FeatureMapBase.feature_to_j_ s) k <> Some (Some r)).
Proof.
  unfold FeatureMapBase.HasFeature. rewrite find_reserve.
  destruct (FeatureMapBase.find (FeatureMapBase.feature_to_j_ s) k) as [[r|]|];
    simpl; intros E; inversion E; subst; split; done.
Qed.

Section Selection.
Variable P : PriorityQueue (Q * (N * N)).
Variable config : FeatureExploration.Config.
Variable estimate : Q.

Notation LoopState := (FeatureExploration.LoopState P).
Notation records s :=
  (FeatureMapBase.feature_to_j_ (FeatureExploration.product_map P s)).
Notation sequence s :=
  (FeatureMapBase.j_sequence_ (FeatureExploration.product_map P s)).
Notation count s := (FeatureExploration.new_feature_count P s).

(** One turn of the loop that goes on either leaves the records of the map
    as they are, or adds one record, for a product that was absent, with
    the next J. *)
Lemma select_step (s s' : LoopState) :
  FeatureExploration.select P config estimate s = Some (Some s') ->
  FeatureMapBase.Inv (FeatureExploration.product_map P s) ->
  FeatureMapBase.Inv (FeatureExploration.product_map P s') /\
  (forall k r, (k, Some r) ∈ records s -> (k, Some r) ∈ records s') /\
  ((count s' = count s /\ sequence s' = sequence s /\
    forall k r, (k, Some r) ∈ records s' -> (k, Some r) ∈ records s) \/
   (exists new_f,
      (forall m, FeatureExploration.maximum_features_added config = Some m ->
                 count s < m) /\
      (forall m, FeatureExploration.max_product_size config = Some m ->
                 N.of_nat (length new_f) <= m) /\
      sequence s < kInvalidJ /\
      count s' = to_uint32 (count s + 1) /\
      sequence s' = sequence s + 1 /\
      forall k r, (k, Some r) ∈ records s' ->
        (k, Some r) ∈ records s \/
        (k = new_f /\ FeatureMapBase.GetJ r = sequence s))).
Proof.
  intros E HI. unfold FeatureExploration.select in E.
  destruct (match FeatureExploration.expected_xjbools_added config with
            | Some expected => _ | None => false end); [done|].
  destruct (match FeatureExploration.maximum_features_added config with
            | Some m => m <=? count s | None => false end) eqn:Eb2; [done|].
  assert (Hmax : forall m, FeatureExploration.maximum_features_added config = Some m ->
                           count s < m).
  { intros m Hm. rewrite Hm in Eb2. by apply N.leb_gt. }
  destruct (negb (PrioritySumIterator.HasNext P (FeatureExploration.psi P s)));
    [done|].
  apply bind_Some in E as ([j_pair psi'] & _ & E).
  apply bind_Some in E as (f1 & _ & E). apply bind_Some in E as (f2 & _ & E).
  cbv zeta in E.
  destruct (FeatureMapBase.HasFeature (JProduct_And f1 f2)
              (FeatureExploration.product_map P s)) as [present pm] eqn:EH.
  pose proof (Inv_HasFeature _ (JProduct_And f1 f2) HI) as HIpm.
  rewrite EH in HIpm. simpl in HIpm.
  destruct (HasFeature_spec _ _ _ _ EH) as [Epm Habsent].
  assert (Hrec : forall k r,
            (k, Some r) ∈ FeatureMapBase.feature_to_j_ pm <-> (k, Some r) ∈ records s).
  { intros k r. rewrite Epm. simpl. apply elem_of_reserve_Some. }
  assert (Hseq : FeatureMapBase.j_sequence_ pm = sequence s) by (by rewrite Epm).
  destruct present.
  { inversion E; subst s'; clear E. simpl. split; [done|].
    split; [intros k r; apply Hrec|]. left. split; [done|]. split; [done|].
    intros k r. apply Hrec. }
  destruct (match FeatureExploration.max_product_size config with
            | Some m => m <? N.of_nat (length (JProduct_And f1 f2)) | None => false
            end) eqn:Eb4.
  { inversion E; subst s'; clear E. simpl. split; [done|].
    split; [intros k r; apply Hrec|]. left. split; [done|]. split; [done|].
    intros k r. apply Hrec. }
  assert (Hsize : forall m, FeatureExploration.max_product_size config = Some m ->
                            N.of_nat (length (JProduct_And f1 f2)) <= m).
  { intros m Hm. rewrite Hm in Eb4. by apply N.ltb_ge. }
  apply bind_Some in E as ([new_f_j pm'] & EF & E).
  inversion E; subst s'; clear E. simpl.
  pose proof (Inv_FeatureToJ _ _ _ _ HIpm EF) as HIpm'.
  pose proof HIpm as (_ & Hnd & _).
  destruct (FeatureToJ_cases _ _ _ _ HIpm EF) as
    [(r & Hin & _ & _)|(Hnew & -> & Hlt & ->)].
  { exfalso. apply (Habsent eq_refl r). pose proof HI as (_ & Hnd0 & _).
    apply elem_of_find; [done|]. by apply Hrec. }
  split; [done|]. simpl. split.
  - intros k r Hin. apply elem_of_Set_; [done|]. right. split.
    + simpl. intros ->. apply (Hnew r). by apply Hrec.
    + by apply Hrec.
  - right. exists (JProduct_And f1 f2). split; [done|]. split; [done|].
    split; [by rewrite <- Hseq|]. split; [done|]. split; [by rewrite Hseq|].
    intros k r [[-> ->]|[_ Hin]]%elem_of_Set_; [|left; by apply Hrec|done].
    right. split; [done|]. simpl. done.
Qed.

(** What the loop keeps, from a map with sequence number [base] and the
    records [old]. *)
Lemma select_loop_spec (fuel : nat) (s s' : LoopState) (base : N)
    (old : FeatureMapBase.Map JProduct) :
  FeatureExploration.select_loop P fuel config estimate s = Some s' ->
  FeatureMapBase.Inv (FeatureExploration.product_map P s) ->
  sequence s = base + count s ->
  (forall m, FeatureExploration.maximum_features_added config = Some m ->
             count s <= m) ->
  (forall k r, (k, Some r) ∈ old -> (k, Some r) ∈ records s) ->
  (forall k r, (k, Some r) ∈ records s ->
     (k, Some r) ∈ old \/
     (base <= FeatureMapBase.GetJ r /\ FeatureMapBase.GetJ r < sequence s /\
      forall m, FeatureExploration.max_product_size config = Some m ->
                N.of_nat (length k) <= m)) ->
  FeatureMapBase.Inv (FeatureExploration.product_map P s') /\
  sequence s' = base + count s' /\
  (forall m, FeatureExploration.maximum_features_added config = Some m ->
             count s' <= m) /\
  (forall k r, (k, Some r) ∈ old -> (k, Some r) ∈ records s') /\
  (forall k r, (k, Some r) ∈ records s' ->
     (k, Some r) ∈ old \/
     (base <= FeatureMapBase.GetJ r /\ FeatureMapBase.GetJ r < sequence s' /\
      forall m, FeatureExploration.max_product_size config = Some m ->
                N.of_nat (length k) <= m)).
Proof.
  revert s. induction fuel as [|fuel IH]; intros s E HI Hseq Hmax Hold Hnew;
    simpl in E; [done|].
  apply bind_Some in E as (c & Ec & E). destruct c as [s1|].
  - destruct (select_step s s1 Ec HI) as (HI1 & Hkeep & Hcases).
    apply (IH s1 E HI1).
    + destruct Hcases as [(Hc & Hs & _)|(new_f & _ & _ & Hlt & Hc & Hs & _)].
      * by rewrite Hc, Hs.
      * rewrite Hc, Hs, Hseq. rewrite to_uint32_small; [lia|].
        unfold kInvalidJ, uint32_modulus in *. lia.
    + intros m Hm.
      destruct Hcases as [(Hc & _)|(new_f & Hcm & _ & Hlt & Hc & _)].
      * rewrite Hc. by apply Hmax.
      * rewrite Hc. specialize (Hcm m Hm). rewrite to_uint32_small; [lia|].
        unfold kInvalidJ, uint32_modulus in *. lia.
    + intros k r Hin. by apply Hkeep, Hold.
    + intros k r Hin.
      destruct Hcases as [(_ & Hs & Hback)|(new_f & _ & Hsz & _ & _ & Hs & Hback)].
      * rewrite Hs. by apply Hnew, Hback.
      * destruct (Hback k r Hin) as [Hin0|[-> HJ]].
        -- destruct (Hnew k r Hin0) as [?|(? & ? & ?)]; [by left|].
           right. split; [done|]. split; [lia|done].
        -- right. rewrite HJ, Hs. split; [lia|]. split; [lia|done].
  - inversion E; subst s'. done.
Qed.
End Selection.

(** The selection of exploration adds products, it does not touch the ones
    there are: a product that had a J keeps it, the new products get the
    J's from the old size of the map on, they number at most
    [maximum_features_added], and each has at most [max_product_size]
    factors, where these are configured. *)
Theorem select_products_adds (P : PriorityQueue (Q * (N * N)))
    (config : FeatureExploration.Config) (estimate : Q) (products : ProductMap)
    (dependees : CsrMatrix.t) (j_to_score : list Q)
    (products' : ProductMap) (dependees' : CsrMatrix.t) :
  FeatureMapBase.reachable products ->
  FeatureExploration.select_products P config estimate products dependees j_to_score
    = Some (products', dependees') ->
  FeatureMapBase.Size products <= FeatureMapBase.Size products' /\
  (forall m, FeatureExploration.maximum_features_added config = Some m ->
     FeatureMapBase.Size products' <= FeatureMapBase.Size products + m) /\
  (forall k, (FeatureMapBase.FeatureToJConst k products).1 <> kInvalidJ ->
     (FeatureMapBase.FeatureToJConst k products').1 =
     (FeatureMapBase.FeatureToJConst k products).1) /\
  (forall k, (FeatureMapBase.FeatureToJConst k products).1 = kInvalidJ ->
     (FeatureMapBase.FeatureToJConst k products').1 <> kInvalidJ ->
     FeatureMapBase.Size products <= (FeatureMapBase.FeatureToJConst k products').1 /\
     (FeatureMapBase.FeatureToJConst k products').1 < FeatureMapBase.Size products' /\
     forall m, FeatureExploration.max_product_size config = Some m ->
               N.of_nat (length k) <= m).
Proof.
  intros HI%reachable_Inv E. unfold FeatureExploration.select_products in E.
  apply bind_Some in E as (it & _ & E). apply bind_Some in E as (coo & _ & E).
  apply bind_Some in E as (s & El & E). apply bind_Some in E as (d & _ & E).
  inversion E; subst products' dependees'. clear E.
  apply (select_loop_spec P config estimate _ _ _
           (FeatureMapBase.j_sequence_ products)
           (FeatureMapBase.feature_to_j_ products)) in El;
    cbn [FeatureExploration.product_map FeatureExploration.new_feature_count];
    [|done|lia|intros; lia|done|by left].
  destruct El as (HI' & Hseq & Hmax & Hold & Hnew).
  pose proof HI as (Hs & Hnd & _). pose proof HI' as (Hs' & Hnd' & _).
  unfold FeatureMapBase.Size.
  rewrite !to_uint32_small by (unfold kInvalidJ, uint32_modulus in *; lia).
  split; [lia|]. split; [intros m Hm; specialize (Hmax m Hm); lia|]. split.
  - intros k Hk. rewrite !FeatureToJConst_J in *.
    destruct (FeatureMapBase.find (FeatureMapBase.feature_to_j_ products) k)
      as [[r|]|] eqn:Ef; [|done..].
    apply find_elem_of, Hold in Ef. by rewrite (elem_of_find _ _ _ Hnd' Ef).
  - intros k Hk Hk'. rewrite !FeatureToJConst_J in *.
    destruct (FeatureMapBase.find
                (FeatureMapBase.feature_to_j_ (FeatureExploration.product_map P s)) k)
      as [[r|]|] eqn:Ef; [|done..].
    apply find_elem_of in Ef. destruct (Hnew k r Ef) as [Hin|(H1 & H2 & H3)].
    + rewrite (elem_of_find _ _ _ Hnd Hin) in Hk. done.
    + split; [done|]. split; [lia|done].
Qed.

Lemma select_products_adds_witness :
  exists products' dependees',
    FeatureExploration.select_products (list_pq PrioritySumIterator.entry_less)
      config_one_feature 1%Q product_map_abc (CsrMatrix.mk [0; 0; 0; 0] [])
      [3%Q; 1%Q; 2%Q] = Some (products', dependees') /\
    FeatureMapBase.Size products' <= FeatureMapBase.Size product_map_abc + 1 /\
    (FeatureMapBase.FeatureToJConst [1] products').1 = 1.
Proof.
  destruct (FeatureExploration.select_products (list_pq PrioritySumIterator.entry_less)
              config_one_feature 1%Q product_map_abc (CsrMatrix.mk [0; 0; 0; 0] [])
              [3%Q; 1%Q; 2%Q]) as [[products' dependees']|] eqn:E;
    [|vm_compute in E; discriminate].
  exists products', dependees'. split; [reflexivity|].
  destruct (select_products_adds (list_pq PrioritySumIterator.entry_less)
              config_one_feature 1%Q product_map_abc (CsrMatrix.mk [0; 0; 0; 0] [])
              [3%Q; 1%Q; 2%Q] products' dependees') as (_ & Hmax & Hkeep & _).
  - eapply FeatureMapBase.reach_Sync;
      [eapply (FeatureMapBase.reach_FeatureToJ _ [2]);
         [eapply (FeatureMapBase.reach_FeatureToJ _ [1]);
            [eapply (FeatureMapBase.reach_FeatureToJ _ [0]);
               [apply FeatureMapBase.reach_empty|reflexivity]
            |reflexivity]
         |reflexivity]
      |reflexivity].
  - exact E.
  - split; [apply (Hmax 1); reflexivity|].
    etrans; [apply (Hkeep [1]); vm_compute; discriminate|reflexivity].
Defined.

(** ** Stats *)

Lemma to_uint64_add_l (a b : N) : to_uint64 (to_uint64 a + b) = to_uint64 (a + b).
Proof. unfold to_uint64. by rewrite N.Div0.add_mod_idemp_l. Qed.

Lemma to_uint64_add (a b : N) :
  to_uint64 (to_uint64 a + to_uint64 b) = to_uint64 (a + b).
Proof. unfold to_uint64. by rewrite <- N.Div0.add_mod. Qed.

Lemma occurrences_cons (j x : N) (js : list N) :
  occurrences j (x :: js) = (if decide (x = j) then 1 else 0) + occurrences j js.
Proof.
  unfold occurrences. rewrite filter_cons. case_decide; simpl; lia.
Qed.

Lemma labelled_occurrences_app (b : bool) (j : N) (rows1 rows2 : list RowExtender.t) :
  labelled_occurrences b j (rows1 ++ rows2) =
  labelled_occurrences b j rows1 + labelled_occurrences b j rows2.
Proof.
  induction rows1 as [|row rows1 IH]; simpl; [done|].
  destruct (Bool.eqb _ _); lia.
Qed.

Lemma labelled_rows_app (b : bool) (rows1 rows2 : list RowExtender.t) :
  labelled_rows b (rows1 ++ rows2) = labelled_rows b rows1 + labelled_rows b rows2.
Proof. unfold labelled_rows. rewrite filter_app, length_app. lia. Qed.

Lemma iter_increment (k : nat) (a : N) :
  Nat.iter k (fun y => to_uint64 (y + 1)) (to_uint64 a) = to_uint64 (a + N.of_nat k).
Proof.
  induction k as [|k IH]; simpl.
  - by rewrite N.add_0_r.
  - rewrite IH, to_uint64_add_l. f_equal. lia.
Qed.

Lemma iter_lxor_0 (k : nat) (h x : N) :
  Nat.iter k (fun y => N.lxor y h) x =
  N.lxor x (Nat.iter k (fun y => N.lxor y h) 0).
Proof.
  induction k as [|k IH]; simpl.
  - by rewrite N.lxor_0_r.
  - rewrite IH. by rewrite N.lxor_assoc.
Qed.

Lemma seq_lookup_fmap {A} (f : nat -> A) (n i : nat) :
  (i < n)%nat -> (f <$> seq 0 n) !! i = Some (f i).
Proof. intros Hi. by rewrite list_lookup_fmap, lookup_seq_lt. Qed.

Section StatsFacts.
Variable Hash64NumWithSeed : N -> N -> N.

Notation step := (Stats_AddRow_step Hash64NumWithSeed).
Notation closed := (Stats_closed Hash64NumWithSeed).

(** The loop of [AddRow] over the J's of a row. *)
Lemma AddRow_loop (id : N) (js : list N) (size : nat) (stats hash : list N) :
  length stats = size -> length hash = size ->
  Forall (fun j => (N.to_nat j < size)%nat) js ->
  exists stats' hash',
    for_each (step id) js (stats, hash) = Some (stats', hash') /\
    length stats' = size /\ length hash' = size /\
    forall i x h, stats !! i = Some x -> hash !! i = Some h ->
      stats' !! i =
        Some (Nat.iter (N.to_nat (occurrences (N.of_nat i) js))
                       (fun y => to_uint64 (y + 1)) x) /\
      hash' !! i =
        Some (Nat.iter (N.to_nat (occurrences (N.of_nat i) js))
                       (fun y => N.lxor y (Hash64NumWithSeed id 0)) h).
Proof.
  intros Hlen Hlen' Hjs. revert stats hash Hlen Hlen'.
  induction Hjs as [|j js Hj _ IH]; intros stats hash Hlen Hlen'.
  - exists stats, hash. split; [done|]. split; [done|]. split; [done|].
    intros i x h Hx Hh. done.
  - destruct (lookup_lt_is_Some_2 stats (N.to_nat j)) as [old Hold]; [lia|].
    destruct (lookup_lt_is_Some_2 hash (N.to_nat j)) as [oh Hoh]; [lia|].
    assert (Es : step id j (stats, hash) =
                 Some (<[N.to_nat j := to_uint64 (old + 1)]> stats,
                       <[N.to_nat j := N.lxor oh (Hash64NumWithSeed id 0)]> hash)).
    { unfold Stats_AddRow_step.
      assert (Hc : (j <? N.of_nat (length stats)) = true) by (apply N.ltb_lt; lia).
      rewrite Hc. cbn [CHECK mbind option_bind]. unfold vget.
      rewrite Hold. cbn [mbind option_bind]. rewrite vset_Some by lia.
      cbn [mbind option_bind]. rewrite Hoh. cbn [mbind option_bind].
      rewrite vset_Some by lia. done. }
    cbn [for_each]. rewrite Es. cbn [mbind option_bind].
    destruct (IH (<[N.to_nat j := to_uint64 (old + 1)]> stats)
                 (<[N.to_nat j := N.lxor oh (Hash64NumWithSeed id 0)]> hash))
      as (stats' & hash' & E & Hl1 & Hl2 & Hat).
    { by rewrite length_insert. }
    { by rewrite length_insert. }
    exists stats', hash'. split; [done|]. split; [done|]. split; [done|].
    intros i x h Hx Hh. rewrite occurrences_cons.
    destruct (decide (i = N.to_nat j)) as [->|Hne].
    + rewrite N2Nat.id, decide_True by done.
      rewrite Hold in Hx. rewrite Hoh in Hh. inversion Hx. inversion Hh. subst.
      destruct (Hat (N.to_nat j) (to_uint64 (x + 1))
                  (N.lxor h (Hash64NumWithSeed id 0))) as [H1 H2];
        [by apply list_lookup_insert_eq; lia..|].
      rewrite N2Nat.id in H1, H2. rewrite H1, H2.
      replace (N.to_nat (1 + occurrences j js))
        with (S (N.to_nat (occurrences j js))) by lia.
      by rewrite !Nat.iter_succ_r.
    + rewrite decide_False by (intros ->; rewrite Nat2N.id in Hne; done).
      destruct (Hat i x h) as [H1 H2]; [by rewrite list_lookup_insert_ne..|].
      rewrite N.add_0_l. done.
Qed.

Lemma closed_lengths (size : nat) (rows : list RowExtender.t) :
  length (Stats.positive_ (closed size rows)) = size /\
  length (Stats.negative_ (closed size rows)) = size /\
  length (Stats.hash_ (closed size rows)) = size.
Proof. simpl. by rewrite !length_fmap, !length_seq. Qed.

Lemma hash_of_app (j : N) (rows1 rows2 : list RowExtender.t) :
  hash_of Hash64NumWithSeed j (rows1 ++ rows2) =
  N.lxor (hash_of Hash64NumWithSeed j rows1) (hash_of Hash64NumWithSeed j rows2).
Proof.
  unfold hash_of. rewrite fold_left_app.
  generalize (fold_left
    (fun h row =>
       Nat.iter (N.to_nat (occurrences j (RowExtender.SparseBool row)))
         (fun x => N.lxor x (Hash64NumWithSeed (RowExtender.id_ row) 0)) h)
    rows1 0).
  intros x. revert x. induction rows2 as [|row rows2 IH] using rev_ind; intros x.
  - simpl. by rewrite N.lxor_0_r.
  - rewrite !fold_left_app. simpl. rewrite IH.
    rewrite iter_lxor_0. rewrite (iter_lxor_0 _ _ (fold_left _ rows2 0)).
    by rewrite N.lxor_assoc.
Qed.

(** [AddRow] takes the closed form of [rows] to that of the rows with
    [row] added. *)
Lemma AddRow_closed (size : nat) (rows : list RowExtender.t) (row : RowExtender.t) :
  Forall (fun j => (N.to_nat j < size)%nat) (RowExtender.SparseBool row) ->
  Stats_AddRow Hash64NumWithSeed row (closed size rows) =
    Some (closed size (rows ++ [row])).
Proof.
  intros Hjs. unfold Stats_AddRow.
  assert (Hhash : forall i, (i < size)%nat ->
            Nat.iter (N.to_nat (occurrences (N.of_nat i) (RowExtender.SparseBool row)))
              (fun y => N.lxor y (Hash64NumWithSeed (RowExtender.id_ row) 0))
              (hash_of Hash64NumWithSeed (N.of_nat i) rows) =
            hash_of Hash64NumWithSeed (N.of_nat i) (rows ++ [row])).
  { intros i _. unfold hash_of. by rewrite fold_left_app. }
  assert (Hrows : forall b,
            labelled_rows b (rows ++ [row]) =
            labelled_rows b rows +
            (if Bool.eqb (Qeqb (RowExtender.y_ row) 1) b then 1 else 0)).
  { intros b. rewrite labelled_rows_app. f_equal. unfold labelled_rows.
    rewrite filter_cons, filter_nil.
    destruct (Qeqb (RowExtender.y_ row) 1), b; simpl; done. }
  assert (Hocc : forall b j,
            labelled_occurrences b j (rows ++ [row]) =
            labelled_occurrences b j rows +
            (if Bool.eqb (Qeqb (RowExtender.y_ row) 1) b
             then occurrences j (RowExtender.SparseBool row) else 0)).
  { intros b j. rewrite labelled_occurrences_app. f_equal. simpl.
    destruct (Bool.eqb _ _); lia. }
  unfold Stats_closed.
  cbn [Stats.positive_row_count_ Stats.negative_row_count_ Stats.positive_
       Stats.negative_ Stats.hash_].
  destruct (Qeqb (RowExtender.y_ row) 1) eqn:Ey.
  - destruct (AddRow_loop (RowExtender.id_ row) (RowExtender.SparseBool row) size
                ((fun j => to_uint64 (labelled_occurrences true (N.of_nat j) rows))
                   <$> seq 0 size)
                ((fun j => hash_of Hash64NumWithSeed (N.of_nat j) rows) <$> seq 0 size))
      as (stats' & hash' & E & Hl1 & Hl2 & Hat);
      [by rewrite length_fmap, length_seq..|done|].
    rewrite E. cbn [mbind option_bind].
    rewrite to_uint64_add_l, (Hrows true), (Hrows false). simpl Bool.eqb. cbv iota.
    rewrite N.add_0_r.
    assert (H1 : stats' =
              (fun j => to_uint64 (labelled_occurrences true (N.of_nat j) (rows ++ [row])))
                <$> seq 0 size).
    { apply list_eq. intros i. destruct (decide (i < size)%nat) as [Hi|Hi].
      * destruct (Hat i (to_uint64 (labelled_occurrences true (N.of_nat i) rows))
                      (hash_of Hash64NumWithSeed (N.of_nat i) rows)) as [H1 _];
          [by rewrite list_lookup_fmap, lookup_seq_lt..|].
        rewrite H1, list_lookup_fmap, lookup_seq_lt by done. simpl. f_equal.
        rewrite iter_increment, (Hocc true). simpl. by rewrite N2Nat.id.
      * rewrite !lookup_ge_None_2; [done|rewrite length_fmap, length_seq; lia|lia]. }
    assert (H2 : (fun j => to_uint64 (labelled_occurrences false (N.of_nat j) rows))
                   <$> seq 0 size =
                 (fun j => to_uint64 (labelled_occurrences false (N.of_nat j)
                                        (rows ++ [row]))) <$> seq 0 size).
    { apply list_fmap_ext. intros i j _. rewrite (Hocc false). simpl.
      by rewrite N.add_0_r. }
    assert (H3 : hash' =
              (fun j => hash_of Hash64NumWithSeed (N.of_nat j) (rows ++ [row]))
                <$> seq 0 size).
    { apply list_eq. intros i. destruct (decide (i < size)%nat) as [Hi|Hi].
      * destruct (Hat i (to_uint64 (labelled_occurrences true (N.of_nat i) rows))
                      (hash_of Hash64NumWithSeed (N.of_nat i) rows)) as [_ H2'];
          [by rewrite list_lookup_fmap, lookup_seq_lt..|].
        rewrite H2', list_lookup_fmap, lookup_seq_lt by done. simpl. f_equal.
        by apply Hhash.
      * rewrite !lookup_ge_None_2; [done|rewrite length_fmap, length_seq; lia|lia]. }
    by rewrite H1, H2, H3.
  - destruct (AddRow_loop (RowExtender.id_ row) (RowExtender.SparseBool row) size
                ((fun j => to_uint64 (labelled_occurrences false (N.of_nat j) rows))
                   <$> seq 0 size)
                ((fun j => hash_of Hash64NumWithSeed (N.of_nat j) rows) <$> seq 0 size))
      as (stats' & hash' & E & Hl1 & Hl2 & Hat);
      [by rewrite length_fmap, length_seq..|done|].
    rewrite E. cbn [mbind option_bind].
    rewrite to_uint64_add_l, (Hrows true), (Hrows false). simpl Bool.eqb. cbv iota.
    rewrite N.add_0_r.
    assert (H1 : stats' =
              (fun j => to_uint64 (labelled_occurrences false (N.of_nat j) (rows ++ [row])))
                <$> seq 0 size).
    { apply list_eq. intros i. destruct (decide (i < size)%nat) as [Hi|Hi].
      * destruct (Hat i (to_uint64 (labelled_occurrences false (N.of_nat i) rows))
                      (hash_of Hash64NumWithSeed (N.of_nat i) rows)) as [H1 _];
          [by rewrite list_lookup_fmap, lookup_seq_lt..|].
        rewrite H1, list_lookup_fmap, lookup_seq_lt by done. simpl. f_equal.
        rewrite iter_increment, (Hocc false). simpl. by rewrite N2Nat.id.
      * rewrite !lookup_ge_None_2; [done|rewrite length_fmap, length_seq; lia|lia]. }
    assert (H2 : (fun j => to_uint64 (labelled_occurrences true (N.of_nat j) rows))
                   <$> seq 0 size =
                 (fun j => to_uint64 (labelled_occurrences true (N.of_nat j)
                                        (rows ++ [row]))) <$> seq 0 size).
    { apply list_fmap_ext. intros i j _. rewrite (Hocc true). simpl.
      by rewrite N.add_0_r. }
    assert (H3 : hash' =
              (fun j => hash_of Hash64NumWithSeed (N.of_nat j) (rows ++ [row]))
                <$> seq 0 size).
    { apply list_eq. intros i. destruct (decide (i < size)%nat) as [Hi|Hi].
      * destruct (Hat i (to_uint64 (labelled_occurrences false (N.of_nat i) rows))
                      (hash_of Hash64NumWithSeed (N.of_nat i) rows)) as [_ H2'];
          [by rewrite list_lookup_fmap, lookup_seq_lt..|].
        rewrite H2', list_lookup_fmap, lookup_seq_lt by done. simpl. f_equal.
        by apply Hhash.
      * rewrite !lookup_ge_None_2; [done|rewrite length_fmap, length_seq; lia|lia]. }
    by rewrite H1, H2, H3.
Qed.

Lemma Stats_of_rows_closed (size : N) (rows : list RowExtender.t) :
  Forall (fun row => Forall (fun j => j < size) (RowExtender.SparseBool row)) rows ->
  Stats_of_rows Hash64NumWithSeed size rows = Some (closed (N.to_nat size) rows).
Proof.
  intros Hrows. unfold Stats_of_rows.
  assert (Hreset : Stats_Reset size = closed (N.to_nat size) []).
  { assert (Hz : forall f : nat -> N, (forall j, f j = 0) ->
              replicate (N.to_nat size) 0 = f <$> seq 0 (N.to_nat size)).
    { intros f Hf. apply list_eq. intros i. rewrite list_lookup_fmap.
      destruct (decide (i < N.to_nat size)%nat).
      - rewrite lookup_replicate_2, lookup_seq_lt by lia. simpl. by rewrite Hf.
      - rewrite lookup_ge_None_2, lookup_seq_ge by (rewrite ?length_replicate; lia).
        done. }
    unfold Stats_Reset, Stats_closed. f_equal; apply Hz; done. }
  rewrite Hreset.
  assert (H : forall rows0,
            for_each (Stats_AddRow Hash64NumWithSeed) rows (closed (N.to_nat size) rows0) =
              Some (closed (N.to_nat size) (rows0 ++ rows))); [|apply (H [])].
  induction Hrows as [|row rows Hrow _ IH]; intros rows0; simpl.
  - by rewrite app_nil_r.
  - rewrite AddRow_closed.
    + cbn [mbind option_bind]. rewrite IH. by rewrite <- app_assoc.
    + eapply Forall_impl; [exact Hrow|]. simpl. intros; lia.
Qed.

Lemma insert_seq_fmap (f g : nat -> N) (n i : nat) :
  (i < n)%nat ->
  <[i := f i]> ((fun j => if (j <? i)%nat then f j else g j) <$> seq 0 n) =
  (fun j => if (j <? S i)%nat then f j else g j) <$> seq 0 n.
Proof.
  intros Hi. apply list_eq. intros k.
  destruct (decide (k = i)) as [->|Hne].
  - rewrite list_lookup_insert_eq by (rewrite length_fmap, length_seq; lia).
    rewrite list_lookup_fmap, lookup_seq_lt by lia. simpl.
    assert (H : (i <? S i)%nat = true) by (apply Nat.ltb_lt; lia). by rewrite H.
  - rewrite list_lookup_insert_ne by done. rewrite !list_lookup_fmap.
    destruct (seq 0 n !! k) as [j|] eqn:Ej; [|done]. simpl.
    apply lookup_seq in Ej as [-> _]. simpl. f_equal.
    destruct (k <? i)%nat eqn:E1, (k <? S i)%nat eqn:E2; try done.
    + apply Nat.ltb_lt in E1. apply Nat.ltb_ge in E2. lia.
    + apply Nat.ltb_ge in E1. apply Nat.ltb_lt in E2. lia.
Qed.

Lemma mix_lookup (f g : nat -> N) (n i : nat) :
  (i < n)%nat ->
  ((fun j => if (j <? i)%nat then f j else g j) <$> seq 0 n) !! i = Some (g i).
Proof.
  intros Hi. rewrite list_lookup_fmap, lookup_seq_lt by lia. simpl.
  by rewrite Nat.ltb_irrefl.
Qed.

(** [Add] of the closed forms of two lists of rows is the closed form of
    the rows of both. *)
Lemma Add_closed (size : nat) (rows1 rows2 : list RowExtender.t) :
  N.of_nat size <= kInvalidJ ->
  Stats_Add (closed size rows2) (closed size rows1) =
    Some (closed size (rows1 ++ rows2)).
Proof.
  intros Hsize. unfold Stats_Add, Stats_Size.
  destruct (closed_lengths size rows1) as (Hp1 & Hn1 & Hh1).
  destruct (closed_lengths size rows2) as (Hp2 & Hn2 & Hh2).
  rewrite Hp1, Hn1, Hh1, Hp2, Hn2, Hh2.
  rewrite !bool_decide_eq_true_2 by done. cbn [CHECK mbind option_bind].
  rewrite to_uint32_small by (unfold kInvalidJ, uint32_modulus in *; lia).
  rewrite N.eqb_refl, Nat2N.id. cbn [CHECK mbind option_bind].
  unfold Stats_closed.
  cbn [Stats.positive_row_count_ Stats.negative_row_count_ Stats.positive_
       Stats.negative_ Stats.hash_].
  rewrite !to_uint64_add, <- !labelled_rows_app.
  set (fp := fun j => to_uint64 (labelled_occurrences true (N.of_nat j) (rows1 ++ rows2))).
  set (fn := fun j => to_uint64 (labelled_occurrences false (N.of_nat j) (rows1 ++ rows2))).
  set (fh := fun j => hash_of Hash64NumWithSeed (N.of_nat j) (rows1 ++ rows2)).
  set (gp := fun j => to_uint64 (labelled_occurrences true (N.of_nat j) rows1)).
  set (gn := fun j => to_uint64 (labelled_occurrences false (N.of_nat j) rows1)).
  set (gh := fun j => hash_of Hash64NumWithSeed (N.of_nat j) rows1).
  set (src := Stats.mk _ _ _ _ _).
  set (c1 := to_uint64 (labelled_rows true (rows1 ++ rows2))).
  set (c2 := to_uint64 (labelled_rows false (rows1 ++ rows2))).
  destruct (for_range_total
              (fun i (s : Stats.t) =>
                 s = Stats.mk c1 c2
                       ((fun j => if (j <? i)%nat then fp j else gp j) <$> seq 0 size)
                       ((fun j => if (j <? i)%nat then fn j else gn j) <$> seq 0 size)
                       ((fun j => if (j <? i)%nat then fh j else gh j) <$> seq 0 size))
              size (Stats_Add_step src) (Stats.mk c1 c2 (gp <$> seq 0 size)
                                           (gn <$> seq 0 size) (gh <$> seq 0 size)))
    as (s & E & ->).
  - done.
  - intros i s Hi ->. unfold Stats_Add_step.
    cbn [Stats.positive_row_count_ Stats.negative_row_count_ Stats.positive_
         Stats.negative_ Stats.hash_].
    rewrite !mix_lookup by done. unfold src.
    cbn [Stats.positive_ Stats.negative_ Stats.hash_].
    rewrite !list_lookup_fmap, lookup_seq_lt by lia.
    cbn [fmap option_fmap option_map mbind option_bind].
    rewrite !vset_nat by (rewrite length_fmap, length_seq; lia).
    cbn [mbind option_bind].
    assert (Ep : to_uint64 (gp (0 + i)%nat +
                   to_uint64 (labelled_occurrences true (N.of_nat (0 + i)) rows2)) = fp i).
    { unfold gp, fp. simpl. by rewrite to_uint64_add, labelled_occurrences_app. }
    assert (En : to_uint64 (gn (0 + i)%nat +
                   to_uint64 (labelled_occurrences false (N.of_nat (0 + i)) rows2)) = fn i).
    { unfold gn, fn. simpl. by rewrite to_uint64_add, labelled_occurrences_app. }
    assert (Eh : N.lxor (gh (0 + i)%nat)
                   (hash_of Hash64NumWithSeed (N.of_nat (0 + i)) rows2) = fh i).
    { unfold gh, fh. simpl. by rewrite hash_of_app. }
    eexists. split; [reflexivity|].
    simpl Nat.add in *. rewrite Ep, En, Eh.
    by rewrite !insert_seq_fmap by done.
  - rewrite E. f_equal. f_equal; apply list_fmap_ext; intros i j Hj;
      apply lookup_seq in Hj as [-> Hj];
      (assert (H : (0 + i <? size)%nat = true) by (apply Nat.ltb_lt; lia));
      by rewrite H.
Qed.

Lemma labelled_rows_total (rows : list RowExtender.t) :
  labelled_rows true rows + labelled_rows false rows = N.of_nat (length rows).
Proof.
  unfold labelled_rows. induction rows as [|row rows IH]; [done|].
  rewrite !filter_cons. destruct (Qeqb (RowExtender.y_ row) 1); simpl in *; lia.
Qed.

End StatsFacts.

(** The statistics that [AddRow] collects from a list of rows, in an object
    of size [size] that covers every J of the rows: the rows are counted,
    and every J has the number of its occurrences in the rows of label 1 as
    [Positive], in the other rows as [Negative], and in all rows as
    [XjBoolCountOfJ], each as a [uint64]; past the size the accessors stop
    at their [CHECK]. *)
Theorem Stats_AddRow_counts (Hash64NumWithSeed : N -> N -> N) (size : N)
    (rows : list RowExtender.t) :
  Forall (fun row => Forall (fun j => j < size) (RowExtender.SparseBool row)) rows ->
  exists s,
    Stats_of_rows Hash64NumWithSeed size rows = Some s /\
    Stats.RowCount s = to_uint64 (N.of_nat (length rows)) /\
    (forall j, j < size ->
       Stats.Positive s j = Some (to_uint64 (labelled_occurrences true j rows)) /\
       Stats.Negative s j = Some (to_uint64 (labelled_occurrences false j rows)) /\
       Stats.XjBoolCountOfJ s j =
         Some (to_uint64 (labelled_occurrences false j rows +
                          labelled_occurrences true j rows))) /\
    (forall j, size <= j -> Stats.Positive s j = None /\ Stats.Negative s j = None).
Proof.
  intros Hrows. eexists. split; [by apply Stats_of_rows_closed|].
  split; [|split].
  - unfold Stats.RowCount, Stats_closed.
    cbn [Stats.positive_row_count_ Stats.negative_row_count_].
    by rewrite to_uint64_add, labelled_rows_total.
  - intros j Hj. unfold Stats.XjBoolCountOfJ, Stats.Positive, Stats.Negative, vget.
    unfold Stats_closed. cbn [Stats.positive_ Stats.negative_].
    rewrite !list_lookup_fmap, lookup_seq_lt by lia. simpl.
    rewrite N2Nat.id. split; [done|]. split; [done|]. by rewrite to_uint64_add.
  - intros j Hj. unfold Stats.Positive, Stats.Negative, vget, Stats_closed.
    cbn [Stats.positive_ Stats.negative_].
    rewrite !list_lookup_fmap, lookup_seq_ge by lia. done.
Qed.

Lemma Stats_AddRow_counts_witness :
  exists s,
    Stats_of_rows (fun id _ => id) 2 stats_rows = Some s /\
    Stats.RowCount s = 2 /\
    Stats.Positive s 0 = Some 1 /\ Stats.Negative s 0 = Some 1 /\
    Stats.XjBoolCountOfJ s 1 = Some 1.
Proof.
  destruct (Stats_AddRow_counts (fun id _ => id) 2 stats_rows)
    as (s & E & Hcount & Hj & _).
  - repeat constructor.
  - exists s. split; [exact E|]. split; [exact Hcount|].
    destruct (Hj 0) as (Hp & Hn & _); [reflexivity|].
    destruct (Hj 1) as (_ & _ & Hx); [reflexivity|].
    split; [exact Hp|]. split; [exact Hn|exact Hx].
Defined.

(** The statistics of two lists of rows, collected apart and put together
    by [Add], are the statistics of the rows of both lists, whichever of
    the two is added to the other: this is what lets [RecalcStats] collect
    the shards in several [Stats] objects. *)
Theorem Stats_Add_of_rows (Hash64NumWithSeed : N -> N -> N) (size : N)
    (rows1 rows2 : list RowExtender.t) :
  size <= kInvalidJ ->
  Forall (fun row => Forall (fun j => j < size) (RowExtender.SparseBool row)) rows1 ->
  Forall (fun row => Forall (fun j => j < size) (RowExtender.SparseBool row)) rows2 ->
  exists s1 s2 s,
    Stats_of_rows Hash64NumWithSeed size rows1 = Some s1 /\
    Stats_of_rows Hash64NumWithSeed size rows2 = Some s2 /\
    Stats_of_rows Hash64NumWithSeed size (rows1 ++ rows2) = Some s /\
    Stats_Add s2 s1 = Some s /\
    Stats_Add s1 s2 = Some s.
Proof.
  intros Hsize H1 H2. eexists _, _, _.
  split; [by apply Stats_of_rows_closed|].
  split; [by apply Stats_of_rows_closed|].
  split; [apply Stats_of_rows_closed; by apply Forall_app|].
  split; [apply Add_closed; lia|].
  rewrite Add_closed by lia. f_equal. unfold Stats_closed.
  rewrite !labelled_rows_app, (N.add_comm (labelled_rows true rows2)),
    (N.add_comm (labelled_rows false rows2)).
  f_equal; apply list_fmap_ext; intros i j _.
  - by rewrite !labelled_occurrences_app, N.add_comm.
  - by rewrite !labelled_occurrences_app, N.add_comm.
  - by rewrite !hash_of_app, N.lxor_comm.
Qed.

Lemma Stats_Add_of_rows_witness :
  exists s1 s2 s,
    Stats_of_rows (fun id _ => id) 2 (take 1 stats_rows) = Some s1 /\
    Stats_of_rows (fun id _ => id) 2 (drop 1 stats_rows) = Some s2 /\
    Stats_of_rows (fun id _ => id) 2 stats_rows = Some s /\
    Stats_Add s2 s1 = Some s /\
    Stats_Add s1 s2 = Some s.
Proof.
  apply (Stats_Add_of_rows (fun id _ => id) 2 (take 1 stats_rows) (drop 1 stats_rows)).
  - vm_compute. discriminate.
  - repeat constructor.
  - repeat constructor.
Defined.

(** ** PrioritySumIterator yields every pair once *)

Lemma pending_app {T} (vals : list T) (es1 es2 : list (Q * (N * N))) :
  pending vals (es1 ++ es2) = pending vals es1 ++ pending vals es2.
Proof. induction es1 as [|e es1 IH]; simpl; [done|]. by rewrite IH, app_assoc. Qed.

Lemma pending_Permutation {T} (vals : list T) (es1 es2 : list (Q * (N * N))) :
  es1 ≡ₚ es2 -> pending vals es1 ≡ₚ pending vals es2.
Proof.
  induction 1 as [|e es1 es2 _ IH|e1 e2 es|es1 es2 es3 _ IH1 _ IH2]; simpl.
  - done.
  - by rewrite IH.
  - rewrite !app_assoc. f_equiv. apply Permutation_app_comm.
  - by rewrite IH1.
Qed.

Lemma tail_pairs_step {T} (vals : list T) (r c : N) (x y : T) :
  vals !! N.to_nat r = Some x -> vals !! N.to_nat c = Some y ->
  tail_pairs vals (r, c) = (x, y) :: tail_pairs vals (r, c + 1).
Proof.
  intros Hx Hy. unfold tail_pairs. simpl. rewrite Hx.
  rewrite (drop_S _ _ _ Hy). simpl.
  by replace (N.to_nat (c + 1)) with (S (N.to_nat c)) by lia.
Qed.

Lemma tail_pairs_end {T} (vals : list T) (r c : N) :
  (length vals <= N.to_nat c)%nat -> tail_pairs vals (r, c) = [].
Proof.
  intros Hc. unfold tail_pairs. simpl.
  destruct (vals !! N.to_nat r); [|done]. by rewrite drop_ge.
Qed.

Lemma pairs_of_rows {T} (pre l : list T) :
  concat ((fun r => tail_pairs (pre ++ l) (N.of_nat r, N.of_nat (S r)))
            <$> seq (length pre) (length l)) = pairs_of l.
Proof.
  revert pre. induction l as [|x l IH]; intros pre; [done|].
  cbn [length seq fmap list_fmap concat pairs_of]. f_equal.
  - unfold tail_pairs. cbn [fst snd]. rewrite !Nat2N.id.
    rewrite lookup_app_r, Nat.sub_diag by lia. simpl.
    f_equal. change (pre ++ x :: l) with (pre ++ [x] ++ l).
    rewrite (assoc_L (++)). apply drop_app_length'.
    rewrite length_app. simpl. lia.
  - specialize (IH (pre ++ [x])). rewrite length_app in IH. simpl in IH.
    rewrite <- (assoc_L (++)) in IH. simpl in IH.
    by replace (length pre + 1)%nat with (S (length pre)) in IH by lia.
Qed.

Lemma pairs_of_length_fmap {A B} (f : A -> B) (l : list A) :
  length (pairs_of (f <$> l)) = length (pairs_of l).
Proof.
  induction l as [|x l IH]; [done|].
  rewrite fmap_cons. cbn [pairs_of].
  by rewrite !length_app, !length_fmap, IH.
Qed.

Section EveryPair.
Context {T : Type}.
Variable P : PriorityQueue (Q * (N * N)).
Hypothesis P_laws : PriorityQueueLaws PrioritySumIterator.entry_less P.
Variable v : list (Q * T).
Hypothesis v_fits : N.of_nat (length v) <= kInvalidJ.

(** [InsertNext((r, c))] adds the entry at [(r, c + 1)], or nothing past
    the end of the row: what is pending grows by the pairs of that entry. *)
Lemma InsertNext_pending it (r c : N) :
  psi_positions P v it ->
  (N.to_nat r <= N.to_nat c)%nat ->
  (N.to_nat c < length v)%nat ->
  exists it', PrioritySumIterator.InsertNext P (r, c) it = Some it' /\
              psi_positions P v it' /\
              pending v.*2 (pq_elements P (PrioritySumIterator.pq_ P it')) ≡ₚ
                tail_pairs v.*2 (r, c + 1) ++
                pending v.*2 (pq_elements P (PrioritySumIterator.pq_ P it)).
Proof.
  intros [Hv Hpq] Hrc Hc. unfold PrioritySumIterator.InsertNext. simpl.
  assert (Hsmall : to_uint32 (c + 1) = c + 1).
  { apply to_uint32_small. unfold kInvalidJ, uint32_modulus in *. lia. }
  rewrite Hsmall, Hv.
  destruct (_ <=? _) eqn:Hle.
  - apply N.leb_le in Hle. eexists; split; [done|]. split; [done|].
    rewrite tail_pairs_end; [done|]. rewrite length_fmap. lia.
  - apply N.leb_gt in Hle. unfold vget.
    destruct (lookup_lt_is_Some_2 v (N.to_nat r)) as [a Ea]; [lia|].
    destruct (lookup_lt_is_Some_2 v (N.to_nat (c + 1))) as [b Eb]; [lia|].
    rewrite Ea, Eb. cbn [mbind option_bind]. eexists; split; [done|].
    split.
    + split; [done|]. simpl. intros e He.
      rewrite (pq_push_elements _ _ P_laws) in He.
      apply elem_of_cons in He as [->|He]; [simpl; lia|by apply Hpq].
    + simpl. rewrite (pending_Permutation _ _ _ (pq_push_elements _ _ P_laws _ _)).
      done.
Qed.

Lemma new_pending :
  (0 < length v)%nat ->
  exists it, PrioritySumIterator.new P v = Some it /\
             psi_positions P v it /\
             pending v.*2 (pq_elements P (PrioritySumIterator.pq_ P it)) ≡ₚ
               pairs_of v.*2.
Proof.
  intros Hpos. unfold PrioritySumIterator.new.
  assert (Hne : Nat.eqb (length v) 0 = false) by (apply Nat.eqb_neq; lia).
  rewrite Hne. cbn [negb CHECK mbind option_bind].
  rewrite to_uint32_small
    by (unfold kInvalidJ, uint32_modulus in *; lia).
  rewrite Nat2N.id.
  destruct (for_range_total
              (fun j it =>
                 psi_positions P v it /\
                 pending v.*2 (pq_elements P (PrioritySumIterator.pq_ P it)) ≡ₚ
                   concat ((fun r => tail_pairs v.*2 (N.of_nat r, N.of_nat (S r)))
                             <$> seq 0 j))
              (length v)
              (fun j it => PrioritySumIterator.InsertNext P (N.of_nat j, N.of_nat j) it)
              (PrioritySumIterator.mk P v (pq_new P)))
    as (it & E & Hpos' & Hpend).
  - split.
    + split; [done|]. simpl. intros e He.
      rewrite (pq_new_elements _ _ P_laws) in He. by apply elem_of_nil in He.
    + simpl. by rewrite (pq_new_elements _ _ P_laws).
  - intros j s Hj [Hs Hp].
    destruct (InsertNext_pending s (N.of_nat j) (N.of_nat j) Hs)
      as (it' & E' & H' & Hp'); [lia|by rewrite Nat2N.id|].
    exists it'. split; [done|]. split; [done|].
    rewrite Hp', Hp, seq_S, fmap_app, concat_app. simpl.
    rewrite app_nil_r, Permutation_app_comm.
    by replace (N.of_nat j + 1) with (N.of_nat (S j)) by lia.
  - exists it. split; [done|]. split; [done|].
    rewrite Hpend. pose proof (pairs_of_rows [] v.*2) as H.
    simpl in H. rewrite length_fmap in H. by rewrite H.
Qed.

(** Drawing as long as something is pending yields what is pending. *)
Lemma draws_pending (k : nat) it :
  psi_positions P v it ->
  (length (pending v.*2 (pq_elements P (PrioritySumIterator.pq_ P it))) <= k)%nat ->
  exists ps, draws P k it = Some ps /\
             ps ≡ₚ pending v.*2 (pq_elements P (PrioritySumIterator.pq_ P it)).
Proof.
  revert it. induction k as [|k IH]; intros it Hinv Hk; simpl.
  { exists []. split; [done|].
    destruct (pending _ _); [done|simpl in Hk; lia]. }
  unfold PrioritySumIterator.HasNext.
  rewrite (pq_size_elements _ _ P_laws).
  destruct (pq_elements P (PrioritySumIterator.pq_ P it)) as [|e0 es] eqn:Ees.
  { exists []. by split. }
  simpl Nat.eqb. cbn [negb].
  destruct (pq_top P (PrioritySumIterator.pq_ P it)) as [e|] eqn:Etop; last first.
  { apply (pq_top_none _ _ P_laws) in Etop. congruence. }
  destruct Hinv as [Hv Hpq].
  destruct (pq_top_greatest _ _ P_laws _ _ Etop) as [Hin _].
  destruct (Hpq e Hin) as [Hrc Hc].
  pose proof (pq_pop_elements _ _ P_laws _ _ Etop) as Hpop.
  assert (Hpopped : psi_positions P v
            (PrioritySumIterator.mk P (PrioritySumIterator.v_ P it)
               (pq_pop P (PrioritySumIterator.pq_ P it)))).
  { split; [done|]. simpl. intros y Hy. apply Hpq.
    rewrite <- Hpop. apply elem_of_cons. by right. }
  destruct (InsertNext_pending _ e.2.1 e.2.2 Hpopped) as (it' & E' & H' & Hp');
    [lia|done|].
  destruct (lookup_lt_is_Some_2 v (N.to_nat e.2.1)) as [a Ea]; [lia|].
  destruct (lookup_lt_is_Some_2 v (N.to_nat e.2.2)) as [b Eb]; [lia|].
  assert (Hall : pending v.*2 (e0 :: es) ≡ₚ
            (a.2, b.2) :: pending v.*2 (pq_elements P (PrioritySumIterator.pq_ P it'))).
  { rewrite <- Ees, <- (pending_Permutation _ _ _ Hpop), Hp'. simpl.
    replace e.2 with (e.2.1, e.2.2) by (by destruct e as [? []]).
    rewrite (tail_pairs_step v.*2 e.2.1 e.2.2 a.2 b.2).
    - done.
    - by rewrite list_lookup_fmap, Ea.
    - by rewrite list_lookup_fmap, Eb. }
  destruct (IH it' H') as (rest & Erest & Hrest).
  { apply Permutation_length in Hall. simpl in Hall, Hk.
    rewrite length_app in Hk. simpl in Hall. rewrite length_app in Hall. lia. }
  unfold PrioritySumIterator.Next. rewrite Etop. cbn [mbind option_bind].
  destruct e as [s [r c]]. simpl in *. rewrite E'. cbn [mbind option_bind].
  unfold vget. rewrite Hv, Ea, Eb. cbn [mbind option_bind].
  rewrite Erest. cbn [mbind option_bind].
  exists ((a.2, b.2) :: rest). split; [done|].
  rewrite Hall. by constructor.
Qed.

End EveryPair.

(** An iterator over a non-empty vector, drawn from as long as [HasNext]
    holds, yields every pair of the value at a position and the value at a
    later position exactly once: the calls made are as many as there are
    such pairs, whatever the priorities are and whichever of several
    greatest entries the queue puts on top. *)
Theorem PrioritySumIterator_every_pair_once {T : Type}
    (P : PriorityQueue (Q * (N * N))) (v : list (Q * T)) (k : nat) :
  PriorityQueueLaws PrioritySumIterator.entry_less P ->
  (0 < length v)%nat ->
  N.of_nat (length v) <= kInvalidJ ->
  (length (pairs_of v) <= k)%nat ->
  exists it ps,
    PrioritySumIterator.new P v = Some it /\
    draws P k it = Some ps /\
    ps ≡ₚ pairs_of v.*2.
Proof.
  intros Hlaws Hpos Hfits Hk.
  destruct (new_pending P Hlaws v Hfits Hpos) as (it & E & Hinv & Hpend).
  destruct (draws_pending P Hlaws v Hfits k it Hinv) as (ps & Eps & Hps).
  { rewrite (Permutation_length Hpend), pairs_of_length_fmap. done. }
  exists it, ps. split; [done|]. split; [done|]. by rewrite Hps.
Qed.

Lemma PrioritySumIterator_every_pair_once_witness :
  exists it ps,
    PrioritySumIterator.new (list_pq PrioritySumIterator.entry_less) three_values
      = Some it /\
    draws (list_pq PrioritySumIterator.entry_less) 5 it = Some ps /\
    ps ≡ₚ [(10, 11); (10, 12); (11, 12)].
Proof.
  apply (PrioritySumIterator_every_pair_once
           (list_pq PrioritySumIterator.entry_less) three_values 5).
  - apply entry_less_queue_laws.
  - simpl. lia.
  - vm_compute. discriminate.
  - simpl. lia.
Defined.

(** ** Shard::Builder splits the rows over the shards *)

Lemma chunk_size_app (c1 c2 : list (list N * Q * N)) :
  chunk_size (c1 ++ c2) = chunk_size c1 + chunk_size c2.
Proof. unfold chunk_size. rewrite fmap_app, concat_app, length_app. lia. Qed.

Lemma chunk_size_row (row : list N * Q * N) :
  chunk_size [row] = N.of_nat (length row.1.1).
Proof. unfold chunk_size. simpl. by rewrite app_nil_r. Qed.

Lemma chunk_filled_bound (max_size : N) (chunk : list (list N * Q * N)) :
  max_size <= kInvalidJ ->
  Forall (fun row => N.of_nat (length row.1.1) <= kInvalidJ) chunk ->
  chunk_filled max_size chunk -> chunk_size chunk <= kInvalidJ.
Proof.
  intros Hmax Hrows [_ [H|(row & Hin & ->)]]; [lia|].
  rewrite Forall_forall in Hrows. by apply Hrows.
Qed.

Lemma Shard_AddRow_of_rows (chunk : list (list N * Q * N)) (row : list N * Q * N) :
  chunk_size chunk + N.of_nat (length row.1.1) <= kInvalidJ ->
  Shard_AddRow row.1.1 row.1.2 row.2 (Shard_of_rows chunk) =
    Some (Shard_of_rows (chunk ++ [row])).
Proof.
  intros Hfit. unfold Shard_AddRow, Shard_of_rows. cbn [Shard.rows_].
  rewrite AddRow_of_rows by (unfold chunk_size in Hfit; lia).
  cbn [mbind option_bind Shard.ys_ Shard.ids_ Shard.user_ids_].
  by rewrite !fmap_app.
Qed.

Section BuilderFacts.
Variable kInvalidId : N.
Variable max_size : N.
Hypothesis max_size_fits : max_size <= kInvalidJ.

(** One row more: it goes to the last shard or opens a new one, and the
    shards stay well filled. *)
Lemma Builder_AddRow_step (chunks : list (list (list N * Q * N)))
    (done_rows : list (list N * Q * N)) (row : list N * Q * N) :
  Forall (fun row => N.of_nat (length row.1.1) <= kInvalidJ) done_rows ->
  N.of_nat (length row.1.1) <= kInvalidJ ->
  row.2 <> kInvalidId ->
  concat chunks = done_rows ->
  Forall (chunk_filled max_size) chunks ->
  exists chunks',
    Builder_AddRow kInvalidId row.1.1 row.1.2 row.2
      (mkBuilder max_size (Shard_of_rows <$> chunks)) =
      Some (mkBuilder max_size (Shard_of_rows <$> chunks')) /\
    concat chunks' = done_rows ++ [row] /\
    Forall (chunk_filled max_size) chunks'.
Proof.
  intros Hdone Hrow Hid Hconcat Hfilled. unfold Builder_AddRow.
  assert (Hne : negb (row.2 =? kInvalidId) = true)
    by (by apply negb_true_iff, N.eqb_neq).
  rewrite Hne. cbn [CHECK mbind option_bind Builder_shards_ max_size_].
  assert (Hnew : chunk_filled max_size [row]).
  { split; [done|]. right. exists row. split; [apply list_elem_of_here|].
    apply chunk_size_row. }
  induction chunks as [|c0 cs _] using rev_ind.
  - simpl. change Shard_empty with (Shard_of_rows []).
    rewrite Shard_AddRow_of_rows by (unfold chunk_size; simpl; lia).
    cbn [mbind option_bind]. exists [[row]]. split; [done|].
    split; [by rewrite <- Hconcat|]. by constructor.
  - apply Forall_app in Hfilled as [Hcs Hc0].
    apply Forall_inv in Hc0.
    assert (Hc0rows : Forall (fun row => N.of_nat (length row.1.1) <= kInvalidJ) c0).
    { rewrite Forall_forall in Hdone |- *. intros r Hr. apply Hdone.
      rewrite <- Hconcat, concat_app. apply elem_of_app. right.
      simpl. rewrite app_nil_r. done. }
    pose proof (chunk_filled_bound max_size c0 max_size_fits Hc0rows Hc0) as Hbound.
    rewrite fmap_app. simpl. rewrite last_snoc.
    assert (Hcount : Shard_XjBoolCount (Shard_of_rows c0) = chunk_size c0) by done.
    rewrite Hcount. unfold to_uint64.
    rewrite (N.mod_small (chunk_size c0 + N.of_nat (length row.1.1)) uint64_modulus)
      by (unfold kInvalidJ, uint64_modulus in *; lia).
    destruct ((0 <? chunk_size c0) &&
              (max_size <? chunk_size c0 + N.of_nat (length row.1.1))) eqn:Hopen.
    + rewrite last_snoc. cbn [mbind option_bind].
      change Shard_empty with (Shard_of_rows []).
      rewrite Shard_AddRow_of_rows by (unfold chunk_size; simpl; lia).
      cbn [mbind option_bind]. rewrite removelast_last.
      exists ((cs ++ [c0]) ++ [[row]]). split.
      { by rewrite !fmap_app. }
      split.
      { by rewrite concat_app, Hconcat. }
      apply Forall_app. split; [|by constructor].
      apply Forall_app. split; [done|by constructor].
    + rewrite last_snoc. cbn [mbind option_bind].
      assert (Hfit : chunk_size c0 = 0 \/
                     chunk_size c0 + N.of_nat (length row.1.1) <= max_size).
      { apply andb_false_iff in Hopen as [H|H].
        - apply N.ltb_ge in H. left. lia.
        - apply N.ltb_ge in H. by right. }
      rewrite Shard_AddRow_of_rows by (destruct Hfit; lia).
      cbn [mbind option_bind]. rewrite removelast_last.
      exists (cs ++ [c0 ++ [row]]). split.
      { by rewrite !fmap_app. }
      split.
      { rewrite concat_app in Hconcat. simpl in Hconcat. rewrite app_nil_r in Hconcat.
        rewrite concat_app, <- Hconcat. simpl. by rewrite app_nil_r, (assoc_L (++)). }
      apply Forall_app. split; [done|]. constructor; [|constructor].
      split; [by destruct c0|].
      rewrite chunk_size_app, chunk_size_row.
      destruct Hfit as [Hz|Hle]; [right|by left].
      exists row. split; [apply elem_of_app; right; apply list_elem_of_here|lia].
Qed.

Lemma Builder_AddRows_from (rows : list (list N * Q * N))
    (chunks : list (list (list N * Q * N))) :
  Forall (fun row => N.of_nat (length row.1.1) <= kInvalidJ /\ row.2 <> kInvalidId)
         (concat chunks ++ rows) ->
  Forall (chunk_filled max_size) chunks ->
  exists chunks',
    Builder_AddRows kInvalidId rows (mkBuilder max_size (Shard_of_rows <$> chunks)) =
      Some (mkBuilder max_size (Shard_of_rows <$> chunks')) /\
    concat chunks' = concat chunks ++ rows /\
    Forall (chunk_filled max_size) chunks'.
Proof.
  revert chunks. induction rows as [|row rows IH]; intros chunks Hrows Hfilled.
  - exists chunks. split; [done|]. split; [by rewrite app_nil_r|done].
  - apply Forall_app in Hrows as [Hdone Hrows].
    apply Forall_cons in Hrows as [[Hrow Hid] Hrows].
    destruct (Builder_AddRow_step chunks (concat chunks) row)
      as (chunks1 & E1 & Hc1 & Hf1); try done.
    { eapply Forall_impl; [apply Hdone|]. by intros r [? _]. }
    destruct (IH chunks1) as (chunks' & E' & Hc' & Hf'); [|done|].
    { rewrite Hc1. apply Forall_app. split; [|done].
      apply Forall_app. split; [done|]. by constructor. }
    exists chunks'. split.
    { unfold Builder_AddRows in *. simpl. rewrite E1. cbn [mbind option_bind]. done. }
    split; [|done]. by rewrite Hc', Hc1, <- (assoc_L (++)).
Qed.

End BuilderFacts.

(** A builder that is given the rows of a data file, each of at most
    2^32 - 1 J's and with a valid id, never stops at a [CHECK] and splits
    the rows over its shards in their order: the shards hold consecutive
    runs of the rows, no shard is empty, and a shard holds at most
    [max_size] J's unless all its J's are those of a single row. *)
Theorem Builder_AddRows_splits (kInvalidId max_size : N)
    (rows : list (list N * Q * N)) :
  max_size <= kInvalidJ ->
  Forall (fun row => N.of_nat (length row.1.1) <= kInvalidJ /\ row.2 <> kInvalidId)
         rows ->
  exists chunks,
    Builder_AddRows kInvalidId rows (mkBuilder max_size []) =
      Some (mkBuilder max_size (Shard_of_rows <$> chunks)) /\
    concat chunks = rows /\
    Forall (chunk_filled max_size) chunks.
Proof.
  intros Hmax Hrows.
  destruct (Builder_AddRows_from kInvalidId max_size Hmax rows []) as (chunks & E & Hc & Hf);
    [done|constructor|].
  by exists chunks.
Qed.

Lemma Builder_AddRows_splits_witness :
  exists chunks,
    Builder_AddRows kInvalidJ builder_rows (mkBuilder 4 []) =
      Some (mkBuilder 4 (Shard_of_rows <$> chunks)) /\
    concat chunks = builder_rows /\
    Forall (chunk_filled 4) chunks.
Proof.
  apply (Builder_AddRows_splits kInvalidJ 4 builder_rows).
  - vm_compute. discriminate.
  - repeat constructor; vm_compute; discriminate.
Defined.

(** ** FeatureMapBase: pruning renumbers the lookups *)

Section FeatureMapRenumbering.
Context {Feature : Type} `{EqDecision Feature}.

Implicit Types (m acc : list (Feature * option (FeatureMapBase.FeatureAndJ Feature))).
Implicit Types (s : FeatureMapBase.t Feature).
Implicit Types (k : Feature) (r : FeatureMapBase.FeatureAndJ Feature).

Lemma set_element_fresh m k e :
  k ∉ m.*1 ->
  FeatureMapBase.set_element (m ++ [(k, None)]) k e = m ++ [(k, e)].
Proof.
  induction m as [|[k0 e0] m IH]; simpl; intros Hk.
  - by rewrite decide_True.
  - apply not_elem_of_cons in Hk as [Hne Hk].
    rewrite decide_False by done. by rewrite IH.
Qed.

Lemma Set__fresh m r :
  FeatureMapBase.GetFeature r ∉ m.*1 ->
  FeatureMapBase.Set_ m r = m ++ [(FeatureMapBase.GetFeature r, Some r)].
Proof.
  intros Hk. unfold FeatureMapBase.Set_, FeatureMapBase.reserve.
  rewrite (proj2 (find_None m _) Hk). by apply set_element_fresh.
Qed.

Lemma find_renumbered rn m k :
  FeatureMapBase.find (renumbered_entry rn <$> m) k =
  fmap (M:=option) (fmap (M:=option) (renumbered_record rn)) (FeatureMapBase.find m k).
Proof.
  induction m as [|[k0 e0] m IH]; simpl; [done|].
  case_decide; [done|apply IH].
Qed.

Lemma renumbered_fst rn m : (renumbered_entry rn <$> m).*1 = m.*1.
Proof. rewrite <- list_fmap_compose. by apply list_fmap_ext. Qed.

Lemma valid_entries_cons (e : Feature * option (FeatureMapBase.FeatureAndJ Feature)) m :
  valid_entries (e :: m) =
  if decide (entry_J e <> kInvalidJ) then e :: valid_entries m else valid_entries m.
Proof. unfold valid_entries. by rewrite filter_cons. Qed.

(** The loop of [RemoveAndRenumberJs] over a map without null elements:
    the new map holds the renumbered records in the order of the old one,
    and the records with a valid J are counted. *)
Lemma Renumber_loop_all rn m acc c :
  Forall (fun e => exists r, e.2 = Some r /\ FeatureMapBase.GetFeature r = e.1 /\
            (FeatureMapBase.GetJ r <> kInvalidJ ->
             (N.to_nat (FeatureMapBase.GetJ r) < length (JRenumbering.j_to_new_j rn))%nat)) m ->
  NoDup (acc.*1 ++ m.*1) ->
  c + N.of_nat (length (valid_entries (renumbered_entry rn <$> m))) <= kInvalidJ ->
  FeatureMapBase.Renumber_loop rn m acc c =
    Some (acc ++ (renumbered_entry rn <$> m),
          c + N.of_nat (length (valid_entries (renumbered_entry rn <$> m)))).
Proof.
  revert acc c. induction m as [|[k0 e0] m IH]; intros acc c Hm Hnd Hc.
  - simpl. by rewrite app_nil_r, N.add_0_r.
  - apply Forall_cons in Hm as [(r & He & Hk & Hj) Hm]. simpl in He, Hk. subst e0 k0.
    rewrite fmap_cons, valid_entries_cons in Hc |- *.
    cbn [FeatureMapBase.Renumber_loop].
    assert (E1 : (if negb (FeatureMapBase.GetJ r =? kInvalidJ)
                  then FeatureMapBase.RenumberJs rn r else Some r) =
                 Some (renumbered_record rn r)).
    { unfold renumbered_record. destruct (FeatureMapBase.GetJ r =? kInvalidJ) eqn:EJ; [done|].
      apply N.eqb_neq in EJ. simpl. unfold FeatureMapBase.RenumberJs, vget.
      destruct (lookup_lt_is_Some_2 _ _ (Hj EJ)) as [n En]. by rewrite En. }
    rewrite E1. cbn [mbind option_bind].
    assert (Hkey : FeatureMapBase.GetFeature (renumbered_record rn r) =
                   FeatureMapBase.GetFeature r).
    { unfold renumbered_record. by destruct (_ =? _). }
    simpl in Hnd. apply NoDup_app in Hnd as (Hacc & Hdisj & Hrest).
    apply NoDup_cons in Hrest as [Hfresh Hrest].
    rewrite Set__fresh; last first.
    { rewrite Hkey. intros Hin. apply (Hdisj _ Hin). apply list_elem_of_here. }
    rewrite Hkey.
    assert (HJ : entry_J (renumbered_entry rn (FeatureMapBase.GetFeature r, Some r)) =
                 FeatureMapBase.GetJ (renumbered_record rn r)) by done.
    rewrite HJ in Hc |- *.
    destruct (decide (FeatureMapBase.GetJ (renumbered_record rn r) <> kInvalidJ))
      as [Hvalid|Hinvalid].
    + assert (Hb : negb (FeatureMapBase.GetJ (renumbered_record rn r) =? kInvalidJ) = true)
        by (by apply negb_true_iff, N.eqb_neq).
      rewrite Hb. simpl length in Hc |- *.
      rewrite to_uint32_small by (unfold kInvalidJ, uint32_modulus in *; lia).
      rewrite IH.
      * rewrite <- (assoc_L (++)). simpl. do 2 f_equal. lia.
      * done.
      * rewrite fmap_app. simpl. rewrite <- (assoc_L (++)). simpl.
        apply NoDup_app. split; [done|]. split; [|by apply NoDup_cons].
        done.
      * lia.
    + assert (Hb : negb (FeatureMapBase.GetJ (renumbered_record rn r) =? kInvalidJ) = false).
      { apply negb_false_iff, N.eqb_eq. by apply dec_stable. }
      rewrite Hb. rewrite IH.
      * by rewrite <- (assoc_L (++)).
      * done.
      * rewrite fmap_app. simpl. rewrite <- (assoc_L (++)). simpl.
        apply NoDup_app. split; [done|]. split; [|by apply NoDup_cons].
        done.
      * done.
Qed.

(** The loop of [SyncJToFeatureMap] over a map without null elements whose
    valid J's are distinct and point at empty slots. *)
Lemma Sync_loop_all m (v : list (option (FeatureMapBase.FeatureAndJ Feature))) c :
  Forall (fun e => e.2 <> None) m ->
  NoDup (entry_J <$> valid_entries m) ->
  (forall e, e ∈ valid_entries m -> v !! N.to_nat (entry_J e) = Some None) ->
  c + N.of_nat (length (valid_entries m)) <= kInvalidJ ->
  exists v',
    FeatureMapBase.Sync_loop m v c =
      Some (v', c + N.of_nat (length (valid_entries m))).
Proof.
  revert v c. induction m as [|[k0 [r0|]] m IH]; intros v c Hm Hnd Hv Hc.
  - exists v. simpl. by rewrite N.add_0_r.
  - apply Forall_cons in Hm as [_ Hm].
    rewrite valid_entries_cons in Hnd, Hv, Hc |- *.
    change (entry_J (k0, Some r0)) with (FeatureMapBase.GetJ r0) in *.
    cbn [FeatureMapBase.Sync_loop].
    destruct (decide (FeatureMapBase.GetJ r0 <> kInvalidJ)) as [Hvalid|Hinvalid].
    + assert (Hb : negb (FeatureMapBase.GetJ r0 =? kInvalidJ) = true)
        by (by apply negb_true_iff, N.eqb_neq).
      rewrite Hb. rewrite fmap_cons in Hnd. apply NoDup_cons in Hnd as [Hfresh Hnd].
      pose proof (Hv _ (list_elem_of_here _ _)) as Hslot.
      change (entry_J (k0, Some r0)) with (FeatureMapBase.GetJ r0) in Hslot.
      unfold vget. rewrite Hslot. cbn [mbind option_bind].
      rewrite bool_decide_eq_true_2 by done. cbn [CHECK mbind option_bind].
      rewrite vset_Some by (by apply lookup_lt_Some in Hslot).
      cbn [mbind option_bind]. simpl length in Hc |- *.
      rewrite to_uint32_small by (unfold kInvalidJ, uint32_modulus in *; lia).
      destruct (IH (<[N.to_nat (FeatureMapBase.GetJ r0) := Some r0]> v) (c + 1))
        as (v' & E); [done|done| |lia|].
      * intros e He. rewrite list_lookup_insert_ne.
        -- apply Hv. by apply list_elem_of_further.
        -- intros Heq. apply Hfresh. apply list_elem_of_fmap. exists e.
           split; [|done]. apply (inj N.to_nat) in Heq. done.
      * exists v'. rewrite E. do 2 f_equal. lia.
    + assert (Hb : negb (FeatureMapBase.GetJ r0 =? kInvalidJ) = false).
      { apply negb_false_iff, N.eqb_eq. by apply dec_stable. }
      rewrite Hb. by apply IH.
  - apply Forall_cons in Hm as [Hnull _]. done.
Qed.


Lemma RemoveAndRenumberJs_nonempty rn s :
  JRenumbering.j_to_new_j rn <> [] ->
  FeatureMapBase.RemoveAndRenumberJs rn s =
  (_ ← CHECK (negb (kInvalidJ =? JRenumbering.next_j rn));
   '(new_map, valid_j_count) ←
      FeatureMapBase.Renumber_loop rn (FeatureMapBase.feature_to_j_ s) [] 0;
   _ ← CHECK (valid_j_count =? JRenumbering.next_j rn);
   FeatureMapBase.SyncJToFeatureMap
     (FeatureMapBase.mk (JRenumbering.next_j rn) new_map false
        (FeatureMapBase.j_to_feature_ s))).
Proof.
  intros Hne. unfold FeatureMapBase.RemoveAndRenumberJs.
  by destruct (JRenumbering.j_to_new_j rn).
Qed.

(** A record that keeps a valid J through the renumbering: its old J is
    valid and kept, and its new J is below [next_j]. *)
Lemma renumbered_valid_inv s (js_to_remove : list bool) rn
    (x : Feature * option (FeatureMapBase.FeatureAndJ Feature)) :
  FeatureMapBase.Inv s ->
  Forall (fun e => e.2 <> None) (FeatureMapBase.feature_to_j_ s) ->
  length js_to_remove = N.to_nat (FeatureMapBase.j_sequence_ s) ->
  compacts js_to_remove rn ->
  x ∈ valid_entries (renumbered_entry rn <$> FeatureMapBase.feature_to_j_ s) ->
  exists k r,
    (k, Some r) ∈ FeatureMapBase.feature_to_j_ s /\
    FeatureMapBase.GetJ r <> kInvalidJ /\
    js_to_remove !! N.to_nat (FeatureMapBase.GetJ r) = Some false /\
    JRenumbering.j_to_new_j rn !! N.to_nat (FeatureMapBase.GetJ r) = Some (entry_J x) /\
    entry_J x < JRenumbering.next_j rn /\
    x = renumbered_entry rn (k, Some r).
Proof.
  intros (Hseq & Hnd & Hkey & Hlt & Hinj & _) Hfull Hlen (Hl & Hrem & Hkept & _) Hx.
  apply list_elem_of_filter in Hx as [Hv Hx].
  apply list_elem_of_fmap in Hx as ([k e] & -> & Hin).
  rewrite Forall_forall in Hfull. pose proof (Hfull _ Hin) as Hsome.
  destruct e as [r|]; [|done]. clear Hsome.
  unfold entry_J, renumbered_entry in Hv |- *. simpl in Hv |- *.
  unfold renumbered_record in Hv |- *.
  destruct (FeatureMapBase.GetJ r =? kInvalidJ) eqn:EJ.
  { apply N.eqb_eq in EJ. done. }
  apply N.eqb_neq in EJ. simpl in Hv |- *.
  pose proof (Hlt k r Hin EJ) as Hbelow.
  destruct (lookup_lt_is_Some_2 js_to_remove (N.to_nat (FeatureMapBase.GetJ r)))
    as [b Eb]; [lia|].
  destruct b.
  - rewrite (Hrem _ Eb) in Hv. done.
  - destruct (Hkept _ Eb) as (n & En & Hn & _). rewrite En. simpl.
    exists k, r. repeat (split; [done|]).
    apply N.eqb_neq in EJ. by rewrite EJ, En.
Qed.


(** The valid J's of the renumbered records are the J's below [next_j],
    each once. *)
Lemma renumbered_valid_Js s (js_to_remove : list bool) rn :
  FeatureMapBase.Inv s ->
  FeatureMapBase.j_to_feature_synced_ s = true ->
  Forall (fun e => e.2 <> None) (FeatureMapBase.feature_to_j_ s) ->
  length js_to_remove = N.to_nat (FeatureMapBase.j_sequence_ s) ->
  compacts js_to_remove rn ->
  entry_J <$> valid_entries (renumbered_entry rn <$> FeatureMapBase.feature_to_j_ s)
    ≡ₚ N.of_nat <$> seq 0 (N.to_nat (JRenumbering.next_j rn)).
Proof.
  intros HI Hsynced Hfull Hlen Hcomp.
  pose proof HI as (Hseq & Hnd & Hkey & Hlt & Hinj & Hsy).
  destruct (Hsy Hsynced) as (Hlen_v & _ & Hback).
  pose proof Hcomp as (Hl & Hrem & Hkept & Honto & Hmono).
  apply NoDup_Permutation.
  - apply NoDup_fmap_2_strong.
    + intros x y Hx Hy Heq.
      destruct (renumbered_valid_inv s js_to_remove rn x HI Hfull Hlen Hcomp Hx)
        as (k1 & r1 & Hin1 & Hv1 & Hb1 & Hn1 & _ & ->).
      destruct (renumbered_valid_inv s js_to_remove rn y HI Hfull Hlen Hcomp Hy)
        as (k2 & r2 & Hin2 & Hv2 & Hb2 & Hn2 & _ & ->).
      rewrite <- Heq in Hn2.
      assert (HJ : FeatureMapBase.GetJ r1 = FeatureMapBase.GetJ r2).
      { apply (inj N.to_nat).
        destruct (Nat.lt_trichotomy (N.to_nat (FeatureMapBase.GetJ r1))
                    (N.to_nat (FeatureMapBase.GetJ r2))) as [H|[H|H]]; [|done|].
        - pose proof (Hmono _ _ _ _ H Hb1 Hb2 Hn1 Hn2). lia.
        - pose proof (Hmono _ _ _ _ H Hb2 Hb1 Hn2 Hn1). lia. }
      pose proof (Hinj _ _ _ _ Hin1 Hin2 HJ Hv1) as ->.
      pose proof (elem_of_same_key _ _ _ _ Hnd Hin1 Hin2) as Hr.
      by inversion Hr.
    + apply NoDup_filter. apply (NoDup_fmap_1 fst). by rewrite renumbered_fst.
  - apply NoDup_fmap_2_strong; [|apply NoDup_seq]. intros; lia.
  - intros n. split.
    + intros Hn. apply list_elem_of_fmap in Hn as (x & -> & Hx).
      destruct (renumbered_valid_inv s js_to_remove rn x HI Hfull Hlen Hcomp Hx)
        as (_ & _ & _ & _ & _ & _ & Hbelow & _).
      apply list_elem_of_fmap. exists (N.to_nat (entry_J x)).
      split; [lia|]. apply elem_of_seq. lia.
    + intros Hn. apply list_elem_of_fmap in Hn as (i & -> & Hi).
      apply elem_of_seq in Hi.
      destruct (Honto (N.of_nat i)) as (j & Hbj & Hnj); [lia|].
      pose proof (lookup_lt_Some _ _ _ Hbj) as Hj.
      destruct (Hback j) as (r & _ & HJr & Hin); [lia|].
      destruct (Hkept j Hbj) as (n' & Hn' & _ & Hvalid).
      rewrite Hnj in Hn'. inversion Hn'; subst n'.
      assert (HrJ : FeatureMapBase.GetJ r <> kInvalidJ) by (rewrite HJr; lia).
      apply list_elem_of_fmap.
      exists (renumbered_entry rn (FeatureMapBase.GetFeature r, Some r)).
      assert (HE : entry_J (renumbered_entry rn (FeatureMapBase.GetFeature r, Some r)) =
                   N.of_nat i).
      { unfold entry_J, renumbered_entry, renumbered_record. simpl.
        apply N.eqb_neq in HrJ. rewrite HrJ. simpl.
        by rewrite HJr, Nat2N.id, Hnj. }
      split; [done|]. apply list_elem_of_filter. split; [by rewrite HE|].
      by apply list_elem_of_fmap_2.
Qed.

(** The renumbering that pruning builds, applied to a synced map in which
    every key holds a record: [RemoveAndRenumberJs] passes its [CHECK]s,
    the map has [next_j] J's afterwards and is synced; a key with a valid J
    is looked up to the new J of its old J, which is [kInvalidJ] when the J
    was removed, and the new J leads back to the key; a removed key stays
    removed. *)
Theorem FeatureMap_RemoveAndRenumberJs_lookups s (js_to_remove : list bool) rn :
  FeatureMapBase.reachable s ->
  FeatureMapBase.j_to_feature_synced_ s = true ->
  Forall (fun e => e.2 <> None) (FeatureMapBase.feature_to_j_ s) ->
  length js_to_remove = N.to_nat (FeatureMapBase.Size s) ->
  FeatureMapBase.Size s < kInvalidJ ->
  JRenumbering.RemoveJs js_to_remove = Some rn ->
  exists s',
    FeatureMapBase.RemoveAndRenumberJs rn s = Some s' /\
    FeatureMapBase.Size s' = JRenumbering.next_j rn /\
    FeatureMapBase.j_to_feature_synced_ s' = true /\
    forall k,
      ((FeatureMapBase.FeatureToJConst k s).1 = kInvalidJ ->
       (FeatureMapBase.FeatureToJConst k s').1 = kInvalidJ) /\
      ((FeatureMapBase.FeatureToJConst k s).1 <> kInvalidJ ->
       JRenumbering.j_to_new_j rn !! N.to_nat (FeatureMapBase.FeatureToJConst k s).1 =
         Some (FeatureMapBase.FeatureToJConst k s').1 /\
       ((FeatureMapBase.FeatureToJConst k s').1 <> kInvalidJ ->
        FeatureMapBase.JToFeature (FeatureMapBase.FeatureToJConst k s').1 s' = Some k)).
Proof.
  intros HI%reachable_Inv Hsynced Hfull HlenS Hroom Ern.
  pose proof HI as (Hseq & Hnd & Hkey & Hlt & Hinj & Hsy).
  assert (HSize : FeatureMapBase.Size s = FeatureMapBase.j_sequence_ s).
  { unfold FeatureMapBase.Size. apply to_uint32_small.
    unfold kInvalidJ, uint32_modulus in *. lia. }
  pose proof HlenS as Hlen. rewrite HSize in Hlen, Hroom.
  assert (Hbs : N.of_nat (length js_to_remove) <= kInvalidJ) by lia.
  pose proof (RemoveJs_compacts _ _ Hbs Ern) as Hcomp.
  pose proof Hcomp as (Hl & Hrem & Hkept & Honto & Hmono).
  assert (Hnext : JRenumbering.next_j rn <= N.of_nat (length js_to_remove)).
  { destruct (RemoveJs_spec js_to_remove Hbs) as (r' & E' & Hn & _).
    rewrite Ern in E'. inversion E'; subst r'. rewrite Hn.
    apply count_kept_le_length. }
  set (m := FeatureMapBase.feature_to_j_ s) in *.
  assert (Hold : forall k r, FeatureMapBase.find m k = Some (Some r) ->
            FeatureMapBase.GetJ r <> kInvalidJ ->
            (N.to_nat (FeatureMapBase.GetJ r) < length js_to_remove)%nat).
  { intros k r Ef Hv. apply find_elem_of in Ef.
    pose proof (Hlt k r Ef Hv). lia. }
  destruct (decide (js_to_remove = [])) as [->|Hnonempty].
  { (* nothing to renumber: the map has no J *)
    vm_compute in Ern. inversion Ern; subst rn. exists s.
    split; [done|]. split; [simpl in *; lia|]. split; [done|].
    intros k. split; [done|]. intros Hv. exfalso.
    rewrite FeatureToJConst_J in Hv. fold m in Hv.
    destruct (FeatureMapBase.find m k) as [[r|]|] eqn:Ef; [|done..].
    pose proof (Hold k r Ef Hv). simpl in *. lia. }
  assert (Hpos : (0 < length js_to_remove)%nat).
  { destruct js_to_remove; [done|simpl; lia]. }
  pose proof (renumbered_valid_Js s js_to_remove rn HI Hsynced Hfull Hlen Hcomp) as Hperm.
  fold m in Hperm.
  set (new_map := renumbered_entry rn <$> m) in *.
  assert (Hcount : N.of_nat (length (valid_entries new_map)) = JRenumbering.next_j rn).
  { pose proof (Permutation_length Hperm) as HL.
    rewrite !length_fmap, length_seq in HL. lia. }
  assert (Hloop : FeatureMapBase.Renumber_loop rn m [] 0 =
                  Some (new_map, JRenumbering.next_j rn)).
  { rewrite (Renumber_loop_all rn m [] 0).
    - fold new_map. by rewrite N.add_0_l, Hcount.
    - apply Forall_forall. intros [k e] Hin.
      rewrite Forall_forall in Hfull. pose proof (Hfull _ Hin) as Hsome.
      destruct e as [r|]; [|done]. exists r. split; [done|].
      split; [by apply (Hkey k r)|]. intros Hv. rewrite Hl.
      pose proof (Hlt k r Hin Hv). lia.
    - done.
    - fold new_map. lia. }
  destruct (Sync_loop_all new_map
              (replicate (N.to_nat (JRenumbering.next_j rn)) None) 0)
    as (v' & Ev').
  { apply Forall_forall. intros e He.
    apply list_elem_of_fmap in He as ([k e0] & -> & Hin).
    rewrite Forall_forall in Hfull. pose proof (Hfull _ Hin) as Hsome.
    by destruct e0. }
  { rewrite Hperm. apply NoDup_fmap_2_strong; [|apply NoDup_seq]. intros; lia. }
  { intros e He. apply lookup_replicate_2.
    assert (Hin : entry_J e ∈ entry_J <$> valid_entries new_map)
      by (by apply list_elem_of_fmap_2).
    rewrite Hperm in Hin. apply list_elem_of_fmap in Hin as (i & -> & Hi).
    apply elem_of_seq in Hi. lia. }
  { lia. }
  rewrite N.add_0_l, Hcount in Ev'.
  assert (Hsmall : to_uint32 (JRenumbering.next_j rn) = JRenumbering.next_j rn).
  { apply to_uint32_small. unfold kInvalidJ, uint32_modulus in *. lia. }
  set (s' := FeatureMapBase.mk (JRenumbering.next_j rn) new_map true v').
  assert (E : FeatureMapBase.RemoveAndRenumberJs rn s = Some s').
  { rewrite RemoveAndRenumberJs_nonempty; last first.
    { intros Hnil. rewrite Hnil in Hl. simpl in Hl. lia. }
    clear Hpos.
    assert (Hne : negb (kInvalidJ =? JRenumbering.next_j rn) = true).
    { apply negb_true_iff, N.eqb_neq. lia. }
    rewrite Hne. cbn [CHECK mbind option_bind]. fold m. rewrite Hloop.
    cbn [mbind option_bind]. rewrite N.eqb_refl. cbn [CHECK mbind option_bind].
    unfold FeatureMapBase.SyncJToFeatureMap.
    cbn [FeatureMapBase.j_to_feature_synced_ FeatureMapBase.j_sequence_
         FeatureMapBase.feature_to_j_].
    rewrite Hsmall.
    assert (Hle : (JRenumbering.next_j rn <=? N.of_nat (length new_map)) = true).
    { apply N.leb_le. rewrite <- Hcount. unfold valid_entries.
      pose proof (length_filter (fun e => entry_J e <> kInvalidJ) new_map). lia. }
    rewrite Hle. cbn [CHECK mbind option_bind]. rewrite Ev'.
    cbn [mbind option_bind]. rewrite N.eqb_refl. done. }
  exists s'. split; [done|]. split; [done|]. split; [done|].
  pose proof (Inv_RemoveAndRenumberJs _ _ _ _ HI HlenS Ern E)
    as (_ & Hnd' & Hkey' & _ & _ & Hsy').
  destruct (Hsy' eq_refl) as (_ & Hfwd' & _).
  intros k. rewrite !FeatureToJConst_J. fold m.
  change (FeatureMapBase.feature_to_j_ s') with new_map.
  rewrite (find_renumbered rn m k : FeatureMapBase.find new_map k = _).
  destruct (FeatureMapBase.find m k) as [[r|]|] eqn:Ef; simpl; [|done..].
  unfold renumbered_record.
  destruct (FeatureMapBase.GetJ r =? kInvalidJ) eqn:EJ.
  { apply N.eqb_eq in EJ. split; [done|]. intros Hv. done. }
  apply N.eqb_neq in EJ. split; [done|]. intros _. simpl.
  destruct (lookup_lt_is_Some_2 (JRenumbering.j_to_new_j rn)
              (N.to_nat (FeatureMapBase.GetJ r))) as [n En].
  { rewrite Hl. by apply (Hold k r). }
  rewrite En. simpl. split; [done|]. intros Hn.
  assert (Hin' : (k, Some (FeatureMapBase.mkFeatureAndJ (FeatureMapBase.GetFeature r) n))
                 ∈ new_map).
  { apply find_elem_of. unfold new_map. rewrite find_renumbered, Ef. simpl.
    unfold renumbered_record. apply N.eqb_neq in EJ. by rewrite EJ, En. }
  pose proof (Hfwd' _ _ Hin' Hn) as Hslot. simpl in Hslot.
  unfold FeatureMapBase.JToFeature, FeatureMapBase.JToFeatureUnsafe, vget. simpl.
  rewrite Hslot. simpl. f_equal. apply (Hkey k r). by apply find_elem_of.
Qed.

End FeatureMapRenumbering.

Lemma FeatureMap_RemoveAndRenumberJs_lookups_witness :
  exists s' : FeatureMap,
    FeatureMapBase.RemoveAndRenumberJs (JRenumbering.mk [kInvalidJ; 0] 1)
      map_with_a_b_synced = Some s' /\
    FeatureMapBase.Size s' = 1 /\
    (FeatureMapBase.FeatureToJConst "a"%string s').1 = kInvalidJ /\
    (FeatureMapBase.FeatureToJConst "b"%string s').1 = 0 /\
    FeatureMapBase.JToFeature 0 s' = Some "b"%string.
Proof.
  assert (Hr : FeatureMapBase.reachable map_with_a_b_synced).
  { eapply (FeatureMapBase.reach_Sync
              (FeatureMapBase.mk 2 (FeatureMapBase.feature_to_j_ map_with_a_b_synced)
                 false [])); [|reflexivity].
    eapply (FeatureMapBase.reach_FeatureToJ map_with_a "b"%string); [|reflexivity].
    eapply (FeatureMapBase.reach_FeatureToJ _ "a"%string);
      [apply FeatureMapBase.reach_empty|reflexivity]. }
  destruct (FeatureMap_RemoveAndRenumberJs_lookups map_with_a_b_synced [true; false]
              (JRenumbering.mk [kInvalidJ; 0] 1) Hr)
    as (s' & E & HS & _ & Hk).
  - reflexivity.
  - repeat constructor; discriminate.
  - reflexivity.
  - reflexivity.
  - reflexivity.
  - exists s'. split; [exact E|]. split; [exact HS|].
    destruct (Hk "a"%string) as [_ Ha]. destruct (Hk "b"%string) as [_ Hb].
    destruct Ha as [Ha _]; [vm_compute; discriminate|].
    destruct Hb as [Hb Hback]; [vm_compute; discriminate|].
    assert (Ea : (FeatureMapBase.FeatureToJConst "a"%string s').1 = kInvalidJ).
    { change (Some kInvalidJ = Some (FeatureMapBase.FeatureToJConst "a"%string s').1) in Ha.
      by inversion Ha. }
    assert (Eb : (FeatureMapBase.FeatureToJConst "b"%string s').1 = 0).
    { change (Some 0 = Some (FeatureMapBase.FeatureToJConst "b"%string s').1) in Hb.
      by inversion Hb. }
    split; [exact Ea|]. split; [exact Eb|].
    rewrite <- Eb. apply Hback.
    change ((FeatureMapBase.FeatureToJConst "b"%string s').1 <> kInvalidJ).
    rewrite Eb. discriminate.
Defined.

(** ** The sum of the majorizers of the threads *)

Lemma for_each_concat {A B S} (body : A -> S -> option S) (f : B -> list A)
    (xs : list B) (s : S) :
  for_each (fun x s => for_each body (f x) s) xs s =
  for_each body (concat (f <$> xs)) s.
Proof.
  revert s. induction xs as [|x xs IH]; intros s; [done|].
  rewrite fmap_cons. cbn [for_each concat].
  rewrite for_each_app. destruct (for_each body (f x) s) as [s1|]; simpl; [apply IH|done].
Qed.

Lemma Qsum_cons (x : Q) (l : list Q) : Qsum (x :: l) = (x + Qsum l)%Q.
Proof. done. Qed.

Section ColumnSums.
Variable majorizers : list Majorizer.t.
Variable n : nat.
Hypothesis majorizers_sized :
  Forall (fun m => length (Majorizer.of_j_ m) = n) majorizers.

(** The coordinate [j] after the inner loop of [SumAndAssign]. *)
Lemma Add_loop (ms : list Majorizer.t) (v : list Dim1Majorizer) (j : nat)
    (cur : Dim1Majorizer) :
  Forall (fun m => length (Majorizer.of_j_ m) = n) ms ->
  (j < n)%nat ->
  v !! j = Some cur ->
  exists d,
    for_each (fun m v =>
                cur ← vget v (N.of_nat j);
                that ← vget (Majorizer.of_j_ m) (N.of_nat j);
                vset v (N.of_nat j) (Dim1Majorizer_Add no_rounding cur that)) ms v =
      Some (<[j := d]> v) /\
    (a_ d == a_ cur + column_sum a_ ms j)%Q /\
    (b_ d == b_ cur + column_sum b_ ms j)%Q.
Proof.
  intros Hms Hj. revert v cur. induction ms as [|m ms IH]; intros v cur Hv.
  - exists cur. simpl. rewrite list_insert_id by done.
    split; [done|]. unfold column_sum, Qsum. simpl. split; ring.
  - apply Forall_cons in Hms as [Hm Hms].
    destruct (lookup_lt_is_Some_2 (Majorizer.of_j_ m) j) as [that Ethat]; [lia|].
    pose proof (lookup_lt_Some _ _ _ Hv) as Hlen.
    cbn [for_each]. rewrite !vget_lookup, Hv, Ethat. cbn [mbind option_bind].
    rewrite vset_nat by done. cbn [mbind option_bind].
    destruct (IH Hms (<[j := Dim1Majorizer_Add no_rounding cur that]> v) (Dim1Majorizer_Add no_rounding cur that))
      as (d & E & Ha & Hb).
    { by rewrite list_lookup_insert_eq. }
    exists d. rewrite E, list_insert_insert_eq. split; [done|].
    split.
    + rewrite Ha. unfold column_sum. rewrite fmap_cons, Qsum_cons, Ethat. simpl.
      unfold double_add, no_rounding. ring.
    + rewrite Hb. unfold column_sum. rewrite fmap_cons, Qsum_cons, Ethat. simpl.
      unfold double_add, no_rounding. ring.
Qed.

Lemma SumAndAssign_j_spec (j : nat) (mz : Majorizer.t) :
  length (Majorizer.of_j_ mz) = n ->
  (j < n)%nat ->
  exists d,
    SumAndAssign_j no_rounding majorizers (N.of_nat j) mz =
      Some (Majorizer.mk (<[j := d]> (Majorizer.of_j_ mz)) (Majorizer.log_loss_ mz)
              (Majorizer.cpu_operation_count_flat_materialization_ mz)) /\
    (a_ d == column_sum a_ majorizers j)%Q /\
    (b_ d == column_sum b_ majorizers j)%Q.
Proof.
  intros Hlen Hj. unfold SumAndAssign_j.
  rewrite vset_nat by lia. cbn [mbind option_bind].
  destruct (Add_loop majorizers (<[j := mkDim1Majorizer 0 0]> (Majorizer.of_j_ mz)) j
              (mkDim1Majorizer 0 0) majorizers_sized Hj) as (d & E & Ha & Hb).
  { rewrite list_lookup_insert_eq by lia. done. }
  exists d. rewrite E. cbn [mbind option_bind]. rewrite list_insert_insert_eq.
  split; [done|]. simpl in Ha, Hb. split; [rewrite Ha|rewrite Hb]; ring.
Qed.

(** The loop over the coordinates [js]: each of them holds the sums
    afterwards, the others are untouched. *)
Lemma SumAndAssign_loop (js : list nat) (mz : Majorizer.t) :
  length (Majorizer.of_j_ mz) = n ->
  Forall (fun j => (j < n)%nat) js ->
  exists mz',
    for_each (SumAndAssign_j no_rounding majorizers) (N.of_nat <$> js) mz = Some mz' /\
    length (Majorizer.of_j_ mz') = n /\
    Majorizer.log_loss_ mz' = Majorizer.log_loss_ mz /\
    (forall j, j ∈ js ->
       exists d, Majorizer.of_j_ mz' !! j = Some d /\
                 (a_ d == column_sum a_ majorizers j)%Q /\
                 (b_ d == column_sum b_ majorizers j)%Q) /\
    (forall j, j ∉ js -> Majorizer.of_j_ mz' !! j = Majorizer.of_j_ mz !! j).
Proof.
  revert mz. induction js as [|j0 js IH]; intros mz Hlen Hjs.
  - exists mz. split; [done|]. split; [done|]. split; [done|].
    split; [|done]. intros j Hj. by apply elem_of_nil in Hj.
  - apply Forall_cons in Hjs as [Hj0 Hjs].
    destruct (SumAndAssign_j_spec j0 mz Hlen Hj0) as (d0 & E0 & Ha0 & Hb0).
    destruct (IH (Majorizer.mk (<[j0 := d0]> (Majorizer.of_j_ mz)) (Majorizer.log_loss_ mz)
                    (Majorizer.cpu_operation_count_flat_materialization_ mz)))
      as (mz' & E & Hlen' & Hll & Hin & Hout); [simpl; by rewrite length_insert|done|].
    exists mz'. split.
    { rewrite fmap_cons. cbn [for_each]. rewrite E0. cbn [mbind option_bind]. done. }
    split; [done|]. split; [done|]. split.
    + intros j Hj. destruct (decide (j ∈ js)) as [Hjs'|Hjs']; [by apply Hin|].
      apply elem_of_cons in Hj as [->|Hj]; [|done].
      exists d0. rewrite (Hout j0 Hjs'). simpl.
      rewrite list_lookup_insert_eq by lia. done.
    + intros j Hj. apply not_elem_of_cons in Hj as [Hne Hj].
      rewrite (Hout j Hj). simpl. by rewrite list_lookup_insert_ne.
Qed.

Lemma SumStats_log_loss (ms : list Majorizer.t) (acc : Q * N) :
  ((foldl (fun (acc : Q * N) m =>
             (double_add no_rounding acc.1 (Majorizer.log_loss_ m),
              to_uint64 (acc.2 + Majorizer.cpu_operation_count_flat_materialization_ m)))
          acc ms).1 == acc.1 + Qsum (Majorizer.log_loss_ <$> ms))%Q.
Proof.
  revert acc. induction ms as [|m ms IH]; intros acc.
  - simpl. unfold Qsum. simpl. ring.
  - cbn [foldl]. rewrite IH. rewrite fmap_cons, Qsum_cons. simpl.
    unfold double_add, no_rounding. ring.
Qed.

End ColumnSums.

(** [ParallelProcessColumns] over majorizers of the size of the model: the
    ranges of [SplitEvenly] cover every coordinate, so every coordinate of
    the result holds the sums of the [a_] and of the [b_] of that coordinate
    over the majorizers of the threads, and its log loss is the sum of
    theirs.  The sums are taken without rounding. *)
Theorem ParallelProcessColumns_sums (thread_majorizers : list Majorizer.t)
    (n : nat) (majorizer : Majorizer.t) :
  N.of_nat n <= kInvalidJ ->
  length (Majorizer.of_j_ majorizer) = n ->
  Forall (fun m => length (Majorizer.of_j_ m) = n) thread_majorizers ->
  exists mz,
    ParallelProcessColumns no_rounding thread_majorizers (N.of_nat n) majorizer = Some mz /\
    length (Majorizer.of_j_ mz) = n /\
    (forall j, (j < n)%nat ->
       exists d, Majorizer.of_j_ mz !! j = Some d /\
                 (a_ d == column_sum a_ thread_majorizers j)%Q /\
                 (b_ d == column_sum b_ thread_majorizers j)%Q) /\
    (Majorizer.log_loss_ mz == Qsum (Majorizer.log_loss_ <$> thread_majorizers))%Q.
Proof.
  intros Hn Hlen Hms. unfold ParallelProcessColumns.
  rewrite to_uint32_small by (unfold kInvalidJ, uint32_modulus in *; lia).
  destruct (SplitEvenly_parts (N.of_nat n) kThreadCount Hn) as (parts & E & _ & Hcat & _).
  { vm_compute. discriminate. }
  rewrite E. cbn [mbind option_bind].
  assert (Hloop : for_each (fun range mz => SumAndAssign no_rounding range thread_majorizers mz)
                    parts majorizer =
                  for_each (SumAndAssign_j no_rounding thread_majorizers)
                    (N.of_nat <$> seq 0 n) majorizer).
  { unfold SumAndAssign.
    rewrite (for_each_concat (SumAndAssign_j no_rounding thread_majorizers) Range.values).
    rewrite Hcat by reflexivity. unfold Range.upto.
    rewrite (values_interval 0 (N.of_nat n)) by (done || lia).
    by rewrite N.sub_0_r, Nat2N.id. }
  rewrite Hloop.
  destruct (SumAndAssign_loop thread_majorizers n Hms (seq 0 n) majorizer Hlen)
    as (mz & E' & Hlen' & Hll & Hin & _).
  { apply Forall_forall. intros j Hj. apply elem_of_seq in Hj. lia. }
  rewrite E'. cbn [mbind option_bind]. eexists. split; [done|].
  split; [done|]. split.
  - intros j Hj. apply Hin. apply elem_of_seq. lia.
  - unfold SumStatsAndAssign. cbn [Majorizer.log_loss_].
    rewrite SumStats_log_loss. simpl. ring.
Qed.

Lemma ParallelProcessColumns_sums_witness :
  exists mz,
    ParallelProcessColumns no_rounding thread_majorizers_two 5
      (Majorizer.mk (replicate 5 (mkDim1Majorizer 7 7)) 0 0) = Some mz /\
    length (Majorizer.of_j_ mz) = 5%nat /\
    (exists d, Majorizer.of_j_ mz !! 4%nat = Some d /\ (a_ d == 11)%Q /\ (b_ d == 22)%Q) /\
    (Majorizer.log_loss_ mz == 33)%Q.
Proof.
  destruct (ParallelProcessColumns_sums thread_majorizers_two 5
              (Majorizer.mk (replicate 5 (mkDim1Majorizer 7 7)) 0 0))
    as (mz & E & Hlen & Hj & Hll).
  - vm_compute. discriminate.
  - reflexivity.
  - repeat constructor.
  - exists mz. split; [exact E|]. split; [exact Hlen|]. split.
    + destruct (Hj 4%nat) as (d & Ed & Ha & Hb); [lia|].
      exists d. split; [exact Ed|]. split.
      * rewrite Ha. reflexivity.
      * rewrite Hb. reflexivity.
    + rewrite Hll. reflexivity.
Defined.
(** ** GradBoost: a pass that undoes *)

Section PassFacts.
Variable fl : Q -> Q.
Variable sqrt : Q -> Q.
Variable exp : Q -> Q.
Variable log : Q -> Q.

(** On a synced model [SyncModelWithWeights] does nothing. *)
Lemma SyncModelWithWeights_synced (regularizations : Regularizations) (data : Data.t)
    (g : GradBoost.t) (model : Model.t) (per_shards : PerShards) :
  Model.synced_with_weights model = true ->
  GradBoost_SyncModelWithWeights fl sqrt exp log regularizations data
                                 (g, model, per_shards) =
    Some (g, model, per_shards).
Proof.
  intros Hsynced. unfold GradBoost_SyncModelWithWeights. cbn [CHECK mbind option_bind].
  change (FixedSizeObjectPool.NumGrabbed (FixedSizeObjectPool.new kThreadCount) =? 0)
    with true.
  cbn [CHECK mbind option_bind]. by rewrite Hsynced.
Qed.


End PassFacts.



